(** * SpinEscape: the simulation core of [www/js/game.js]

    A shallow embedding of the rotor ([Player]), the projectile pool
    ([ProjectilePool]), the collision scan, the scoring rules and the frame
    clock of [GameEngine], with the properties the specification states about
    them.

    Number model.  JavaScript numbers are IEEE-754 doubles.  Here
    - counters that only ever hold integers ([combo], [comboMultiplier],
      [score], [gameCount]) are integers [Z];
    - every continuous quantity (angles, positions, velocities, times) is an
      exact real [R], with [Math.PI] the real [PI], [Math.sqrt] the real
      square root and [Math.atan2] the two-argument arctangent on reals.
    Rounding, NaN, infinities and signed zeros are therefore outside the
    model: the theorems describe the arithmetic the code is written to
    perform, and module [DoubleScore] checks on IEEE doubles that the one
    place where a result is floored gives the same integers.

    Object identity.  Projectiles are mutable objects shared between the
    pool's two arrays and the loops that walk them.  An object is its index
    in the pool's allocation table [objs]; arrays hold indices. *)

From Stdlib Require Import Reals Lra Lia ZArith.
From Stdlib Require PrimFloat FloatOps SpecFloat Uint63.
From stdpp Require Import base option list strings gmap.

Local Open Scope R_scope.

(** ** JavaScript comparison operators on numbers *)

#[global] Instance Rlt_decision (a b : R) : Decision (a < b) := Rlt_dec a b.
#[global] Instance Rle_decision (a b : R) : Decision (a <= b) := Rle_dec a b.
#[global] Instance Rgt_decision (a b : R) : Decision (a > b) := Rgt_dec a b.
#[global] Instance Rge_decision (a b : R) : Decision (a >= b) := Rge_dec a b.

Definition Rltb (a b : R) : bool := bool_decide (a < b).
Definition Rleb (a b : R) : bool := bool_decide (a <= b).
Definition Rgtb (a b : R) : bool := bool_decide (a > b).
Definition Rgeb (a b : R) : bool := bool_decide (a >= b).

Infix "<?" := Rltb (at level 70, no associativity) : R_scope.
Infix "<=?" := Rleb (at level 70, no associativity) : R_scope.
Infix ">?" := Rgtb (at level 70, no associativity) : R_scope.
Infix ">=?" := Rgeb (at level 70, no associativity) : R_scope.

(** ** [while] loops

    [while_fuel cond body n s] runs [while (cond) body] from [s] for at most
    [n] iterations; [None] means the loop needed more. *)

Fixpoint while_fuel {S : Type} (cond : S -> bool) (body : S -> S)
    (fuel : nat) (s : S) : option S :=
  if cond s then
    match fuel with
    | O => None
    | Datatypes.S n => while_fuel cond body n (body s)
    end
  else Some s.

(** The angle loops of the source add or subtract a full turn until the
    value is back in range; from [a] they need at most [|a| / 2PI] rounded
    up iterations, which is the fuel [run_while] gives them.  Lemmas
    [run_while_add], [run_while_sub_gt] and [run_while_sub_ge] show that this
    fuel always suffices, so [run_while] is the loop itself. *)

Definition angle_fuel (a : R) : nat := Z.to_nat (up (Rabs a / (PI * 2))).

Definition run_while (cond : R -> bool) (body : R -> R) (a : R) : R :=
  default a (while_fuel cond body (angle_fuel a) a).

(** ** [Math.atan2] on reals *)

Definition atan2 (y x : R) : R :=
  if x >? 0 then atan (y / x)
  else if x <? 0 then
    if y >=? 0 then atan (y / x) + PI else atan (y / x) - PI
  else if y >? 0 then PI / 2
  else if y <? 0 then - (PI / 2)
  else 0.

(** ** Player (the rotor) *)

Record Player := mkPlayer {
  pl_x : R;
  pl_y : R;
  pl_radius : R;
  pl_angle : R;
  rotationSpeed : R;
  maxRotationSpeed : R;
  rotationAcceleration : R;
  hitFlash : R;
  gapCount : Z;
  gapSize : R;
  solidSize : R;
  gaps : list (R * R)
}.

(** [constructor(x, y)]; the loop [for (i = 0; i < gapCount; i++)] pushes one
    [[gapStart, gapEnd]] pair per index. *)

Definition Player_gaps (gapCount : Z) (gapSize : R) : list (R * R) :=
  (fun i : Z =>
     let gapStart := (PI * 2 / IZR gapCount) * IZR i in
     let gapEnd := gapStart + gapSize in
     (gapStart, gapEnd)) <$> seqZ 0 gapCount.

Definition Player_new (x y : R) : Player :=
  let gapCount := 4%Z in
  let gapSize := PI / 4 in
  {| pl_x := x;
     pl_y := y;
     pl_radius := 30;
     pl_angle := 0;
     rotationSpeed := 0;
     maxRotationSpeed := 5;
     rotationAcceleration := 15;
     hitFlash := 0;
     gapCount := gapCount;
     gapSize := gapSize;
     solidSize := (PI * 2 - IZR gapCount * gapSize) / IZR gapCount;
     gaps := Player_gaps gapCount gapSize |}.

(** The [for ... of this.gaps] loop of [isSolidAtAngle]: [false] as soon as
    one gap contains [relativeAngle], [true] after the last gap. *)

Fixpoint solid_outside_gaps (relativeAngle : R) (gs : list (R * R)) : bool :=
  match gs with
  | [] => true
  | (gapStart, gapEnd) :: rest =>
      if gapEnd >? PI * 2 then
        if (relativeAngle >=? gapStart) || (relativeAngle <=? gapEnd - PI * 2)
        then false
        else solid_outside_gaps relativeAngle rest
      else
        if (relativeAngle >=? gapStart) && (relativeAngle <? gapEnd)
        then false
        else solid_outside_gaps relativeAngle rest
  end.

Definition relativeAngle_of (p : Player) (worldAngle : R) : R :=
  let relativeAngle := worldAngle - pl_angle p in
  let relativeAngle :=
    run_while (fun a => a <? 0) (fun a => a + PI * 2) relativeAngle in
  let relativeAngle :=
    run_while (fun a => a >=? PI * 2) (fun a => a - PI * 2) relativeAngle in
  relativeAngle.

Definition isSolidAtAngle (p : Player) (worldAngle : R) : bool :=
  solid_outside_gaps (relativeAngle_of p worldAngle) (gaps p).

(** [update(deltaTime, inputManager)]; [touch] is what
    [inputManager.getPrimaryTouch()] returns ([None] for [null]). *)

Definition Player_update (deltaTime : R) (touch : option (R * R)) (p : Player)
    : Player :=
  let rotationSpeed' :=
    match touch with
    | Some (touch_x, touch_y) =>
        let dx := touch_x - pl_x p in
        let dy := touch_y - pl_y p in
        let targetAngle := atan2 dy dx in
        let angleDiff := targetAngle - pl_angle p in
        let angleDiff :=
          run_while (fun a => a >? PI) (fun a => a - PI * 2) angleDiff in
        let angleDiff :=
          run_while (fun a => a <? - PI) (fun a => a + PI * 2) angleDiff in
        let rotationDirection := if angleDiff >? 0 then 1 else -1 in
        Rmin (Rabs angleDiff * rotationAcceleration p) (maxRotationSpeed p)
        * rotationDirection
    | None =>
        let s := rotationSpeed p * (9 / 10) in
        if Rabs s <? 1 / 10 then 0 else s
    end in
  let angle' := pl_angle p + rotationSpeed' * deltaTime in
  let angle' := run_while (fun a => a >? PI * 2) (fun a => a - PI * 2) angle' in
  let angle' := run_while (fun a => a <? 0) (fun a => a + PI * 2) angle' in
  let hitFlash' :=
    if hitFlash p >? 0 then hitFlash p - deltaTime else hitFlash p in
  {| pl_x := pl_x p;
     pl_y := pl_y p;
     pl_radius := pl_radius p;
     pl_angle := angle';
     rotationSpeed := rotationSpeed';
     maxRotationSpeed := maxRotationSpeed p;
     rotationAcceleration := rotationAcceleration p;
     hitFlash := hitFlash';
     gapCount := gapCount p;
     gapSize := gapSize p;
     solidSize := solidSize p;
     gaps := gaps p |}.

Definition triggerHitFlash (p : Player) : Player :=
  {| pl_x := pl_x p;
     pl_y := pl_y p;
     pl_radius := pl_radius p;
     pl_angle := pl_angle p;
     rotationSpeed := rotationSpeed p;
     maxRotationSpeed := maxRotationSpeed p;
     rotationAcceleration := rotationAcceleration p;
     hitFlash := 2 / 10;
     gapCount := gapCount p;
     gapSize := gapSize p;
     solidSize := solidSize p;
     gaps := gaps p |}.

(** ** Playfield and game states *)

Definition GAME_WIDTH : R := 800.
Definition GAME_HEIGHT : R := 1280.

Inductive GameState :=
  | MENU | PLAYING | PAUSED | GAME_OVER | LEVEL_UP | SETTINGS | HOW_TO_PLAY.

(** ** Projectile

    The [color] string, used only for drawing, is left out. *)

Record Projectile := mkProjectile {
  pr_x : R;
  pr_y : R;
  targetX : R;
  targetY : R;
  pr_radius : R;
  speed : R;
  pr_active : bool;
  dodged : bool;
  spawnTime : R;
  vx : R;
  vy : R
}.

(** [reset(x, y, targetX, targetY, speed)] assigns every field, so the
    result does not depend on the object's previous contents; [now] is the
    value [performance.now()] returns inside it. *)

Definition Projectile_reset (now x y targetX targetY speed : R) : Projectile :=
  let dx := targetX - x in
  let dy := targetY - y in
  let distance := sqrt (dx * dx + dy * dy) in
  {| pr_x := x;
     pr_y := y;
     targetX := targetX;
     targetY := targetY;
     pr_radius := 12;
     speed := speed;
     pr_active := true;
     dodged := false;
     spawnTime := now;
     vx := if distance >? 0 then dx / distance * speed else 0;
     vy := if distance >? 0 then dy / distance * speed else 0 |}.

Definition Projectile_new (now : R) : Projectile :=
  Projectile_reset now 0 0 0 0 0.

#[global] Instance Projectile_inhabited : Inhabited Projectile :=
  populate (Projectile_new 0).

Definition set_pr_active (v : bool) (o : Projectile) : Projectile :=
  mkProjectile (pr_x o) (pr_y o) (targetX o) (targetY o) (pr_radius o)
    (speed o) v (dodged o) (spawnTime o) (vx o) (vy o).

Definition set_dodged (v : bool) (o : Projectile) : Projectile :=
  mkProjectile (pr_x o) (pr_y o) (targetX o) (targetY o) (pr_radius o)
    (speed o) (pr_active o) v (spawnTime o) (vx o) (vy o).

Definition set_pr_x (v : R) (o : Projectile) : Projectile :=
  mkProjectile v (pr_y o) (targetX o) (targetY o) (pr_radius o)
    (speed o) (pr_active o) (dodged o) (spawnTime o) (vx o) (vy o).

Definition set_pr_y (v : R) (o : Projectile) : Projectile :=
  mkProjectile (pr_x o) v (targetX o) (targetY o) (pr_radius o)
    (speed o) (pr_active o) (dodged o) (spawnTime o) (vx o) (vy o).

(** The off-screen test shared by [Projectile.update] and
    [GameEngine.updateProjectiles]. *)

Definition off_screen (o : Projectile) : bool :=
  (pr_x o <? -50) || (pr_x o >? GAME_WIDTH + 50)
  || (pr_y o <? -50) || (pr_y o >? GAME_HEIGHT + 50).

Definition Projectile_update (deltaTime : R) (o : Projectile) : Projectile :=
  if negb (pr_active o) then o
  else if off_screen o then set_pr_active false o
  else o.

(** ** ProjectilePool

    [objs] is the allocation table: [objs !! i] is the current content of
    the [i]-th [Projectile] the pool has created with [new Projectile()].
    [pool] (the free list) and [active] are the two JavaScript arrays; they
    hold object identities, i.e. indices into [objs]. *)

Record ProjectilePool := mkPool {
  objs : list Projectile;
  pool : list nat;
  active : list nat;
  initialSize : nat
}.

(** [constructor(initialSize)] with [initialize()]: [now i] is the clock
    sample inside the [i]-th [new Projectile()]. *)

Definition ProjectilePool_new (now : nat -> R) (initialSize : nat)
    : ProjectilePool :=
  {| objs := (fun i => Projectile_new (now i)) <$> seq 0 initialSize;
     pool := seq 0 initialSize;
     active := [];
     initialSize := initialSize |}.

(** [Array.prototype.pop]: the last element and the array without it. *)

Definition array_pop {A : Type} (l : list A) : option (A * list A) :=
  match last l with
  | Some a => Some (a, removelast l)
  | None => None
  end.

(** [acquire(x, y, targetX, targetY, speed)] returns the projectile and the
    pool after the call. *)

Definition acquire (now x y targetX targetY speed : R) (P : ProjectilePool)
    : nat * ProjectilePool :=
  let '(projectile, objs1, pool1) :=
    match array_pop (pool P) with
    | Some (projectile, rest) =>
        (* reuse existing projectile from pool *)
        (projectile, objs P, rest)
    | None =>
        (* new Projectile() *)
        (length (objs P), objs P ++ [Projectile_new now], pool P)
    end in
  let objs2 :=
    <[projectile := Projectile_reset now x y targetX targetY speed]> objs1 in
  (projectile,
   {| objs := objs2;
      pool := pool1;
      active := active P ++ [projectile];
      initialSize := initialSize P |}).

(** [release(projectile)]: [list_find] is [indexOf], [delete] is
    [splice(index, 1)]. *)

Definition release (projectile : nat) (P : ProjectilePool) : ProjectilePool :=
  match list_find (fun i => i = projectile) (active P) with
  | Some (index, _) =>
      {| objs := alter (set_pr_active false) projectile (objs P);
         pool := pool P ++ [projectile];
         active := delete index (active P);
         initialSize := initialSize P |}
  | None => P
  end.

(** [clear()]: [while (this.active.length > 0) this.release(this.active[0])].
    Every iteration removes the head of [active], so the length of [active]
    is enough fuel. *)

Fixpoint clear_loop (fuel : nat) (P : ProjectilePool) : ProjectilePool :=
  match active P, fuel with
  | first :: _, Datatypes.S n => clear_loop n (release first P)
  | _, _ => P
  end.

Definition clear (P : ProjectilePool) : ProjectilePool :=
  clear_loop (length (active P)) P.

Definition getActiveCount (P : ProjectilePool) : nat := length (active P).
Definition getPoolSize (P : ProjectilePool) : nat := length (pool P).

(** ** Physics: the collision grid

    A grid cell is keyed in the source by the string ["cellX,cellY"]; the
    key here is the pair of integers.  A cell lists object references; the
    rotor is an object too. *)

Inductive ObjRef :=
  | OPlayer
  | OProjectile (i : nat).

#[global] Instance ObjRef_eq_dec : EqDecision ObjRef.
Proof. solve_decision. Defined.

Record Physics := mkPhysics {
  gravity : R;
  gridSize : R;
  grid : gmap (Z * Z) (list ObjRef)
}.

Definition Physics_new : Physics :=
  {| gravity := 0; gridSize := 200; grid := ∅ |}.

Record Box := mkBox {
  box_left : R;
  box_right : R;
  box_top : R;
  box_bottom : R
}.

(** [getBoundingBox(obj)] for an object with a [radius]. *)

Definition getBoundingBox (x y radius : R) : Box :=
  {| box_left := x - radius;
     box_right := x + radius;
     box_top := y - radius;
     box_bottom := y + radius |}.

(** [updateVelocity(object, deltaTime)] on a projectile: a projectile has no
    [friction] field, and [vx], [vy] are always defined. *)

Definition updateVelocity (deltaTime : R) (o : Projectile) : Projectile :=
  let o := set_pr_x (pr_x o + vx o * deltaTime) o in
  set_pr_y (pr_y o + vy o * deltaTime) o.

(** The cells [minCell .. maxCell] of one axis. *)

Definition cell_range (minCell maxCell : Z) : list Z :=
  seqZ minCell (maxCell - minCell + 1).

(** [getNearbyObjects(object)]: [bounds] is [getBoundingBox(object)].  The
    [seen] set of the source holds exactly the elements of [nearby]. *)

Definition getNearbyObjects (ph : Physics) (object : ObjRef) (bounds : Box)
    : list ObjRef :=
  let minCellX := Zfloor (box_left bounds / gridSize ph) in
  let maxCellX := Zfloor (box_right bounds / gridSize ph) in
  let minCellY := Zfloor (box_top bounds / gridSize ph) in
  let maxCellY := Zfloor (box_bottom bounds / gridSize ph) in
  foldl
    (fun nearby cellX =>
       foldl
         (fun nearby cellY =>
            let cellObjects := default [] (grid ph !! (cellX, cellY)) in
            foldl
              (fun nearby obj =>
                 if bool_decide (obj <> object)
                    && bool_decide (obj ∉ nearby)
                 then nearby ++ [obj]
                 else nearby)
              nearby cellObjects)
         nearby (cell_range minCellY maxCellY))
    [] (cell_range minCellX maxCellX).

(** ** GameEngine

    The fields of the engine that the simulation reads or writes.  Left out:
    the collaborators for drawing, sound, vibration, storage and menus
    ([inputManager], [performanceMonitor], [particleSystem],
    [vibrationManager], [dataManager], [themeManager], [assetLoader],
    [animationManager], the menu visuals, high-score tables, achievements)
    and the play-time stamps kept for the statistics.

    [calls] is not a field of the source.  It is a ghost log of the calls of
    the two collision handlers, oldest first, so that a statement can say
    which handler ran for which projectile. *)

Record FloatingScore := mkFloatingScore {
  fs_x : R;
  fs_y : R;
  fs_points : Z;
  life : R;
  maxLife : R;
  velocityY : R;
  alpha : R
}.

Inductive Call :=
  | CallHandleCollision (projectile : nat)
  | CallHandleDodge (projectile : nat).

#[global] Instance Call_eq_dec : EqDecision Call.
Proof. solve_decision. Defined.

Record GameEngine := mkGameEngine {
  currentState : GameState;
  lastTime : R;
  deltaTime : R;
  frameCount : Z;
  projectilePool : ProjectilePool;
  physics : Physics;
  player : option Player;
  score : Z;
  combo : Z;
  comboMultiplier : Z;
  bestComboThisGame : Z;
  projectilesDodgedThisGame : Z;
  gameCount : Z;
  sessionBest : Z;
  floatingScores : list FloatingScore;
  spawnTimer : R;
  baseSpawnRate : R;
  currentSpawnRate : R;
  baseProjectileSpeed : R;
  currentProjectileSpeed : R;
  screenShake : R;
  screenShakeIntensity : R;
  flashEffect : R;
  difficulty : string;
  calls : list Call
}.

Definition set_currentState (v : GameState) (r : GameEngine) : GameEngine :=
  mkGameEngine v (lastTime r) (deltaTime r) (frameCount r) (projectilePool r)
    (physics r) (player r) (score r) (combo r) (comboMultiplier r)
    (bestComboThisGame r) (projectilesDodgedThisGame r) (gameCount r)
    (sessionBest r) (floatingScores r) (spawnTimer r) (baseSpawnRate r)
    (currentSpawnRate r) (baseProjectileSpeed r) (currentProjectileSpeed r)
    (screenShake r) (screenShakeIntensity r) (flashEffect r) (difficulty r)
    (calls r).

Definition set_lastTime (v : R) (r : GameEngine) : GameEngine :=
  mkGameEngine (currentState r) v (deltaTime r) (frameCount r)
    (projectilePool r) (physics r) (player r) (score r) (combo r)
    (comboMultiplier r) (bestComboThisGame r) (projectilesDodgedThisGame r)
    (gameCount r) (sessionBest r) (floatingScores r) (spawnTimer r)
    (baseSpawnRate r) (currentSpawnRate r) (baseProjectileSpeed r)
    (currentProjectileSpeed r) (screenShake r) (screenShakeIntensity r)
    (flashEffect r) (difficulty r) (calls r).

Definition set_deltaTime (v : R) (r : GameEngine) : GameEngine :=
  mkGameEngine (currentState r) (lastTime r) v (frameCount r)
    (projectilePool r) (physics r) (player r) (score r) (combo r)
    (comboMultiplier r) (bestComboThisGame r) (projectilesDodgedThisGame r)
    (gameCount r) (sessionBest r) (floatingScores r) (spawnTimer r)
    (baseSpawnRate r) (currentSpawnRate r) (baseProjectileSpeed r)
    (currentProjectileSpeed r) (screenShake r) (screenShakeIntensity r)
    (flashEffect r) (difficulty r) (calls r).

Definition set_frameCount (v : Z) (r : GameEngine) : GameEngine :=
  mkGameEngine (currentState r) (lastTime r) (deltaTime r) v
    (projectilePool r) (physics r) (player r) (score r) (combo r)
    (comboMultiplier r) (bestComboThisGame r) (projectilesDodgedThisGame r)
    (gameCount r) (sessionBest r) (floatingScores r) (spawnTimer r)
    (baseSpawnRate r) (currentSpawnRate r) (baseProjectileSpeed r)
    (currentProjectileSpeed r) (screenShake r) (screenShakeIntensity r)
    (flashEffect r) (difficulty r) (calls r).

Definition set_projectilePool (v : ProjectilePool) (r : GameEngine) : GameEngine :=
  mkGameEngine (currentState r) (lastTime r) (deltaTime r) (frameCount r) v
    (physics r) (player r) (score r) (combo r) (comboMultiplier r)
    (bestComboThisGame r) (projectilesDodgedThisGame r) (gameCount r)
    (sessionBest r) (floatingScores r) (spawnTimer r) (baseSpawnRate r)
    (currentSpawnRate r) (baseProjectileSpeed r) (currentProjectileSpeed r)
    (screenShake r) (screenShakeIntensity r) (flashEffect r) (difficulty r)
    (calls r).

Definition set_player (v : option Player) (r : GameEngine) : GameEngine :=
  mkGameEngine (currentState r) (lastTime r) (deltaTime r) (frameCount r)
    (projectilePool r) (physics r) v (score r) (combo r) (comboMultiplier r)
    (bestComboThisGame r) (projectilesDodgedThisGame r) (gameCount r)
    (sessionBest r) (floatingScores r) (spawnTimer r) (baseSpawnRate r)
    (currentSpawnRate r) (baseProjectileSpeed r) (currentProjectileSpeed r)
    (screenShake r) (screenShakeIntensity r) (flashEffect r) (difficulty r)
    (calls r).

Definition set_score (v : Z) (r : GameEngine) : GameEngine :=
  mkGameEngine (currentState r) (lastTime r) (deltaTime r) (frameCount r)
    (projectilePool r) (physics r) (player r) v (combo r) (comboMultiplier r)
    (bestComboThisGame r) (projectilesDodgedThisGame r) (gameCount r)
    (sessionBest r) (floatingScores r) (spawnTimer r) (baseSpawnRate r)
    (currentSpawnRate r) (baseProjectileSpeed r) (currentProjectileSpeed r)
    (screenShake r) (screenShakeIntensity r) (flashEffect r) (difficulty r)
    (calls r).

Definition set_combo (v : Z) (r : GameEngine) : GameEngine :=
  mkGameEngine (currentState r) (lastTime r) (deltaTime r) (frameCount r)
    (projectilePool r) (physics r) (player r) (score r) v (comboMultiplier r)
    (bestComboThisGame r) (projectilesDodgedThisGame r) (gameCount r)
    (sessionBest r) (floatingScores r) (spawnTimer r) (baseSpawnRate r)
    (currentSpawnRate r) (baseProjectileSpeed r) (currentProjectileSpeed r)
    (screenShake r) (screenShakeIntensity r) (flashEffect r) (difficulty r)
    (calls r).

Definition set_comboMultiplier (v : Z) (r : GameEngine) : GameEngine :=
  mkGameEngine (currentState r) (lastTime r) (deltaTime r) (frameCount r)
    (projectilePool r) (physics r) (player r) (score r) (combo r) v
    (bestComboThisGame r) (projectilesDodgedThisGame r) (gameCount r)
    (sessionBest r) (floatingScores r) (spawnTimer r) (baseSpawnRate r)
    (currentSpawnRate r) (baseProjectileSpeed r) (currentProjectileSpeed r)
    (screenShake r) (screenShakeIntensity r) (flashEffect r) (difficulty r)
    (calls r).

Definition set_bestComboThisGame (v : Z) (r : GameEngine) : GameEngine :=
  mkGameEngine (currentState r) (lastTime r) (deltaTime r) (frameCount r)
    (projectilePool r) (physics r) (player r) (score r) (combo r)
    (comboMultiplier r) v (projectilesDodgedThisGame r) (gameCount r)
    (sessionBest r) (floatingScores r) (spawnTimer r) (baseSpawnRate r)
    (currentSpawnRate r) (baseProjectileSpeed r) (currentProjectileSpeed r)
    (screenShake r) (screenShakeIntensity r) (flashEffect r) (difficulty r)
    (calls r).

Definition set_projectilesDodgedThisGame (v : Z) (r : GameEngine) : GameEngine :=
  mkGameEngine (currentState r) (lastTime r) (deltaTime r) (frameCount r)
    (projectilePool r) (physics r) (player r) (score r) (combo r)
    (comboMultiplier r) (bestComboThisGame r) v (gameCount r) (sessionBest r)
    (floatingScores r) (spawnTimer r) (baseSpawnRate r) (currentSpawnRate r)
    (baseProjectileSpeed r) (currentProjectileSpeed r) (screenShake r)
    (screenShakeIntensity r) (flashEffect r) (difficulty r) (calls r).

Definition set_gameCount (v : Z) (r : GameEngine) : GameEngine :=
  mkGameEngine (currentState r) (lastTime r) (deltaTime r) (frameCount r)
    (projectilePool r) (physics r) (player r) (score r) (combo r)
    (comboMultiplier r) (bestComboThisGame r) (projectilesDodgedThisGame r) v
    (sessionBest r) (floatingScores r) (spawnTimer r) (baseSpawnRate r)
    (currentSpawnRate r) (baseProjectileSpeed r) (currentProjectileSpeed r)
    (screenShake r) (screenShakeIntensity r) (flashEffect r) (difficulty r)
    (calls r).

Definition set_sessionBest (v : Z) (r : GameEngine) : GameEngine :=
  mkGameEngine (currentState r) (lastTime r) (deltaTime r) (frameCount r)
    (projectilePool r) (physics r) (player r) (score r) (combo r)
    (comboMultiplier r) (bestComboThisGame r) (projectilesDodgedThisGame r)
    (gameCount r) v (floatingScores r) (spawnTimer r) (baseSpawnRate r)
    (currentSpawnRate r) (baseProjectileSpeed r) (currentProjectileSpeed r)
    (screenShake r) (screenShakeIntensity r) (flashEffect r) (difficulty r)
    (calls r).

Definition set_floatingScores (v : list FloatingScore) (r : GameEngine) : GameEngine :=
  mkGameEngine (currentState r) (lastTime r) (deltaTime r) (frameCount r)
    (projectilePool r) (physics r) (player r) (score r) (combo r)
    (comboMultiplier r) (bestComboThisGame r) (projectilesDodgedThisGame r)
    (gameCount r) (sessionBest r) v (spawnTimer r) (baseSpawnRate r)
    (currentSpawnRate r) (baseProjectileSpeed r) (currentProjectileSpeed r)
    (screenShake r) (screenShakeIntensity r) (flashEffect r) (difficulty r)
    (calls r).

Definition set_spawnTimer (v : R) (r : GameEngine) : GameEngine :=
  mkGameEngine (currentState r) (lastTime r) (deltaTime r) (frameCount r)
    (projectilePool r) (physics r) (player r) (score r) (combo r)
    (comboMultiplier r) (bestComboThisGame r) (projectilesDodgedThisGame r)
    (gameCount r) (sessionBest r) (floatingScores r) v (baseSpawnRate r)
    (currentSpawnRate r) (baseProjectileSpeed r) (currentProjectileSpeed r)
    (screenShake r) (screenShakeIntensity r) (flashEffect r) (difficulty r)
    (calls r).

Definition set_currentSpawnRate (v : R) (r : GameEngine) : GameEngine :=
  mkGameEngine (currentState r) (lastTime r) (deltaTime r) (frameCount r)
    (projectilePool r) (physics r) (player r) (score r) (combo r)
    (comboMultiplier r) (bestComboThisGame r) (projectilesDodgedThisGame r)
    (gameCount r) (sessionBest r) (floatingScores r) (spawnTimer r)
    (baseSpawnRate r) v (baseProjectileSpeed r) (currentProjectileSpeed r)
    (screenShake r) (screenShakeIntensity r) (flashEffect r) (difficulty r)
    (calls r).

Definition set_currentProjectileSpeed (v : R) (r : GameEngine) : GameEngine :=
  mkGameEngine (currentState r) (lastTime r) (deltaTime r) (frameCount r)
    (projectilePool r) (physics r) (player r) (score r) (combo r)
    (comboMultiplier r) (bestComboThisGame r) (projectilesDodgedThisGame r)
    (gameCount r) (sessionBest r) (floatingScores r) (spawnTimer r)
    (baseSpawnRate r) (currentSpawnRate r) (baseProjectileSpeed r) v
    (screenShake r) (screenShakeIntensity r) (flashEffect r) (difficulty r)
    (calls r).

Definition set_screenShake (v : R) (r : GameEngine) : GameEngine :=
  mkGameEngine (currentState r) (lastTime r) (deltaTime r) (frameCount r)
    (projectilePool r) (physics r) (player r) (score r) (combo r)
    (comboMultiplier r) (bestComboThisGame r) (projectilesDodgedThisGame r)
    (gameCount r) (sessionBest r) (floatingScores r) (spawnTimer r)
    (baseSpawnRate r) (currentSpawnRate r) (baseProjectileSpeed r)
    (currentProjectileSpeed r) v (screenShakeIntensity r) (flashEffect r)
    (difficulty r) (calls r).

Definition set_screenShakeIntensity (v : R) (r : GameEngine) : GameEngine :=
  mkGameEngine (currentState r) (lastTime r) (deltaTime r) (frameCount r)
    (projectilePool r) (physics r) (player r) (score r) (combo r)
    (comboMultiplier r) (bestComboThisGame r) (projectilesDodgedThisGame r)
    (gameCount r) (sessionBest r) (floatingScores r) (spawnTimer r)
    (baseSpawnRate r) (currentSpawnRate r) (baseProjectileSpeed r)
    (currentProjectileSpeed r) (screenShake r) v (flashEffect r)
    (difficulty r) (calls r).

Definition set_flashEffect (v : R) (r : GameEngine) : GameEngine :=
  mkGameEngine (currentState r) (lastTime r) (deltaTime r) (frameCount r)
    (projectilePool r) (physics r) (player r) (score r) (combo r)
    (comboMultiplier r) (bestComboThisGame r) (projectilesDodgedThisGame r)
    (gameCount r) (sessionBest r) (floatingScores r) (spawnTimer r)
    (baseSpawnRate r) (currentSpawnRate r) (baseProjectileSpeed r)
    (currentProjectileSpeed r) (screenShake r) (screenShakeIntensity r) v
    (difficulty r) (calls r).

Definition set_calls (v : list Call) (r : GameEngine) : GameEngine :=
  mkGameEngine (currentState r) (lastTime r) (deltaTime r) (frameCount r)
    (projectilePool r) (physics r) (player r) (score r) (combo r)
    (comboMultiplier r) (bestComboThisGame r) (projectilesDodgedThisGame r)
    (gameCount r) (sessionBest r) (floatingScores r) (spawnTimer r)
    (baseSpawnRate r) (currentSpawnRate r) (baseProjectileSpeed r)
    (currentProjectileSpeed r) (screenShake r) (screenShakeIntensity r)
    (flashEffect r) (difficulty r) v.


Definition set_objs (v : list Projectile) (P : ProjectilePool)
    : ProjectilePool :=
  mkPool v (pool P) (active P) (initialSize P).

(** *** Statements

    A method body is a sequence of statements, each a function from the
    engine before it to the engine after it. *)

Definition stmt : Type := GameEngine -> GameEngine.

Definition seq_stmt (s1 s2 : stmt) : stmt := fun g => s2 (s1 g).

Infix ">>" := seq_stmt (at level 61, left associativity).

(** [this.field = e], with [e] read in the state before the assignment. *)

Definition assign {T : Type} (set : T -> GameEngine -> GameEngine)
    (e : GameEngine -> T) : stmt :=
  fun g => set (e g) g.

(** [if (c) s1 else s2] and [if (c) s]. *)

Definition ifelse (c : GameEngine -> bool) (s1 s2 : stmt) : stmt :=
  fun g => if c g then s1 g else s2 g.

Definition skip : stmt := fun g => g.

Definition when (c : GameEngine -> bool) (s : stmt) : stmt := ifelse c s skip.

(** The object behind a projectile reference. *)

Definition obj (g : GameEngine) (projectile : nat) : Projectile :=
  objs (projectilePool g) !!! projectile.

(** An assignment to fields of a projectile object. *)

Definition update_obj (f : Projectile -> Projectile) (projectile : nat)
    : stmt :=
  assign set_projectilePool
    (fun g =>
       set_objs (alter f projectile (objs (projectilePool g)))
         (projectilePool g)).

(** [this.projectilePool.release(projectile)]. *)

Definition release_projectile (projectile : nat) : stmt :=
  assign set_projectilePool (fun g => release projectile (projectilePool g)).

Definition log_call (c : Call) : stmt :=
  assign set_calls (fun g => calls g ++ [c]).

(** *** Scoring *)

(** The table [difficultyBonuses] of [addScore]: the four levels the
    settings screen offers, each with its bonus. *)

Definition difficultyBonuses : list (string * R) :=
  [("easy", 1); ("medium", 11 / 10); ("hard", 12 / 10); ("extreme", 13 / 10)].

Definition known_difficulty (difficulty : string) : Prop :=
  difficulty ∈ difficultyBonuses.*1.

(** [difficultyBonuses[this.difficulty] || 1.0] for one of the four levels,
    and for a key that neither the table nor [Object.prototype] has, where
    the lookup gives [undefined] and the [||] gives 1.  The name of a member
    that every object inherits ("constructor", "toString", "__proto__", ...)
    is outside this definition: there the lookup gives that member, which is
    no number, and the points and the score become NaN.  [loadGameSettings]
    takes the difficulty from storage as it finds it, so the statements on
    points are made for the levels of the table ([known_difficulty]). *)

Definition difficultyBonus (difficulty : string) : R :=
  if decide (difficulty = "easy") then 1
  else if decide (difficulty = "medium") then 11 / 10
  else if decide (difficulty = "hard") then 12 / 10
  else if decide (difficulty = "extreme") then 13 / 10
  else 1.

(** [Math.floor(this.combo / 10)] is integer division: [Z.div] rounds
    towards minus infinity, like [Math.floor], for the positive divisor. *)

Definition updateComboMultiplier : stmt :=
  assign set_comboMultiplier (fun g => (1 + combo g / 10)%Z) >>
  assign set_comboMultiplier (fun g => Z.min (comboMultiplier g) 5).

(** [Math.floor(points * this.comboMultiplier * difficultyBonus)] with
    [points = Math.floor(basePoints)], as [addScore] computes it. *)

Definition finalPoints_of (basePoints : R) (g : GameEngine) : Z :=
  let points := Zfloor basePoints in
  Zfloor (IZR points * IZR (comboMultiplier g)
          * difficultyBonus (difficulty g)).

(** [addScore(basePoints)] without the check of the achievements. *)

Definition addScore (basePoints : R) : stmt :=
  assign set_score (fun g => (score g + finalPoints_of basePoints g)%Z) >>
  when (fun g => (sessionBest g <? score g)%Z) (assign set_sessionBest score) >>
  when (fun g => (bestComboThisGame g <? combo g)%Z)
    (assign set_bestComboThisGame combo).

Definition spawnFloatingScore (points : Z) (x y : R) : stmt :=
  assign set_floatingScores
    (fun g =>
       floatingScores g
       ++ [ {| fs_x := x; fs_y := y; fs_points := points; life := 1;
               maxLife := 1; velocityY := -100; alpha := 1 |} ]).

(** *** Collision handlers *)

(** [handleDodge(projectile)] without the particle effect.  The first
    branch of [ifelse] is the early [return]. *)

Definition handleDodge (projectile : nat) : stmt :=
  log_call (CallHandleDodge projectile) >>
  ifelse (fun g => dodged (obj g projectile))
    skip
    (update_obj (set_dodged true) projectile >>
     update_obj (set_pr_active false) projectile >>
     assign set_combo (fun g => (combo g + 1)%Z) >>
     updateComboMultiplier >>
     assign set_projectilesDodgedThisGame
       (fun g => (projectilesDodgedThisGame g + 1)%Z) >>
     addScore 10 >>
     (fun g =>
        let basePoints := 10 in
        let finalPoints :=
          Zfloor (basePoints * IZR (comboMultiplier g)
                  * difficultyBonus (difficulty g)) in
        spawnFloatingScore finalPoints (pr_x (obj g projectile))
          (pr_y (obj g projectile)) g) >>
     release_projectile projectile).

(** [gameOver()] without the storage of scores and statistics. *)

Definition gameOver : stmt :=
  assign set_currentState (fun _ => GAME_OVER) >>
  assign set_gameCount (fun g => (gameCount g + 1)%Z).

(** [handleCollision(projectile)] without the particle effect and the
    vibration. *)

Definition handleCollision (projectile : nat) : stmt :=
  log_call (CallHandleCollision projectile) >>
  assign set_player (fun g => triggerHitFlash <$> player g) >>
  assign set_screenShake (fun _ => 3 / 10) >>
  assign set_screenShakeIntensity (fun _ => 10) >>
  assign set_flashEffect (fun _ => 1 / 10) >>
  assign set_combo (fun _ => 0%Z) >>
  assign set_comboMultiplier (fun _ => 1%Z) >>
  release_projectile projectile >>
  gameOver.

(** *** The collision scan *)

(** The [for ... of projectilesToCheck] loop of [checkCollisions].
    [now i] is the value of [performance.now()] in iteration [i].  For a
    number, [projectile.spawnTime || 0] is the number itself.  The [break]
    after [handleCollision] is the branch that does not recurse. *)

Fixpoint scan (now : nat -> R) (iteration : nat)
    (projectilesToCheck : list nat) (g : GameEngine) : GameEngine :=
  match projectilesToCheck with
  | [] => g
  | projectile :: rest =>
      let continue := scan now (S iteration) rest in
      let o := obj g projectile in
      if negb (pr_active o) then continue g
      else
        let timeSinceSpawn := now iteration - spawnTime o in
        if timeSinceSpawn <? 200 then continue g
        else
          match player g with
          | None => continue g
          | Some pl =>
              let dx := pr_x o - pl_x pl in
              let dy := pr_y o - pl_y pl in
              let distance := sqrt (dx * dx + dy * dy) in
              let circleRadius := pl_radius pl in
              let projectileRadius := pr_radius o in
              let collisionRadius := circleRadius + projectileRadius in
              if distance <=? collisionRadius then
                let projectileAngle := atan2 dy dx in
                let isSolid := isSolidAtAngle pl projectileAngle in
                if isSolid then handleCollision projectile g
                else continue (handleDodge projectile g)
              else continue g
          end
  end.

(** The [active] flag of an object of the grid; the rotor has no such
    field, so the test is falsy for it. *)

Definition obj_active (g : GameEngine) (o : ObjRef) : bool :=
  match o with
  | OPlayer => false
  | OProjectile i => pr_active (obj g i)
  end.

Definition projectile_of (o : ObjRef) : option nat :=
  match o with
  | OPlayer => None
  | OProjectile i => Some i
  end.

(** The choice of the projectiles to scan at the head of
    [checkCollisions]: the active ones, or, when more than ten are active,
    what the collision grid lists around the rotor. *)

Definition projectilesToCheck (pl : Player) (g : GameEngine) : list nat :=
  let activeProjectiles :=
    filter (fun p => pr_active (obj g p)) (active (projectilePool g)) in
  if (10 <? length activeProjectiles)%nat then
    omap projectile_of
      (filter (fun p => p <> OPlayer /\ obj_active g p)
         (getNearbyObjects (physics g) OPlayer
            (getBoundingBox (pl_x pl) (pl_y pl) (pl_radius pl))))
  else activeProjectiles.

Definition checkCollisions (now : nat -> R) : stmt :=
  fun g =>
    match player g with
    | None => g
    | Some pl => scan now 0 (projectilesToCheck pl g) g
    end.

(** *** The per-frame updates of a PLAYING session *)

(** What one frame reads from outside the engine. *)

Record Frame := mkFrame {
  currentTime : R;
    (* the timestamp [requestAnimationFrame] passes to [gameLoop] *)
  touch : option (R * R);
    (* [inputManager.getPrimaryTouch()] *)
  random : nat -> R;
    (* the [k]-th value of [Math.random()] in this frame *)
  spawn_now : R;
    (* [performance.now()] inside the reset of a spawned projectile *)
  scan_now : nat -> R
    (* [performance.now()] in the [i]-th iteration of the collision scan *)
}.

(** [updateProjectiles(deltaTime)].  The [for ... of] loop walks
    [this.projectilePool.active] itself, by index, while [release] splices
    that same array: the loop ends when the index reaches the current length.
    The array never grows in the loop, so its initial length is enough
    fuel. *)

Fixpoint updateProjectiles_loop (fuel index : nat) (deltaTime : R)
    (g : GameEngine) : GameEngine :=
  match fuel, active (projectilePool g) !! index with
  | Datatypes.S n, Some projectile =>
      let continue := updateProjectiles_loop n (S index) deltaTime in
      (ifelse (fun g => negb (pr_active (obj g projectile)))
         skip
         (update_obj (updateVelocity deltaTime) projectile >>
          update_obj (Projectile_update deltaTime) projectile >>
          when (fun g => off_screen (obj g projectile))
            (release_projectile projectile)) >>
       continue) g
  | _, _ => g
  end.

Definition updateProjectiles (deltaTime : R) : stmt :=
  fun g =>
    updateProjectiles_loop (length (active (projectilePool g))) 0 deltaTime g.

(** The [switch (edge)] of [spawnProjectile]; [prev] is what [spawnX] and
    [spawnY] hold when no case applies. *)

Definition spawn_on_edge (edge : Z) (r : R) (prev : R * R) : R * R :=
  if decide (edge = 0%Z) then (r * GAME_WIDTH, -20)
  else if decide (edge = 1%Z) then (GAME_WIDTH + 20, r * GAME_HEIGHT)
  else if decide (edge = 2%Z) then (r * GAME_WIDTH, GAME_HEIGHT + 20)
  else if decide (edge = 3%Z) then (-20, r * GAME_HEIGHT)
  else prev.

(** The [do ... while (distanceFromCenter < minSafeDistance && attempts < 10)]
    loop; [k] counts the calls of [Math.random()] so far.  The bound on
    [attempts] makes ten units of fuel enough. *)

Fixpoint spawn_attempts (fuel : nat) (edge : Z) (random : nat -> R) (k : nat)
    (attempts : Z) (prev : R * R) : R * R :=
  let centerX := GAME_WIDTH / 2 in
  let centerY := GAME_HEIGHT / 2 in
  let minSafeDistance := 30 + 12 + 50 in
  let '(spawnX, spawnY) := spawn_on_edge edge (random k) prev in
  let dx := spawnX - centerX in
  let dy := spawnY - centerY in
  let distanceFromCenter := sqrt (dx * dx + dy * dy) in
  let attempts := (attempts + 1)%Z in
  let '(spawnX, spawnY, distanceFromCenter) :=
    if (distanceFromCenter <? minSafeDistance) && (attempts <? 5)%Z then
      let angle := atan2 dy dx in
      let newDistance := minSafeDistance + 50 in
      (centerX + cos angle * newDistance, centerY + sin angle * newDistance,
       newDistance)
    else (spawnX, spawnY, distanceFromCenter) in
  if (distanceFromCenter <? minSafeDistance) && (attempts <? 10)%Z then
    match fuel with
    | O => (spawnX, spawnY)
    | Datatypes.S n =>
        spawn_attempts n edge random (S k) attempts (spawnX, spawnY)
    end
  else (spawnX, spawnY).

(** Where [spawnProjectile] puts the new projectile. *)

Definition spawn_point (random : nat -> R) : R * R :=
  let edge := Zfloor (random O * 4) in
  let '(spawnX, spawnY) := spawn_attempts 10 edge random 1 0 (0, 0) in
  let spawnX := if spawnX <? -20 then -20 else spawnX in
  let spawnX := if spawnX >? GAME_WIDTH + 20 then GAME_WIDTH + 20 else spawnX in
  let spawnY := if spawnY <? -20 then -20 else spawnY in
  let spawnY :=
    if spawnY >? GAME_HEIGHT + 20 then GAME_HEIGHT + 20 else spawnY in
  (spawnX, spawnY).

Definition spawnProjectile (random : nat -> R) (now : R) : stmt :=
  let centerX := GAME_WIDTH / 2 in
  let centerY := GAME_HEIGHT / 2 in
  let '(spawnX, spawnY) := spawn_point random in
  assign set_projectilePool
    (fun g =>
       snd (acquire now spawnX spawnY centerX centerY
              (currentProjectileSpeed g) (projectilePool g))).

Definition updateSpawning (random : nat -> R) (now : R) (deltaTime : R)
    : stmt :=
  assign set_spawnTimer (fun g => spawnTimer g + deltaTime) >>
  when (fun g => spawnTimer g >=? currentSpawnRate g)
    (spawnProjectile random now >>
     assign set_spawnTimer (fun _ => 0)).

(** [updateFloatingScores(deltaTime)]: the loop runs from the last index
    down, so a [splice] never makes it skip an element. *)

Definition updateFloatingScores (deltaTime : R) : stmt :=
  let step (f : FloatingScore) : FloatingScore :=
    let life' := life f - deltaTime in
    {| fs_x := fs_x f;
       fs_y := fs_y f + velocityY f * deltaTime;
       fs_points := fs_points f;
       life := life';
       maxLife := maxLife f;
       velocityY := velocityY f;
       alpha := life' / maxLife f |} in
  assign set_floatingScores
    (fun g => filter (fun f => ~ life f <= 0) (step <$> floatingScores g)).

Definition updateVisualEffects (deltaTime : R) : stmt :=
  when (fun g => screenShake g >? 0)
    (assign set_screenShake (fun g => screenShake g - deltaTime) >>
     when (fun g => screenShake g <? 0)
       (assign set_screenShake (fun _ => 0) >>
        assign set_screenShakeIntensity (fun _ => 0))) >>
  when (fun g => flashEffect g >? 0)
    (assign set_flashEffect (fun g => flashEffect g - deltaTime) >>
     when (fun g => flashEffect g <? 0)
       (assign set_flashEffect (fun _ => 0))).

Definition updateDifficulty : stmt :=
  fun g =>
    let difficultyLevel := (score g / 500)%Z in
    (assign set_currentSpawnRate
       (fun g => baseSpawnRate g * powerRZ (9 / 10) difficultyLevel) >>
     assign set_currentSpawnRate
       (fun g => Rmax (currentSpawnRate g) (3 / 10)) >>
     assign set_currentProjectileSpeed
       (fun g => baseProjectileSpeed g + IZR difficultyLevel * 20) >>
     assign set_currentProjectileSpeed
       (fun g => Rmin (currentProjectileSpeed g) 500)) g.

(** [updatePlaying(deltaTime)]; the particle system only draws. *)

Definition updatePlaying (fr : Frame) (deltaTime : R) : stmt :=
  assign set_player
    (fun g => Player_update deltaTime (touch fr) <$> player g) >>
  updateProjectiles deltaTime >>
  updateSpawning (random fr) (spawn_now fr) deltaTime >>
  checkCollisions (scan_now fr) >>
  updateFloatingScores deltaTime >>
  updateVisualEffects deltaTime >>
  updateDifficulty.

(** *** Session start and the engine's constructor *)

Definition resetVisualEffects : stmt :=
  assign set_screenShake (fun _ => 0) >>
  assign set_screenShakeIntensity (fun _ => 0) >>
  assign set_flashEffect (fun _ => 0).

(** [startGame()] without the menu flag, the play-time stamp and the
    particles. *)

Definition startGame : stmt :=
  assign set_currentState (fun _ => PLAYING) >>
  assign set_score (fun _ => 0%Z) >>
  assign set_combo (fun _ => 0%Z) >>
  assign set_comboMultiplier (fun _ => 1%Z) >>
  assign set_bestComboThisGame (fun _ => 0%Z) >>
  assign set_projectilesDodgedThisGame (fun _ => 0%Z) >>
  assign set_spawnTimer (fun _ => 0) >>
  assign set_currentSpawnRate baseSpawnRate >>
  assign set_currentProjectileSpeed baseProjectileSpeed >>
  assign set_floatingScores (fun _ => []) >>
  assign set_projectilePool (fun g => clear (projectilePool g)) >>
  assign set_player
    (fun _ => Some (Player_new (GAME_WIDTH / 2) (GAME_HEIGHT / 2))) >>
  resetVisualEffects.

(** [constructor(canvasElement, context)] up to, and without, the first
    [gameLoop] call it ends with.  [lastTime] and [now] are the clock samples
    it takes; [storedGames] and [storedDifficulty] are what it loads from
    storage ([totalGamesPlayed || 0] and [settings.difficulty]). *)

Definition GameEngine_new (lastTime : R) (now : nat -> R) (storedGames : Z)
    (storedDifficulty : option string) : GameEngine :=
  {| currentState := MENU;
     lastTime := lastTime;
     deltaTime := 0;
     frameCount := 0;
     projectilePool := ProjectilePool_new now 50;
     physics := Physics_new;
     player := None;
     score := 0;
     combo := 0;
     comboMultiplier := 1;
     bestComboThisGame := 0;
     projectilesDodgedThisGame := 0;
     gameCount := storedGames;
     sessionBest := 0;
     floatingScores := [];
     spawnTimer := 0;
     baseSpawnRate := 15 / 10;
     currentSpawnRate := 15 / 10;
     baseProjectileSpeed := 200;
     currentProjectileSpeed := 200;
     screenShake := 0;
     screenShakeIntensity := 0;
     flashEffect := 0;
     difficulty :=
       match storedDifficulty with
       | Some d => if decide (d = "") then "medium" else d
       | None => "medium"
       end;
     calls := [] |}.

(** *** The frame loop *)

Section FrameLoop.

(** The updates of the screens other than PLAYING (menu, pause, game over,
    settings, how-to-play) are user-interface code outside this model;
    whatever they do is [updateScreen]. *)
Variable updateScreen : GameState -> Frame -> R -> stmt.

Definition update (fr : Frame) (deltaTime : R) : stmt :=
  (fun g =>
     match currentState g with
     | PLAYING => updatePlaying fr deltaTime g
     | s => updateScreen s fr deltaTime g
     end) >>
  assign set_frameCount (fun g => (frameCount g + 1)%Z).

(** [gameLoop(currentTime)] without the performance monitor, the drawing,
    the reset of the input flags and the request for the next frame. *)

Definition gameLoop (fr : Frame) : stmt :=
  assign set_deltaTime (fun g => (currentTime fr - lastTime g) / 1000) >>
  assign set_lastTime (fun _ => currentTime fr) >>
  assign set_deltaTime (fun g => Rmin (deltaTime g) (33 / 1000)) >>
  (fun g => update fr (deltaTime g) g).

End FrameLoop.

(** ** Predicates used in the statements *)

(** Membership of a normalised angle in the gap pattern of the
    specification, [0,PI/4) U [PI/2,3PI/4) U [PI,5PI/4) U [3PI/2,7PI/4). *)

Definition in_constructed_gap (r : R) : Prop :=
  (0 <= r < PI / 4) \/ (PI / 2 <= r < 3 * PI / 4)
  \/ (PI <= r < 5 * PI / 4) \/ (3 * PI / 2 <= r < 7 * PI / 4).

(** The edges of that pattern are the multiples of PI/4.  The world angle
    [theta], taken relative to the rotor, keeps a distance of at least
    [margin] from every one of them. *)


(** The arguments of one [acquire] call, with its clock sample. *)

Record AcquireArgs := mkAcquireArgs {
  aa_now : R;
  aa_x : R;
  aa_y : R;
  aa_targetX : R;
  aa_targetY : R;
  aa_speed : R
}.

Definition acquire_with (a : AcquireArgs) (P : ProjectilePool)
    : nat * ProjectilePool :=
  acquire (aa_now a) (aa_x a) (aa_y a) (aa_targetX a) (aa_targetY a)
    (aa_speed a) P.

(** Consecutive [acquire] calls, results dropped. *)

Fixpoint acquire_many (reqs : list AcquireArgs) (P : ProjectilePool)
    : ProjectilePool :=
  match reqs with
  | [] => P
  | a :: rest => acquire_many rest (snd (acquire_with a P))
  end.

(** The pools a program can build: the constructor, then any sequence of
    [acquire] and [release] calls, and of assignments to fields of the
    pool's projectiles by the code that holds them. *)

Inductive pool_reachable : ProjectilePool -> Prop :=
  | reach_new now n :
      pool_reachable (ProjectilePool_new now n)
  | reach_acquire a P :
      pool_reachable P -> pool_reachable (snd (acquire_with a P))
  | reach_release projectile P :
      pool_reachable P -> pool_reachable (release projectile P)
  | reach_assign f projectile P :
      pool_reachable P ->
      pool_reachable (set_objs (alter f projectile (objs P)) P).

(** Every created instance occurs exactly once in [pool ++ active]. *)

Definition pool_inv (P : ProjectilePool) : Prop :=
  pool P ++ active P ≡ₚ seq 0 (length (objs P)).

(** [comboMultiplier] agrees with [combo]. *)

Definition combo_sync (g : GameEngine) : Prop :=
  comboMultiplier g = Z.min (combo g / 10 + 1) 5.

(** The classification of one projectile by the collision scan, in the
    words of the specification (4.3, steps 1 to 3): skipped when inactive,
    within the 200 ms grace period or out of range; otherwise solid or
    gap by the rotor's test at the projectile's world angle. *)

Inductive Verdict := Skipped | Solid | Gap.

#[global] Instance Verdict_eq_dec : EqDecision Verdict.
Proof. solve_decision. Defined.

Definition in_range (pl : Player) (o : Projectile) : Prop :=
  sqrt ((pr_x o - pl_x pl) * (pr_x o - pl_x pl)
        + (pr_y o - pl_y pl) * (pr_y o - pl_y pl))
  <= pl_radius pl + pr_radius o.

Definition worldAngle (pl : Player) (o : Projectile) : R :=
  atan2 (pr_y o - pl_y pl) (pr_x o - pl_x pl).

Definition classify (now : R) (pl : Player) (o : Projectile) : Verdict :=
  if negb (pr_active o) then Skipped
  else if bool_decide (now - spawnTime o < 200) then Skipped
  else if bool_decide (in_range pl o) then
    if isSolidAtAngle pl (worldAngle pl o) then Solid else Gap
  else Skipped.

(** The dodge calls owed to the projectiles of [ps] classified as gap,
    [ps] being scanned in iterations [i], [i + 1], ... *)

Fixpoint gap_calls (now : nat -> R) (i : nat) (pl : Player)
    (objects : nat -> Projectile) (ps : list nat) : list Call :=
  match ps with
  | [] => []
  | p :: rest =>
      let later := gap_calls now (S i) pl objects rest in
      if decide (classify (now i) pl (objects p) = Gap)
      then CallHandleDodge p :: later
      else later
  end.

(** No projectile of [ps], scanned from iteration [i], is classified as
    solid. *)

Definition none_solid (now : nat -> R) (i : nat) (pl : Player)
    (objects : nat -> Projectile) (ps : list nat) : Prop :=
  forall j p, ps !! j = Some p ->
    classify (now (i + j)%nat) pl (objects p) <> Solid.

(** The handler calls a step adds to the ghost log. *)

Definition new_calls (before after : GameEngine) : list Call :=
  drop (length (calls before)) (calls after).

Definition is_collision_call (c : Call) : bool :=
  match c with
  | CallHandleCollision _ => true
  | CallHandleDodge _ => false
  end.

(** A statement keeps a field when it never changes its value. *)

Class Keeps {T : Type} (f : GameEngine -> T) (s : stmt) : Prop :=
  keeps : forall g, f (s g) = f g.

(** ** The score product on IEEE-754 doubles

    [Math.floor(points * this.comboMultiplier * difficultyBonus)] as the
    JavaScript engine evaluates it, on binary64 numbers with
    round-to-nearest-even, to compare with the real-number model
    ([finalPoints_of]). *)

Module DoubleScore.
Import PrimFloat.

(** [Math.floor] of a finite double, as an integer. *)
Definition double_floor (f : float) : option Z :=
  match FloatOps.Prim2SF f with
  | SpecFloat.S754_zero _ => Some 0%Z
  | SpecFloat.S754_finite s m e =>
      let n := if s then Z.neg m else Z.pos m in
      Some (if (0 <=? e)%Z then n * 2 ^ e else n / 2 ^ (- e))%Z
  | _ => None
  end.

(** The double that holds a small non-negative integer. *)
Definition double_of_Z (z : Z) : float := of_uint63 (Uint63.of_Z z).

(** The literals [1.0], [1.1], [1.2] and [1.3]: the doubles nearest to
    the decimal fractions; [1.0] again for a key that neither the table nor
    [Object.prototype] has. *)
Definition difficultyBonus (difficulty : string) : float :=
  if decide (difficulty = "easy") then 0x1p+0%float
  else if decide (difficulty = "medium") then 0x1.199999999999ap+0%float
  else if decide (difficulty = "hard") then 0x1.3333333333333p+0%float
  else if decide (difficulty = "extreme") then 0x1.4cccccccccccdp+0%float
  else 0x1p+0%float.

Definition finalPoints (points comboMultiplier : Z) (difficulty : string)
    : option Z :=
  double_floor
    (mul (mul (double_of_Z points) (double_of_Z comboMultiplier))
       (difficultyBonus difficulty)).

End DoubleScore.

(** ** The rotor's gap test on doubles

    [isSolidAtAngle] and the loop of the constructor that lists the gaps, as
    the JavaScript engine evaluates them on binary64 numbers, to compare
    with the real-number model at the edges of the gaps, where rounding
    decides.  [fuel] bounds the iterations of each normalising loop;
    [None] means it did not suffice. *)

Module DoubleRotor.
Import PrimFloat.

(** [Math.PI], the double nearest to the real number. *)
Definition PI : float := 0x1.921fb54442d18p+1%float.

Definition Player_gaps (gapCount : Z) (gapSize : float)
    : list (float * float) :=
  (fun i : Z =>
     let gapStart :=
       mul (div (mul PI 2%float) (DoubleScore.double_of_Z gapCount))
         (DoubleScore.double_of_Z i) in
     let gapEnd := add gapStart gapSize in
     (gapStart, gapEnd)) <$> seqZ 0 gapCount.

Fixpoint solid_outside_gaps (relativeAngle : float)
    (gs : list (float * float)) : bool :=
  match gs with
  | [] => true
  | (gapStart, gapEnd) :: rest =>
      if ltb (mul PI 2%float) gapEnd then
        if leb gapStart relativeAngle
           || leb relativeAngle (sub gapEnd (mul PI 2%float))
        then false
        else solid_outside_gaps relativeAngle rest
      else
        if leb gapStart relativeAngle && ltb relativeAngle gapEnd
        then false
        else solid_outside_gaps relativeAngle rest
  end.

Definition isSolidAtAngle (angle : float) (gaps : list (float * float))
    (worldAngle : float) (fuel : nat) : option bool :=
  let relativeAngle := sub worldAngle angle in
  match while_fuel (fun a => ltb a 0%float)
          (fun a => add a (mul PI 2%float)) fuel relativeAngle with
  | None => None
  | Some relativeAngle =>
      match while_fuel (fun a => leb (mul PI 2%float) a)
              (fun a => sub a (mul PI 2%float)) fuel relativeAngle with
      | None => None
      | Some relativeAngle => Some (solid_outside_gaps relativeAngle gaps)
      end
  end.


Definition gaps_new : list (float * float) :=
  Player_gaps 4 (div PI 4%float).



(** World angles away from the gap edges, to try the rotor on: for a rotor
    at [angle], the angles [angle + o] and [angle - o] for the offsets
    [o = (2 i + 1) * Math.PI / 8 - 0.25 + j * 0.05] with [i] from 0 to 31
    and [j] from 0 to 10, which all keep more than 0.14 from every multiple
    of PI/4.  The rotor angles are 0, 1, 2.5 and [Math.PI * 2]. *)
Definition sample_offsets : list float :=
  i ← seqZ 0 32;
  j ← seqZ 0 11;
  [add (sub (mul (DoubleScore.double_of_Z (2 * i + 1)) (div PI 8%float))
          0x1p-2%float)
     (mul (DoubleScore.double_of_Z j) 0x1.999999999999ap-5%float)].

Definition sample_angles (angle : float) : list float :=
  o ← sample_offsets; [add angle o; add angle (opp o)].

Definition sample_rotor_angles : list float :=
  [0%float; 1%float; 0x1.4p+1%float; mul PI 2%float].

(** [Math.PI * 2], [Math.PI / 2] and [Math.PI / 4]. *)
Definition full_turn : float := mul PI 2%float.
Definition quarter_turn : float := div PI 2%float.
Definition eighth_turn : float := div PI 4%float.

(** Whether the rotor at [angle] gives [expected a] at [theta + turn] when
    it gives [a] at [theta], for every sample angle [theta]. *)
Definition samples_agree (turn : float) (expected : bool -> bool) : bool :=
  forallb
    (fun angle =>
       forallb
         (fun theta =>
            match isSolidAtAngle angle gaps_new theta 8,
                  isSolidAtAngle angle gaps_new (add theta turn) 8 with
            | Some a, Some b => bool_decide (b = expected a)
            | _, _ => false
            end)
         (sample_angles angle))
    sample_rotor_angles.

End DoubleRotor.

(** ** Example sessions

    A session just started on a new engine, and the same session after [n]
    projectiles have been acquired at time 0, each 40 pixels to the right of
    the rotor's centre and aimed at it. *)

Definition fresh_session : GameEngine :=
  startGame (GameEngine_new 0 (fun _ => 0) 0 None).

Definition spawn_in_gap : AcquireArgs :=
  {| aa_now := 0;
     aa_x := 440;
     aa_y := 640;
     aa_targetX := 400;
     aa_targetY := 640;
     aa_speed := 200 |}.

Definition session_with (n : nat) : GameEngine :=
  assign set_projectilePool
    (fun g => acquire_many (replicate n spawn_in_gap) (projectilePool g))
    fresh_session.

(** The same session with one projectile instead, 40 pixels from the centre
    in the direction of world angle [theta]. *)

Definition spawn_at_angle (theta : R) : AcquireArgs :=
  {| aa_now := 0;
     aa_x := 400 + 40 * cos theta;
     aa_y := 640 + 40 * sin theta;
     aa_targetX := 400;
     aa_targetY := 640;
     aa_speed := 200 |}.

Definition session_at_angle (theta : R) : GameEngine :=
  assign set_projectilePool
    (fun g => snd (acquire_with (spawn_at_angle theta) (projectilePool g)))
    fresh_session.

(** And with one projectile per world angle of a list, acquired in the
    order of the list. *)

Definition session_at_angles (thetas : list R) : GameEngine :=
  assign set_projectilePool
    (fun g => acquire_many (spawn_at_angle <$> thetas) (projectilePool g))
    fresh_session.

(** Three projectiles in range at once: the first faces a gap, the second a
    solid sector, the third a gap again. *)

Definition session_gap_solid_gap : GameEngine :=
  session_at_angles [PI / 8; 3 * PI / 8; PI / 8].
(** ** ProjectilePool.update

    [update(deltaTime)] of the pool: [for (i = active.length - 1; i >= 0;
    i--)], with [n = i + 1] iterations left.  Each iteration lets the
    projectile at index [i] run its own [update] and releases it when that
    left it inactive.  [None] is the [TypeError] of calling [update] on
    [undefined], should index [i] lie outside the array. *)

Fixpoint ProjectilePool_update_loop (n : nat) (deltaTime : R)
    (P : ProjectilePool) : option ProjectilePool :=
  match n with
  | O => Some P
  | Datatypes.S i =>
      match active P !! i with
      | None => None
      | Some projectile =>
          let P :=
            set_objs (alter (Projectile_update deltaTime) projectile (objs P))
              P in
          let P :=
            if negb (pr_active (objs P !!! projectile))
            then release projectile P
            else P in
          ProjectilePool_update_loop i deltaTime P
      end
  end.

Definition ProjectilePool_update (deltaTime : R) (P : ProjectilePool)
    : option ProjectilePool :=
  ProjectilePool_update_loop (length (active P)) deltaTime P.

(** A projectile that [ProjectilePool.update] leaves in the active array:
    flagged active and not off screen. *)

Definition in_flight (P : ProjectilePool) (projectile : nat) : bool :=
  pr_active (objs P !!! projectile)
  && negb (off_screen (objs P !!! projectile)).

(** A session with two projectiles in flight: the first, acquired one pixel
    inside the right limit of the screen margin and flying outwards, and
    after it one as in [session_with]. *)

Definition spawn_leaving : AcquireArgs :=
  {| aa_now := 0;
     aa_x := 849;
     aa_y := 640;
     aa_targetX := 1000;
     aa_targetY := 640;
     aa_speed := 200 |}.

Definition session_leaving : GameEngine :=
  assign set_projectilePool
    (fun g => acquire_many [spawn_leaving; spawn_in_gap] (projectilePool g))
    fresh_session.

(** The bookkeeping of a session: the combo is not negative and the
    multiplier agrees with it, the score is not negative and not above the
    session's best, and the combo is not above the best combo of the
    game. *)

Definition session_inv (g : GameEngine) : Prop :=
  (0 <= combo g)%Z
  /\ combo_sync g
  /\ (0 <= score g <= sessionBest g)%Z
  /\ (combo g <= bestComboThisGame g)%Z.

(** ** Physics: collision tests on plain objects

    The collision functions of [Physics] take any object with a position.
    [Body] is such an object with the fields these functions read; [None] is
    a field the object does not have ([undefined]).  An object carries both
    velocity components or neither, as every object of the game does. *)

#[global] Instance Req_decision (a b : R) : Decision (a = b) := Req_dec_T a b.

Record Body := mkBody {
  b_x : R;
  b_y : R;
  b_radius : option R;
  b_width : option R;
  b_height : option R;
  b_anchorX : option R;
  b_anchorY : option R;
  b_shape : option string;
  b_velocity : option (R * R)
}.

(** [v || 0] on a numeric field. *)

Definition or_zero (v : option R) : R := default 0 v.

(** [obj.shape || (obj.radius ? 'circle' : 'rectangle')]: the empty string
    and the radius 0 are falsy, like a missing field. *)

Definition shape_of (obj : Body) : string :=
  let by_radius :=
    match b_radius obj with
    | Some radius => if decide (radius = 0) then "rectangle" else "circle"
    | None => "rectangle"
    end in
  match b_shape obj with
  | Some shape => if decide (shape = "") then by_radius else shape
  | None => by_radius
  end.

(** [getBoundingBox(obj)] on any object: the circle's box when the object
    has a radius, the anchored rectangle's otherwise. *)

Definition Body_getBoundingBox (obj : Body) : Box :=
  match b_radius obj with
  | Some radius => getBoundingBox (b_x obj) (b_y obj) radius
  | None =>
      let width := or_zero (b_width obj) in
      let height := or_zero (b_height obj) in
      let x := b_x obj - or_zero (b_anchorX obj) * width in
      let y := b_y obj - or_zero (b_anchorY obj) * height in
      {| box_left := x;
         box_right := x + width;
         box_top := y;
         box_bottom := y + height |}
  end.

(** The overlap test of two boxes that [boundingBoxCheck] and
    [checkRectangleRectangle] both end with. *)

Definition boxes_overlap (box1 box2 : Box) : bool :=
  negb ((box_right box1 <? box_left box2)
        || (box_left box1 >? box_right box2)
        || (box_bottom box1 <? box_top box2)
        || (box_top box1 >? box_bottom box2)).

Definition boundingBoxCheck (obj1 obj2 : Body) : bool :=
  boxes_overlap (Body_getBoundingBox obj1) (Body_getBoundingBox obj2).

Definition getDistance (point1 point2 : Body) : R :=
  let dx := b_x point2 - b_x point1 in
  let dy := b_y point2 - b_y point1 in
  sqrt (dx * dx + dy * dy).

(** A comparison with a missing radius is a comparison with [NaN]:
    false. *)

Definition checkCircleCircle (circle1 circle2 : Body) : bool :=
  let distance := getDistance circle1 circle2 in
  match b_radius circle1, b_radius circle2 with
  | Some radius1, Some radius2 =>
      let minDistance := radius1 + radius2 in
      distance <=? minDistance
  | _, _ => false
  end.

Definition checkRectangleRectangle (rect1 rect2 : Body) : bool :=
  boxes_overlap (Body_getBoundingBox rect1) (Body_getBoundingBox rect2).

Definition checkCircleRectangle (circle rect : Body) : bool :=
  let box := Body_getBoundingBox rect in
  let closestX := Rmax (box_left box) (Rmin (b_x circle) (box_right box)) in
  let closestY := Rmax (box_top box) (Rmin (b_y circle) (box_bottom box)) in
  let dx := b_x circle - closestX in
  let dy := b_y circle - closestY in
  let distance := sqrt (dx * dx + dy * dy) in
  match b_radius circle with
  | Some radius => distance <? radius
  | None => false
  end.

(** The shape dispatch of [checkCollision], after its bounding-box
    pre-check. *)

Definition checkCollision_by_shape (obj1 obj2 : Body) : bool :=
  let type1 := shape_of obj1 in
  let type2 := shape_of obj2 in
  if bool_decide (type1 = "circle") && bool_decide (type2 = "circle") then
    checkCircleCircle obj1 obj2
  else if bool_decide (type1 = "rectangle")
          && bool_decide (type2 = "rectangle") then
    checkRectangleRectangle obj1 obj2
  else if (bool_decide (type1 = "circle")
           && bool_decide (type2 = "rectangle"))
          || (bool_decide (type1 = "rectangle")
              && bool_decide (type2 = "circle")) then
    let circle := if bool_decide (type1 = "circle") then obj1 else obj2 in
    let rect := if bool_decide (type1 = "rectangle") then obj1 else obj2 in
    checkCircleRectangle circle rect
  else false.

Definition checkCollision (obj1 obj2 : Body) : bool :=
  if negb (boundingBoxCheck obj1 obj2) then false
  else checkCollision_by_shape obj1 obj2.

(** ** Physics: building the collision grid

    [buildCollisionGrid(objects, gridSize)]: the grid is emptied, then every
    object whose [active] field is truthy is appended to the list of each
    cell its bounding box overlaps.  [is_active] and [bounds_of] read the
    [active] field and the bounding box of an object. *)

Definition grid_add (obj : ObjRef) (cell : Z * Z)
    (grid : gmap (Z * Z) (list ObjRef)) : gmap (Z * Z) (list ObjRef) :=
  <[cell := default [] (grid !! cell) ++ [obj]]> grid.

Definition buildCollisionGrid (is_active : ObjRef -> bool)
    (bounds_of : ObjRef -> Box) (objects : list ObjRef) (gridSize : R)
    (ph : Physics) : Physics :=
  let grid :=
    foldl
      (fun grid obj =>
         if negb (is_active obj) then grid
         else
           let bounds := bounds_of obj in
           let minCellX := Zfloor (box_left bounds / gridSize) in
           let maxCellX := Zfloor (box_right bounds / gridSize) in
           let minCellY := Zfloor (box_top bounds / gridSize) in
           let maxCellY := Zfloor (box_bottom bounds / gridSize) in
           foldl
             (fun grid cellX =>
                foldl (fun grid cellY => grid_add obj (cellX, cellY) grid)
                  grid (cell_range minCellY maxCellY))
             grid (cell_range minCellX maxCellX))
      ∅ objects in
  {| gravity := gravity ph; gridSize := gridSize; grid := grid |}.

(** The cells a box overlaps, as both grid functions compute them. *)

Definition in_cells (gridSize : R) (bounds : Box) (cell : Z * Z) : Prop :=
  (Zfloor (box_left bounds / gridSize) <= fst cell
   <= Zfloor (box_right bounds / gridSize))%Z
  /\ (Zfloor (box_top bounds / gridSize) <= snd cell
      <= Zfloor (box_bottom bounds / gridSize))%Z.

(** A pool in the state a session keeps it in: the exactly-one-collection
    invariant holds, and every projectile of the active array is flagged
    active and not yet dodged. *)

Definition pool_clean (P : ProjectilePool) : Prop :=
  pool_inv P
  /\ forall p, p ∈ active P ->
       pr_active (objs P !!! p) = true /\ dodged (objs P !!! p) = false.

(** ** The screens other than PLAYING

    What a screen reads from the input manager besides the touch of the
    frame: [wasJustPressed], the flag a new touch or click raises until the
    end of the frame, and the keys held down.  [share] tells whether the
    browser has [navigator.share]. *)

Record Input := mkInput {
  wasJustPressed : bool;
  isKeyPressed : string -> bool;
  share : bool
}.

Record Button := mkButton {
  bt_x : R;
  bt_y : R;
  bt_width : R;
  bt_height : R
}.

Definition isPointInButton (x y : R) (button : Button) : bool :=
  (x >=? bt_x button) && (x <=? bt_x button + bt_width button)
  && (y >=? bt_y button) && (y <=? bt_y button + bt_height button).

Definition getPlayButtonBounds : Button :=
  mkButton (GAME_WIDTH / 2 - 150) 480 300 80.
Definition getSettingsButtonBounds : Button :=
  mkButton (GAME_WIDTH / 2 - 100) (GAME_HEIGHT - 100) 200 60.
Definition getHowToPlayButtonBounds : Button :=
  mkButton (GAME_WIDTH / 2 - 150) 560 300 70.
Definition getRetryButtonBounds : Button :=
  mkButton (GAME_WIDTH / 2 - 150) (GAME_HEIGHT / 2 + 100) 300 80.
Definition getMainMenuButtonBounds : Button :=
  mkButton (GAME_WIDTH / 2 - 150) (GAME_HEIGHT / 2 + 200) 300 70.
Definition getShareButtonBounds : Button :=
  mkButton (GAME_WIDTH / 2 - 150) (GAME_HEIGHT / 2 + 300) 300 70.
Definition getResumeButtonBounds : Button :=
  mkButton (GAME_WIDTH / 2 - 150) (GAME_HEIGHT / 2 - 50) 300 80.
Definition getPauseSettingsButtonBounds : Button :=
  mkButton (GAME_WIDTH / 2 - 150) (GAME_HEIGHT / 2 + 50) 300 70.
Definition getQuitButtonBounds : Button :=
  mkButton (GAME_WIDTH / 2 - 150) (GAME_HEIGHT / 2 + 150) 300 70.
Definition getBackButtonBounds : Button :=
  mkButton (GAME_WIDTH / 2 - 150) (GAME_HEIGHT - 220) 300 70.

(** [this.inputManager.wasJustPressed && touch]: the touch, when both
    hold. *)

Definition pressed_at (inp : Input) (fr : Frame) : option (R * R) :=
  if wasJustPressed inp then touch fr else None.

(** The screen updates.  Vibration, sharing and the menu visuals are outside
    the engine's fields, so [vibrateTap()], [shareScore()] and
    [initMenuVisuals()] leave no trace; an early [return] is the end of its
    branch. *)

Definition updateMenu (inp : Input) (fr : Frame) (deltaTime : R) : stmt :=
  fun g =>
    let fallback : stmt :=
      when (fun _ => wasJustPressed inp || isKeyPressed inp "Space")
        startGame in
    match pressed_at inp fr with
    | Some (x, y) =>
        if isPointInButton x y getSettingsButtonBounds then
          assign set_currentState (fun _ => SETTINGS) g
        else if isPointInButton x y getHowToPlayButtonBounds then
          assign set_currentState (fun _ => HOW_TO_PLAY) g
        else if isPointInButton x y getPlayButtonBounds then
          startGame g
        else fallback g
    | None => fallback g
    end.

Definition updatePaused (inp : Input) (fr : Frame) (deltaTime : R) : stmt :=
  fun g =>
    let keys : stmt :=
      when (fun _ => isKeyPressed inp "Space")
        (assign set_currentState (fun _ => PLAYING)) >>
      when (fun _ => isKeyPressed inp "Escape" || isKeyPressed inp "Backspace")
        (assign set_currentState (fun _ => PLAYING)) in
    match pressed_at inp fr with
    | Some (x, y) =>
        if isPointInButton x y getResumeButtonBounds then
          assign set_currentState (fun _ => PLAYING) g
        else if isPointInButton x y getPauseSettingsButtonBounds then
          assign set_currentState (fun _ => SETTINGS) g
        else if isPointInButton x y getQuitButtonBounds then
          assign set_currentState (fun _ => MENU) g
        else keys g
    | None => keys g
    end.

Definition updateGameOver (inp : Input) (fr : Frame) (deltaTime : R) : stmt :=
  fun g =>
    match pressed_at inp fr with
    | Some (x, y) =>
        if isPointInButton x y getRetryButtonBounds then
          startGame g
        else if isPointInButton x y getMainMenuButtonBounds then
          (resetVisualEffects >>
           assign set_currentState (fun _ => MENU)) g
        else if share inp && isPointInButton x y getShareButtonBounds then
          g
        else g
    | None => g
    end.

Definition updateLevelUp (inp : Input) (deltaTime : R) : stmt :=
  when (fun _ => wasJustPressed inp || isKeyPressed inp "Space")
    (assign set_currentState (fun _ => PLAYING)).

Definition updateHowToPlay (inp : Input) (fr : Frame) (deltaTime : R) : stmt :=
  fun g =>
    let keys : stmt :=
      when (fun _ => isKeyPressed inp "Escape" || isKeyPressed inp "Backspace")
        (assign set_currentState (fun _ => MENU)) in
    match pressed_at inp fr with
    | Some (x, y) =>
        if isPointInButton x y getBackButtonBounds then
          assign set_currentState (fun _ => MENU) g
        else keys g
    | None => keys g
    end.

(** The [switch] of [update(deltaTime)] for the screens.  The settings
    screen writes to storage and to the sound and vibration managers; it
    stays a parameter.  [updateMenuParticles], which follows [updateMenu],
    moves the particles of the menu background only.  PLAYING is
    [updatePlaying] in [update] and is never passed here. *)

Definition screens (updateSettings : Input -> Frame -> R -> stmt)
    (inp : Input) (s : GameState) (fr : Frame) (deltaTime : R) : stmt :=
  match s with
  | MENU => updateMenu inp fr deltaTime
  | PLAYING => skip
  | PAUSED => updatePaused inp fr deltaTime
  | GAME_OVER => updateGameOver inp fr deltaTime
  | LEVEL_UP => updateLevelUp inp deltaTime
  | SETTINGS => updateSettings inp fr deltaTime
  | HOW_TO_PLAY => updateHowToPlay inp fr deltaTime
  end.

(** The listeners of the application's [pause] and [backbutton] events.
    Leaving the application ([navigator.app.exitApp()]) is outside the
    engine. *)

Definition onPause : stmt :=
  fun g =>
    match currentState g with
    | PLAYING => assign set_currentState (fun _ => PAUSED) g
    | _ => g
    end.

Definition onBackButton : stmt :=
  fun g =>
    match currentState g with
    | PLAYING => assign set_currentState (fun _ => PAUSED) g
    | PAUSED => assign set_currentState (fun _ => PLAYING) g
    | _ => g
    end.

(** [g'] is [g] but for the frame clock. *)

Definition same_session (g g' : GameEngine) : Prop :=
  g' = set_frameCount (frameCount g')
         (set_deltaTime (deltaTime g') (set_lastTime (lastTime g') g)).

(** No new press and none of the keys the pause screen listens to. *)

Definition quiet (inp : Input) : Prop :=
  wasJustPressed inp = false /\ isKeyPressed inp "Space" = false
  /\ isKeyPressed inp "Escape" = false
  /\ isKeyPressed inp "Backspace" = false.

Definition frames (updateSettings : Input -> Frame -> R -> stmt)
    (l : list (Input * Frame)) (g : GameEngine) : GameEngine :=
  foldl (fun g '(inp, fr) => gameLoop (screens updateSettings inp) fr g) g l.

(** [render()] draws the picture at a random offset of up to half
    [screenShakeIntensity] in each direction when this holds. *)

Definition render_shakes (g : GameEngine) : bool :=
  (screenShake g >? 0)
  && match currentState g with
     | PLAYING | GAME_OVER => true
     | _ => false
     end.

(** ** DataManager: the leaderboard

    A string kept in [localStorage] is represented by what [JSON.parse]
    makes of it: a JSON value, or [Unreadable] for the empty string and for
    text that [JSON.parse] rejects.  [JSON.stringify] followed by
    [JSON.parse] is therefore the identity on the values the code writes
    (arrays of objects of finite numbers).  An object is the list of its
    fields, looked up by key. *)

From Stdlib Require Import Sorted.

#[warnings="-register-all"] Inductive JSON :=
  | JNull
  | JBool (b : bool)
  | JNumber (n : R)
  | JString (s : string)
  | JArray (elements : list JSON)
  | JObject (fields : list (string * JSON)).

Inductive Item :=
  | Unreadable
  | Stored (value : JSON).

Definition Storage : Type := gmap string Item.

Fixpoint get_field (key : string) (fields : list (string * JSON))
    : option JSON :=
  match fields with
  | [] => None
  | (k, v) :: fields' =>
      if decide (k = key) then Some v else get_field key fields'
  end.

(** [DataManager.validateScore(score)] for a number that is neither NaN nor
    infinite. *)

Definition DataManager_validateScore (score : R) : bool :=
  if score <? 0 then false
  else if score >? 1000000 then false
  else true.

(** [s && typeof s.score === 'number' && s.score >= 0]: only an object has
    a [score]. *)

Definition is_score_entry (s : JSON) : bool :=
  match s with
  | JObject fields =>
      match get_field "score" fields with
      | Some (JNumber n) => n >=? 0
      | _ => false
      end
  | _ => false
  end.

(** [s.score] of an entry that passed the filter. *)

Definition score_of (s : JSON) : R :=
  match s with
  | JObject fields =>
      match get_field "score" fields with
      | Some (JNumber n) => n
      | _ => 0
      end
  | _ => 0
  end.

Definition loadHighScores (st : Storage) : list JSON :=
  match st !! "spinEscapeHighScores" with
  | Some (Stored (JArray scores)) =>
      filter (fun s => is_score_entry s = true) scores
  | _ => []
  end.

(** [scores.sort((a, b) => b.score - a.score)] on entries whose scores are
    numbers: the sort of an array is stable, so the result is the one
    arrangement by falling score that keeps equal scores in their order.
    [sort_insert x l] puts [x], which came before the elements of [l],
    into the sorted [l]. *)

Fixpoint sort_insert (x : JSON) (l : list JSON) : list JSON :=
  match l with
  | [] => [x]
  | y :: l' =>
      if score_of y >? score_of x then y :: sort_insert x l' else x :: l
  end.

Definition sort_by_score (l : list JSON) : list JSON :=
  foldr sort_insert [] l.

Definition score_entry (now score : R) : JSON :=
  JObject [("score", JNumber score);
           ("timestamp", JNumber (IZR (Zfloor (now / 1000))))].

(** [saveScore(score)] at the time [now] of [Date.now()].  [setItem_ok]
    tells whether [localStorage.setItem] succeeds; when it throws, the
    [catch] returns [false] and nothing was written. *)

Definition saveScore (setItem_ok : bool) (now score : R) (st : Storage)
    : bool * Storage :=
  if negb (DataManager_validateScore score) then (false, st)
  else
    let scores := loadHighScores st ++ [score_entry now score] in
    let scores := sort_by_score scores in
    let topScores := take 10 scores in
    if setItem_ok then
      (true, <[ "spinEscapeHighScores" := Stored (JArray topScores) ]> st)
    else (false, st).

(** ** AnimationManager ([www/js/animations.js])

    The easing functions.  In [bounce] the assignment [t -= c] inside the
    product is evaluated before the factor [t] to its right, so both
    factors are the shifted [t]. *)

Definition linear (t : R) : R := t.

Definition easeIn (t : R) : R := t * t.

Definition easeOut (t : R) : R := t * (2 - t).

Definition easeInOut (t : R) : R :=
  if t <? 5 / 10 then 2 * t * t else -1 + (4 - 2 * t) * t.

Definition bounce (t : R) : R :=
  if t <? 1 / (275 / 100) then
    75625 / 10000 * t * t
  else if t <? 2 / (275 / 100) then
    let t := t - 15 / 10 / (275 / 100) in
    75625 / 10000 * t * t + 75 / 100
  else if t <? 25 / 10 / (275 / 100) then
    let t := t - 225 / 100 / (275 / 100) in
    75625 / 10000 * t * t + 9375 / 10000
  else
    let t := t - 2625 / 1000 / (275 / 100) in
    75625 / 10000 * t * t + 984375 / 1000000.

Definition elastic (t : R) : R :=
  if decide (t = 0 \/ t = 1) then t
  else - Rpower 2 (10 * (t - 1)) * sin ((t - 11 / 10) * 5 * PI).

(** The frame callback that [animate(from, to, duration, easing, callback)]
    hands to [requestAnimationFrame], for an animation that was not
    stopped.  [startTime] is the variable of the closure, [None] for
    [null]; the result is its new value, the [progress] and [value] passed
    to [callback], and whether another frame is requested. *)

Definition animate_frame (from to duration : R) (easing : R -> R)
    (currentTime : R) (startTime : option R) : option R * (R * R) * bool :=
  let startTime := default currentTime startTime in
  let elapsed := (currentTime - startTime) / 1000 in
  let progress := Rmin (elapsed / duration) 1 in
  let eased := easing progress in
  let value := from + (to - from) * eased in
  (Some startTime, (progress, value), progress <? 1).

Definition fadeIn (duration : R) :=
  animate_frame 0 1 duration easeOut.

Definition fadeOut (duration : R) :=
  animate_frame 1 0 duration easeIn.

(** ** Replays on doubles

    The arithmetic of [Projectile.reset], [updateFloatingScores] and
    [animate] as the JavaScript engine evaluates it on binary64 numbers, to
    check at sample inputs that the statements made over the real-number
    model do not depend on exact arithmetic. *)

Module DoubleReset.
Import PrimFloat.

(** The velocity that [reset(x, y, targetX, targetY, speed)] stores. *)
Definition velocity (x y targetX targetY speed : float) : float * float :=
  let dx := sub targetX x in
  let dy := sub targetY y in
  let distance := sqrt (add (mul dx dx) (mul dy dy)) in
  (if ltb 0%float distance then mul (div dx distance) speed else 0%float,
   if ltb 0%float distance then mul (div dy distance) speed else 0%float).

(** A component has the sign of its offset and is zero with it. *)
Definition same_sign (d v : float) : bool :=
  if ltb 0%float d then ltb 0%float v
  else if ltb d 0%float then ltb v 0%float
  else eqb v 0%float.

(** The velocity points to the target, no component exceeds the speed, and
    the square of its magnitude is within one part in 10^9 of the square of
    the speed. *)
Definition aims (x y targetX targetY speed : float) : bool :=
  let '(vx, vy) := velocity x y targetX targetY speed in
  let square := add (mul vx vx) (mul vy vy) in
  let tolerance := 0x1.12e0be826d695p-30%float in
  same_sign (sub targetX x) vx
  && same_sign (sub targetY y) vy
  && leb (abs vx) speed
  && leb (abs vy) speed
  && leb (mul (mul speed speed) (sub 1%float tolerance)) square
  && leb square (mul (mul speed speed) (add 1%float tolerance)).

(** Starts on the four edges of the spawn frame, two of them straight above
    and beside the target (400, 640), and one with fractional coordinates;
    the speeds 150, 200, 220, 347.5 and 500. *)
Definition sample_starts : list (float * float) :=
  [(100%float, opp 20%float); (400%float, opp 20%float);
   (820%float, 300%float); (820%float, 640%float);
   (700%float, 1300%float); (opp 20%float, 1000%float);
   (0x1.999999999999ap-4%float, 0x1.3333333333333p-2%float)].

Definition sample_speeds : list float :=
  [150%float; 200%float; 220%float; 0x1.5b8p+8%float; 500%float].

Definition samples_aim : bool :=
  forallb
    (fun start : float * float =>
       forallb (fun speed => aims (fst start) (snd start)
                               400%float 640%float speed)
         sample_speeds)
    sample_starts.

End DoubleReset.

Module DoubleFloating.
Import PrimFloat.

(** The [life] of a floating score after the frames [dts], and whether it
    is still in the list: it is removed by the first frame that leaves
    [life <= 0]. *)
Fixpoint shown_after (life : float) (dts : list float) : bool :=
  match dts with
  | [] => true
  | dt :: dts =>
      let life := sub life dt in
      if leb life 0%float then false else shown_after life dts
  end.

(** The life of a floating score when spawned, and frames of 12.5 ms,
    100 ms and 33 ms. *)
Definition full_life : float := 1%float.
Definition step_80 : float := 0x1.999999999999ap-7%float.
Definition step_10 : float := 0x1.999999999999ap-4%float.
Definition step_30 : float := 0x1.0e5604189374cp-5%float.

End DoubleFloating.

Module DoubleFade.
Import PrimFloat.

Definition easeIn (t : float) : float := mul t t.

Definition easeOut (t : float) : float := mul t (sub 2%float t).

(** The frame callback of [animate] with [startTime] already set: the
    [progress] and [value] passed on and whether another frame is
    requested. *)
Definition animate_frame (from to duration : float) (easing : float -> float)
    (currentTime startTime : float) : float * float * bool :=
  let elapsed := div (sub currentTime startTime) 1000%float in
  let ratio := div elapsed duration in
  let progress := if ltb ratio 1%float then ratio else 1%float in
  let eased := easing progress in
  let value := add from (mul (sub to from) eased) in
  (progress, value, ltb progress 1%float).

Definition fadeIn (duration : float) :=
  animate_frame 0%float 1%float duration easeOut.

Definition fadeOut (duration : float) :=
  animate_frame 1%float 0%float duration easeIn.

(** One frame of both fades as the statement on them has it: the values
    lie in [0, 1]; the first frame passes progress 0 and the start value
    and goes on; a frame at or after the duration passes progress 1 and the
    end value and stops. *)
Definition frame_ok (duration startTime currentTime : float) : bool :=
  let '(p_in, v_in, more_in) := fadeIn duration currentTime startTime in
  let '(p_out, v_out, more_out) := fadeOut duration currentTime startTime in
  let elapsed := div (sub currentTime startTime) 1000%float in
  leb 0%float v_in && leb v_in 1%float
  && leb 0%float v_out && leb v_out 1%float
  && (if eqb currentTime startTime
      then eqb p_in 0%float && eqb v_in 0%float && more_in
           && eqb p_out 0%float && eqb v_out 1%float && more_out
      else true)
  && (if leb duration elapsed
      then eqb p_in 1%float && eqb v_in 1%float && negb more_in
           && eqb p_out 1%float && eqb v_out 0%float && negb more_out
      else true).

(** Durations 0.3, 0.5 and 0.8 s, first frames at 0, 1000 and 123456.7 ms,
    and 80 frames 16.7 ms apart. *)
Definition sample_durations : list float :=
  [0x1.3333333333333p-2%float; 0x1p-1%float; 0x1.999999999999ap-1%float].

Definition sample_starts : list float :=
  [0%float; 1000%float; 0x1.e240b33333333p+16%float].

Definition samples_ok : bool :=
  forallb
    (fun duration =>
       forallb
         (fun startTime =>
            forallb
              (fun k : Z =>
                 frame_ok duration startTime
                   (add startTime
                      (mul (DoubleScore.double_of_Z k)
                         0x1.0b33333333333p+4%float)))
              (seqZ 0 80))
         sample_starts)
    sample_durations.

End DoubleFade.


(* ===================================================================== *)
(** * Properties *)
(* ===================================================================== *)

(** ** Booleans of the comparison operators *)

Lemma Rltb_true a b : (a <? b) = true <-> a < b.
Proof. unfold Rltb. apply bool_decide_eq_true. Qed.

Lemma Rltb_false a b : (a <? b) = false <-> b <= a.
Proof. unfold Rltb. rewrite bool_decide_eq_false. split; lra. Qed.

Lemma Rleb_true a b : (a <=? b) = true <-> a <= b.
Proof. unfold Rleb. apply bool_decide_eq_true. Qed.

Lemma Rleb_false a b : (a <=? b) = false <-> b < a.
Proof. unfold Rleb. rewrite bool_decide_eq_false. split; lra. Qed.

Lemma Rgtb_true a b : (a >? b) = true <-> b < a.
Proof. unfold Rgtb. rewrite bool_decide_eq_true. split; lra. Qed.

Lemma Rgtb_false a b : (a >? b) = false <-> a <= b.
Proof. unfold Rgtb. rewrite bool_decide_eq_false. split; lra. Qed.

Lemma Rgeb_true a b : (a >=? b) = true <-> b <= a.
Proof. unfold Rgeb. rewrite bool_decide_eq_true. split; lra. Qed.

Lemma Rgeb_false a b : (a >=? b) = false <-> a < b.
Proof. unfold Rgeb. rewrite bool_decide_eq_false. split; lra. Qed.

(** Turns every comparison test of the goal and the context into the
    inequality it decides. *)
Ltac cmp_to_prop :=
  repeat match goal with
  | H : (_ <? _) = true |- _ => apply Rltb_true in H
  | H : (_ <? _) = false |- _ => apply Rltb_false in H
  | H : (_ <=? _) = true |- _ => apply Rleb_true in H
  | H : (_ <=? _) = false |- _ => apply Rleb_false in H
  | H : (_ >? _) = true |- _ => apply Rgtb_true in H
  | H : (_ >? _) = false |- _ => apply Rgtb_false in H
  | H : (_ >=? _) = true |- _ => apply Rgeb_true in H
  | H : (_ >=? _) = false |- _ => apply Rgeb_false in H
  end.

(** Decides one comparison test whose outcome follows from the context by
    linear arithmetic (with [PI] positive). *)
Ltac cmp_known b :=
  let H := fresh "Hcmp" in
  first
    [ assert (H : b = true)
        by (first [apply Rltb_true | apply Rleb_true
                  | apply Rgtb_true | apply Rgeb_true];
            pose proof PI_RGT_0; lra)
    | assert (H : b = false)
        by (first [apply Rltb_false | apply Rleb_false
                  | apply Rgtb_false | apply Rgeb_false];
            pose proof PI_RGT_0; lra) ];
  rewrite H; clear H.

(** ** The angle loops terminate within their fuel *)

Lemma two_pi_pos : 0 < PI * 2.
Proof. pose proof PI_RGT_0. lra. Qed.

Lemma angle_fuel_enough (a : R) : Rabs a < INR (angle_fuel a) * (PI * 2).
Proof.
  unfold angle_fuel.
  pose proof two_pi_pos as Hp.
  set (q := Rabs a / (PI * 2)).
  assert (Hq : 0 <= q).
  { unfold q. apply Rmult_le_pos; [apply Rabs_pos|].
    left. now apply Rinv_0_lt_compat. }
  destruct (archimed q) as [Hup _].
  assert (Hz : (0 <= up q)%Z).
  { apply le_IZR. lra. }
  rewrite INR_IZR_INZ, Z2Nat.id by exact Hz.
  assert (Heq : Rabs a = q * (PI * 2)).
  { unfold q. field. lra. }
  rewrite Heq. apply Rmult_lt_compat_r; lra.
Qed.

Lemma while_add_spec (lo : R) (n : nat) (a : R) :
  lo - a <= INR n * (PI * 2) ->
  exists r,
    while_fuel (fun a => a <? lo) (fun a => a + PI * 2) n a = Some r
    /\ lo <= r /\ (a < lo -> r < lo + PI * 2) /\ (lo <= a -> r = a)
    /\ exists k : Z, r = a + IZR k * (PI * 2).
Proof.
  pose proof two_pi_pos as Hp.
  revert a. induction n as [|n IH]; intros a Hn.
  - simpl in *. destruct (a <? lo) eqn:E; cmp_to_prop; [lra|].
    exists a. repeat split; try lra. exists 0%Z. lra.
  - rewrite S_INR in Hn. simpl.
    destruct (a <? lo) eqn:E; cmp_to_prop.
    + destruct (IH (a + PI * 2)) as (r & Hr & H1 & H2 & H3 & k & Hk); [lra|].
      exists r. split; [exact Hr|]. split; [exact H1|].
      split; [|split; [lra|]].
      * intros _. destruct (Rlt_le_dec (a + PI * 2) lo) as [Hl|Hl].
        -- specialize (H2 Hl). lra.
        -- specialize (H3 Hl). lra.
      * exists (k + 1)%Z. rewrite plus_IZR. lra.
    + exists a. repeat split; try lra. exists 0%Z. lra.
Qed.

Lemma while_sub_gt_spec (hi : R) (n : nat) (a : R) :
  a - hi <= INR n * (PI * 2) ->
  exists r,
    while_fuel (fun a => a >? hi) (fun a => a - PI * 2) n a = Some r
    /\ r <= hi /\ (hi < a -> hi - PI * 2 < r) /\ (a <= hi -> r = a)
    /\ exists k : Z, r = a + IZR k * (PI * 2).
Proof.
  pose proof two_pi_pos as Hp.
  revert a. induction n as [|n IH]; intros a Hn.
  - simpl in *. destruct (a >? hi) eqn:E; cmp_to_prop; [lra|].
    exists a. repeat split; try lra. exists 0%Z. lra.
  - rewrite S_INR in Hn. simpl.
    destruct (a >? hi) eqn:E; cmp_to_prop.
    + destruct (IH (a - PI * 2)) as (r & Hr & H1 & H2 & H3 & k & Hk); [lra|].
      exists r. split; [exact Hr|]. split; [exact H1|].
      split; [|split; [lra|]].
      * intros _. destruct (Rlt_le_dec hi (a - PI * 2)) as [Hl|Hl].
        -- specialize (H2 Hl). lra.
        -- specialize (H3 Hl). lra.
      * exists (k - 1)%Z. rewrite minus_IZR. lra.
    + exists a. repeat split; try lra. exists 0%Z. lra.
Qed.

Lemma while_sub_ge_spec (hi : R) (n : nat) (a : R) :
  a - hi < INR n * (PI * 2) ->
  exists r,
    while_fuel (fun a => a >=? hi) (fun a => a - PI * 2) n a = Some r
    /\ r < hi /\ (hi <= a -> hi - PI * 2 <= r) /\ (a < hi -> r = a)
    /\ exists k : Z, r = a + IZR k * (PI * 2).
Proof.
  pose proof two_pi_pos as Hp.
  revert a. induction n as [|n IH]; intros a Hn.
  - simpl in *. destruct (a >=? hi) eqn:E; cmp_to_prop; [lra|].
    exists a. repeat split; try lra. exists 0%Z. lra.
  - rewrite S_INR in Hn. simpl.
    destruct (a >=? hi) eqn:E; cmp_to_prop.
    + destruct (IH (a - PI * 2)) as (r & Hr & H1 & H2 & H3 & k & Hk); [lra|].
      exists r. split; [exact Hr|]. split; [exact H1|].
      split; [|split; [lra|]].
      * intros _. destruct (Rle_lt_dec hi (a - PI * 2)) as [Hl|Hl].
        -- specialize (H2 Hl). lra.
        -- specialize (H3 Hl). lra.
      * exists (k - 1)%Z. rewrite minus_IZR. lra.
    + exists a. repeat split; try lra. exists 0%Z. lra.
Qed.

(** [run_while] with the add loop [while (a < lo) a += 2PI], for a lower
    limit [lo <= 0]. *)
Lemma run_while_add (lo a : R) :
  lo <= 0 ->
  let r := run_while (fun a => a <? lo) (fun a => a + PI * 2) a in
  lo <= r /\ (a < lo -> r < lo + PI * 2) /\ (lo <= a -> r = a)
  /\ exists k : Z, r = a + IZR k * (PI * 2).
Proof.
  intros Hlo. unfold run_while.
  destruct (while_add_spec lo (angle_fuel a) a) as (r & -> & H); [|exact H].
  pose proof (angle_fuel_enough a). pose proof (Rle_abs (- a)).
  rewrite Rabs_Ropp in *. lra.
Qed.

(** [run_while] with [while (a > hi) a -= 2PI], for an upper limit
    [0 <= hi]. *)
Lemma run_while_sub_gt (hi a : R) :
  0 <= hi ->
  let r := run_while (fun a => a >? hi) (fun a => a - PI * 2) a in
  r <= hi /\ (hi < a -> hi - PI * 2 < r) /\ (a <= hi -> r = a)
  /\ exists k : Z, r = a + IZR k * (PI * 2).
Proof.
  intros Hhi. unfold run_while.
  destruct (while_sub_gt_spec hi (angle_fuel a) a) as (r & -> & H); [|exact H].
  pose proof (angle_fuel_enough a). pose proof (Rle_abs a). lra.
Qed.

(** [run_while] with [while (a >= hi) a -= 2PI], for an upper limit
    [0 <= hi]. *)
Lemma run_while_sub_ge (hi a : R) :
  0 <= hi ->
  let r := run_while (fun a => a >=? hi) (fun a => a - PI * 2) a in
  r < hi /\ (hi <= a -> hi - PI * 2 <= r) /\ (a < hi -> r = a)
  /\ exists k : Z, r = a + IZR k * (PI * 2).
Proof.
  intros Hhi. unfold run_while.
  destruct (while_sub_ge_spec hi (angle_fuel a) a) as (r & -> & H); [|exact H].
  pose proof (angle_fuel_enough a). pose proof (Rle_abs a). lra.
Qed.

(** More fuel never changes the result of a loop that has finished. *)
Lemma while_fuel_mono {S : Type} (cond : S -> bool) (body : S -> S)
    (n m : nat) (s r : S) :
  (n <= m)%nat ->
  while_fuel cond body n s = Some r -> while_fuel cond body m s = Some r.
Proof.
  revert m s. induction n as [|n IH]; intros m s Hle H.
  - simpl in H. destruct m; simpl; destruct (cond s); congruence.
  - destruct m as [|m]; [lia|]. simpl in *.
    destruct (cond s); [|exact H]. apply IH; [lia | exact H].
Qed.

(** ** The relative angle of [isSolidAtAngle] *)


(** A value already in [[0, 2PI)] is its own relative angle. *)
Lemma relativeAngle_of_id (p : Player) (w : R) :
  0 <= w - pl_angle p < PI * 2 -> relativeAngle_of p w = w - pl_angle p.
Proof.
  intros [Hl Hu]. unfold relativeAngle_of.
  destruct (run_while_add 0 (w - pl_angle p)) as (_ & _ & H3 & _); [lra|].
  rewrite (H3 Hl).
  destruct (run_while_sub_ge (PI * 2) (w - pl_angle p)) as (_ & _ & G3 & _).
  { pose proof two_pi_pos. lra. }
  exact (G3 Hu).
Qed.

(** ** The gap pattern of the constructed rotor *)

Lemma Player_gaps_4 :
  Player_gaps 4 (PI / 4)
  = [ (PI * 2 / 4 * 0, PI * 2 / 4 * 0 + PI / 4);
      (PI * 2 / 4 * 1, PI * 2 / 4 * 1 + PI / 4);
      (PI * 2 / 4 * 2, PI * 2 / 4 * 2 + PI / 4);
      (PI * 2 / 4 * 3, PI * 2 / 4 * 3 + PI / 4) ].
Proof. reflexivity. Qed.

(** The constructor's gaps are the four intervals of the specification. *)
Lemma Player_new_gaps (x y : R) :
  Forall2 (fun g iv => fst g = fst iv /\ snd g = snd iv)
    (gaps (Player_new x y))
    [ (0, PI / 4); (PI / 2, 3 * PI / 4); (PI, 5 * PI / 4);
      (3 * PI / 2, 7 * PI / 4) ].
Proof.
  simpl. rewrite Player_gaps_4.
  repeat constructor; simpl; lra.
Qed.

Lemma solid_outside_constructed (r : R) :
  solid_outside_gaps r (Player_gaps 4 (PI / 4)) = false
  <-> in_constructed_gap r.
Proof.
  pose proof PI_RGT_0 as Hpi.
  rewrite Player_gaps_4. unfold in_constructed_gap. simpl.
  repeat match goal with
  | |- context [?a >? ?b] => cmp_known (a >? b)
  end.
  destruct (r >=? PI * 2 / 4 * 0) eqn:E0, (r <? PI * 2 / 4 * 0 + PI / 4) eqn:F0,
    (r >=? PI * 2 / 4 * 1) eqn:E1, (r <? PI * 2 / 4 * 1 + PI / 4) eqn:F1,
    (r >=? PI * 2 / 4 * 2) eqn:E2, (r <? PI * 2 / 4 * 2 + PI / 4) eqn:F2,
    (r >=? PI * 2 / 4 * 3) eqn:E3, (r <? PI * 2 / 4 * 3 + PI / 4) eqn:F3;
    simpl; cmp_to_prop; split; intros H; try discriminate; try reflexivity;
    try lra.
Qed.

Lemma isSolidAtAngle_constructed (p : Player) (w : R) :
  gaps p = Player_gaps 4 (PI / 4) ->
  isSolidAtAngle p w = false <-> in_constructed_gap (relativeAngle_of p w).
Proof.
  intros Hg. unfold isSolidAtAngle. rewrite Hg.
  apply solid_outside_constructed.
Qed.



(** *** Away from the gap edges the answer does not feel small errors *)










(** Away from the gap edges the doubles agree with it: at 2816 world angles
    that keep more than 0.14 from every gap edge, on rotors at four angles,
    a quarter turn does not change the answer of the code's arithmetic. *)
Lemma isSolidAtAngle_quarter_turn_on_double_samples :
  DoubleRotor.samples_agree DoubleRotor.quarter_turn (fun a => a) = true.
Proof. vm_compute. reflexivity. Qed.


(** A freshly constructed rotor (angle 0) is open at world angle PI/8: the
    angle lies in the first gap, [0, PI/4). *)
Lemma isSolidAtAngle_new_pi8 (x y : R) :
  isSolidAtAngle (Player_new x y) (PI / 8) = false.
Proof.
  pose proof PI_RGT_0 as Hpi.
  apply isSolidAtAngle_constructed; [reflexivity|].
  rewrite relativeAngle_of_id; simpl; [|lra].
  left. lra.
Qed.

(** And solid at world angle 3PI/8, in the sector [PI/4, PI/2). *)
Lemma isSolidAtAngle_new_3pi8 (x y : R) :
  isSolidAtAngle (Player_new x y) (3 * PI / 8) = true.
Proof.
  pose proof PI_RGT_0 as Hpi.
  apply not_false_is_true. intros H.
  apply isSolidAtAngle_constructed in H; [|reflexivity].
  rewrite relativeAngle_of_id in H; simpl; [|lra].
  simpl in H. unfold in_constructed_gap in H. lra.
Qed.

(** ** Single iterations of the angle loops *)

Lemma run_while_add_once (lo a : R) :
  lo <= 0 -> lo - PI * 2 <= a < lo ->
  run_while (fun a => a <? lo) (fun a => a + PI * 2) a = a + PI * 2.
Proof.
  intros Hlo [Hl Hu]. pose proof PI_RGT_0 as Hpi.
  destruct (run_while_add lo a Hlo) as (H1 & H2 & _ & k & Hk).
  specialize (H2 Hu).
  set (r := run_while _ _ a) in *.
  assert (k = 1%Z) as ->; [|lra].
  assert (0 < k)%Z by (apply lt_IZR; nra).
  assert (k < 2)%Z by (apply lt_IZR; nra).
  lia.
Qed.

Lemma run_while_add_skip (lo a : R) :
  lo <= 0 -> lo <= a ->
  run_while (fun a => a <? lo) (fun a => a + PI * 2) a = a.
Proof. intros Hlo Ha. now apply (run_while_add lo a Hlo). Qed.

Lemma run_while_sub_gt_skip (hi a : R) :
  0 <= hi -> a <= hi ->
  run_while (fun a => a >? hi) (fun a => a - PI * 2) a = a.
Proof. intros Hhi Ha. now apply (run_while_sub_gt hi a Hhi). Qed.

(** ** The rotor angle after [update] *)

(** C9, as the code has it.  After [update], from any state and for any
    frame time and input, the rotor's angle lies in the closed interval
    [[0, 2PI]]: the first normalising loop runs while [angle > 2PI], so 2PI
    itself is kept, and the second brings a negative angle into
    [[0, 2PI)]. *)
Theorem Player_update_angle_range (deltaTime : R) (touch : option (R * R))
    (p : Player) :
  0 <= pl_angle (Player_update deltaTime touch p) <= PI * 2.
Proof.
  pose proof two_pi_pos as Hp.
  unfold Player_update. cbn [pl_angle].
  match goal with
  | |- context [run_while (fun a => a >? PI * 2) _ ?a0] => set (a := a0)
  end.
  destruct (run_while_sub_gt (PI * 2) a) as (H1 & _); [lra|].
  set (b := run_while (fun a => a >? PI * 2) _ a) in *.
  destruct (run_while_add 0 b) as (G1 & G2 & G3 & _); [lra|].
  set (c := run_while (fun a => a <? 0) _ b) in *.
  split; [exact G1|].
  destruct (Rlt_le_dec b 0) as [Hb|Hb].
  - specialize (G2 Hb). lra.
  - rewrite (G3 Hb). exact H1.
Qed.

Lemma atan2_on_axis_down (y : R) : y < 0 -> atan2 y 0 = - (PI / 2).
Proof.
  intros Hy. unfold atan2.
  cmp_known (0 >? 0). cmp_known (0 <? 0). cmp_known (y >? 0). cmp_known (y <? 0).
  reflexivity.
Qed.

Lemma atan2_on_axis_up (y : R) : 0 < y -> atan2 y 0 = PI / 2.
Proof.
  intros Hy. unfold atan2.
  cmp_known (0 >? 0). cmp_known (0 <? 0). cmp_known (y >? 0).
  reflexivity.
Qed.

(** Two frames of 1/32 s (31.25 ms) from the constructed rotor: a touch
    straight above the centre, then one straight below, leave the angle at
    exactly 2PI.  Both rotations are by 5/32 rad, a dyadic number, so the
    same two frames end on [Math.PI * 2] in double arithmetic as well. *)
Lemma Player_update_reaches_two_pi :
  pl_angle
    (Player_update (1 / 32) (Some (400, 641))
       (Player_update (1 / 32) (Some (400, 639)) (Player_new 400 640)))
  = PI * 2.
Proof.
  pose proof PI_RGT_0 as Hpi. pose proof PI2_1 as Hpi2.
  set (p1 := Player_update (1 / 32) (Some (400, 639)) (Player_new 400 640)).
  assert (Hp1 : pl_angle p1 = PI * 2 - 5 / 32).
  { unfold p1, Player_update. cbn [pl_angle pl_x pl_y Player_new
      rotationAcceleration maxRotationSpeed].
    replace (400 - 400) with 0 by lra.
    rewrite atan2_on_axis_down by lra.
    rewrite (run_while_sub_gt_skip PI) by lra.
    rewrite (run_while_add_skip (- PI)) by lra.
    cmp_known (- (PI / 2) - 0 >? 0).
    rewrite Rabs_left by lra.
    rewrite Rmin_right by lra.
    rewrite (run_while_sub_gt_skip (PI * 2)) by lra.
    rewrite run_while_add_once by lra.
    lra. }
  assert (Hxy : pl_x p1 = 400 /\ pl_y p1 = 640
                /\ rotationAcceleration p1 = 15 /\ maxRotationSpeed p1 = 5).
  { repeat split. }
  destruct Hxy as (Hx & Hy & Hacc & Hmax).
  unfold Player_update at 1. cbn [pl_angle].
  rewrite Hx, Hy, Hacc, Hmax, Hp1.
  replace (400 - 400) with 0 by lra.
  rewrite atan2_on_axis_up by lra.
  rewrite (run_while_sub_gt_skip PI) by lra.
  rewrite (run_while_add_once (- PI)) by lra.
  cmp_known (PI / 2 - (PI * 2 - 5 / 32) + PI * 2 >? 0).
  rewrite Rabs_right by lra.
  rewrite Rmin_right by lra.
  rewrite (run_while_sub_gt_skip (PI * 2)) by lra.
  rewrite run_while_add_skip by lra.
  lra.
Qed.

(** The half-open interval of the specification is left: after those two
    frames the angle is 2PI. *)
Lemma Player_update_angle_not_half_open :
  ~ (0 <= pl_angle
            (Player_update (1 / 32) (Some (400, 641))
               (Player_update (1 / 32) (Some (400, 639))
                  (Player_new 400 640)))
     < PI * 2).
Proof. rewrite Player_update_reaches_two_pi. lra. Qed.

(** ** ProjectilePool: the two collections partition the instances *)

Lemma array_pop_snoc {A : Type} (l : list A) (a : A) :
  array_pop (l ++ [a]) = Some (a, l).
Proof. unfold array_pop. now rewrite last_snoc, removelast_last. Qed.

Lemma array_pop_None {A : Type} (l : list A) :
  array_pop l = None <-> l = [].
Proof.
  unfold array_pop. split.
  - destruct (last l) eqn:E; [discriminate|]. intros _.
    now apply last_None in E.
  - now intros ->.
Qed.

Lemma array_pop_Some {A : Type} (l rest : list A) (a : A) :
  array_pop l = Some (a, rest) -> l = rest ++ [a].
Proof.
  destruct l as [|x l'] using rev_ind; [discriminate|].
  rewrite array_pop_snoc. now intros [= -> ->].
Qed.

(** What [acquire] does when the free list is not empty. *)
Lemma acquire_reuse (a : AcquireArgs) (P : ProjectilePool) (rest : list nat)
    (i : nat) :
  pool P = rest ++ [i] ->
  acquire_with a P
  = (i, {| objs :=
             <[i := Projectile_reset (aa_now a) (aa_x a) (aa_y a)
                      (aa_targetX a) (aa_targetY a) (aa_speed a)]> (objs P);
           pool := rest;
           active := active P ++ [i];
           initialSize := initialSize P |}).
Proof.
  intros Hp. unfold acquire_with, acquire. now rewrite Hp, array_pop_snoc.
Qed.

(** What [acquire] does when the free list is empty. *)
Lemma acquire_fresh (a : AcquireArgs) (P : ProjectilePool) :
  pool P = [] ->
  acquire_with a P
  = (length (objs P),
     {| objs :=
          objs P ++ [Projectile_reset (aa_now a) (aa_x a) (aa_y a)
                       (aa_targetX a) (aa_targetY a) (aa_speed a)];
        pool := [];
        active := active P ++ [length (objs P)];
        initialSize := initialSize P |}).
Proof.
  intros Hp. unfold acquire_with, acquire. rewrite Hp. simpl.
  do 2 f_equal.
  rewrite insert_app_r_alt by lia. now rewrite Nat.sub_diag.
Qed.

Lemma release_active (i : nat) (P : ProjectilePool) :
  i ∈ active P ->
  exists index,
    active P !! index = Some i
    /\ (forall j, (j < index)%nat -> active P !! j <> Some i)
    /\ release i P
       = {| objs := alter (set_pr_active false) i (objs P);
            pool := pool P ++ [i];
            active := delete index (active P);
            initialSize := initialSize P |}.
Proof.
  intros Hin. unfold release.
  destruct (list_find (fun j => j = i) (active P)) as [[index x]|] eqn:E.
  - apply list_find_Some in E as (Hl & -> & Hfirst).
    exists index. split; [exact Hl|]. split; [|reflexivity].
    intros j Hj Hc. exact (Hfirst j i Hc Hj eq_refl).
  - apply list_find_None in E. rewrite Forall_forall in E.
    now destruct (E i Hin).
Qed.

Lemma release_not_active (i : nat) (P : ProjectilePool) :
  i ∉ active P -> release i P = P.
Proof.
  intros Hnin. unfold release.
  destruct (list_find (fun j => j = i) (active P)) as [[index x]|] eqn:E;
    [|reflexivity].
  apply list_find_Some in E as (Hl & -> & _).
  destruct Hnin. eapply list_elem_of_lookup_2, Hl.
Qed.

Lemma pool_inv_new (now : nat -> R) (n : nat) :
  pool_inv (ProjectilePool_new now n).
Proof.
  unfold pool_inv. simpl. now rewrite app_nil_r, length_fmap, length_seq.
Qed.

Lemma snoc_cases {A : Type} (l : list A) :
  l = [] \/ exists rest a, l = rest ++ [a].
Proof.
  destruct l as [|a rest _] using rev_ind; [now left|right; eauto].
Qed.

Lemma pool_inv_acquire (a : AcquireArgs) (P : ProjectilePool) :
  pool_inv P -> pool_inv (snd (acquire_with a P)).
Proof.
  unfold pool_inv. intros Hinv.
  destruct (snoc_cases (pool P)) as [Hp|(rest & x & Hp)].
  - rewrite (acquire_fresh a P Hp). simpl.
    rewrite Hp in Hinv. simpl in Hinv.
    rewrite length_app. simpl. rewrite Nat.add_1_r, seq_S. simpl.
    now rewrite Hinv.
  - rewrite (acquire_reuse a P rest x Hp). simpl.
    rewrite length_insert, <- Hinv, Hp.
    rewrite <- !app_assoc. apply Permutation_app_head, Permutation_app_comm.
Qed.

Lemma pool_inv_release (i : nat) (P : ProjectilePool) :
  pool_inv P -> pool_inv (release i P).
Proof.
  unfold pool_inv. intros Hinv.
  destruct (decide (i ∈ active P)) as [Hin|Hnin].
  - destruct (release_active i P Hin) as (index & Hl & _ & ->). simpl.
    rewrite length_alter, <- Hinv, <- app_assoc.
    apply Permutation_app_head. simpl.
    symmetry. now apply delete_Permutation.
  - now rewrite release_not_active.
Qed.

Lemma pool_reachable_inv (P : ProjectilePool) :
  pool_reachable P -> pool_inv P.
Proof.
  induction 1 as [now n|a P _ IH|i P _ IH|f i P _ IH].
  - apply pool_inv_new.
  - now apply pool_inv_acquire.
  - now apply pool_inv_release.
  - unfold pool_inv in *. simpl. now rewrite length_alter.
Qed.

(** The invariant, read instance by instance. *)
Lemma pool_inv_exactly_one (P : ProjectilePool) :
  pool_inv P ->
  NoDup (pool P) /\ NoDup (active P)
  /\ (forall i, i ∈ pool P ++ active P <-> (i < length (objs P))%nat)
  /\ (forall i, (i < length (objs P))%nat ->
        (i ∈ pool P /\ i ∉ active P) \/ (i ∈ active P /\ i ∉ pool P)).
Proof.
  unfold pool_inv. intros Hinv.
  assert (Hnd : NoDup (pool P ++ active P)).
  { rewrite Hinv. apply NoDup_seq. }
  apply NoDup_app in Hnd as (Hn1 & Hdisj & Hn2).
  assert (Hmem : forall i,
            i ∈ pool P ++ active P <-> (i < length (objs P))%nat).
  { intros i. rewrite Hinv, elem_of_seq. lia. }
  repeat split; try assumption; try apply Hmem.
  intros i Hi. apply Hmem, elem_of_app in Hi as [Hi|Hi].
  - left. split; [exact Hi|]. now apply Hdisj.
  - right. split; [exact Hi|]. intros Hc. now apply (Hdisj i).
Qed.

(** [k] consecutive acquisitions from a pool built with [n >= k] instances
    take them from the end of the free list. *)
Lemma acquire_many_new (now : nat -> R) (n : nat) (reqs : list AcquireArgs) :
  (length reqs <= n)%nat ->
  let P := acquire_many reqs (ProjectilePool_new now n) in
  pool P = seq 0 (n - length reqs)
  /\ active P = reverse (seq (n - length reqs) (length reqs))
  /\ length (objs P) = n.
Proof.
  assert (Hgen : forall reqs P k,
    (length reqs <= k)%nat ->
    pool P = seq 0 k ->
    length (objs P) = (k + length (active P))%nat ->
    let P' := acquire_many reqs P in
    pool P' = seq 0 (k - length reqs)
    /\ active P' = active P ++ reverse (seq (k - length reqs) (length reqs))
    /\ length (objs P') = length (objs P)).
  { clear. induction reqs as [|a reqs IH]; intros P k Hk Hp Hlen.
    - cbn [acquire_many length]. rewrite Nat.sub_0_r, app_nil_r. auto.
    - cbn [length] in Hk. destruct k as [|k]; [lia|].
      rewrite seq_S in Hp. cbn [Nat.add] in Hp.
      cbn [acquire_many length].
      rewrite (acquire_reuse a P _ _ Hp). cbn [snd].
      match goal with
      | |- context [acquire_many reqs ?Q] => set (P1 := Q)
      end.
      destruct (IH P1 k) as (H1 & H2 & H3); [lia | reflexivity | |].
      { unfold P1. cbn [objs active].
        rewrite length_insert, length_app. cbn [length]. lia. }
      rewrite H1, H2, H3. unfold P1. cbn [objs active].
      rewrite length_insert.
      replace (S k - S (length reqs))%nat with (k - length reqs)%nat by lia.
      split; [reflexivity|]. split; [|reflexivity].
      rewrite <- app_assoc. f_equal.
      rewrite seq_S, reverse_app.
      replace (k - length reqs + length reqs)%nat with k by lia.
      reflexivity. }
  intros Hk. simpl.
  destruct (Hgen reqs (ProjectilePool_new now n) n Hk) as (H1 & H2 & H3).
  - reflexivity.
  - simpl. rewrite length_fmap, length_seq. lia.
  - simpl in *. rewrite H1, H2, H3, length_fmap, length_seq. auto.
Qed.

(** C7.  In every pool a program can build, each [Projectile] the pool has
    created is in exactly one of [pool] (free) and [active], once.
    [acquire] appends one instance to [active] and resets it: the instance
    popped from the free list, or a newly created one when the free list is
    empty.  [release] of an active instance moves it to the free list and
    clears its [active] flag; [release] of an instance that is not active
    changes nothing, so a second [release] is harmless.  In particular,
    after 50 acquisitions from a pool built with 50 instances, the 51st
    creates instance number 50. *)
Theorem pool_instances_in_exactly_one_collection :
  (forall P : ProjectilePool, pool_reachable P ->
     NoDup (pool P) /\ NoDup (active P)
     /\ (forall i, i ∈ pool P ++ active P -> (i < length (objs P))%nat)
     /\ (forall i, (i < length (objs P))%nat ->
           (i ∈ pool P /\ i ∉ active P) \/ (i ∈ active P /\ i ∉ pool P))
     /\ (forall a : AcquireArgs,
           let i := fst (acquire_with a P) in
           let P' := snd (acquire_with a P) in
           (i ∉ active P)
           /\ active P' = active P ++ [i]
           /\ objs P' !! i
              = Some (Projectile_reset (aa_now a) (aa_x a) (aa_y a)
                        (aa_targetX a) (aa_targetY a) (aa_speed a))
           /\ ((pool P = pool P' ++ [i]
                /\ length (objs P') = length (objs P))
               \/ (pool P = [] /\ pool P' = []
                   /\ i = length (objs P)
                   /\ length (objs P') = S (length (objs P)))))
     /\ (forall i, i ∈ active P ->
           let P' := release i P in
           pool P' = pool P ++ [i]
           /\ (i ∉ active P')
           /\ i :: active P' ≡ₚ active P
           /\ pr_active <$> objs P' !! i = Some false
           /\ release i P' = P')
     /\ (forall i, i ∉ active P -> release i P = P))
  /\ (forall (now : nat -> R) (reqs : list AcquireArgs) (a : AcquireArgs),
        length reqs = 50%nat ->
        let P := acquire_many reqs (ProjectilePool_new now 50) in
        let i := fst (acquire_with a P) in
        let P' := snd (acquire_with a P) in
        pool P = [] /\ length (objs P) = 50%nat
        /\ i = 50%nat /\ length (objs P') = 51%nat
        /\ i ∈ active P' /\ (i ∉ active P)).
Proof.
  split.
  - intros P HP.
    pose proof (pool_reachable_inv P HP) as Hinv.
    destruct (pool_inv_exactly_one P Hinv) as (Hn1 & Hn2 & Hmem & Hone).
    split; [exact Hn1|]. split; [exact Hn2|].
    split; [intros i; apply Hmem|]. split; [exact Hone|].
    split; [|split].
    + intros a i P'. subst i P'.
      destruct (snoc_cases (pool P)) as [Hp|(rest & x & Hp)].
      * rewrite (acquire_fresh a P Hp). cbn [fst snd objs pool active].
        split.
        { intros Hc.
          assert (Hlt : (length (objs P) < length (objs P))%nat).
          { apply Hmem, elem_of_app. now right. }
          lia. }
        split; [reflexivity|]. split.
        { rewrite lookup_app_r by lia. now rewrite Nat.sub_diag. }
        right. rewrite length_app. cbn [length].
        repeat split; try assumption; lia.
      * rewrite (acquire_reuse a P rest x Hp). cbn [fst snd objs pool active].
        assert (Hx : x ∈ pool P).
        { rewrite Hp. apply elem_of_app. right. constructor. }
        assert (Hlt : (x < length (objs P))%nat).
        { apply Hmem, elem_of_app. now left. }
        split.
        { destruct (Hone x Hlt) as [[_ Hna]|[_ Hnp]]; [exact Hna|].
          now destruct Hnp. }
        split; [reflexivity|]. split.
        { now apply list_lookup_insert_eq. }
        left. now rewrite length_insert.
    + intros i Hin P'. subst P'.
      destruct (release_active i P Hin) as (index & Hl & _ & ->).
      cbn [objs pool active].
      assert (Hperm : i :: delete index (active P) ≡ₚ active P).
      { symmetry. now apply delete_Permutation. }
      assert (Hnin : i ∉ delete index (active P)).
      { rewrite <- Hperm in Hn2. now apply NoDup_cons in Hn2 as [? _]. }
      split; [reflexivity|]. split; [exact Hnin|]. split; [exact Hperm|].
      split.
      { assert (Hlt : (i < length (objs P))%nat).
        { apply Hmem, elem_of_app. now right. }
        destruct (lookup_lt_is_Some_2 (objs P) i Hlt) as [o Ho].
        rewrite list_lookup_alter_eq, Ho. reflexivity. }
      now apply release_not_active.
    + intros i. apply release_not_active.
  - intros now reqs a Hlen P i P'. subst i P' P.
    destruct (acquire_many_new now 50 reqs) as (Hp & Ha & Hl); [lia|].
    rewrite Hlen in Hp, Ha. cbn [Nat.sub seq] in Hp.
    set (P := acquire_many reqs (ProjectilePool_new now 50)) in *.
    rewrite (acquire_fresh a P Hp). cbn [fst snd objs active].
    rewrite length_app, Hl. cbn [length Nat.add].
    repeat split; try reflexivity; try assumption.
    + apply elem_of_app. right. constructor.
    + rewrite Ha. rewrite elem_of_reverse, elem_of_seq. lia.
Qed.

(** ** Which statement keeps which field *)

(** Instances are chosen by the shape of the statement as written. *)
#[global] Typeclasses Opaque seq_stmt ifelse when skip assign.

#[global] Instance Keeps_skip {T : Type} (f : GameEngine -> T) :
  Keeps f skip.
Proof. intros g. reflexivity. Qed.

#[global] Instance Keeps_seq {T : Type} (f : GameEngine -> T) (s1 s2 : stmt) :
  Keeps f s1 -> Keeps f s2 -> Keeps f (s1 >> s2).
Proof. intros H1 H2 g. unfold seq_stmt. now rewrite H2, H1. Qed.

#[global] Instance Keeps_ifelse {T : Type} (f : GameEngine -> T)
    (c : GameEngine -> bool) (s1 s2 : stmt) :
  Keeps f s1 -> Keeps f s2 -> Keeps f (ifelse c s1 s2).
Proof. intros H1 H2 g. unfold ifelse. destruct (c g); [apply H1 | apply H2]. Qed.

#[global] Instance Keeps_when {T : Type} (f : GameEngine -> T)
    (c : GameEngine -> bool) (s : stmt) :
  Keeps f s -> Keeps f (when c s).
Proof. intros H. unfold when. apply _. Qed.

(** An assignment keeps every field but the one it sets; so do the
    statements that are one assignment. *)
#[global] Hint Extern 1 (Keeps _ (assign _ _)) =>
  (intros ?; reflexivity) : typeclass_instances.
#[global] Hint Extern 1 (Keeps _ (update_obj _ _)) =>
  (intros ?; reflexivity) : typeclass_instances.
#[global] Hint Extern 1 (Keeps _ (release_projectile _)) =>
  (intros ?; reflexivity) : typeclass_instances.
#[global] Hint Extern 1 (Keeps _ (log_call _)) =>
  (intros ?; reflexivity) : typeclass_instances.
#[global] Hint Extern 1 (Keeps _ (spawnFloatingScore _ _ _)) =>
  (intros ?; reflexivity) : typeclass_instances.

(** Composite statements are opened. *)
#[global] Hint Extern 2 (Keeps _ updateComboMultiplier) =>
  unfold updateComboMultiplier : typeclass_instances.
#[global] Hint Extern 2 (Keeps _ (addScore _)) =>
  unfold addScore : typeclass_instances.
#[global] Hint Extern 2 (Keeps _ gameOver) =>
  unfold gameOver : typeclass_instances.
#[global] Hint Extern 2 (Keeps _ (handleCollision _)) =>
  unfold handleCollision : typeclass_instances.
#[global] Hint Extern 2 (Keeps _ (handleDodge _)) =>
  unfold handleDodge : typeclass_instances.
#[global] Hint Extern 2 (Keeps _ resetVisualEffects) =>
  unfold resetVisualEffects : typeclass_instances.
#[global] Hint Extern 2 (Keeps _ (updateVisualEffects _)) =>
  unfold updateVisualEffects : typeclass_instances.
#[global] Hint Extern 2 (Keeps _ (updateFloatingScores _)) =>
  unfold updateFloatingScores : typeclass_instances.

(** A statement that reads the state to choose what to run. *)
#[global] Hint Extern 5 (Keeps _ (fun g => _)) =>
  (let g := fresh "g" in intros g; cbv beta zeta; apply keeps)
  : typeclass_instances.

Lemma seq_stmt_eq (s1 s2 : stmt) (g : GameEngine) : (s1 >> s2) g = s2 (s1 g).
Proof. reflexivity. Qed.

(** The last statement of a sequence does not matter to a field it keeps. *)
Lemma keeps_last {T : Type} (f : GameEngine -> T) (s1 s2 : stmt)
    (g : GameEngine) :
  Keeps f s2 -> f ((s1 >> s2) g) = f (s1 g).
Proof. intros H. apply H. Qed.

Lemma keeps_stmt {T : Type} (f : GameEngine -> T) (s : stmt)
    (g : GameEngine) :
  Keeps f s -> f (s g) = f g.
Proof. intros H. apply H. Qed.

(** Drops from [f (s g)] the trailing statements of [s] that keep [f]. *)
Ltac peel := rewrite ?keeps_last by typeclasses eauto.

(** Drops a whole statement that keeps field [f]. *)
Ltac kept f := rewrite ?(keeps_stmt f) by typeclasses eauto.

(** ** Fields that a whole PLAYING frame keeps *)

#[global] Instance scan_keeps {T : Type} (f : GameEngine -> T)
    (now : nat -> R) (i : nat) (ps : list nat) :
  (forall p, Keeps f (handleDodge p)) ->
  (forall p, Keeps f (handleCollision p)) ->
  Keeps f (scan now i ps).
Proof.
  intros Hd Hc. revert i. induction ps as [|p ps IH]; intros i g;
    [reflexivity|].
  cbn [scan].
  repeat match goal with
  | |- context [if ?b then _ else _] => destruct b
  | |- context [match player g with _ => _ end] => destruct (player g)
  end;
  rewrite ?IH; try reflexivity; [apply Hc | apply Hd].
Qed.

#[global] Instance checkCollisions_keeps {T : Type} (f : GameEngine -> T)
    (now : nat -> R) :
  (forall p, Keeps f (handleDodge p)) ->
  (forall p, Keeps f (handleCollision p)) ->
  Keeps f (checkCollisions now).
Proof.
  intros Hd Hc g. unfold checkCollisions.
  destruct (player g); [now apply scan_keeps | reflexivity].
Qed.

#[global] Instance updateProjectiles_loop_keeps {T : Type}
    (f : GameEngine -> T) (fuel index : nat) (dt : R) :
  (forall h p, Keeps f (update_obj h p)) ->
  (forall p, Keeps f (release_projectile p)) ->
  Keeps f (updateProjectiles_loop fuel index dt).
Proof.
  intros Hu Hr. revert index. induction fuel as [|n IH]; intros index g;
    [reflexivity|].
  cbn [updateProjectiles_loop].
  destruct (active (projectilePool g) !! index) as [p|]; [|reflexivity].
  rewrite seq_stmt_eq, IH. apply keeps_stmt. apply _.
Qed.

#[global] Instance updateProjectiles_keeps {T : Type} (f : GameEngine -> T)
    (dt : R) :
  (forall h p, Keeps f (update_obj h p)) ->
  (forall p, Keeps f (release_projectile p)) ->
  Keeps f (updateProjectiles dt).
Proof. intros Hu Hr g. now apply updateProjectiles_loop_keeps. Qed.

#[global] Instance spawnProjectile_keeps {T : Type} (f : GameEngine -> T)
    (random : nat -> R) (now : R) :
  (forall e, Keeps f (assign set_projectilePool e)) ->
  Keeps f (spawnProjectile random now).
Proof.
  intros H g. unfold spawnProjectile. destruct (spawn_point random).
  apply H.
Qed.

#[global] Hint Extern 2 (Keeps _ (updateSpawning _ _ _)) =>
  unfold updateSpawning : typeclass_instances.
#[global] Hint Extern 2 (Keeps _ updateDifficulty) =>
  unfold updateDifficulty : typeclass_instances.
#[global] Hint Extern 2 (Keeps _ (updatePlaying _ _)) =>
  unfold updatePlaying : typeclass_instances.
#[global] Hint Extern 2 (Keeps _ startGame) =>
  unfold startGame : typeclass_instances.

Lemma updatePlaying_keeps_difficulty (fr : Frame) (dt : R) :
  Keeps difficulty (updatePlaying fr dt).
Proof. apply _. Qed.

Lemma updatePlaying_keeps_grid (fr : Frame) (dt : R) (g : GameEngine) :
  grid (physics (updatePlaying fr dt g)) = grid (physics g).
Proof. now rewrite (keeps (f := physics) (s := updatePlaying fr dt)). Qed.


(** ** Scoring *)

Lemma difficultyBonus_cases (d : string) :
  (d = "medium" /\ difficultyBonus d = 11 / 10)
  \/ (d = "hard" /\ difficultyBonus d = 12 / 10)
  \/ (d = "extreme" /\ difficultyBonus d = 13 / 10)
  \/ (d <> "medium" /\ d <> "hard" /\ d <> "extreme"
      /\ difficultyBonus d = 1).
Proof.
  unfold difficultyBonus.
  repeat case_decide; subst; try discriminate; auto 10.
Qed.

Lemma difficultyBonus_medium : difficultyBonus "medium" = 11 / 10.
Proof.
  unfold difficultyBonus. repeat case_decide; try discriminate; congruence.
Qed.

(** For a key of the table, the bonus is the table's value. *)
Lemma difficultyBonus_of_table (d : string) (bonus : R) :
  (d, bonus) ∈ difficultyBonuses -> difficultyBonus d = bonus.
Proof.
  unfold difficultyBonuses. rewrite !elem_of_cons, elem_of_nil.
  intros [H|[H|[H|[H|[]]]]]; injection H as -> ->;
    unfold difficultyBonus; repeat case_decide; try discriminate;
    congruence.
Qed.

Lemma known_difficulty_bonus (d : string) :
  known_difficulty d -> exists bonus, (d, bonus) ∈ difficultyBonuses.
Proof.
  unfold known_difficulty. rewrite list_elem_of_fmap.
  intros [[d' bonus] [-> H]]. now exists bonus.
Qed.

(** [Math.floor] of a product that is an integer number of tenths. *)
Lemma Zfloor_tenths (n k : Z) :
  Zfloor (IZR n * (IZR k / 10)) = (n * k / 10)%Z.
Proof.
  apply Zfloor_eq.
  pose proof (Z.div_mod (n * k) 10 ltac:(lia)) as Hdm.
  pose proof (Z.mod_pos_bound (n * k) 10 ltac:(lia)) as [Hm0 Hm1].
  set (q := (n * k / 10)%Z) in *. set (m := ((n * k) mod 10)%Z) in *.
  assert (Hr : IZR n * IZR k = 10 * IZR q + IZR m).
  { rewrite <- mult_IZR, Hdm, plus_IZR, mult_IZR. reflexivity. }
  apply IZR_le in Hm0. apply IZR_lt in Hm1.
  split; lra.
Qed.

(** On doubles the score product floors to the same integer as on reals,
    for each of the five multipliers and each difficulty. *)
Lemma DoubleScore_agrees (g : GameEngine) :
  (1 <= comboMultiplier g <= 5)%Z ->
  DoubleScore.finalPoints 10 (comboMultiplier g) (difficulty g)
  = Some (finalPoints_of 10 g).
Proof.
  intros Hm.
  assert (Hc : (comboMultiplier g = 1 \/ comboMultiplier g = 2
                \/ comboMultiplier g = 3 \/ comboMultiplier g = 4
                \/ comboMultiplier g = 5)%Z) by lia.
  unfold DoubleScore.finalPoints, DoubleScore.difficultyBonus,
    finalPoints_of, difficultyBonus.
  rewrite (ZfloorZ 10), <- mult_IZR.
  replace 1 with (10 / 10) by lra.
  destruct Hc as [->|[->|[->|[->| ->]]]];
    repeat case_decide; rewrite Zfloor_tenths; vm_compute; reflexivity.
Qed.

(** *** The dodge handler *)

(** The statements the dodge handler runs on a projectile it has not
    processed before. *)
Lemma handleDodge_unfold (projectile : nat) (g : GameEngine) :
  handleDodge projectile g
  = ifelse (fun g => dodged (obj g projectile))
      skip
      (update_obj (set_dodged true) projectile >>
       update_obj (set_pr_active false) projectile >>
       assign set_combo (fun g => (combo g + 1)%Z) >>
       updateComboMultiplier >>
       assign set_projectilesDodgedThisGame
         (fun g => (projectilesDodgedThisGame g + 1)%Z) >>
       addScore 10 >>
       (fun g =>
          let basePoints := 10 in
          let finalPoints :=
            Zfloor (basePoints * IZR (comboMultiplier g)
                    * difficultyBonus (difficulty g)) in
          spawnFloatingScore finalPoints (pr_x (obj g projectile))
            (pr_y (obj g projectile)) g) >>
       release_projectile projectile)
      (log_call (CallHandleDodge projectile) g).
Proof. reflexivity. Qed.

(** On a projectile that is already marked [dodged] the handler only
    returns. *)
Lemma handleDodge_again (projectile : nat) (g : GameEngine) :
  dodged (obj g projectile) = true ->
  handleDodge projectile g = log_call (CallHandleDodge projectile) g.
Proof.
  intros Hd. rewrite handleDodge_unfold. unfold ifelse.
  change (obj (log_call (CallHandleDodge projectile) g) projectile)
    with (obj g projectile).
  now rewrite Hd.
Qed.

Lemma updateComboMultiplier_value (g : GameEngine) :
  comboMultiplier (updateComboMultiplier g) = Z.min (1 + combo g / 10) 5.
Proof. reflexivity. Qed.

Lemma addScore_score (basePoints : R) (g : GameEngine) :
  score (addScore basePoints g) = (score g + finalPoints_of basePoints g)%Z.
Proof.
  unfold addScore. peel. reflexivity.
Qed.

(** The handler on a projectile not yet marked [dodged]. *)
Lemma handleDodge_fresh (projectile : nat) (g : GameEngine) :
  dodged (obj g projectile) = false ->
  let g' := handleDodge projectile g in
  let multiplier := Z.min (1 + (combo g + 1) / 10) 5 in
  combo g' = (combo g + 1)%Z
  /\ comboMultiplier g' = multiplier
  /\ score g'
     = (score g
        + Zfloor (10 * IZR multiplier * difficultyBonus (difficulty g)))%Z
  /\ projectilesDodgedThisGame g' = (projectilesDodgedThisGame g + 1)%Z
  /\ calls g' = calls g ++ [CallHandleDodge projectile]
  /\ projectilePool g'
     = release projectile
         (set_objs
            (alter (set_pr_active false) projectile
               (alter (set_dodged true) projectile
                  (objs (projectilePool g))))
            (projectilePool g)).
Proof.
  intros Hd. cbv zeta. rewrite handleDodge_unfold. unfold ifelse.
  change (obj (log_call (CallHandleDodge projectile) g) projectile)
    with (obj g projectile).
  rewrite Hd.
  set (h := log_call (CallHandleDodge projectile) g).
  assert (Hcombo : forall X : stmt,
            Keeps combo X ->
            combo ((X >> assign set_combo (fun g => (combo g + 1)%Z)) h)
            = (combo g + 1)%Z).
  { intros X HX. rewrite seq_stmt_eq.
    change (combo (X h) + 1 = combo g + 1)%Z. now rewrite (HX h). }
  assert (Hmult : forall X : stmt,
            Keeps combo X ->
            comboMultiplier
              ((X >> assign set_combo (fun g => (combo g + 1)%Z)
                >> updateComboMultiplier) h)
            = Z.min (1 + (combo g + 1) / 10) 5).
  { intros X HX. rewrite seq_stmt_eq, updateComboMultiplier_value.
    now rewrite Hcombo. }
  repeat split.
  - peel. apply Hcombo. apply _.
  - peel. apply Hmult. apply _.
  - peel. rewrite seq_stmt_eq, addScore_score. unfold finalPoints_of.
    rewrite (ZfloorZ 10). peel. kept score. kept difficulty.
    rewrite Hmult by apply _. reflexivity.
  - peel. rewrite seq_stmt_eq.
    change (projectilesDodgedThisGame ?X) with (projectilesDodgedThisGame X).
    reflexivity.
  - kept calls. reflexivity.
  - rewrite seq_stmt_eq.
    change (projectilePool (release_projectile projectile ?X))
      with (release projectile (projectilePool X)).
    peel. reflexivity.
Qed.

Lemma handleDodge_calls (projectile : nat) (g : GameEngine) :
  calls (handleDodge projectile g) = calls g ++ [CallHandleDodge projectile].
Proof.
  destruct (dodged (obj g projectile)) eqn:Hd.
  - now rewrite handleDodge_again.
  - now apply handleDodge_fresh.
Qed.

Lemma objs_release_ne (i q : nat) (P : ProjectilePool) :
  i <> q -> objs (release i P) !!! q = objs P !!! q.
Proof.
  intros Hne. unfold release.
  destruct (list_find _ _) as [[index x]|]; [|reflexivity].
  cbn [objs]. now apply list_lookup_total_alter_ne.
Qed.

(** The dodge handler writes to the fields of its own projectile only. *)
Lemma obj_handleDodge_ne (projectile q : nat) (g : GameEngine) :
  projectile <> q -> obj (handleDodge projectile g) q = obj g q.
Proof.
  intros Hne.
  destruct (dodged (obj g projectile)) eqn:Hd.
  - now rewrite handleDodge_again.
  - destruct (handleDodge_fresh projectile g Hd) as (_ & _ & _ & _ & _ & Hp).
    unfold obj at 1. cbv zeta in Hp. rewrite Hp.
    rewrite objs_release_ne by exact Hne.
    cbn [objs set_objs].
    now rewrite !list_lookup_total_alter_ne by exact Hne.
Qed.

(** C5.  After a call of the dodge handler the multiplier is
    [min(floor(combo / 10) + 1, 5)] of the combo it leaves, for every value
    of the combo (the interval [0, 1000] of the specification included).
    The handler recomputes it on every projectile it has not processed
    before; on one already marked [dodged] it returns at once, and the
    multiplier is then the one the previous handler call left. *)
Theorem handleDodge_comboMultiplier (projectile : nat) (g : GameEngine) :
  (dodged (obj g projectile) = true -> combo_sync g) ->
  comboMultiplier (handleDodge projectile g)
  = Z.min (combo (handleDodge projectile g) / 10 + 1) 5.
Proof.
  intros Hsync.
  destruct (dodged (obj g projectile)) eqn:Hd.
  - rewrite (handleDodge_again projectile g Hd). exact (Hsync eq_refl).
  - destruct (handleDodge_fresh projectile g Hd) as (Hc & Hm & _).
    cbv zeta in Hc, Hm. rewrite Hm, Hc. f_equal. lia.
Qed.

(** Consecutive dodges of distinct projectiles, none processed before. *)
Lemma handleDodge_fold (ps : list nat) (g : GameEngine) :
  NoDup ps ->
  Forall (fun p => dodged (obj g p) = false) ps ->
  let g' := foldl (fun g p => handleDodge p g) g ps in
  combo g' = (combo g + Z.of_nat (length ps))%Z
  /\ (ps <> [] -> combo_sync g')
  /\ difficulty g' = difficulty g
  /\ (forall q, q ∉ ps -> obj g' q = obj g q).
Proof.
  revert g. induction ps as [|p ps IH]; intros g Hnd Hfresh.
  - cbn. repeat split; [lia | congruence].
  - apply NoDup_cons in Hnd as [Hp Hnd].
    apply Forall_cons in Hfresh as [Hd Hfresh].
    cbn [foldl length].
    destruct (handleDodge_fresh p g Hd) as (Hc & Hm & _).
    pose proof (keeps (f := difficulty) (s := handleDodge p) g) as Hdif.
    destruct (IH (handleDodge p g) Hnd) as (H1 & H2 & H3 & H4).
    { apply Forall_forall. intros q Hq.
      rewrite obj_handleDodge_ne by (intros ->; contradiction).
      rewrite Forall_forall in Hfresh. now apply Hfresh. }
    cbv zeta in *. rewrite H1, H3, Hc, Hdif.
    split; [lia|]. split; [|split; [reflexivity|]].
    + intros _. destruct ps as [|p' ps']; [|apply H2; discriminate].
      cbn [foldl]. unfold combo_sync. rewrite Hm, Hc. f_equal. lia.
    + intros q Hq. apply not_elem_of_cons in Hq as [Hqp Hq].
      rewrite H4 by exact Hq. now apply obj_handleDodge_ne.
Qed.

Lemma Zfloor_22 : Zfloor (10 * IZR 2 * (11 / 10)) = 22%Z.
Proof. apply Zfloor_eq. lra. Qed.

(** C6.  On each of the four difficulty levels, a dodge adds
    [floor(10 * comboMultiplier * bonus)] to the score, with the level's
    bonus from the table (1, 1.1, 1.2, 1.3) and the multiplier already
    recomputed from the incremented combo.  On "medium", from combo 0, ten
    dodges in a row leave the multiplier at 2 and the eleventh adds 22
    points. *)
Theorem handleDodge_points :
  (forall (projectile : nat) (g : GameEngine) (bonus : R),
     (difficulty g, bonus) ∈ difficultyBonuses ->
     dodged (obj g projectile) = false ->
     let g' := handleDodge projectile g in
     combo g' = (combo g + 1)%Z
     /\ comboMultiplier g' = Z.min (1 + combo g' / 10) 5
     /\ score g'
        = (score g + Zfloor (10 * IZR (comboMultiplier g') * bonus))%Z)
  /\ (forall (ps : list nat) (p11 : nat) (g : GameEngine),
        difficulty g = "medium" -> combo g = 0%Z ->
        length ps = 10%nat -> NoDup (ps ++ [p11]) ->
        Forall (fun p => dodged (obj g p) = false) (ps ++ [p11]) ->
        let g10 := foldl (fun g p => handleDodge p g) g ps in
        combo g10 = 10%Z
        /\ comboMultiplier g10 = 2%Z
        /\ comboMultiplier (handleDodge p11 g10) = 2%Z
        /\ score (handleDodge p11 g10) = (score g10 + 22)%Z).
Proof.
  split.
  - intros projectile g bonus Hbonus Hd.
    destruct (handleDodge_fresh projectile g Hd) as (Hc & Hm & Hs & _).
    cbv zeta in *. rewrite Hs, Hm, Hc.
    rewrite (difficultyBonus_of_table _ _ Hbonus). auto.
  - intros ps p11 g Hmed Hc0 Hlen Hnd Hfresh g10.
    apply NoDup_app in Hnd as (Hnd & Hdisj & _).
    apply Forall_app in Hfresh as [Hfresh Hf11].
    rewrite Forall_singleton in Hf11.
    destruct (handleDodge_fold ps g Hnd Hfresh) as (H1 & H2 & H3 & H4).
    fold g10 in H1, H2, H3, H4.
    assert (Hc10 : combo g10 = 10%Z) by (rewrite H1, Hc0, Hlen; reflexivity).
    assert (Hm10 : comboMultiplier g10 = 2%Z).
    { unfold combo_sync in H2. rewrite H2, Hc10; [reflexivity|].
      intros ->. discriminate Hlen. }
    assert (Hd11 : dodged (obj g10 p11) = false).
    { rewrite H4; [exact Hf11|].
      intros Hin. apply (Hdisj p11 Hin). constructor. }
    destruct (handleDodge_fresh p11 g10 Hd11) as (_ & Hm & Hs & _).
    cbv zeta in Hm, Hs.
    rewrite Hc10 in Hm, Hs. change (Z.min (1 + (10 + 1) / 10) 5) with 2%Z in *.
    rewrite H3, Hmed, difficultyBonus_medium, Zfloor_22 in Hs.
    auto.
Qed.

(** ** The collision scan *)

(** One iteration of the scan, by the classification of its projectile. *)
Lemma scan_cons (now : nat -> R) (i p : nat) (rest : list nat)
    (g : GameEngine) (pl : Player) :
  player g = Some pl ->
  scan now i (p :: rest) g
  = match classify (now i) pl (obj g p) with
    | Skipped => scan now (S i) rest g
    | Gap => scan now (S i) rest (handleDodge p g)
    | Solid => handleCollision p g
    end.
Proof.
  intros Hpl. cbn [scan]. rewrite Hpl.
  unfold classify, in_range, worldAngle, Rltb, Rleb.
  destruct (pr_active (obj g p)); cbn [negb]; [|reflexivity].
  destruct (bool_decide (now i - spawnTime (obj g p) < 200)); [reflexivity|].
  destruct (bool_decide _); [|reflexivity].
  destruct (isSolidAtAngle _ _); reflexivity.
Qed.

Lemma scan_no_player (now : nat -> R) (i : nat) (ps : list nat)
    (g : GameEngine) :
  player g = None -> scan now i ps g = g.
Proof.
  intros Hpl. revert i. induction ps as [|p ps IH]; intros i; [reflexivity|].
  cbn [scan]. rewrite Hpl.
  repeat match goal with
  | |- context [if ?b then _ else _] => destruct b
  end; apply IH.
Qed.

(** *** What the handlers change *)

Lemma handleCollision_fields (projectile : nat) (g : GameEngine) :
  let g' := handleCollision projectile g in
  calls g' = calls g ++ [CallHandleCollision projectile]
  /\ currentState g' = GAME_OVER
  /\ gameCount g' = (gameCount g + 1)%Z
  /\ combo g' = 0%Z
  /\ comboMultiplier g' = 1%Z
  /\ score g' = score g
  /\ physics g' = physics g.
Proof. repeat split. Qed.

(** *** Classification does not depend on the handlers run before *)

Lemma gap_calls_ext (now : nat -> R) (i : nat) (pl : Player)
    (f f' : nat -> Projectile) (ps : list nat) :
  (forall q, q ∈ ps -> f q = f' q) ->
  gap_calls now i pl f ps = gap_calls now i pl f' ps.
Proof.
  revert i. induction ps as [|p ps IH]; intros i Hext; [reflexivity|].
  cbn [gap_calls]. rewrite (Hext p) by constructor.
  rewrite IH; [reflexivity|]. intros q Hq. apply Hext. now constructor.
Qed.

Lemma none_solid_cons (now : nat -> R) (i : nat) (pl : Player)
    (f : nat -> Projectile) (p : nat) (ps : list nat) :
  none_solid now i pl f (p :: ps)
  <-> classify (now i) pl (f p) <> Solid /\ none_solid now (S i) pl f ps.
Proof.
  unfold none_solid. split.
  - intros H. split.
    + specialize (H O p eq_refl). now rewrite Nat.add_0_r in H.
    + intros j q Hq. specialize (H (S j) q Hq).
      now replace (S i + j)%nat with (i + S j)%nat by lia.
  - intros [H0 H] [|j] q Hq.
    + cbn in Hq. injection Hq as <-. now rewrite Nat.add_0_r.
    + replace (i + S j)%nat with (S i + j)%nat by lia. now apply H.
Qed.

Lemma none_solid_ext (now : nat -> R) (i : nat) (pl : Player)
    (f f' : nat -> Projectile) (ps : list nat) :
  (forall q, q ∈ ps -> f q = f' q) ->
  none_solid now i pl f ps -> none_solid now i pl f' ps.
Proof.
  intros Hext H j q Hq. rewrite <- Hext; [now apply H|].
  eapply list_elem_of_lookup_2, Hq.
Qed.

(** *** The calls of a whole scan *)

(** A scan that meets no solid classification runs the dodge handler for
    every gap classification, in scan order, and nothing else. *)
Lemma scan_none_solid (now : nat -> R) (pl : Player) (ps : list nat)
    (i : nat) (g : GameEngine) :
  player g = Some pl -> NoDup ps ->
  none_solid now i pl (obj g) ps ->
  let g' := scan now i ps g in
  calls g' = calls g ++ gap_calls now i pl (obj g) ps
  /\ gameCount g' = gameCount g
  /\ currentState g' = currentState g
  /\ player g' = player g.
Proof.
  revert i g. induction ps as [|p ps IH]; intros i g Hpl Hnd Hns.
  - cbn. now rewrite app_nil_r.
  - apply NoDup_cons in Hnd as [Hp Hnd].
    apply none_solid_cons in Hns as [Hp_ns Hns].
    cbv zeta. rewrite (scan_cons now i p ps g pl Hpl). cbn [gap_calls].
    destruct (classify (now i) pl (obj g p)) eqn:Hc; [| contradiction |].
    + rewrite decide_False by discriminate. now apply IH.
    + rewrite decide_True by reflexivity.
      pose proof (keeps (f := player) (s := handleDodge p) g) as Hk1.
      pose proof (keeps (f := currentState) (s := handleDodge p) g) as Hk3.
      pose proof (keeps (f := gameCount) (s := handleDodge p) g) as Hk4.
      assert (Hext : forall q, q ∈ ps -> obj g q = obj (handleDodge p g) q).
      { intros q Hq. symmetry. apply obj_handleDodge_ne.
        intros ->. contradiction. }
      destruct (IH (S i) (handleDodge p g)) as (H1 & H2 & H3 & H4).
      * now rewrite Hk1.
      * exact Hnd.
      * now apply (none_solid_ext _ _ _ (obj g)).
      * rewrite H1, H2, H3, H4, handleDodge_calls, Hk1, Hk3, Hk4.
        rewrite <- app_assoc. cbn [app].
        now rewrite (gap_calls_ext _ _ _ (obj g) (obj (handleDodge p g))).
Qed.

(** A scan stops at the first solid classification: the dodge handler has
    run for the gap classifications before it, the collision handler runs
    for it, and the projectiles after it are not looked at. *)
Lemma scan_first_solid (now : nat -> R) (pl : Player) (l1 : list nat)
    (p : nat) (l2 : list nat) (i : nat) (g : GameEngine) :
  player g = Some pl -> NoDup (l1 ++ p :: l2) ->
  none_solid now i pl (obj g) l1 ->
  classify (now (i + length l1)%nat) pl (obj g p) = Solid ->
  let g' := scan now i (l1 ++ p :: l2) g in
  calls g'
  = calls g ++ gap_calls now i pl (obj g) l1 ++ [CallHandleCollision p]
  /\ gameCount g' = (gameCount g + 1)%Z
  /\ currentState g' = GAME_OVER.
Proof.
  revert i g. induction l1 as [|q l1 IH]; intros i g Hpl Hnd Hns Hsolid.
  - cbn [app length gap_calls] in *. rewrite Nat.add_0_r in Hsolid.
    cbv zeta. rewrite (scan_cons now i p l2 g pl Hpl), Hsolid.
    now destruct (handleCollision_fields p g) as (-> & -> & -> & _).
  - cbn [app length] in *. apply NoDup_cons in Hnd as [Hq Hnd].
    apply none_solid_cons in Hns as [Hq_ns Hns].
    replace (i + S (length l1))%nat with (S i + length l1)%nat in Hsolid
      by lia.
    cbv zeta. rewrite (scan_cons now i q _ g pl Hpl). cbn [gap_calls].
    destruct (classify (now i) pl (obj g q)) eqn:Hc; [| contradiction |].
    + rewrite decide_False by discriminate. now apply IH.
    + rewrite decide_True by reflexivity.
      pose proof (keeps (f := player) (s := handleDodge q) g) as Hk1.
      pose proof (keeps (f := gameCount) (s := handleDodge q) g) as Hk4.
      assert (Hext : forall r, r ∈ l1 ++ p :: l2 ->
                obj g r = obj (handleDodge q g) r).
      { intros r Hr. symmetry. apply obj_handleDodge_ne.
        intros ->. contradiction. }
      destruct (IH (S i) (handleDodge q g)) as (H1 & H2 & H3).
      * now rewrite Hk1.
      * exact Hnd.
      * apply (none_solid_ext _ _ _ (obj g)); [|exact Hns].
        intros r Hr. apply Hext, elem_of_app. now left.
      * rewrite <- Hext; [exact Hsolid|].
        apply elem_of_app. right. constructor.
      * rewrite H1, H2, H3, handleDodge_calls, Hk4.
        rewrite <- !app_assoc. cbn [app].
        rewrite (gap_calls_ext _ _ _ (obj g) (obj (handleDodge q g))); auto.
        intros r Hr. apply Hext, elem_of_app. now left.
Qed.

(** Every dodge call of a scan is a scored dodge when no scanned projectile
    carries the [dodged] mark already: [projectilesDodgedThisGame] grows by
    the number of dodge calls. *)
Lemma scan_dodges_counted (now : nat -> R) (pl : Player) (ps : list nat)
    (i : nat) (g : GameEngine) :
  player g = Some pl -> NoDup ps ->
  Forall (fun p => dodged (obj g p) = false) ps ->
  exists l,
    calls (scan now i ps g) = calls g ++ l
    /\ projectilesDodgedThisGame (scan now i ps g)
       = (projectilesDodgedThisGame g
          + Z.of_nat (length (filter (fun c => is_collision_call c = false)
                                l)))%Z.
Proof.
  revert i g. induction ps as [|p ps IH]; intros i g Hpl Hnd Hfresh.
  - exists []. cbn. rewrite app_nil_r. split; [reflexivity|]. lia.
  - apply NoDup_cons in Hnd as [Hp Hnd].
    apply Forall_cons in Hfresh as [Hd Hfresh].
    rewrite (scan_cons now i p ps g pl Hpl).
    destruct (classify (now i) pl (obj g p)) eqn:Hc.
    + now apply IH.
    + exists [CallHandleCollision p].
      destruct (handleCollision_fields p g) as (-> & _).
      split; [reflexivity|].
      rewrite (keeps (f := projectilesDodgedThisGame)
                 (s := handleCollision p)).
      rewrite filter_cons_False by (cbn; discriminate).
      rewrite filter_nil. cbn [length]. lia.
    + destruct (handleDodge_fresh p g Hd) as (_ & _ & _ & Hcount & _).
      cbv zeta in Hcount.
      destruct (IH (S i) (handleDodge p g)) as (l & Hl & Hn).
      * now rewrite (keeps (f := player) (s := handleDodge p)).
      * exact Hnd.
      * apply Forall_forall. intros q Hq.
        rewrite obj_handleDodge_ne by (intros ->; contradiction).
        rewrite Forall_forall in Hfresh. now apply Hfresh.
      * exists (CallHandleDodge p :: l).
        rewrite Hl, Hn, Hcount, handleDodge_calls, <- app_assoc.
        split; [reflexivity|].
        rewrite filter_cons_True by reflexivity. cbn [length]. lia.
Qed.

(** *** The calls a scan adds to the log *)

Lemma new_calls_app (g g' : GameEngine) (l : list Call) :
  calls g' = calls g ++ l -> new_calls g g' = l.
Proof. intros H. unfold new_calls. rewrite H. apply drop_app_length. Qed.

Lemma gap_calls_no_collision (now : nat -> R) (i : nat) (pl : Player)
    (f : nat -> Projectile) (ps : list nat) :
  filter is_collision_call (gap_calls now i pl f ps) = [].
Proof.
  revert i. induction ps as [|p ps IH]; intros i; [reflexivity|].
  cbn [gap_calls]. case_decide; [|apply IH].
  rewrite filter_cons_False; [apply IH|]. cbn. tauto.
Qed.

(** A list has no solid classification, or a first one. *)
Lemma first_solid (now : nat -> R) (i : nat) (pl : Player)
    (f : nat -> Projectile) (ps : list nat) :
  none_solid now i pl f ps
  \/ exists l1 p l2,
       ps = l1 ++ p :: l2 /\ none_solid now i pl f l1
       /\ classify (now (i + length l1)%nat) pl (f p) = Solid.
Proof.
  revert i. induction ps as [|q ps IH]; intros i.
  - left. intros j p Hp. discriminate Hp.
  - destruct (decide (classify (now i) pl (f q) = Solid)) as [Hs|Hs].
    + right. exists [], q, ps. split; [reflexivity|]. split.
      * intros j p Hp. discriminate Hp.
      * cbn [length]. now rewrite Nat.add_0_r.
    + destruct (IH (S i)) as [Hn|(l1 & p & l2 & -> & Hn & Hp)].
      * left. now apply none_solid_cons.
      * right. exists (q :: l1), p, l2. split; [reflexivity|]. split.
        -- now apply none_solid_cons.
        -- cbn [length].
           now replace (i + S (length l1))%nat with (S i + length l1)%nat
             by lia.
Qed.

(** The scan list of [checkCollisions] has no repetition. *)
Lemma foldl_NoDup_snoc {A : Type} `{EqDecision A} (c : A -> bool)
    (l : list A) (acc : list A) :
  NoDup acc ->
  NoDup (foldl (fun nearby obj =>
                  if c obj && bool_decide (obj ∉ nearby)
                  then nearby ++ [obj] else nearby) acc l).
Proof.
  revert acc. induction l as [|x l IH]; intros acc Hnd; [exact Hnd|].
  cbn [foldl]. apply IH.
  destruct (c x); cbn [andb]; [|exact Hnd].
  case_bool_decide; [|exact Hnd].
  apply NoDup_app. split; [exact Hnd|]. split.
  - intros y Hy Hy'. apply list_elem_of_singleton in Hy'. now subst.
  - apply NoDup_singleton.
Qed.

Lemma getNearbyObjects_NoDup (ph : Physics) (o : ObjRef) (b : Box) :
  NoDup (getNearbyObjects ph o b).
Proof.
  unfold getNearbyObjects.
  generalize (cell_range (Zfloor (box_top b / gridSize ph))
                (Zfloor (box_bottom b / gridSize ph))) as ys.
  generalize (cell_range (Zfloor (box_left b / gridSize ph))
                (Zfloor (box_right b / gridSize ph))) as xs.
  intros xs ys.
  assert (Hgen : forall acc, NoDup acc ->
    NoDup (foldl
      (fun nearby cellX =>
         foldl
           (fun nearby cellY =>
              foldl
                (fun nearby obj =>
                   if bool_decide (obj <> o) && bool_decide (obj ∉ nearby)
                   then nearby ++ [obj] else nearby)
                nearby (default [] (grid ph !! (cellX, cellY))))
           nearby ys) acc xs)); [|apply Hgen, NoDup_nil_2].
  induction xs as [|x xs IHx]; intros acc Hacc; [exact Hacc|].
  cbn [foldl]. apply IHx. clear IHx.
  revert acc Hacc. induction ys as [|y ys IHy]; intros acc Hacc; [exact Hacc|].
  cbn [foldl]. apply IHy.
  now apply (foldl_NoDup_snoc (fun obj => bool_decide (obj <> o))).
Qed.

Lemma NoDup_omap_projectile_of (l : list ObjRef) :
  NoDup l -> NoDup (omap projectile_of l).
Proof.
  induction 1 as [|o l Ho Hnd IH]; [constructor|].
  cbn [omap]. destruct o as [|i]; cbn [projectile_of]; [exact IH|].
  apply NoDup_cons. split; [|exact IH].
  intros Hin. apply Ho.
  apply list_elem_of_omap in Hin as ([|j] & Hj & Hpj); [discriminate|].
  cbn in Hpj. now injection Hpj as ->.
Qed.

Lemma projectilesToCheck_NoDup (pl : Player) (g : GameEngine) :
  NoDup (active (projectilePool g)) -> NoDup (projectilesToCheck pl g).
Proof.
  intros Hnd. unfold projectilesToCheck.
  destruct (10 <? _)%nat.
  - apply NoDup_omap_projectile_of, NoDup_filter, getNearbyObjects_NoDup.
  - now apply NoDup_filter.
Qed.

(** C4.  In one scan by [checkCollisions], over a pool whose [active]
    array has no repeated instance: at most one call of the collision
    handler is made; when some scanned projectile is classified solid, the
    handler runs for the first such projectile in scan order, the session
    ends, and nothing after it is processed, while the dodge handler has run
    for every projectile classified as gap before it; when none is
    classified solid, the dodge handler runs for every gap classification.
    Each of these dodge calls is a scored dodge when no scanned projectile
    carries the [dodged] mark beforehand. *)
Theorem checkCollisions_first_solid_stops (now : nat -> R) (g : GameEngine)
    (pl : Player) :
  player g = Some pl ->
  NoDup (active (projectilePool g)) ->
  let ps := projectilesToCheck pl g in
  let g' := checkCollisions now g in
  (length (filter is_collision_call (new_calls g g')) <= 1)%nat
  /\ (none_solid now 0 pl (obj g) ps ->
      new_calls g g' = gap_calls now 0 pl (obj g) ps
      /\ currentState g' = currentState g
      /\ gameCount g' = gameCount g)
  /\ (forall l1 p l2,
        ps = l1 ++ p :: l2 ->
        none_solid now 0 pl (obj g) l1 ->
        classify (now (length l1)) pl (obj g p) = Solid ->
        new_calls g g'
        = gap_calls now 0 pl (obj g) l1 ++ [CallHandleCollision p]
        /\ currentState g' = GAME_OVER
        /\ gameCount g' = (gameCount g + 1)%Z)
  /\ (Forall (fun p => dodged (obj g p) = false) ps ->
      projectilesDodgedThisGame g'
      = (projectilesDodgedThisGame g
         + Z.of_nat
             (length (filter (fun c => is_collision_call c = false)
                        (new_calls g g'))))%Z).
Proof.
  intros Hpl Hnd ps g'.
  assert (Hps : NoDup ps) by now apply projectilesToCheck_NoDup.
  assert (Hg' : g' = scan now 0 ps g).
  { unfold g', checkCollisions. now rewrite Hpl. }
  assert (Hnone : none_solid now 0 pl (obj g) ps ->
            new_calls g g' = gap_calls now 0 pl (obj g) ps
            /\ currentState g' = currentState g
            /\ gameCount g' = gameCount g).
  { intros Hns. rewrite Hg'.
    destruct (scan_none_solid now pl ps 0 g Hpl Hps Hns) as (H1 & H2 & H3 & _).
    split; [now apply new_calls_app|]. now split. }
  assert (Hfirst : forall l1 p l2,
            ps = l1 ++ p :: l2 ->
            none_solid now 0 pl (obj g) l1 ->
            classify (now (length l1)) pl (obj g p) = Solid ->
            new_calls g g'
            = gap_calls now 0 pl (obj g) l1 ++ [CallHandleCollision p]
            /\ currentState g' = GAME_OVER
            /\ gameCount g' = (gameCount g + 1)%Z).
  { intros l1 p l2 Heq Hns Hsolid. rewrite Hg', Heq. rewrite Heq in Hps.
    destruct (scan_first_solid now pl l1 p l2 0 g Hpl Hps Hns Hsolid)
      as (H1 & H2 & H3).
    split; [now apply new_calls_app|]. now split. }
  split; [|split; [exact Hnone|split; [exact Hfirst|]]].
  - destruct (first_solid now 0 pl (obj g) ps)
      as [Hns|(l1 & p & l2 & Heq & Hns & Hsolid)].
    + destruct (Hnone Hns) as (-> & _).
      rewrite gap_calls_no_collision. cbn [length]. lia.
    + destruct (Hfirst l1 p l2 Heq Hns Hsolid) as (-> & _).
      rewrite filter_app, gap_calls_no_collision.
      rewrite filter_cons_True by exact I. rewrite filter_nil.
      cbn [app length]. lia.
  - intros Hfresh. rewrite Hg'.
    destruct (scan_dodges_counted now pl ps 0 g Hpl Hps Hfresh)
      as (l & Hl & Hn).
    now rewrite (new_calls_app _ _ l Hl).
Qed.

(** *** The grace period *)

Lemma classify_in_grace (now : R) (pl : Player) (o : Projectile) :
  now - spawnTime o < 200 -> classify now pl o = Skipped.
Proof.
  intros H. unfold classify. destruct (pr_active o); [|reflexivity].
  cbn [negb]. now rewrite bool_decide_eq_true_2.
Qed.

(** A scan makes no handler call for a projectile that is within its grace
    period in every iteration that looks at it. *)
Lemma scan_grace (now : nat -> R) (p : nat) (ps : list nat) (i : nat)
    (g : GameEngine) :
  (forall k, ps !! k = Some p ->
     now (i + k)%nat - spawnTime (obj g p) < 200) ->
  exists l,
    calls (scan now i ps g) = calls g ++ l
    /\ (CallHandleCollision p ∉ l) /\ (CallHandleDodge p ∉ l).
Proof.
  revert i g. induction ps as [|q ps IH]; intros i g Hgrace.
  - exists []. cbn. rewrite app_nil_r. repeat split; apply not_elem_of_nil.
  - assert (Hrest : forall g1, spawnTime (obj g1 p) = spawnTime (obj g p) ->
              forall k, ps !! k = Some p ->
                now (S i + k)%nat - spawnTime (obj g1 p) < 200).
    { intros g1 Heq k Hk. rewrite Heq.
      replace (S i + k)%nat with (i + S k)%nat by lia.
      now apply Hgrace. }
    destruct (player g) as [pl|] eqn:Hpl.
    2:{ rewrite scan_no_player by exact Hpl. exists []. rewrite app_nil_r.
        repeat split; apply not_elem_of_nil. }
    rewrite (scan_cons now i q ps g pl Hpl).
    destruct (classify (now i) pl (obj g q)) eqn:Hc.
    + apply IH. now apply Hrest.
    + assert (Hne : q <> p).
      { intros ->. rewrite classify_in_grace in Hc; [discriminate|].
        specialize (Hgrace O eq_refl). now rewrite Nat.add_0_r in Hgrace. }
      exists [CallHandleCollision q].
      destruct (handleCollision_fields q g) as (-> & _).
      split; [reflexivity|]. split.
      * intros Hin. apply list_elem_of_singleton in Hin. congruence.
      * intros Hin. apply list_elem_of_singleton in Hin. discriminate.
    + assert (Hne : q <> p).
      { intros ->. rewrite classify_in_grace in Hc; [discriminate|].
        specialize (Hgrace O eq_refl). now rewrite Nat.add_0_r in Hgrace. }
      destruct (IH (S i) (handleDodge q g)) as (l & Hl & H1 & H2).
      { apply Hrest. now rewrite obj_handleDodge_ne. }
      exists (CallHandleDodge q :: l).
      rewrite Hl, handleDodge_calls, <- app_assoc.
      split; [reflexivity|]. split.
      * apply not_elem_of_cons. split; [discriminate|exact H1].
      * apply not_elem_of_cons. split; [congruence|exact H2].
Qed.

(** C3.  A projectile whose spawn time is less than 200 ms before the
    clock sample of every scan iteration that looks at it gets neither the
    collision handler nor the dodge handler in that scan, wherever it is. *)
Theorem checkCollisions_grace_period (now : nat -> R) (g : GameEngine)
    (p : nat) :
  (forall pl k,
     player g = Some pl -> projectilesToCheck pl g !! k = Some p ->
     now k - spawnTime (obj g p) < 200) ->
  (CallHandleCollision p ∉ new_calls g (checkCollisions now g))
  /\ (CallHandleDodge p ∉ new_calls g (checkCollisions now g)).
Proof.
  intros Hgrace. unfold checkCollisions.
  destruct (player g) as [pl|] eqn:Hpl.
  - destruct (scan_grace now p (projectilesToCheck pl g) 0 g)
      as (l & Hl & H1 & H2).
    { intros k Hk. cbn [Nat.add]. now apply (Hgrace pl). }
    now rewrite (new_calls_app _ _ l Hl).
  - unfold new_calls. rewrite drop_all.
    split; apply not_elem_of_nil.
Qed.

(** ** The collision grid is never built *)

Lemma foldl_unchanged {A B : Type} (f : A -> B -> A) (a : A) (l : list B) :
  (forall x, f a x = a) -> foldl f a l = a.
Proof.
  intros Hf. induction l as [|x l IH]; [reflexivity|].
  cbn [foldl]. now rewrite Hf.
Qed.

(** With an empty grid the rotor has no neighbours. *)
Lemma getNearbyObjects_empty_grid (ph : Physics) (o : ObjRef) (b : Box) :
  grid ph = ∅ -> getNearbyObjects ph o b = [].
Proof.
  intros Hgrid. unfold getNearbyObjects.
  apply foldl_unchanged. intros cellX.
  apply foldl_unchanged. intros cellY.
  now rewrite Hgrid, lookup_empty.
Qed.

(** With an empty grid and more than ten active projectiles,
    [checkCollisions] scans nothing and changes nothing. *)
Lemma checkCollisions_many_active (now : nat -> R) (g : GameEngine) :
  grid (physics g) = ∅ ->
  (10 < length (filter (fun p => pr_active (obj g p))
                  (active (projectilePool g))))%nat ->
  checkCollisions now g = g.
Proof.
  intros Hgrid Hmany. unfold checkCollisions.
  destruct (player g) as [pl|]; [|reflexivity].
  unfold projectilesToCheck.
  apply Nat.ltb_lt in Hmany. rewrite Hmany.
  now rewrite getNearbyObjects_empty_grid.
Qed.

(** No statement of a session writes to the physics object: the grid stays
    as the constructor made it, empty. *)
Lemma startGame_keeps_grid (g : GameEngine) :
  grid (physics (startGame g)) = grid (physics g).
Proof. now rewrite (keeps (f := physics) (s := startGame)). Qed.

Lemma GameEngine_new_grid lastTime now storedGames storedDifficulty :
  grid (physics (GameEngine_new lastTime now storedGames storedDifficulty))
  = ∅.
Proof. reflexivity. Qed.

(** ** The example sessions *)

Lemma fresh_session_fields :
  currentState fresh_session = PLAYING
  /\ player fresh_session
     = Some (Player_new (GAME_WIDTH / 2) (GAME_HEIGHT / 2))
  /\ projectilePool fresh_session = ProjectilePool_new (fun _ => 0) 50
  /\ grid (physics fresh_session) = ∅
  /\ calls fresh_session = []
  /\ combo fresh_session = 0%Z
  /\ comboMultiplier fresh_session = 1%Z
  /\ score fresh_session = 0%Z
  /\ difficulty fresh_session = "medium".
Proof. repeat split. Qed.

(** Acquisitions with the same arguments from a free list [0 .. k-1]: the
    acquired instances all hold the reset values. *)
Lemma acquire_many_replicate (a : AcquireArgs) (n k : nat)
    (P : ProjectilePool) :
  (n <= k)%nat -> pool P = seq 0 k -> (k <= length (objs P))%nat ->
  Forall (fun p => (k <= p)%nat
                   /\ objs P !!! p
                      = Projectile_reset (aa_now a) (aa_x a) (aa_y a)
                          (aa_targetX a) (aa_targetY a) (aa_speed a))
    (active P) ->
  let P' := acquire_many (replicate n a) P in
  active P' = active P ++ reverse (seq (k - n) n)
  /\ Forall (fun p => objs P' !!! p
                      = Projectile_reset (aa_now a) (aa_x a) (aa_y a)
                          (aa_targetX a) (aa_targetY a) (aa_speed a))
       (active P').
Proof.
  revert k P. induction n as [|n IH]; intros k P Hn Hp Hlen Hact.
  - cbn. rewrite app_nil_r. split; [reflexivity|].
    eapply Forall_impl; [exact Hact|]. now intros p [_ H].
  - destruct k as [|k]; [lia|].
    rewrite seq_S in Hp. cbn [Nat.add] in Hp.
    cbn [replicate acquire_many].
    rewrite (acquire_reuse a P _ _ Hp). cbn [snd].
    match goal with
    | |- context [acquire_many _ ?Q] => set (P1 := Q)
    end.
    destruct (IH k P1) as (H1 & H2); [lia | reflexivity | | |].
    { unfold P1. cbn [objs]. rewrite length_insert. lia. }
    { unfold P1. cbn [objs active]. apply Forall_app. split.
      - eapply Forall_impl; [exact Hact|]. intros p [Hk Hobj].
        split; [lia|]. rewrite list_lookup_total_insert_ne by lia.
        exact Hobj.
      - apply Forall_singleton. split; [lia|].
        apply list_lookup_total_insert_eq. lia. }
    cbv zeta. split; [|exact H2]. rewrite H1.
    unfold P1. cbn [active]. rewrite <- app_assoc. f_equal.
    replace (S k - S n)%nat with (k - n)%nat by lia.
    rewrite seq_S, reverse_app.
    replace (k - n + n)%nat with k by lia. reflexivity.
Qed.

Lemma session_with_fields (n : nat) :
  (n <= 50)%nat ->
  let g := session_with n in
  currentState g = PLAYING
  /\ player g = Some (Player_new (GAME_WIDTH / 2) (GAME_HEIGHT / 2))
  /\ grid (physics g) = ∅
  /\ calls g = []
  /\ active (projectilePool g) = reverse (seq (50 - n) n)
  /\ Forall (fun p => obj g p = Projectile_reset 0 440 640 400 640 200)
       (active (projectilePool g)).
Proof.
  intros Hn.
  destruct (acquire_many_replicate spawn_in_gap n 50
              (ProjectilePool_new (fun _ => 0) 50)) as (H1 & H2).
  - exact Hn.
  - reflexivity.
  - cbn [objs ProjectilePool_new]. rewrite length_fmap, length_seq. lia.
  - constructor.
  - cbv zeta. repeat split; try reflexivity; [exact H1 | exact H2].
Qed.

Lemma checkCollisions_few_active (now : nat -> R) (g : GameEngine)
    (pl : Player) :
  player g = Some pl ->
  (length (filter (fun p => pr_active (obj g p))
             (active (projectilePool g))) <= 10)%nat ->
  checkCollisions now g
  = scan now 0
      (filter (fun p => pr_active (obj g p)) (active (projectilePool g))) g.
Proof.
  intros Hpl Hfew. unfold checkCollisions, projectilesToCheck. rewrite Hpl.
  apply Nat.ltb_ge in Hfew. now rewrite Hfew.
Qed.

Lemma gap_calls_all (now : nat -> R) (i : nat) (pl : Player)
    (f : nat -> Projectile) (ps : list nat) :
  (forall j p, ps !! j = Some p ->
     classify (now (i + j)%nat) pl (f p) = Gap) ->
  gap_calls now i pl f ps = CallHandleDodge <$> ps.
Proof.
  revert i. induction ps as [|p ps IH]; intros i Hall; [reflexivity|].
  cbn [gap_calls fmap list_fmap].
  rewrite decide_True.
  - f_equal. apply IH. intros j q Hq.
    replace (S i + j)%nat with (i + S j)%nat by lia. now apply Hall.
  - specialize (Hall O p eq_refl). now rewrite Nat.add_0_r in Hall.
Qed.

(** A projectile classified as gap is active. *)
Lemma filter_active_all_gap (t : R) (pl : Player) (g : GameEngine)
    (l : list nat) :
  Forall (fun p => classify t pl (obj g p) = Gap) l ->
  filter (fun p => pr_active (obj g p)) l = l.
Proof.
  induction 1 as [|p l Hp _ IH]; [reflexivity|].
  rewrite filter_cons_True; [now rewrite IH|].
  unfold classify in Hp.
  destruct (pr_active (obj g p)); [exact I | discriminate].
Qed.

(** The scan of a session in which every active projectile is classified
    as gap, with at most ten of them active: one dodge each. *)
Lemma checkCollisions_all_gap (t : R) (g : GameEngine) (pl : Player) :
  player g = Some pl ->
  NoDup (active (projectilePool g)) ->
  (length (active (projectilePool g)) <= 10)%nat ->
  Forall (fun p => classify t pl (obj g p) = Gap)
    (active (projectilePool g)) ->
  new_calls g (checkCollisions (fun _ => t) g)
  = CallHandleDodge <$> active (projectilePool g)
  /\ currentState (checkCollisions (fun _ => t) g) = currentState g.
Proof.
  intros Hpl Hnd Hlen Hgap.
  pose proof (filter_active_all_gap t pl g _ Hgap) as Hact.
  rewrite (checkCollisions_few_active _ g pl Hpl) by (rewrite Hact; exact Hlen).
  rewrite Hact.
  assert (Hall : forall j p, active (projectilePool g) !! j = Some p ->
            classify t pl (obj g p) = Gap).
  { intros j p Hj. rewrite Forall_forall in Hgap. apply Hgap.
    eapply list_elem_of_lookup_2, Hj. }
  destruct (scan_none_solid (fun _ => t) pl (active (projectilePool g)) 0 g
              Hpl Hnd) as (H1 & _ & H3 & _).
  { intros j p Hj. rewrite (Hall j p Hj). discriminate. }
  rewrite (gap_calls_all _ _ _ _ _ Hall) in H1.
  split; [now apply new_calls_app | exact H3].
Qed.

(** *** Classification of the example projectiles *)

Lemma atan2_right_half (y x : R) : 0 < x -> atan2 y x = atan (y / x).
Proof. intros Hx. unfold atan2. now cmp_known (x >? 0). Qed.

(** A projectile 40 pixels from the centre of a new rotor, in a direction
    [theta] of the right half plane, well after its spawn: it is in range,
    and its world angle is [theta]. *)
Lemma classify_at_angle (theta : R) :
  - (PI / 2) < theta < PI / 2 ->
  classify 1000 (Player_new (GAME_WIDTH / 2) (GAME_HEIGHT / 2))
    (Projectile_reset 0 (400 + 40 * cos theta) (640 + 40 * sin theta)
       400 640 200)
  = if isSolidAtAngle (Player_new (GAME_WIDTH / 2) (GAME_HEIGHT / 2)) theta
    then Solid else Gap.
Proof.
  intros Htheta.
  pose proof (cos_gt_0 theta (proj1 Htheta) (proj2 Htheta)) as Hcos.
  unfold classify, in_range, worldAngle.
  cbn [pr_active pr_x pr_y pr_radius spawnTime Projectile_reset negb
       pl_x pl_y pl_radius Player_new].
  unfold GAME_WIDTH, GAME_HEIGHT.
  rewrite bool_decide_eq_false_2 by lra.
  replace (400 + 40 * cos theta - 800 / 2) with (40 * cos theta) by lra.
  replace (640 + 40 * sin theta - 1280 / 2) with (40 * sin theta) by lra.
  replace (40 * cos theta * (40 * cos theta)
           + 40 * sin theta * (40 * sin theta)) with (40 * 40).
  2:{ pose proof (sin2_cos2 theta) as H. unfold Rsqr in H. nra. }
  rewrite sqrt_square by lra.
  rewrite bool_decide_eq_true_2 by lra.
  rewrite atan2_right_half by lra.
  replace (40 * sin theta / (40 * cos theta)) with (tan theta).
  2:{ unfold tan. field. lra. }
  now rewrite atan_tan.
Qed.

Lemma classify_in_gap_example :
  classify 1000 (Player_new (GAME_WIDTH / 2) (GAME_HEIGHT / 2))
    (Projectile_reset 0 440 640 400 640 200)
  = Gap.
Proof.
  pose proof PI_RGT_0 as Hpi.
  pose proof (classify_at_angle 0 ltac:(lra)) as H.
  rewrite cos_0, sin_0 in H.
  replace (400 + 40 * 1) with 440 in H by lra.
  replace (640 + 40 * 0) with 640 in H by lra.
  rewrite H.
  assert (Hgap : isSolidAtAngle
                   (Player_new (GAME_WIDTH / 2) (GAME_HEIGHT / 2)) 0 = false).
  { apply isSolidAtAngle_constructed; [reflexivity|].
    rewrite relativeAngle_of_id; cbn [pl_angle Player_new]; [|lra].
    left. lra. }
  now rewrite Hgap.
Qed.

(** The branch for more than ten active projectiles.  With ten active
    projectiles in range, past their grace period and facing a gap, the scan
    dodges all ten.  With eleven such projectiles, in a PLAYING session, the
    scan takes the grid branch, finds the grid empty, classifies none of
    them and leaves the engine as it was. *)
Lemma checkCollisions_eleven_active_scans_nothing :
  let now := fun _ : nat => 1000 in
  let rotor := Player_new (GAME_WIDTH / 2) (GAME_HEIGHT / 2) in
  (length (active (projectilePool (session_with 10))) = 10%nat
   /\ new_calls (session_with 10) (checkCollisions now (session_with 10))
      = CallHandleDodge <$> active (projectilePool (session_with 10)))
  /\ (currentState (session_with 11) = PLAYING
      /\ player (session_with 11) = Some rotor
      /\ length (active (projectilePool (session_with 11))) = 11%nat
      /\ Forall (fun p => classify 1000 rotor (obj (session_with 11) p) = Gap)
           (active (projectilePool (session_with 11)))
      /\ checkCollisions now (session_with 11) = session_with 11
      /\ new_calls (session_with 11) (checkCollisions now (session_with 11))
         = []).
Proof.
  intros now rotor.
  assert (Hclass : forall n, (n <= 50)%nat ->
            Forall (fun p => classify 1000 rotor (obj (session_with n) p) = Gap)
              (active (projectilePool (session_with n)))).
  { intros n Hn.
    destruct (session_with_fields n Hn) as (_ & _ & _ & _ & _ & Hobj).
    eapply Forall_impl; [exact Hobj|].
    intros p Hp. cbv beta in Hp. rewrite Hp. apply classify_in_gap_example. }
  split.
  - destruct (session_with_fields 10 ltac:(lia))
      as (_ & Hpl & _ & _ & Hact & _).
    cbv zeta in Hpl, Hact.
    assert (Hlen : length (active (projectilePool (session_with 10)))
                   = 10%nat).
    { now rewrite Hact, length_reverse, length_seq. }
    split; [exact Hlen|].
    apply (checkCollisions_all_gap 1000 (session_with 10) rotor Hpl).
    + rewrite Hact, reverse_Permutation. apply NoDup_seq.
    + rewrite Hlen. lia.
    + apply Hclass. lia.
  - destruct (session_with_fields 11 ltac:(lia))
      as (Hst & Hpl & Hgrid & _ & Hact & _).
    cbv zeta in Hst, Hpl, Hgrid, Hact.
    assert (Hlen : length (active (projectilePool (session_with 11)))
                   = 11%nat).
    { now rewrite Hact, length_reverse, length_seq. }
    assert (Hsame : checkCollisions now (session_with 11) = session_with 11).
    { apply checkCollisions_many_active; [exact Hgrid|].
      pose proof (filter_active_all_gap 1000 rotor (session_with 11) _
                    (Hclass 11%nat ltac:(lia))) as Hall.
      rewrite Hall, Hlen. lia. }
    repeat split; try assumption.
    + apply Hclass. lia.
    + rewrite Hsame. unfold new_calls. apply drop_all.
Qed.

(** ** The scan up to the first solid hit *)

(** A projectile classified as gap at its place in the list owes a dodge
    call. *)
Lemma gap_calls_elem (now : nat -> R) (pl : Player) (f : nat -> Projectile)
    (ps : list nat) :
  forall (i k : nat) (p : nat),
    ps !! k = Some p ->
    classify (now (i + k)%nat) pl (f p) = Gap ->
    CallHandleDodge p ∈ gap_calls now i pl f ps.
Proof.
  induction ps as [|q ps IH]; intros i k p Hk Hgap; [discriminate|].
  cbn [gap_calls]. destruct k as [|k].
  - injection Hk as ->. rewrite Nat.add_0_r in Hgap.
    rewrite decide_True by exact Hgap. apply list_elem_of_here.
  - cbn in Hk.
    replace (i + S k)%nat with (S i + k)%nat in Hgap by lia.
    pose proof (IH (S i) k p Hk Hgap) as Hin.
    case_decide; [apply list_elem_of_further|]; exact Hin.
Qed.

(** The classification of an active projectile that is past its grace
    period and in range is the answer of the gap test. *)
Lemma classify_in_range (now : R) (pl : Player) (o : Projectile) :
  pr_active o = true -> ~ now - spawnTime o < 200 -> in_range pl o ->
  classify now pl o
  = if isSolidAtAngle pl (worldAngle pl o) then Solid else Gap.
Proof.
  intros Ha Hg Hr. unfold classify. rewrite Ha. cbn [negb].
  rewrite bool_decide_eq_false_2 by exact Hg.
  rewrite bool_decide_eq_true_2 by exact Hr. reflexivity.
Qed.

(** Conversely, a projectile classified as gap or as solid is active, past
    its grace period and in range. *)
Lemma classify_inv (now : R) (pl : Player) (o : Projectile) :
  classify now pl o <> Skipped ->
  pr_active o = true /\ ~ now - spawnTime o < 200 /\ in_range pl o
  /\ isSolidAtAngle pl (worldAngle pl o)
     = bool_decide (classify now pl o = Solid).
Proof.
  unfold classify. intros H.
  destruct (pr_active o); [|contradiction]. cbn [negb] in *.
  destruct (bool_decide (now - spawnTime o < 200)) eqn:Hg; [contradiction|].
  destruct (bool_decide (in_range pl o)) eqn:Hr; [|contradiction].
  apply bool_decide_eq_false in Hg. apply bool_decide_eq_true in Hr.
  split_and!; try assumption; [reflexivity|].
  destruct (isSolidAtAngle pl (worldAngle pl o)); reflexivity.
Qed.

(** C1, as the code has it.  In one scan by [checkCollisions] with at most
    ten active projectiles, over a pool whose [active] array has no
    repeated instance, the active projectiles are taken in array order, and
    each one that is past its grace period and within the collision radius,
    and has no solid hit before it in that order, gets the handler of its
    classification: the dodge handler when the rotor is open at its angle,
    the collision handler when it is solid there.  [now k] is the clock
    sample of the iteration that looks at the projectile. *)
Theorem checkCollisions_classifies_until_solid (now : nat -> R)
    (g : GameEngine) (pl : Player) :
  player g = Some pl ->
  NoDup (active (projectilePool g)) ->
  (length (filter (fun p => pr_active (obj g p))
             (active (projectilePool g))) <= 10)%nat ->
  let ps :=
    filter (fun p => pr_active (obj g p)) (active (projectilePool g)) in
  let g' := checkCollisions now g in
  forall (k : nat) (p : nat),
    ps !! k = Some p ->
    (forall j q, (j < k)%nat -> ps !! j = Some q ->
       classify (now j) pl (obj g q) <> Solid) ->
    ~ now k - spawnTime (obj g p) < 200 ->
    in_range pl (obj g p) ->
    if isSolidAtAngle pl (worldAngle pl (obj g p))
    then CallHandleCollision p ∈ new_calls g g'
    else CallHandleDodge p ∈ new_calls g g'.
Proof.
  intros Hpl Hnd Hfew ps g' k p Hk Hbefore Hgrace Hrange.
  assert (Hg' : g' = scan now 0 ps g).
  { unfold g'. now rewrite (checkCollisions_few_active now g pl Hpl Hfew). }
  assert (Hps : NoDup ps) by (apply NoDup_filter; exact Hnd).
  assert (Hact : pr_active (obj g p) = true).
  { apply list_elem_of_lookup_2 in Hk. unfold ps in Hk.
    apply list_elem_of_filter in Hk as [Hk _].
    destruct (pr_active (obj g p)); [reflexivity|contradiction]. }
  pose proof (classify_in_range (now k) pl (obj g p) Hact Hgrace Hrange)
    as Hclass.
  pose proof (lookup_lt_Some _ _ _ Hk) as Hlt.
  assert (Hsplit : ps = take k ps ++ p :: drop (S k) ps).
  { symmetry. apply take_drop_middle. exact Hk. }
  assert (Hlen : length (take k ps) = k) by (rewrite length_take; lia).
  assert (Hns : none_solid now 0 pl (obj g) (take k ps)).
  { intros j q Hq. cbn [Nat.add].
    apply lookup_take_Some in Hq as [Hq Hj]. exact (Hbefore j q Hj Hq). }
  destruct (isSolidAtAngle pl (worldAngle pl (obj g p))).
  - rewrite Hg', Hsplit. rewrite Hsplit in Hps.
    destruct (scan_first_solid now pl (take k ps) p (drop (S k) ps) 0 g
                Hpl Hps Hns) as (H1 & _).
    { cbn [Nat.add]. rewrite Hlen. exact Hclass. }
    rewrite (new_calls_app _ _ _ H1).
    apply elem_of_app. right. apply list_elem_of_here.
  - destruct (first_solid now 0 pl (obj g) ps)
      as [Hnone|(l1 & q & l2 & Heq & Hn1 & Hq)].
    + destruct (scan_none_solid now pl ps 0 g Hpl Hps Hnone) as (H1 & _).
      rewrite Hg', (new_calls_app _ _ _ H1).
      apply (gap_calls_elem now pl (obj g) ps 0 k p Hk). exact Hclass.
    + cbn [Nat.add] in Hq.
      assert (Hq' : ps !! length l1 = Some q).
      { rewrite Heq. apply list_lookup_middle. reflexivity. }
      destruct (Nat.lt_trichotomy k (length l1)) as [Hkl|[Hkl|Hkl]].
      * assert (Hk1 : l1 !! k = Some p).
        { rewrite Heq, lookup_app_l in Hk by exact Hkl. exact Hk. }
        rewrite Heq in Hps.
        destruct (scan_first_solid now pl l1 q l2 0 g Hpl Hps Hn1 Hq)
          as (H1 & _).
        rewrite Hg', Heq, (new_calls_app _ _ _ H1).
        apply elem_of_app. left.
        apply (gap_calls_elem now pl (obj g) l1 0 k p Hk1). exact Hclass.
      * subst k. rewrite Hq' in Hk. injection Hk as ->.
        rewrite Hclass in Hq. discriminate.
      * exfalso. exact (Hbefore _ q Hkl Hq' Hq).
Qed.

(** *** Three projectiles in range at once *)

Lemma classify_at_pi8 :
  classify 1000 (Player_new (GAME_WIDTH / 2) (GAME_HEIGHT / 2))
    (Projectile_reset 0 (400 + 40 * cos (PI / 8)) (640 + 40 * sin (PI / 8))
       400 640 200)
  = Gap.
Proof.
  pose proof PI_RGT_0 as Hpi.
  rewrite classify_at_angle by lra.
  now rewrite isSolidAtAngle_new_pi8.
Qed.

Lemma classify_at_3pi8 :
  classify 1000 (Player_new (GAME_WIDTH / 2) (GAME_HEIGHT / 2))
    (Projectile_reset 0 (400 + 40 * cos (3 * PI / 8))
       (640 + 40 * sin (3 * PI / 8)) 400 640 200)
  = Solid.
Proof.
  pose proof PI_RGT_0 as Hpi.
  rewrite classify_at_angle by lra.
  now rewrite isSolidAtAngle_new_3pi8.
Qed.

Lemma session_gap_solid_gap_fields :
  let g := session_gap_solid_gap in
  let rotor := Player_new (GAME_WIDTH / 2) (GAME_HEIGHT / 2) in
  player g = Some rotor
  /\ active (projectilePool g) = [49%nat; 48%nat; 47%nat]
  /\ classify 1000 rotor (obj g 49) = Gap
  /\ classify 1000 rotor (obj g 48) = Solid
  /\ classify 1000 rotor (obj g 47) = Gap
  /\ filter (fun p => pr_active (obj g p)) (active (projectilePool g))
     = [49%nat; 48%nat; 47%nat]
  /\ projectilesToCheck rotor g = [49%nat; 48%nat; 47%nat].
Proof.
  intros g rotor.
  assert (Hp : pool (ProjectilePool_new (fun _ => 0) 50)
               = seq 0 49 ++ [49%nat]).
  { cbn [pool ProjectilePool_new]. now rewrite <- seq_S. }
  assert (Hfields : active (projectilePool g) = [49%nat; 48%nat; 47%nat]
            /\ obj g 49 = Projectile_reset 0 (400 + 40 * cos (PI / 8))
                            (640 + 40 * sin (PI / 8)) 400 640 200
            /\ obj g 48 = Projectile_reset 0 (400 + 40 * cos (3 * PI / 8))
                            (640 + 40 * sin (3 * PI / 8)) 400 640 200
            /\ obj g 47 = Projectile_reset 0 (400 + 40 * cos (PI / 8))
                            (640 + 40 * sin (PI / 8)) 400 640 200).
  { unfold g, session_gap_solid_gap, session_at_angles, assign, obj.
    cbn [projectilePool set_projectilePool fmap list_fmap].
    change (projectilePool fresh_session)
      with (ProjectilePool_new (fun _ => 0) 50).
    cbn [acquire_many].
    rewrite (acquire_reuse (spawn_at_angle (PI / 8)) _ _ _ Hp). cbn [snd].
    match goal with
    | |- context [acquire_with (spawn_at_angle (3 * PI / 8)) ?Q] =>
        set (P1 := Q)
    end.
    assert (Hp1 : pool P1 = seq 0 48 ++ [48%nat]).
    { unfold P1. cbn [pool]. now rewrite <- seq_S. }
    rewrite (acquire_reuse (spawn_at_angle (3 * PI / 8)) _ _ _ Hp1).
    cbn [snd].
    match goal with
    | |- context [acquire_with (spawn_at_angle (PI / 8)) ?Q] => set (P2 := Q)
    end.
    assert (Hp2 : pool P2 = seq 0 47 ++ [47%nat]).
    { unfold P2. cbn [pool]. now rewrite <- seq_S. }
    rewrite (acquire_reuse (spawn_at_angle (PI / 8)) _ _ _ Hp2).
    cbn [snd objs active].
    unfold P2. cbn [objs active]. unfold P1.
    cbn [objs active ProjectilePool_new app].
    split_and!; reflexivity. }
  destruct Hfields as (Hact & H49 & H48 & H47).
  assert (C49 : classify 1000 rotor (obj g 49) = Gap)
    by (rewrite H49; apply classify_at_pi8).
  assert (C48 : classify 1000 rotor (obj g 48) = Solid)
    by (rewrite H48; apply classify_at_3pi8).
  assert (C47 : classify 1000 rotor (obj g 47) = Gap)
    by (rewrite H47; apply classify_at_pi8).
  assert (Hfilter : filter (fun p => pr_active (obj g p))
                      (active (projectilePool g))
                    = [49%nat; 48%nat; 47%nat]).
  { rewrite Hact.
    rewrite !filter_cons, filter_nil, H49, H48, H47.
    cbn [pr_active Projectile_reset].
    rewrite !decide_True by exact I. reflexivity. }
  assert (Hps : projectilesToCheck rotor g = [49%nat; 48%nat; 47%nat]).
  { unfold projectilesToCheck. rewrite Hfilter. reflexivity. }
  assert (Hpl : player g = Some rotor) by reflexivity.
  exact (conj Hpl (conj Hact (conj C49 (conj C48 (conj C47
           (conj Hfilter Hps)))))).
Qed.

(** What the scan of that session does: a dodge for the first projectile, the
    collision for the second, and the session over. *)
Lemma session_gap_solid_gap_scan :
  let g := session_gap_solid_gap in
  let g' := checkCollisions (fun _ => 1000) g in
  calls g' = calls g ++ [CallHandleDodge 49; CallHandleCollision 48]
  /\ currentState g' = GAME_OVER.
Proof.
  intros g g'.
  destruct session_gap_solid_gap_fields
    as (Hpl & Hact & C49 & C48 & _ & _ & Hps).
  fold g in Hpl, Hact, C49, C48, Hps.
  unfold g', checkCollisions. rewrite Hpl, Hps.
  destruct (scan_first_solid (fun _ => 1000) _ [49%nat] 48%nat [47%nat] 0 g
              Hpl) as (H1 & _ & H3).
  - cbn [app]. repeat constructor; rewrite ?elem_of_cons, ?elem_of_nil; lia.
  - intros j q Hq. destruct j as [|j]; [|discriminate].
    injection Hq as <-. rewrite C49. discriminate.
  - exact C48.
  - cbn [app] in H1, H3. split; [|exact H3].
    rewrite H1. cbn [gap_calls]. rewrite decide_True by exact C49.
    reflexivity.
Qed.

(** The sentence of the specification fails in a PLAYING session with three
    active projectiles: the third is active, past its grace period, within
    the collision radius and faces a gap, and the scan calls no handler for
    it, because the solid hit of the second ended the scan. *)
Lemma checkCollisions_skips_after_solid :
  let g := session_gap_solid_gap in
  let rotor := Player_new (GAME_WIDTH / 2) (GAME_HEIGHT / 2) in
  let g' := checkCollisions (fun _ => 1000) g in
  currentState g = PLAYING
  /\ player g = Some rotor
  /\ (47%nat ∈ active (projectilePool g))
  /\ pr_active (obj g 47) = true
  /\ ~ 1000 - spawnTime (obj g 47) < 200
  /\ in_range rotor (obj g 47)
  /\ (CallHandleDodge 47 ∉ new_calls g g')
  /\ (CallHandleCollision 47 ∉ new_calls g g').
Proof.
  intros g rotor g'.
  destruct session_gap_solid_gap_fields as (Hpl & Hact & _ & _ & C47 & _).
  fold g rotor in Hpl, Hact, C47.
  destruct session_gap_solid_gap_scan as (Hcalls & _). fold g g' in Hcalls.
  rewrite (new_calls_app _ _ _ Hcalls).
  destruct (classify_inv 1000 rotor (obj g 47)) as (Ha & Hg & Hr & _).
  { rewrite C47. discriminate. }
  split_and!; try assumption; try reflexivity.
  - rewrite Hact. rewrite !elem_of_cons. auto.
  - rewrite !elem_of_cons, elem_of_nil. intros [H|[H|[]]]; discriminate.
  - rewrite !elem_of_cons, elem_of_nil. intros [H|[H|[]]]; [discriminate|].
    injection H. lia.
Qed.


(** *** A projectile arriving at world angle PI/8 *)

Lemma session_at_angle_fields (theta : R) :
  let g := session_at_angle theta in
  currentState g = PLAYING
  /\ player g = Some (Player_new (GAME_WIDTH / 2) (GAME_HEIGHT / 2))
  /\ active (projectilePool g) = [49%nat]
  /\ obj g 49
     = Projectile_reset 0 (400 + 40 * cos theta) (640 + 40 * sin theta)
         400 640 200
  /\ combo g = 0%Z /\ score g = 0%Z /\ difficulty g = "medium".
Proof.
  assert (Hp : pool (ProjectilePool_new (fun _ => 0) 50)
               = seq 0 49 ++ [49%nat]).
  { cbn [pool ProjectilePool_new]. now rewrite <- seq_S. }
  pose proof (acquire_reuse (spawn_at_angle theta) _ _ _ Hp) as Ha.
  cbv zeta. unfold session_at_angle, assign, obj.
  cbn [projectilePool set_projectilePool].
  change (projectilePool fresh_session)
    with (ProjectilePool_new (fun _ => 0) 50).
  rewrite Ha. cbn [snd objs active].
  repeat split.
Qed.

(** C2, as the code has it.  A new rotor (angle 0, gaps [0,PI/4),
    [PI/2,3PI/4), [PI,5PI/4), [3PI/2,7PI/4)) is open at world angle PI/8,
    which lies in the first gap: [isSolidAtAngle(PI/8)] is [false], and a
    projectile arriving there, in range and past its grace period, gets the
    dodge handler; the session goes on. *)
Theorem projectile_at_pi_8_is_dodged :
  let rotor := Player_new (GAME_WIDTH / 2) (GAME_HEIGHT / 2) in
  let g := session_at_angle (PI / 8) in
  let g' := checkCollisions (fun _ => 1000) g in
  player g = Some rotor
  /\ pl_angle rotor = 0
  /\ in_constructed_gap (PI / 8)
  /\ isSolidAtAngle rotor (PI / 8) = false
  /\ active (projectilePool g) = [49%nat]
  /\ classify 1000 rotor (obj g 49) = Gap
  /\ new_calls g g' = [CallHandleDodge 49]
  /\ currentState g' = PLAYING.
Proof.
  intros rotor g g'.
  pose proof PI_RGT_0 as Hpi.
  destruct (session_at_angle_fields (PI / 8))
    as (Hst & Hpl & Hact & Hobj & _).
  cbv zeta in Hst, Hpl, Hact, Hobj. fold g in Hst, Hpl, Hact, Hobj.
  assert (Hopen : isSolidAtAngle rotor (PI / 8) = false)
    by apply isSolidAtAngle_new_pi8.
  assert (Hgap : classify 1000 rotor (obj g 49) = Gap).
  { rewrite Hobj. unfold rotor.
    rewrite classify_at_angle by lra. fold rotor. now rewrite Hopen. }
  destruct (checkCollisions_all_gap 1000 g rotor Hpl) as (Hcalls & Hstate).
  - rewrite Hact. apply NoDup_singleton.
  - rewrite Hact. cbn [length]. lia.
  - rewrite Hact. now apply Forall_singleton.
  - fold g' in Hcalls, Hstate. rewrite Hact in Hcalls.
    assert (Hin : in_constructed_gap (PI / 8)) by (left; lra).
    rewrite Hst in Hstate.
    repeat split; assumption || reflexivity.
Qed.

(** The claim of the specification fails: the rotor is not solid at
    PI/8. *)
Lemma isSolidAtAngle_pi_8_not_solid :
  isSolidAtAngle (Player_new 400 640) (PI / 8) <> true.
Proof. rewrite isSolidAtAngle_new_pi8. discriminate. Qed.

(** ** Session invariants *)

(** *** The multiplier follows the combo throughout a session *)

Lemma combo_sync_handleDodge (p : nat) (g : GameEngine) :
  combo_sync g -> combo_sync (handleDodge p g).
Proof.
  intros Hs. unfold combo_sync.
  destruct (dodged (obj g p)) eqn:Hd.
  - now rewrite handleDodge_again.
  - destruct (handleDodge_fresh p g Hd) as (Hc & Hm & _).
    cbv zeta in Hc, Hm. rewrite Hm, Hc. f_equal. lia.
Qed.

Lemma combo_sync_scan (now : nat -> R) (i : nat) (ps : list nat)
    (g : GameEngine) :
  combo_sync g -> combo_sync (scan now i ps g).
Proof.
  revert i g. induction ps as [|p ps IH]; intros i g Hs; [exact Hs|].
  cbn [scan].
  repeat match goal with
  | |- context [if ?b then _ else _] => destruct b
  | |- context [match player g with _ => _ end] => destruct (player g)
  end;
  try (apply IH; try apply combo_sync_handleDodge; exact Hs).
  reflexivity.
Qed.

Lemma combo_sync_startGame (g : GameEngine) : combo_sync (startGame g).
Proof. reflexivity. Qed.

Lemma combo_sync_updatePlaying (fr : Frame) (dt : R) (g : GameEngine) :
  combo_sync g -> combo_sync (updatePlaying fr dt g).
Proof.
  intros Hs. unfold updatePlaying, combo_sync.
  rewrite !seq_stmt_eq.
  rewrite !(keeps_stmt combo), !(keeps_stmt comboMultiplier) by apply _.
  match goal with
  | |- context [checkCollisions ?n ?h] =>
      assert (Hh : combo_sync h);
      [| unfold checkCollisions; destruct (player h);
         [now apply combo_sync_scan | exact Hh] ]
  end.
  unfold combo_sync.
  now rewrite !(keeps_stmt combo), !(keeps_stmt comboMultiplier) by apply _.
Qed.

(** ** The frame clock *)

(** [Math.min] against the ceiling. *)
Lemma clamp_le (x : R) : Rmin x (33 / 1000) <= 33 / 1000.
Proof. apply Rmin_r. Qed.

Lemma clamp_stall : Rmin (500 / 1000) (33 / 1000) = 33 / 1000.
Proof. apply Rmin_right. lra. Qed.

(** The rotor's angle is not touched by the collision handlers. *)
#[global] Instance handleCollision_keeps_angle (p : nat) :
  Keeps (fun g => pl_angle <$> player g) (handleCollision p).
Proof.
  intros g. unfold handleCollision. rewrite !seq_stmt_eq.
  rewrite !(keeps_stmt player) by apply _.
  change (pl_angle <$> (triggerHitFlash <$> player (log_call
            (CallHandleCollision p) g)) = pl_angle <$> player g).
  rewrite (keeps_stmt player) by apply _.
  now destruct (player g).
Qed.

#[global] Instance handleDodge_keeps_angle (p : nat) :
  Keeps (fun g => pl_angle <$> player g) (handleDodge p).
Proof.
  intros g. cbv beta.
  now rewrite (keeps (f := player) (s := handleDodge p)).
Qed.

(** After the rotor's own update, nothing in a PLAYING frame moves it. *)
Lemma updatePlaying_angle (fr : Frame) (dt : R) (g : GameEngine) :
  pl_angle <$> player (updatePlaying fr dt g)
  = pl_angle <$> (Player_update dt (touch fr) <$> player g).
Proof.
  unfold updatePlaying. rewrite !seq_stmt_eq.
  rewrite !(keeps_stmt player) by apply _.
  rewrite (keeps_stmt (fun g => pl_angle <$> player g)) by apply _.
  rewrite !(keeps_stmt player) by apply _.
  reflexivity.
Qed.

(** The spawn timer of a PLAYING frame advances by the frame's time step,
    or restarts from zero after a spawn. *)
Lemma updatePlaying_spawnTimer (fr : Frame) (dt : R) (g : GameEngine) :
  spawnTimer (updatePlaying fr dt g) = spawnTimer g + dt
  \/ spawnTimer (updatePlaying fr dt g) = 0.
Proof.
  unfold updatePlaying. rewrite !seq_stmt_eq.
  rewrite !(keeps_stmt spawnTimer) by apply _.
  unfold updateSpawning. rewrite seq_stmt_eq. unfold when, ifelse.
  match goal with
  | |- context [if ?b then _ else _] => destruct b
  end.
  - right. reflexivity.
  - left. unfold skip.
    change (spawnTimer (assign set_spawnTimer ?e ?h)) with (e h).
    cbv beta. now rewrite !(keeps_stmt spawnTimer) by apply _.
Qed.

(** C8.  [gameLoop] takes the difference of the frame's timestamp and the
    previous one, in seconds, bounds it by 0.033, and only then runs the
    update, handing it the bounded value; a difference of 500 ms becomes
    0.033 s.  In a PLAYING session that value is the time step of the whole
    frame: of the rotor's rotation and of the spawn timer, for instance. *)
Theorem gameLoop_clamps_deltaTime
    (updateScreen : GameState -> Frame -> R -> stmt) (fr : Frame)
    (g : GameEngine) :
  let dt := Rmin ((currentTime fr - lastTime g) / 1000) (33 / 1000) in
  let g1 :=
    assign set_deltaTime (fun _ => dt)
      (assign set_lastTime (fun _ => currentTime fr) g) in
  dt <= 33 / 1000
  /\ (currentTime fr - lastTime g = 500 -> dt = 33 / 1000)
  /\ gameLoop updateScreen fr g = update updateScreen fr dt g1
  /\ (currentState g = PLAYING ->
      gameLoop updateScreen fr g
      = assign set_frameCount (fun g => (frameCount g + 1)%Z)
          (updatePlaying fr dt g1)
      /\ pl_angle <$> player (gameLoop updateScreen fr g)
         = pl_angle <$> (Player_update dt (touch fr) <$> player g)
      /\ (spawnTimer (gameLoop updateScreen fr g) = spawnTimer g + dt
          \/ spawnTimer (gameLoop updateScreen fr g) = 0)).
Proof.
  intros dt g1.
  assert (Hloop : gameLoop updateScreen fr g = update updateScreen fr dt g1)
    by reflexivity.
  split; [apply clamp_le|]. split.
  { intros H. unfold dt. rewrite H. apply clamp_stall. }
  split; [exact Hloop|].
  intros Hplaying.
  assert (Hupd : update updateScreen fr dt g1
                 = assign set_frameCount (fun g => (frameCount g + 1)%Z)
                     (updatePlaying fr dt g1)).
  { unfold update. rewrite seq_stmt_eq.
    change (currentState g1) with (currentState g). now rewrite Hplaying. }
  rewrite Hloop, Hupd. split; [reflexivity|].
  rewrite !(keeps_stmt player), !(keeps_stmt spawnTimer) by apply _.
  split.
  - rewrite updatePlaying_angle. reflexivity.
  - exact (updatePlaying_spawnTimer fr dt g1).
Qed.

(** ** The statements with hypotheses, at concrete sessions *)

Lemma session_with_1 :
  player (session_with 1)
  = Some (Player_new (GAME_WIDTH / 2) (GAME_HEIGHT / 2))
  /\ active (projectilePool (session_with 1)) = [49%nat]
  /\ obj (session_with 1) 49 = Projectile_reset 0 440 640 400 640 200.
Proof.
  destruct (session_with_fields 1 ltac:(lia)) as (_ & Hpl & _ & _ & Ha & Ho).
  cbv zeta in Hpl, Ha, Ho. rewrite Ha in Ho.
  change (reverse (seq (50 - 1) 1)) with [49%nat] in *.
  apply Forall_singleton in Ho. auto.
Qed.

Lemma checkCollisions_grace_period_witness :
  (CallHandleCollision 49
     ∉ new_calls (session_with 1)
         (checkCollisions (fun _ => 100) (session_with 1)))
  /\ (CallHandleDodge 49
        ∉ new_calls (session_with 1)
            (checkCollisions (fun _ => 100) (session_with 1))).
Proof.
  apply (checkCollisions_grace_period (fun _ => 100) (session_with 1) 49).
  intros pl k _ _.
  destruct session_with_1 as (_ & _ & ->).
  cbn [spawnTime Projectile_reset]. lra.
Defined.

Lemma checkCollisions_first_solid_stops_witness :
  let g := session_gap_solid_gap in
  let g' := checkCollisions (fun _ => 1000) g in
  active (projectilePool g) = [49%nat; 48%nat; 47%nat]
  /\ new_calls g g' = [CallHandleDodge 49; CallHandleCollision 48]
  /\ currentState g' = GAME_OVER
  /\ gameCount g' = (gameCount g + 1)%Z
  /\ (length (filter is_collision_call (new_calls g g')) <= 1)%nat.
Proof.
  intros g g'.
  destruct session_gap_solid_gap_fields
    as (Hpl & Hact & C49 & C48 & _ & _ & Hps).
  fold g in Hpl, Hact, C49, C48, Hps.
  assert (Hnd : NoDup (active (projectilePool g))).
  { rewrite Hact.
    repeat constructor; rewrite ?elem_of_cons, ?elem_of_nil; lia. }
  destruct (checkCollisions_first_solid_stops (fun _ => 1000) g _ Hpl Hnd)
    as (Hone & _ & Hfirst & _).
  destruct (Hfirst [49%nat] 48%nat [47%nat]) as (Hcalls & Hstate & Hcount).
  - exact Hps.
  - intros j q Hq. destruct j as [|j]; [|discriminate].
    injection Hq as <-. rewrite C49. discriminate.
  - exact C48.
  - cbn [gap_calls app] in Hcalls. rewrite decide_True in Hcalls by exact C49.
    exact (conj Hact (conj Hcalls (conj Hstate (conj Hcount Hone)))).
Defined.

Lemma checkCollisions_classifies_until_solid_witness :
  let g := session_gap_solid_gap in
  let g' := checkCollisions (fun _ => 1000) g in
  (CallHandleDodge 49 ∈ new_calls g g')
  /\ (CallHandleCollision 48 ∈ new_calls g g').
Proof.
  intros g g'.
  destruct session_gap_solid_gap_fields
    as (Hpl & Hact & C49 & C48 & _ & Hfilter & _).
  fold g in Hpl, Hact, C49, C48, Hfilter.
  assert (Hnd : NoDup (active (projectilePool g))).
  { rewrite Hact.
    repeat constructor; rewrite ?elem_of_cons, ?elem_of_nil; lia. }
  assert (Hfew : (length (filter (fun p => pr_active (obj g p))
                            (active (projectilePool g))) <= 10)%nat).
  { rewrite Hfilter. cbn [length]. lia. }
  set (rotor := Player_new (GAME_WIDTH / 2) (GAME_HEIGHT / 2)) in *.
  destruct (classify_inv 1000 rotor (obj g 49)) as (_ & G49 & R49 & S49).
  { rewrite C49. discriminate. }
  destruct (classify_inv 1000 rotor (obj g 48)) as (_ & G48 & R48 & S48).
  { rewrite C48. discriminate. }
  rewrite C49 in S49. rewrite C48 in S48.
  pose proof (checkCollisions_classifies_until_solid (fun _ => 1000) g rotor
                Hpl Hnd Hfew) as H.
  cbv zeta in H. rewrite Hfilter in H. split.
  - specialize (H 0%nat 49%nat eq_refl).
    rewrite S49 in H. apply H; [|exact G49|exact R49].
    intros j q Hj. lia.
  - specialize (H 1%nat 48%nat eq_refl).
    rewrite S48 in H. apply H; [|exact G48|exact R48].
    intros j q Hj Hq. assert (j = 0%nat) as -> by lia.
    injection Hq as <-. rewrite C49. discriminate.
Defined.

Lemma handleDodge_comboMultiplier_witness :
  comboMultiplier (handleDodge 49 (session_with 1))
  = Z.min (combo (handleDodge 49 (session_with 1)) / 10 + 1) 5.
Proof.
  apply (handleDodge_comboMultiplier 49 (session_with 1)).
  intros _. reflexivity.
Defined.

Lemma handleDodge_points_witness :
  score (handleDodge 49 (session_with 1))
  = (score (session_with 1)
     + Zfloor (10 * IZR (comboMultiplier (handleDodge 49 (session_with 1)))
               * (11 / 10)))%Z.
Proof.
  apply (proj1 handleDodge_points 49%nat (session_with 1) (11 / 10)).
  - change (difficulty (session_with 1)) with "medium".
    unfold difficultyBonuses. apply list_elem_of_further, list_elem_of_here.
  - destruct session_with_1 as (_ & _ & ->). reflexivity.
Defined.

Lemma pool_instances_witness :
  NoDup (pool (ProjectilePool_new (fun _ => 0) 50))
  /\ fst (acquire_with spawn_in_gap
            (acquire_many (replicate 50 spawn_in_gap)
               (ProjectilePool_new (fun _ => 0) 50)))
     = 50%nat.
Proof.
  split.
  - apply (proj1 pool_instances_in_exactly_one_collection
             (ProjectilePool_new (fun _ => 0) 50) (reach_new _ _)).
  - apply (proj2 pool_instances_in_exactly_one_collection (fun _ => 0)
             (replicate 50 spawn_in_gap) spawn_in_gap).
    apply length_replicate.
Defined.

Lemma gameLoop_clamps_deltaTime_witness :
  spawnTimer
    (gameLoop (fun _ _ _ g => g)
       {| currentTime := 500; touch := None; random := fun _ => 0;
          spawn_now := 500; scan_now := fun _ => 500 |}
       fresh_session)
  = spawnTimer fresh_session
    + Rmin ((500 - lastTime fresh_session) / 1000) (33 / 1000)
  \/ spawnTimer
       (gameLoop (fun _ _ _ g => g)
          {| currentTime := 500; touch := None; random := fun _ => 0;
             spawn_now := 500; scan_now := fun _ => 500 |}
          fresh_session)
     = 0.
Proof.
  apply (gameLoop_clamps_deltaTime (fun _ _ _ g => g)
           {| currentTime := 500; touch := None; random := fun _ => 0;
              spawn_now := 500; scan_now := fun _ => 500 |}
           fresh_session).
  reflexivity.
Defined.

(* ===================================================================== *)
(** * Further properties of the code *)
(* ===================================================================== *)

(** ** The rotor: periodicity, the gap pattern, and the rotation speed *)



(** Away from the gap edges the doubles agree: at the sample angles a full
    turn does not change the answer of the code's arithmetic. *)
Lemma isSolidAtAngle_full_turns_on_double_samples :
  DoubleRotor.samples_agree DoubleRotor.full_turn (fun a => a) = true.
Proof. vm_compute. reflexivity. Qed.





(** Away from the gap edges the doubles agree: at the sample angles an
    eighth of a turn negates the answer of the code's arithmetic. *)
Lemma isSolidAtAngle_eighth_turn_on_double_samples :
  DoubleRotor.samples_agree DoubleRotor.eighth_turn negb = true.
Proof. vm_compute. reflexivity. Qed.


(** ** The rotor's rotation speed *)

(** The rotation speed when no touch is held: friction, then the cut-off. *)
Lemma Player_update_coast (dt : R) (p : Player) :
  rotationSpeed (Player_update dt None p)
  = if Rabs (rotationSpeed p * (9 / 10)) <? 1 / 10 then 0
    else rotationSpeed p * (9 / 10).
Proof. reflexivity. Qed.

(** X3.  [update] keeps the rotation speed within the rotor's
    maximum, with or without a touch: with a touch the new speed is the
    bounded one towards the touch, without one the old speed shrinks. *)
Theorem Player_update_speed_bound (deltaTime : R) (touch : option (R * R))
    (p : Player) :
  0 <= rotationAcceleration p ->
  Rabs (rotationSpeed p) <= maxRotationSpeed p ->
  Rabs (rotationSpeed (Player_update deltaTime touch p))
  <= maxRotationSpeed (Player_update deltaTime touch p).
Proof.
  intros Hacc Hs.
  assert (Hmax : 0 <= maxRotationSpeed p)
    by (pose proof (Rabs_pos (rotationSpeed p)); lra).
  destruct touch as [[tx ty]|].
  - unfold Player_update. cbn [rotationSpeed maxRotationSpeed].
    match goal with
    | |- context [Rmin (Rabs ?d * _) _] => set (diff := d)
    end.
    pose proof (Rabs_pos diff) as Hd.
    assert (Hm : 0 <= Rmin (Rabs diff * rotationAcceleration p)
                        (maxRotationSpeed p) <= maxRotationSpeed p).
    { split; [apply Rmin_glb; nra | apply Rmin_r]. }
    set (m := Rmin _ _) in *.
    destruct (diff >? 0);
      [rewrite Rmult_1_r
      | replace (m * -1) with (- m) by lra; rewrite Rabs_Ropp];
      rewrite Rabs_right; lra.
  - rewrite Player_update_coast. cbn [maxRotationSpeed Player_update].
    destruct (Rabs (rotationSpeed p * (9 / 10)) <? 1 / 10).
    + rewrite Rabs_R0. exact Hmax.
    + rewrite Rabs_mult, (Rabs_right (9 / 10)) by lra.
      pose proof (Rabs_pos (rotationSpeed p)). lra.
Qed.

Lemma Player_update_speed_bound_witness :
  Rabs (rotationSpeed (Player_update (33 / 1000) (Some (500, 700))
                         (Player_new 400 640)))
  <= maxRotationSpeed (Player_update (33 / 1000) (Some (500, 700))
                         (Player_new 400 640)).
Proof.
  apply (Player_update_speed_bound (33 / 1000) (Some (500, 700))
           (Player_new 400 640)); simpl; [lra | rewrite Rabs_R0; lra].
Defined.

(** The frames of a stretch of play without a touch. *)
Lemma coast_speed (dts : list R) (p : Player) :
  let p' := foldl (fun p dt => Player_update dt None p) p dts in
  Rabs (rotationSpeed p') <= Rabs (rotationSpeed p) * (9 / 10) ^ length dts
  /\ (dts <> [] -> rotationSpeed p' = 0 \/ 1 / 10 <= Rabs (rotationSpeed p')).
Proof.
  revert p. induction dts as [|dt dts IH]; intros p; cbn [foldl length].
  - split; [simpl; lra | congruence].
  - destruct (IH (Player_update dt None p)) as [IH1 IH2].
    set (p1 := Player_update dt None p) in *.
    assert (H1 : Rabs (rotationSpeed p1) <= Rabs (rotationSpeed p) * (9 / 10)
                 /\ (rotationSpeed p1 = 0 \/ 1 / 10 <= Rabs (rotationSpeed p1))).
    { unfold p1. rewrite Player_update_coast.
      destruct (Rabs (rotationSpeed p * (9 / 10)) <? 1 / 10) eqn:E;
        cmp_to_prop.
      - rewrite Rabs_R0. pose proof (Rabs_pos (rotationSpeed p)).
        split; [lra | now left].
      - rewrite Rabs_mult, (Rabs_right (9 / 10)) in * by lra.
        split; [lra | now right]. }
    destruct H1 as [H1 H1'].
    assert (Hpow : 0 <= (9 / 10) ^ length dts) by (apply pow_le; lra).
    split.
    + cbn [pow]. nra.
    + intros _. destruct dts as [|dt' dts']; [exact H1'|].
      apply IH2. discriminate.
Qed.

Lemma pow_9_10_antitone (n m : nat) :
  (n <= m)%nat -> (9 / 10) ^ m <= (9 / 10) ^ n.
Proof.
  induction 1 as [|m Hle IH]; [lra|].
  cbn [pow]. assert (0 <= (9 / 10) ^ m) by (apply pow_le; lra). lra.
Qed.

Lemma pow_9_10_38 : 5 * (9 / 10) ^ 38 < 1 / 10.
Proof. cbn [pow]. lra. Qed.

(** X4.  Without a touch the rotor comes to rest: from any speed of
    at most the constructor's maximum (5 rad/s), after 38 or more frames
    without a touch the rotation speed is exactly 0, whatever the frame
    times are. *)
Theorem Player_update_coasts_to_rest (dts : list R) (p : Player) :
  Rabs (rotationSpeed p) <= 5 ->
  (38 <= length dts)%nat ->
  rotationSpeed (foldl (fun p dt => Player_update dt None p) p dts) = 0.
Proof.
  intros Hs Hlen.
  destruct (coast_speed dts p) as [H1 H2]. cbv zeta in H1, H2.
  set (p' := foldl _ p dts) in *.
  destruct H2 as [H2|H2]; [destruct dts; [simpl in Hlen; lia | discriminate]
                          | exact H2 |].
  exfalso.
  pose proof (pow_9_10_antitone 38 (length dts) Hlen) as Hp.
  pose proof pow_9_10_38 as H38.
  assert (0 <= (9 / 10) ^ length dts) by (apply pow_le; lra).
  pose proof (Rabs_pos (rotationSpeed p)).
  nra.
Qed.

Lemma Player_update_coasts_to_rest_witness :
  rotationSpeed
    (foldl (fun p dt => Player_update dt None p)
       (mkPlayer 400 640 30 0 5 5 15 0 4 (PI / 4) (PI / 4)
          (Player_gaps 4 (PI / 4)))
       (replicate 38 (33 / 1000)))
  = 0.
Proof.
  apply (Player_update_coasts_to_rest (replicate 38 (33 / 1000))
           (mkPlayer 400 640 30 0 5 5 15 0 4 (PI / 4) (PI / 4)
              (Player_gaps 4 (PI / 4)))).
  - cbn [rotationSpeed]. rewrite Rabs_right; lra.
  - rewrite length_replicate. lia.
Defined.

(** ** Turning towards the touch *)

(** X5.  With a touch held, [update] turns the rotor towards
    the touch direction by the shorter way and never past it: the angle
    step of the frame lies between 0 and the signed angular difference to
    the touch direction (taken in [[-PI, PI]]), provided the rotor gains at
    most the whole difference in one frame
    ([deltaTime * rotationAcceleration <= 1], which the frame clock's bound
    of 0.033 s gives for the constructor's acceleration 15). *)
Theorem Player_update_turns_towards_touch (deltaTime touch_x touch_y : R)
    (p : Player) :
  0 <= deltaTime ->
  0 <= rotationAcceleration p ->
  0 <= maxRotationSpeed p ->
  deltaTime * rotationAcceleration p <= 1 ->
  let p' := Player_update deltaTime (Some (touch_x, touch_y)) p in
  let targetAngle := atan2 (touch_y - pl_y p) (touch_x - pl_x p) in
  exists (angleDiff step : R) (k j : Z),
    angleDiff = targetAngle - pl_angle p + IZR k * (PI * 2)
    /\ - PI <= angleDiff <= PI
    /\ step = rotationSpeed p' * deltaTime
    /\ (0 <= step <= angleDiff \/ angleDiff <= step <= 0)
    /\ pl_angle p' = pl_angle p + step + IZR j * (PI * 2).
Proof.
  intros Hdt Hacc Hmax Hgain p' targetAngle.
  pose proof PI_RGT_0 as Hpi.
  set (a0 := targetAngle - pl_angle p).
  destruct (run_while_sub_gt PI a0) as (A1 & A2 & A3 & k1 & Hk1); [lra|].
  set (d1 := run_while (fun a => a >? PI) (fun a => a - PI * 2) a0) in *.
  destruct (run_while_add (- PI) d1) as (B1 & B2 & B3 & k2 & Hk2); [lra|].
  set (d := run_while (fun a => a <? - PI) (fun a => a + PI * 2) d1) in *.
  assert (Hd : - PI <= d <= PI).
  { split; [exact B1|].
    destruct (Rlt_le_dec d1 (- PI)) as [Hlt|Hge].
    - specialize (B2 Hlt). lra.
    - rewrite (B3 Hge). exact A1. }
  assert (Hspeed : rotationSpeed p'
                   = Rmin (Rabs d * rotationAcceleration p) (maxRotationSpeed p)
                     * (if d >? 0 then 1 else -1)) by reflexivity.
  set (s := rotationSpeed p') in *.
  assert (Hstep : 0 <= s * deltaTime <= d \/ d <= s * deltaTime <= 0).
  { rewrite Hspeed.
    set (m := Rmin (Rabs d * rotationAcceleration p) (maxRotationSpeed p)).
    pose proof (Rabs_pos d) as Habs.
    assert (Hm : 0 <= m <= Rabs d * rotationAcceleration p).
    { split; [apply Rmin_glb; nra | apply Rmin_l]. }
    assert (Hmd : 0 <= m * deltaTime <= Rabs d) by nra.
    destruct (d >? 0) eqn:E; cmp_to_prop.
    - left. rewrite Rabs_right in Hmd by lra. lra.
    - right. rewrite Rabs_left1 in Hmd by lra. lra. }
  assert (Hangle : exists j : Z,
            pl_angle p' = pl_angle p + s * deltaTime + IZR j * (PI * 2)).
  { unfold p', Player_update. cbn [pl_angle].
    fold targetAngle. fold a0. fold d1. fold d.
    change (Rmin (Rabs d * rotationAcceleration p) (maxRotationSpeed p)
            * (if d >? 0 then 1 else -1)) with s.
    set (b0 := pl_angle p + s * deltaTime).
    destruct (run_while_sub_gt (PI * 2) b0) as (_ & _ & _ & j1 & Hj1); [lra|].
    set (b1 := run_while (fun a => a >? PI * 2) _ b0) in *.
    destruct (run_while_add 0 b1) as (_ & _ & _ & j2 & Hj2); [lra|].
    exists (j1 + j2)%Z. rewrite plus_IZR. lra. }
  destruct Hangle as (j & Hj).
  exists d, (s * deltaTime), (k1 + k2)%Z, j.
  repeat split; try tauto; try lra.
  rewrite plus_IZR. unfold a0 in *. lra.
Qed.

Lemma Player_update_turns_towards_touch_witness :
  exists (angleDiff step : R) (k j : Z),
    angleDiff
    = atan2 (700 - pl_y (Player_new 400 640)) (500 - pl_x (Player_new 400 640))
      - pl_angle (Player_new 400 640) + IZR k * (PI * 2)
    /\ - PI <= angleDiff <= PI
    /\ step
       = rotationSpeed
           (Player_update (33 / 1000) (Some (500, 700)) (Player_new 400 640))
         * (33 / 1000)
    /\ (0 <= step <= angleDiff \/ angleDiff <= step <= 0)
    /\ pl_angle
         (Player_update (33 / 1000) (Some (500, 700)) (Player_new 400 640))
       = pl_angle (Player_new 400 640) + step + IZR j * (PI * 2).
Proof.
  apply (Player_update_turns_towards_touch (33 / 1000) 500 700
           (Player_new 400 640)); simpl; lra.
Defined.

(** ** The velocity a projectile is given *)





(** The same holds of the code's arithmetic on doubles at sample starts and
    speeds, among them the start (100, -20) with the speeds 200 and 220. *)
Lemma Projectile_reset_velocity_on_double_samples :
  DoubleReset.samples_aim = true.
Proof. vm_compute. reflexivity. Qed.


(** ** ProjectilePool: reuse order, [clear] and [update] *)

(** X7.  The pool reuses instances last in, first out: an
    [acquire] that follows the [release] of an active projectile hands out
    that very instance, reset to the new arguments, without creating one;
    the free list is as before the release and the active array holds the
    same instances. *)
Theorem release_then_acquire_reuses (a : AcquireArgs) (projectile : nat)
    (P : ProjectilePool) :
  pool_inv P ->
  projectile ∈ active P ->
  let '(q, P') := acquire_with a (release projectile P) in
  q = projectile
  /\ objs P' !! projectile
     = Some (Projectile_reset (aa_now a) (aa_x a) (aa_y a) (aa_targetX a)
               (aa_targetY a) (aa_speed a))
  /\ length (objs P') = length (objs P)
  /\ pool P' = pool P
  /\ active P' ≡ₚ active P.
Proof.
  intros Hinv Hin.
  destruct (release_active projectile P Hin) as (index & Hl & _ & Hrel).
  rewrite (acquire_reuse a (release projectile P) (pool P) projectile)
    by (rewrite Hrel; reflexivity).
  rewrite Hrel. cbn [objs pool active].
  assert (Hlt : (projectile < length (objs P))%nat).
  { apply (pool_inv_exactly_one P Hinv), elem_of_app. now right. }
  split_and!; try reflexivity.
  - apply list_lookup_insert_eq. now rewrite length_alter.
  - now rewrite length_insert, length_alter.
  - rewrite <- Permutation_cons_append. symmetry.
    now apply delete_Permutation.
Qed.

Lemma release_then_acquire_reuses_witness :
  let '(q, P') :=
    acquire_with spawn_in_gap
      (release 49 (snd (acquire_with spawn_in_gap
                          (ProjectilePool_new (fun _ => 0) 50)))) in
  q = 49%nat
  /\ objs P' !! 49%nat
     = Some (Projectile_reset (aa_now spawn_in_gap) (aa_x spawn_in_gap)
               (aa_y spawn_in_gap) (aa_targetX spawn_in_gap)
               (aa_targetY spawn_in_gap) (aa_speed spawn_in_gap))
  /\ length (objs P')
     = length (objs (snd (acquire_with spawn_in_gap
                            (ProjectilePool_new (fun _ => 0) 50))))
  /\ pool P'
     = pool (snd (acquire_with spawn_in_gap
                    (ProjectilePool_new (fun _ => 0) 50)))
  /\ active P'
     ≡ₚ active (snd (acquire_with spawn_in_gap
                       (ProjectilePool_new (fun _ => 0) 50))).
Proof.
  apply (release_then_acquire_reuses spawn_in_gap 49
           (snd (acquire_with spawn_in_gap
                   (ProjectilePool_new (fun _ => 0) 50)))).
  - apply pool_inv_acquire, pool_inv_new.
  - rewrite (acquire_reuse spawn_in_gap _ (seq 0 49) 49) by reflexivity.
    cbn [snd active ProjectilePool_new app]. apply list_elem_of_singleton.
    reflexivity.
Defined.

(** [release] of the first element of the active array. *)
Lemma release_head (first : nat) (rest : list nat) (P : ProjectilePool) :
  active P = first :: rest ->
  release first P
  = {| objs := alter (set_pr_active false) first (objs P);
       pool := pool P ++ [first];
       active := rest;
       initialSize := initialSize P |}.
Proof.
  intros Ha. unfold release. rewrite Ha. cbn [list_find].
  rewrite decide_True by reflexivity. reflexivity.
Qed.

Lemma clear_loop_spec (fuel : nat) (P : ProjectilePool) :
  (length (active P) <= fuel)%nat ->
  active (clear_loop fuel P) = []
  /\ pool (clear_loop fuel P) = pool P ++ active P
  /\ initialSize (clear_loop fuel P) = initialSize P
  /\ length (objs (clear_loop fuel P)) = length (objs P)
  /\ forall i,
       objs (clear_loop fuel P) !! i
       = (fun o => if bool_decide (i ∈ active P)
                   then set_pr_active false o else o) <$> objs P !! i.
Proof.
  revert P. induction fuel as [|n IH]; intros P Hlen.
  - destruct (active P) as [|first rest] eqn:Ha; [|simpl in Hlen; lia].
    cbn [clear_loop]. rewrite Ha. rewrite app_nil_r.
    split_and!; try reflexivity; try exact Ha.
    intros i. rewrite bool_decide_eq_false_2 by apply not_elem_of_nil.
    now destruct (objs P !! i).
  - cbn [clear_loop].
    destruct (active P) as [|first rest] eqn:Ha.
    + rewrite Ha, app_nil_r. split_and!; try reflexivity; try exact Ha.
      intros i. rewrite bool_decide_eq_false_2 by apply not_elem_of_nil.
      now destruct (objs P !! i).
    + pose proof (release_head first rest P Ha) as Hrel.
      destruct (IH (release first P)) as (I1 & I2 & I3 & I4 & I5).
      { rewrite Hrel. simpl in *. lia. }
      rewrite Hrel in I2, I3, I4, I5. cbn [pool active objs initialSize] in *.
      rewrite <- Hrel in *.
      split_and!; try assumption.
      * rewrite I2, <- app_assoc. reflexivity.
      * now rewrite I4, length_alter.
      * intros i. rewrite I5.
        destruct (decide (i = first)) as [->|Hne].
        -- rewrite list_lookup_alter_eq.
           rewrite (bool_decide_eq_true_2 (first ∈ first :: rest))
             by apply list_elem_of_here.
           destruct (objs P !! first) as [o|]; [|reflexivity].
           cbn [fmap option_fmap option_map]. f_equal.
           now destruct (bool_decide (first ∈ rest)).
        -- rewrite list_lookup_alter_ne by congruence.
           destruct (objs P !! i) as [o|]; [|reflexivity].
           cbn [fmap option_fmap option_map]. f_equal.
           destruct (decide (i ∈ rest)) as [Hin|Hnin].
           ++ rewrite !bool_decide_eq_true_2;
                [reflexivity | now apply list_elem_of_further | exact Hin].
           ++ rewrite !bool_decide_eq_false_2; [reflexivity | | exact Hnin].
              intros [?|?]%elem_of_cons; [congruence | contradiction].
Qed.

(** X8.  [clear()] empties the active array, whatever it holds: every
    projectile that was active is appended to the free list, in array order,
    and has its [active] flag cleared; no other field of any instance
    changes, and no instance is created or lost. *)
Theorem clear_returns_all (P : ProjectilePool) :
  active (clear P) = []
  /\ pool (clear P) = pool P ++ active P
  /\ length (objs (clear P)) = length (objs P)
  /\ forall i,
       objs (clear P) !! i
       = (fun o => if bool_decide (i ∈ active P)
                   then set_pr_active false o else o) <$> objs P !! i.
Proof.
  destruct (clear_loop_spec (length (active P)) P) as (H1 & H2 & _ & H4 & H5);
    [lia|].
  unfold clear. auto.
Qed.

(** [release] of a projectile that occurs once in the active array. *)
Lemma release_at (p : nat) (l1 l2 : list nat) (P : ProjectilePool) :
  active P = l1 ++ p :: l2 ->
  p ∉ l1 ->
  release p P
  = {| objs := alter (set_pr_active false) p (objs P);
       pool := pool P ++ [p];
       active := l1 ++ l2;
       initialSize := initialSize P |}.
Proof.
  intros Ha Hnin.
  destruct (release_active p P) as (index & Hl & Hfirst & ->).
  { rewrite Ha, elem_of_app. right. apply list_elem_of_here. }
  f_equal. rewrite Ha in *.
  assert (index = length l1) as ->; [|apply delete_middle].
  destruct (Nat.lt_trichotomy index (length l1)) as [Hlt|[Heq|Hgt]];
    [|exact Heq|].
  - rewrite lookup_app_l in Hl by exact Hlt.
    destruct Hnin. eapply list_elem_of_lookup_2, Hl.
  - destruct (Hfirst (length l1) Hgt). apply list_lookup_middle. reflexivity.
Qed.

Lemma lookup_total_alter_ne (f : Projectile -> Projectile) (p q : nat)
    (l : list Projectile) :
  p <> q -> alter f p l !!! q = l !!! q.
Proof.
  intros Hne. rewrite !list_lookup_total_alt.
  now rewrite list_lookup_alter_ne.
Qed.

Lemma lookup_total_alter_eq (f : Projectile -> Projectile) (p : nat)
    (l : list Projectile) :
  (p < length l)%nat -> alter f p l !!! p = f (l !!! p).
Proof.
  intros Hlt. rewrite !list_lookup_total_alt, list_lookup_alter_eq.
  destruct (lookup_lt_is_Some_2 l p Hlt) as [o ->]. reflexivity.
Qed.

Lemma filter_ext_in {A : Type} (P1 P2 : A -> Prop)
    `{!forall x, Decision (P1 x)} `{!forall x, Decision (P2 x)} (l : list A) :
  (forall x, x ∈ l -> P1 x <-> P2 x) -> filter P1 l = filter P2 l.
Proof.
  induction l as [|a l IH]; intros Hext; [reflexivity|].
  rewrite !filter_cons.
  rewrite IH by (intros x Hx; apply Hext; now apply list_elem_of_further).
  pose proof (Hext a (list_elem_of_here a l)) as Ha.
  destruct (decide (P1 a)), (decide (P2 a)); tauto.
Qed.

Lemma in_flight_ext (P Q : ProjectilePool) (p : nat) :
  objs Q !!! p = objs P !!! p -> in_flight Q p = in_flight P p.
Proof. unfold in_flight. now intros ->. Qed.

Lemma ProjectilePool_update_loop_spec (deltaTime : R) (n : nat) :
  forall (P : ProjectilePool) (l1 l2 : list nat),
    active P = l1 ++ l2 ->
    length l1 = n ->
    NoDup (l1 ++ l2) ->
    (forall p, p ∈ l1 -> (p < length (objs P))%nat) ->
    exists P',
      ProjectilePool_update_loop n deltaTime P = Some P'
      /\ active P' = filter (fun p => in_flight P p) l1 ++ l2
      /\ pool P'
         = pool P ++ reverse (filter (fun p => ¬ in_flight P p) l1)
      /\ length (objs P') = length (objs P)
      /\ forall i,
           objs P' !! i
           = (fun o => if bool_decide (i ∈ l1 /\ ¬ in_flight P i)
                       then set_pr_active false o else o) <$> objs P !! i.
Proof.
  induction n as [|n IH]; intros P l1 l2 Ha Hlen Hnd Hrange.
  - destruct l1; [|discriminate]. exists P. cbn [ProjectilePool_update_loop].
    rewrite filter_nil, app_nil_r. split_and!; try reflexivity;
      try exact Ha.
    intros i. rewrite bool_decide_eq_false_2.
    + now destruct (objs P !! i).
    + intros [Hc _]. now apply not_elem_of_nil in Hc.
  - destruct (snoc_cases l1) as [->|(l1' & p & ->)]; [discriminate|].
    rewrite length_app in Hlen. cbn [length] in Hlen.
    assert (Hlen' : length l1' = n) by lia.
    cbn [ProjectilePool_update_loop].
    assert (Hlk : active P !! n = Some p).
    { rewrite Ha, <- app_assoc, <- Hlen'. apply list_lookup_middle.
      reflexivity. }
    rewrite Hlk.
    rewrite <- app_assoc in Hnd. cbn [app] in Hnd.
    assert (Hp1 : p ∉ l1').
    { apply NoDup_app in Hnd as (_ & Hd & _). intros Hc.
      apply (Hd p Hc), list_elem_of_here. }
    assert (Hplt : (p < length (objs P))%nat).
    { apply Hrange, elem_of_app. right. apply list_elem_of_here. }
    set (P1 := set_objs (alter (Projectile_update deltaTime) p (objs P)) P).
    assert (Hobj1 : objs P1 !!! p = Projectile_update deltaTime (objs P !!! p)).
    { unfold P1. cbn [objs set_objs]. now apply lookup_total_alter_eq. }
    assert (Hother : forall q, q <> p -> objs P1 !!! q = objs P !!! q).
    { intros q Hq. unfold P1. cbn [objs set_objs].
      apply lookup_total_alter_ne. congruence. }
    assert (Hfl : forall q, q ∈ l1' -> in_flight P1 q = in_flight P q).
    { intros q Hq. apply in_flight_ext, Hother. congruence. }
    assert (Hfilter : forall (l : list nat),
              (forall q, q ∈ l -> in_flight P1 q = in_flight P q) ->
              filter (fun q => in_flight P1 q) l
              = filter (fun q => in_flight P q) l
              /\ filter (fun q => ¬ in_flight P1 q) l
                 = filter (fun q => ¬ in_flight P q) l).
    { intros l Hl. split; apply filter_ext_in; intros q Hq;
        rewrite (Hl q Hq); reflexivity. }
    destruct (Hfilter l1' Hfl) as [Hf1 Hf2].
    destruct (in_flight P p) eqn:Hfp.
    + (* the projectile stays in flight: its [update] changes nothing *)
      unfold in_flight in Hfp. apply andb_true_iff in Hfp as [Hact Hon].
      apply negb_true_iff in Hon.
      assert (Hsame : Projectile_update deltaTime (objs P !!! p)
                      = objs P !!! p).
      { unfold Projectile_update. now rewrite Hact, Hon. }
      rewrite Hobj1, Hsame, Hact. cbn [negb].
      destruct (IH P1 l1' (p :: l2)) as (P' & E1 & E2 & E3 & E4 & E5).
      { unfold P1. cbn [active set_objs]. rewrite Ha, <- app_assoc.
        reflexivity. }
      { exact Hlen'. }
      { exact Hnd. }
      { intros q Hq. unfold P1. cbn [objs set_objs]. rewrite length_alter.
        apply Hrange, elem_of_app. now left. }
      exists P'. split; [exact E1|].
      rewrite E2, E3, E4, Hf1, Hf2.
      rewrite !filter_app, !filter_cons, !filter_nil.
      assert (Hin : in_flight P p = true).
      { unfold in_flight. now rewrite Hact, Hon. }
      rewrite decide_True by (rewrite Hin; exact I).
      rewrite decide_False by (rewrite Hin; intros Hc; now apply Hc).
      rewrite app_nil_r, <- app_assoc.
      split_and!; try reflexivity.
      * unfold P1. cbn [objs set_objs]. now rewrite length_alter.
      * intros i. rewrite E5.
        change (objs P1)
          with (alter (Projectile_update deltaTime) p (objs P)).
        destruct (decide (i = p)) as [->|Hne].
        -- rewrite list_lookup_alter_eq.
           rewrite !bool_decide_eq_false_2.
           ++ destruct (objs P !! p) as [o|] eqn:Eo; [|reflexivity].
              cbn [fmap option_fmap option_map]. f_equal.
              rewrite list_lookup_total_alt, Eo in Hsame. exact Hsame.
           ++ intros [_ Hc]. apply Hc. rewrite Hin. exact I.
           ++ intros [Hc _]. contradiction.
        -- rewrite list_lookup_alter_ne by congruence.
           destruct (objs P !! i) as [o|]; [|reflexivity].
           cbn [fmap option_fmap option_map]. f_equal.
           rewrite (in_flight_ext P P1 i) by (apply Hother; exact Hne).
           apply (f_equal (fun b : bool => if b then _ else _)).
           apply bool_decide_ext. rewrite elem_of_app, list_elem_of_singleton.
           tauto.
    + (* the projectile is released *)
      assert (Hinact : pr_active (objs P1 !!! p) = false).
      { rewrite Hobj1. unfold in_flight in Hfp. unfold Projectile_update.
        destruct (pr_active (objs P !!! p)) eqn:Hact; cbn [negb];
          [|exact Hact].
        cbn [andb] in Hfp. apply negb_false_iff in Hfp. now rewrite Hfp. }
      rewrite Hinact. cbn [negb].
      assert (Hrel : release p P1
                     = {| objs := alter (set_pr_active false) p (objs P1);
                          pool := pool P1 ++ [p];
                          active := l1' ++ l2;
                          initialSize := initialSize P1 |}).
      { apply release_at; [|exact Hp1].
        unfold P1. cbn [active set_objs]. rewrite Ha, <- app_assoc.
        reflexivity. }
      rewrite Hrel.
      set (P2 := {| objs := alter (set_pr_active false) p (objs P1);
                    pool := pool P1 ++ [p];
                    active := l1' ++ l2;
                    initialSize := initialSize P1 |}).
      assert (Hother2 : forall q, q <> p -> objs P2 !!! q = objs P !!! q).
      { intros q Hq. unfold P2. cbn [objs].
        rewrite lookup_total_alter_ne by congruence. now apply Hother. }
      assert (Hfl2 : forall q, q ∈ l1' -> in_flight P2 q = in_flight P q).
      { intros q Hq. apply in_flight_ext, Hother2. congruence. }
      destruct (IH P2 l1' l2) as (P' & E1 & E2 & E3 & E4 & E5).
      { reflexivity. }
      { exact Hlen'. }
      { apply NoDup_app in Hnd as (N1 & N2 & N3).
        apply NoDup_cons in N3 as [_ N3].
        apply NoDup_app. split_and!; [exact N1| |exact N3].
        intros q Hq Hc. apply (N2 q Hq). now apply list_elem_of_further. }
      { intros q Hq. unfold P2, P1. cbn [objs set_objs].
        rewrite !length_alter. apply Hrange, elem_of_app. now left. }
      exists P'. split; [exact E1|].
      rewrite E2, E3, E4.
      assert (Hf1' : filter (fun q => in_flight P2 q) l1'
                     = filter (fun q => in_flight P q) l1').
      { apply filter_ext_in. intros q Hq. now rewrite (Hfl2 q Hq). }
      assert (Hf2' : filter (fun q => ¬ in_flight P2 q) l1'
                     = filter (fun q => ¬ in_flight P q) l1').
      { apply filter_ext_in. intros q Hq. now rewrite (Hfl2 q Hq). }
      rewrite Hf1', Hf2'.
      rewrite !filter_app, !filter_cons, !filter_nil.
      rewrite decide_False by (rewrite Hfp; intros Hc; exact Hc).
      rewrite decide_True by (rewrite Hfp; intros Hc; exact Hc).
      rewrite app_nil_r, reverse_app, reverse_singleton.
      unfold P2, P1. cbn [objs pool set_objs active].
      rewrite !length_alter, <- app_assoc.
      split_and!; try reflexivity.
      intros i. rewrite E5.
      change (objs P2)
        with (alter (set_pr_active false) p
                (alter (Projectile_update deltaTime) p (objs P))).
      destruct (decide (i = p)) as [->|Hne].
      * rewrite !list_lookup_alter_eq.
        rewrite bool_decide_eq_false_2 by (intros [Hc _]; contradiction).
        rewrite bool_decide_eq_true_2.
        2:{ split; [rewrite elem_of_app, list_elem_of_singleton; now right|].
            rewrite Hfp. intros Hc; exact Hc. }
        destruct (objs P !! p) as [o|] eqn:Eo; [|reflexivity].
        cbn [fmap option_fmap option_map]. f_equal.
        unfold Projectile_update.
        destruct (pr_active o), (off_screen o); reflexivity.
      * rewrite !list_lookup_alter_ne by congruence.
        destruct (objs P !! i) as [o|]; [|reflexivity].
        cbn [fmap option_fmap option_map]. f_equal.
        rewrite (in_flight_ext P P2 i) by (apply Hother2; exact Hne).
        apply (f_equal (fun b : bool => if b then _ else _)).
        apply bool_decide_ext. rewrite elem_of_app, list_elem_of_singleton.
        tauto.
Qed.

(** X9.  [ProjectilePool.update], which walks the active array
    from its last index down, looks at every projectile of the array exactly
    once and never fails: the array keeps, in order, exactly the projectiles
    that are flagged active and on screen; every other one is returned to
    the free list, in reverse array order, with its [active] flag cleared;
    nothing else changes and the pool's invariant is kept. *)
Theorem ProjectilePool_update_keeps_in_flight (deltaTime : R)
    (P : ProjectilePool) :
  pool_inv P ->
  exists P',
    ProjectilePool_update deltaTime P = Some P'
    /\ active P' = filter (fun p => in_flight P p) (active P)
    /\ pool P'
       = pool P ++ reverse (filter (fun p => ¬ in_flight P p) (active P))
    /\ (forall i,
          objs P' !! i
          = (fun o => if bool_decide (i ∈ active P /\ ¬ in_flight P i)
                      then set_pr_active false o else o) <$> objs P !! i)
    /\ pool_inv P'.
Proof.
  intros Hinv.
  destruct (pool_inv_exactly_one P Hinv) as (_ & Hnd & Hmem & _).
  destruct (ProjectilePool_update_loop_spec deltaTime (length (active P)) P
              (active P) [])
    as (P' & E1 & E2 & E3 & E4 & E5).
  { now rewrite app_nil_r. }
  { reflexivity. }
  { now rewrite app_nil_r. }
  { intros p Hp. apply Hmem, elem_of_app. now right. }
  exists P'. rewrite app_nil_r in E2.
  split_and!; try assumption.
  unfold pool_inv in *. rewrite E2, E3, E4, <- Hinv, <- app_assoc.
  apply Permutation_app_head.
  rewrite reverse_Permutation, Permutation_app_comm.
  apply filter_app_complement.
Qed.

Lemma ProjectilePool_update_keeps_in_flight_witness :
  let P := snd (acquire_with spawn_in_gap
                  (ProjectilePool_new (fun _ => 0) 50)) in
  exists P',
    ProjectilePool_update (33 / 1000) P = Some P'
    /\ active P' = filter (fun p => in_flight P p) (active P)
    /\ pool P'
       = pool P ++ reverse (filter (fun p => ¬ in_flight P p) (active P))
    /\ (forall i,
          objs P' !! i
          = (fun o => if bool_decide (i ∈ active P /\ ¬ in_flight P i)
                      then set_pr_active false o else o) <$> objs P !! i)
    /\ pool_inv P'.
Proof.
  apply (ProjectilePool_update_keeps_in_flight (33 / 1000)
           (snd (acquire_with spawn_in_gap
                   (ProjectilePool_new (fun _ => 0) 50)))).
  apply pool_inv_acquire, pool_inv_new.
Defined.

(** ** updateProjectiles: one frame of flight *)

(** One iteration of the loop of [updateProjectiles]. *)
Lemma updateProjectiles_loop_step (n index : nat) (dt : R) (g : GameEngine)
    (projectile : nat) :
  active (projectilePool g) !! index = Some projectile ->
  updateProjectiles_loop (S n) index dt g
  = updateProjectiles_loop n (S index) dt
      (ifelse (fun g => negb (pr_active (obj g projectile)))
         skip
         (update_obj (updateVelocity dt) projectile >>
          update_obj (Projectile_update dt) projectile >>
          when (fun g => off_screen (obj g projectile))
            (release_projectile projectile)) g).
Proof. intros H. cbn [updateProjectiles_loop]. rewrite H. reflexivity. Qed.

Lemma updateProjectiles_loop_end (n index : nat) (dt : R) (g : GameEngine) :
  active (projectilePool g) !! index = None ->
  updateProjectiles_loop n index dt g = g.
Proof.
  intros H. destruct n; cbn [updateProjectiles_loop]; [reflexivity|].
  now rewrite H.
Qed.

(** [updateVelocity] and [Projectile.update] touch neither flag of a
    projectile that is on screen after the move. *)
Lemma updateVelocity_pr_active (dt : R) (o : Projectile) :
  pr_active (updateVelocity dt o) = pr_active o.
Proof. reflexivity. Qed.

Lemma alter_alter_at (f1 f2 h : Projectile -> Projectile) (p : nat)
    (l : list Projectile) :
  (forall o, l !! p = Some o -> f1 (f2 o) = h o) ->
  alter f1 p (alter f2 p l) = alter h p l.
Proof.
  intros H. apply list_eq. intros i.
  destruct (decide (i = p)) as [->|Hne].
  - rewrite !list_lookup_alter_eq.
    destruct (l !! p) as [o|] eqn:E; [|reflexivity].
    cbn. f_equal. now apply H.
  - now rewrite !list_lookup_alter_ne by congruence.
Qed.

(** The pool after one iteration, in its three cases: an inactive
    projectile is passed over; an active one is moved; one that the move
    takes off screen is moved, flagged inactive and released. *)
Lemma updateProjectiles_body (dt : R) (projectile : nat) (g : GameEngine) :
  (projectile < length (objs (projectilePool g)))%nat ->
  let body :=
    ifelse (fun g => negb (pr_active (obj g projectile)))
      skip
      (update_obj (updateVelocity dt) projectile >>
       update_obj (Projectile_update dt) projectile >>
       when (fun g => off_screen (obj g projectile))
         (release_projectile projectile)) in
  let P := projectilePool g in
  let moved := updateVelocity dt (obj g projectile) in
  projectilePool (body g)
  = if negb (pr_active (obj g projectile)) then P
    else if off_screen moved
         then release projectile
                (set_objs (alter (fun o => set_pr_active false
                                             (updateVelocity dt o))
                             projectile (objs P)) P)
         else set_objs (alter (updateVelocity dt) projectile (objs P)) P.
Proof.
  intros Hlt body P moved. unfold body, ifelse.
  destruct (pr_active (obj g projectile)) eqn:Hact; cbn [negb];
    [|reflexivity].
  rewrite !seq_stmt_eq.
  set (g1 := update_obj (updateVelocity dt) projectile g).
  assert (Hg1 : projectilePool g1
                = set_objs (alter (updateVelocity dt) projectile (objs P)) P)
    by reflexivity.
  assert (Hobj1 : obj g1 projectile = moved).
  { unfold obj. rewrite Hg1. cbn [objs set_objs].
    now apply lookup_total_alter_eq. }
  set (g2 := update_obj (Projectile_update dt) projectile g1).
  assert (Hg2 : projectilePool g2
                = set_objs (alter (Projectile_update dt) projectile
                              (objs (projectilePool g1)))
                    (projectilePool g1)) by reflexivity.
  assert (Hobj2 : obj g2 projectile = Projectile_update dt moved).
  { unfold obj. rewrite Hg2. cbn [objs set_objs].
    rewrite lookup_total_alter_eq.
    - fold (obj g1 projectile). now rewrite Hobj1.
    - rewrite Hg1. cbn [objs set_objs]. now rewrite length_alter. }
  assert (Hmact : pr_active moved = true) by exact Hact.
  unfold when, ifelse. rewrite Hobj2.
  unfold Projectile_update at 1. rewrite Hmact. cbn [negb].
  assert (Hlk : objs P !! projectile = Some (obj g projectile)).
  { unfold obj, P. rewrite list_lookup_total_alt.
    destruct (lookup_lt_is_Some_2 _ _ Hlt) as [o ->]. reflexivity. }
  destruct (off_screen moved) eqn:Hoff.
  - assert (off_screen (set_pr_active false moved) = true) as -> by exact Hoff.
    unfold release_projectile, assign. cbn [projectilePool set_projectilePool].
    f_equal. rewrite Hg2, Hg1. cbn [objs set_objs]. unfold set_objs.
    cbn [pool active initialSize]. f_equal.
    apply alter_alter_at. intros o Ho.
    rewrite Hlk in Ho. injection Ho as <-. fold moved.
    unfold Projectile_update. now rewrite Hmact, Hoff.
  - rewrite Hoff. unfold skip. rewrite Hg2, Hg1. cbn [objs set_objs].
    unfold set_objs. cbn [pool active initialSize]. f_equal.
    apply alter_alter_at. intros o Ho.
    rewrite Hlk in Ho. injection Ho as <-. fold moved.
    unfold Projectile_update. now rewrite Hmact, Hoff.
Qed.

Lemma obj_lookup (g : GameEngine) (p : nat) :
  (p < length (objs (projectilePool g)))%nat ->
  objs (projectilePool g) !! p = Some (obj g p).
Proof.
  intros Hlt. unfold obj. rewrite list_lookup_total_alt.
  destruct (lookup_lt_is_Some_2 _ _ Hlt) as [o ->]. reflexivity.
Qed.

(** A stretch of the loop in which no projectile leaves the screen: [n]
    iterations from index [i]. *)
Lemma updateProjectiles_loop_in_flight (dt : R) (n : nat) :
  forall (i : nat) (g : GameEngine),
    let l := take n (drop i (active (projectilePool g))) in
    NoDup l ->
    (forall p, p ∈ l -> (p < length (objs (projectilePool g)))%nat) ->
    (forall p, p ∈ l -> pr_active (obj g p) = true ->
       off_screen (updateVelocity dt (obj g p)) = false) ->
    let g' := updateProjectiles_loop n i dt g in
    active (projectilePool g') = active (projectilePool g)
    /\ pool (projectilePool g') = pool (projectilePool g)
    /\ length (objs (projectilePool g')) = length (objs (projectilePool g))
    /\ forall q,
         obj g' q
         = if bool_decide (q ∈ l) && pr_active (obj g q)
           then updateVelocity dt (obj g q) else obj g q.
Proof.
  induction n as [|n IH]; intros i g l Hnd Hrange Hstay g'.
  - unfold g', l. cbn [updateProjectiles_loop take].
    split_and!; try reflexivity.
    all: intros q;
      now rewrite bool_decide_eq_false_2 by apply not_elem_of_nil.
  - destruct (active (projectilePool g) !! i) as [p|] eqn:Hlk.
    2:{ unfold g'. rewrite updateProjectiles_loop_end by exact Hlk.
        split_and!; try reflexivity. intros q.
        unfold l. rewrite drop_ge by (now apply lookup_ge_None).
        now rewrite bool_decide_eq_false_2 by apply not_elem_of_nil. }
    assert (Hl : l = p :: take n (drop (S i) (active (projectilePool g)))).
    { unfold l. now rewrite (drop_S _ _ _ Hlk). }
    set (l' := take n (drop (S i) (active (projectilePool g)))) in *.
    rewrite Hl in Hnd. apply NoDup_cons in Hnd as [Hp Hnd'].
    assert (Hplt : (p < length (objs (projectilePool g)))%nat).
    { apply Hrange. rewrite Hl. apply list_elem_of_here. }
    unfold g'. rewrite (updateProjectiles_loop_step n i dt g p Hlk).
    pose proof (updateProjectiles_body dt p g Hplt) as Hbody.
    cbv zeta in Hbody.
    set (g1 := ifelse _ _ _ g) in *.
    assert (Hstay_p : pr_active (obj g p) = true ->
                      off_screen (updateVelocity dt (obj g p)) = false).
    { apply Hstay. rewrite Hl. apply list_elem_of_here. }
    assert (Hg1 : active (projectilePool g1) = active (projectilePool g)
                  /\ pool (projectilePool g1) = pool (projectilePool g)
                  /\ length (objs (projectilePool g1))
                     = length (objs (projectilePool g))
                  /\ forall q, obj g1 q
                       = if bool_decide (q = p) && pr_active (obj g q)
                         then updateVelocity dt (obj g q) else obj g q).
    { rewrite Hbody.
      destruct (pr_active (obj g p)) eqn:Hact; cbn [negb].
      - rewrite (Hstay_p eq_refl). cbn [active pool objs set_objs].
        rewrite length_alter. split_and!; try reflexivity.
        intros q. unfold obj at 1. rewrite Hbody. cbn [negb].
        rewrite ?Hact, ?(Hstay_p eq_refl). cbn [objs set_objs negb].
        destruct (decide (q = p)) as [->|Hne].
        + rewrite bool_decide_eq_true_2 by reflexivity. rewrite Hact.
          cbn [andb]. now apply lookup_total_alter_eq.
        + rewrite bool_decide_eq_false_2 by exact Hne. cbn [andb].
          apply lookup_total_alter_ne. congruence.
      - split_and!; try reflexivity.
        intros q. unfold obj at 1. rewrite Hbody, ?Hact. cbn [negb].
        destruct (decide (q = p)) as [->|Hne].
        + rewrite Hact, andb_false_r. reflexivity.
        + now rewrite bool_decide_eq_false_2 by exact Hne. }
    destruct Hg1 as (A1 & A2 & A3 & A4).
    assert (Hother : forall q, q ∈ l' -> obj g1 q = obj g q).
    { intros q Hq. rewrite A4.
      rewrite bool_decide_eq_false_2; [reflexivity|]. congruence. }
    destruct (IH (S i) g1) as (B1 & B2 & B3 & B4).
    { rewrite A1. exact Hnd'. }
    { rewrite A1, A3. intros q Hq. apply Hrange. rewrite Hl.
      now apply list_elem_of_further. }
    { rewrite A1. intros q Hq. rewrite (Hother q Hq). apply Hstay.
      rewrite Hl. now apply list_elem_of_further. }
    rewrite A1 in B4. fold l' in B4.
    split_and!; [congruence..|].
    intros q. rewrite B4, Hl.
    destruct (decide (q = p)) as [->|Hne].
    + rewrite (bool_decide_eq_false_2 (p ∈ l')) by exact Hp. cbn [andb].
      rewrite A4, bool_decide_eq_true_2 by reflexivity.
      rewrite (bool_decide_eq_true_2 (p ∈ p :: l'))
        by apply list_elem_of_here.
      reflexivity.
    + rewrite A4, (bool_decide_eq_false_2 (q = p)) by exact Hne.
      cbn [andb].
      apply (f_equal (fun b : bool =>
               if b && pr_active (obj g q) then _ else _)).
      apply bool_decide_ext. rewrite elem_of_cons. tauto.
Qed.

(** X10.  In a frame in which the step of every active
    projectile ends inside the margin of 50 pixels around the screen, and
    not on its edge, [updateProjectiles] moves every active projectile of
    the active array by its velocity times the frame time, once: its new
    [x] is [x + vx * deltaTime], its new [y] is [y + vy * deltaTime], and
    none of its other fields changes.  Nothing else in the pool changes:
    both arrays and every other instance are as before. *)
Theorem updateProjectiles_moves_active (dt : R) (g : GameEngine) :
  pool_inv (projectilePool g) ->
  (forall p, p ∈ active (projectilePool g) -> pr_active (obj g p) = true ->
     -50 < pr_x (obj g p) + vx (obj g p) * dt < GAME_WIDTH + 50
     /\ -50 < pr_y (obj g p) + vy (obj g p) * dt < GAME_HEIGHT + 50) ->
  let g' := updateProjectiles dt g in
  active (projectilePool g') = active (projectilePool g)
  /\ pool (projectilePool g') = pool (projectilePool g)
  /\ forall q,
       if bool_decide (q ∈ active (projectilePool g)) && pr_active (obj g q)
       then pr_x (obj g' q) = pr_x (obj g q) + vx (obj g q) * dt
            /\ pr_y (obj g' q) = pr_y (obj g q) + vy (obj g q) * dt
            /\ obj g' q
               = set_pr_y (pr_y (obj g' q))
                   (set_pr_x (pr_x (obj g' q)) (obj g q))
       else obj g' q = obj g q.
Proof.
  intros Hinv Hstay g'.
  destruct (pool_inv_exactly_one _ Hinv) as (_ & Hnd & Hmem & _).
  pose proof (updateProjectiles_loop_in_flight dt
                (length (active (projectilePool g))) 0 g) as H.
  cbv zeta in H. rewrite drop_0, firstn_all in H.
  destruct H as (H1 & H2 & _ & H4); try assumption.
  - intros p Hp. apply Hmem, elem_of_app. now right.
  - intros p Hp Ha. destruct (Hstay p Hp Ha) as [[X1 X2] [Y1 Y2]].
    unfold off_screen, updateVelocity.
    destruct (obj g p) as [x0 y0 ? ? ? ? ? ? ? vx0 vy0]. simpl in *.
    repeat match goal with
    | |- context [?a <? ?b] => cmp_known (a <? b)
    | |- context [?a >? ?b] => cmp_known (a >? b)
    end.
    reflexivity.
  - split; [exact H1|]. split; [exact H2|]. intros q.
    fold (updateProjectiles dt g) in H4. fold g' in H4. rewrite (H4 q).
    destruct (bool_decide (q ∈ active (projectilePool g))
              && pr_active (obj g q)); [|reflexivity].
    unfold updateVelocity.
    destruct (obj g q) as [x0 y0 ? ? ? ? ? ? ? vx0 vy0]. simpl.
    split_and!; reflexivity.
Qed.

(** The loop of [updateProjectiles] can be cut at any number of
    iterations. *)
Lemma updateProjectiles_loop_add (dt : R) (n m : nat) :
  forall (i : nat) (g : GameEngine),
    updateProjectiles_loop (n + m) i dt g
    = updateProjectiles_loop m (i + n) dt (updateProjectiles_loop n i dt g).
Proof.
  induction n as [|n IH]; intros i g.
  - cbn [Nat.add updateProjectiles_loop]. now rewrite Nat.add_0_r.
  - destruct (active (projectilePool g) !! i) as [p|] eqn:Hlk.
    + cbn [Nat.add]. rewrite !(updateProjectiles_loop_step _ i dt g p Hlk).
      rewrite IH. f_equal. lia.
    + rewrite (updateProjectiles_loop_end (S n + m)),
        (updateProjectiles_loop_end (S n)) by exact Hlk.
      rewrite updateProjectiles_loop_end; [reflexivity|].
      apply lookup_ge_None. apply lookup_ge_None in Hlk. lia.
Qed.

Lemma elem_of_drop_lookup {A : Type} (l : list A) (k : nat) (x : A) :
  x ∈ drop k l <-> exists j, (k <= j)%nat /\ l !! j = Some x.
Proof.
  rewrite list_elem_of_lookup. split.
  - intros (j & Hj). rewrite lookup_drop in Hj. exists (k + j)%nat.
    split; [lia | exact Hj].
  - intros (j & Hkj & Hj). exists (j - k)%nat. rewrite lookup_drop.
    now replace (k + (j - k))%nat with j by lia.
Qed.

(** The pool after one iteration on [p], for what concerns the other
    projectiles. *)
Lemma updateProjectiles_body_others (dt : R) (p : nat) (g : GameEngine) :
  (p < length (objs (projectilePool g)))%nat ->
  let g1 :=
    ifelse (fun g => negb (pr_active (obj g p)))
      skip
      (update_obj (updateVelocity dt) p >>
       update_obj (Projectile_update dt) p >>
       when (fun g => off_screen (obj g p)) (release_projectile p)) g in
  (forall q, q <> p -> obj g1 q = obj g q)
  /\ length (objs (projectilePool g1)) = length (objs (projectilePool g))
  /\ (forall q, q ∈ active (projectilePool g1) ->
        q ∈ active (projectilePool g))
  /\ (forall q, q <> p -> q ∈ active (projectilePool g) ->
        q ∈ active (projectilePool g1))
  /\ (forall k q, q ∈ drop (S k) (active (projectilePool g1)) ->
        q ∈ drop k (active (projectilePool g)))
  /\ (forall q, q ∈ pool (projectilePool g) -> q ∈ pool (projectilePool g1)).
Proof.
  intros Hlt g1.
  pose proof (updateProjectiles_body dt p g Hlt) as Hbody. cbv zeta in Hbody.
  fold g1 in Hbody.
  assert (Hdrop : forall k q, q ∈ drop (S k) (active (projectilePool g)) ->
                    q ∈ drop k (active (projectilePool g))).
  { intros k q. rewrite !elem_of_drop_lookup. intros (j & Hj & Hq).
    exists j. split; [lia | exact Hq]. }
  unfold obj. rewrite Hbody.
  destruct (pr_active (objs (projectilePool g) !!! p)) eqn:Hact;
    fold (obj g p) in *; rewrite ?Hact; cbn [negb].
  2:{ split_and!; auto. }
  destruct (off_screen (updateVelocity dt (obj g p))) eqn:Hoff.
  2:{ cbn [objs set_objs active]. rewrite length_alter.
      split_and!; auto.
      intros q Hq. apply lookup_total_alter_ne. congruence. }
  set (P1 := set_objs _ (projectilePool g)).
  destruct (decide (p ∈ active P1)) as [Hin|Hnin].
  2:{ rewrite (release_not_active p P1 Hnin). unfold P1.
      cbn [objs set_objs active]. rewrite length_alter.
      split_and!; auto.
      intros q Hq. apply lookup_total_alter_ne. congruence. }
  destruct (release_active p P1 Hin) as (index & Hl & _ & ->).
  unfold P1 in *. cbn [objs set_objs active] in *.
  rewrite !length_alter.
  pose proof (delete_Permutation _ _ _ Hl) as Hperm.
  split_and!.
  - intros q Hq. rewrite !lookup_total_alter_ne by congruence. reflexivity.
  - reflexivity.
  - intros q Hq. rewrite Hperm. now apply list_elem_of_further.
  - intros q Hq Hin'. rewrite Hperm in Hin'.
    apply elem_of_cons in Hin' as [?|?]; [congruence | assumption].
  - intros k q. rewrite !elem_of_drop_lookup. intros (j & Hj & Hq).
    destruct (decide (j < index)%nat) as [Hlt'|Hge].
    + rewrite list_lookup_delete_lt in Hq by exact Hlt'.
      exists j. split; [lia | exact Hq].
    + rewrite list_lookup_delete_ge in Hq by lia.
      exists (S j). split; [lia | exact Hq].
  - intros q Hq. cbn [pool]. rewrite elem_of_app. now left.
Qed.

(** The loop from index [i] neither touches a projectile that lies before
    index [i] only, nor removes it from the active array, nor adds one. *)
Lemma updateProjectiles_loop_others (dt : R) (n : nat) :
  forall (i : nat) (g : GameEngine),
    (forall p, p ∈ active (projectilePool g) ->
       (p < length (objs (projectilePool g)))%nat) ->
    let g' := updateProjectiles_loop n i dt g in
    (forall q, q ∉ drop i (active (projectilePool g)) -> obj g' q = obj g q)
    /\ (forall q, q ∉ drop i (active (projectilePool g)) ->
          q ∈ active (projectilePool g) -> q ∈ active (projectilePool g'))
    /\ (forall q, q ∈ active (projectilePool g') ->
          q ∈ active (projectilePool g))
    /\ (forall q, q ∈ pool (projectilePool g) ->
          q ∈ pool (projectilePool g')).
Proof.
  induction n as [|n IH]; intros i g Hrange g'.
  - unfold g'. cbn [updateProjectiles_loop]. auto.
  - destruct (active (projectilePool g) !! i) as [p|] eqn:Hlk.
    2:{ unfold g'. rewrite updateProjectiles_loop_end by exact Hlk. auto. }
    unfold g'. rewrite (updateProjectiles_loop_step n i dt g p Hlk).
    assert (Hplt : (p < length (objs (projectilePool g)))%nat).
    { eapply Hrange, list_elem_of_lookup_2, Hlk. }
    destruct (updateProjectiles_body_others dt p g Hplt)
      as (A1 & A2 & A3 & A4 & A5 & A6).
    set (g1 := ifelse _ _ _ g) in *.
    destruct (IH (S i) g1) as (B1 & B2 & B3 & B4).
    { intros q Hq. rewrite A2. apply Hrange, A3, Hq. }
    assert (Hp : p ∈ drop i (active (projectilePool g))).
    { apply elem_of_drop_lookup. exists i. split; [lia | exact Hlk]. }
    split_and!.
    + intros q Hq. rewrite B1.
      * apply A1. intros ->. contradiction.
      * intros Hc. apply Hq, (A5 i q Hc).
    + intros q Hq Hin. apply B2.
      * intros Hc. apply Hq, (A5 i q Hc).
      * apply A4; [|exact Hin]. intros ->. contradiction.
    + intros q Hq. apply A3, B3, Hq.
    + intros q Hq. apply B4, A6, Hq.
Qed.

(** X11.  [updateProjectiles] walks the active array with
    [for ... of] while [release] removes elements from that same array.
    When an active projectile, reached by the walk, leaves the screen in
    this frame, it is released and the projectile that followed it in the
    array is passed over: that one is not moved in this frame, whatever its
    state, and stays in the array. *)
Theorem updateProjectiles_skips_after_release (dt : R) (g : GameEngine)
    (before : list nat) (a b : nat) (rest : list nat) :
  pool_inv (projectilePool g) ->
  active (projectilePool g) = before ++ a :: b :: rest ->
  (forall p, p ∈ before -> pr_active (obj g p) = true ->
     off_screen (updateVelocity dt (obj g p)) = false) ->
  pr_active (obj g a) = true ->
  off_screen (updateVelocity dt (obj g a)) = true ->
  let g' := updateProjectiles dt g in
  obj g' b = obj g b
  /\ (b ∈ active (projectilePool g'))
  /\ (a ∉ active (projectilePool g'))
  /\ (a ∈ pool (projectilePool g')).
Proof.
  intros Hinv Ha Hstay Hact Hoff g'.
  destruct (pool_inv_exactly_one _ Hinv) as (_ & Hnd & Hmem & _).
  assert (Hrange : forall p, p ∈ active (projectilePool g) ->
                     (p < length (objs (projectilePool g)))%nat).
  { intros p Hp. apply Hmem, elem_of_app. now right. }
  rewrite Ha in Hnd.
  pose proof Hnd as Hnd0.
  apply NoDup_app in Hnd as (Nb & Nd & Nr).
  apply NoDup_cons in Nr as (Na & Nr). apply NoDup_cons in Nr as (Nb' & Nr).
  assert (Hab : a <> b).
  { intros ->. apply Na, list_elem_of_here. }
  assert (Ha_before : a ∉ before).
  { intros Hc. apply (Nd a Hc), list_elem_of_here. }
  assert (Hb_before : b ∉ before).
  { intros Hc. apply (Nd b Hc), list_elem_of_further, list_elem_of_here. }
  (* the walk over [before] *)
  unfold g', updateProjectiles. rewrite Ha, length_app.
  rewrite updateProjectiles_loop_add. cbn [Nat.add].
  pose proof (updateProjectiles_loop_in_flight dt (length before) 0 g) as H1.
  cbv zeta in H1. rewrite drop_0, Ha, take_app_length in H1.
  destruct H1 as (A1 & A2 & A3 & A4); [exact Nb | | exact Hstay |].
  { intros p Hp. apply Hrange. rewrite Ha, elem_of_app. now left. }
  set (g1 := updateProjectiles_loop (length before) 0 dt g) in *.
  assert (Hobj_a : obj g1 a = obj g a).
  { rewrite A4, bool_decide_eq_false_2 by exact Ha_before. reflexivity. }
  assert (Hobj_b : obj g1 b = obj g b).
  { rewrite A4, bool_decide_eq_false_2 by exact Hb_before. reflexivity. }
  (* the iteration on [a] *)
  assert (Hlk : active (projectilePool g1) !! length before = Some a).
  { rewrite A1. apply list_lookup_middle. reflexivity. }
  cbn [length].
  rewrite (updateProjectiles_loop_step _ _ dt g1 a Hlk).
  assert (Halt : (a < length (objs (projectilePool g1)))%nat).
  { rewrite A3. apply Hrange. rewrite Ha, elem_of_app. right.
    apply list_elem_of_here. }
  pose proof (updateProjectiles_body dt a g1 Halt) as Hbody.
  cbv zeta in Hbody. rewrite Hobj_a, Hact, Hoff in Hbody. cbn [negb] in Hbody.
  destruct (updateProjectiles_body_others dt a g1 Halt)
    as (C1 & C2 & C3 & C4 & _ & _).
  set (g2 := ifelse _ _ _ g1) in *.
  rewrite (release_at a before (b :: rest)) in Hbody;
    [|cbn [active set_objs]; rewrite A1; reflexivity | exact Ha_before].
  assert (Hact2 : active (projectilePool g2) = before ++ b :: rest).
  { now rewrite Hbody. }
  assert (Hpool2 : a ∈ pool (projectilePool g2)).
  { rewrite Hbody. cbn [pool]. rewrite elem_of_app. right.
    apply list_elem_of_here. }
  (* the rest of the walk starts after [b] *)
  destruct (updateProjectiles_loop_others dt (S (length rest))
              (S (length before)) g2) as (D1 & D2 & D3 & D4).
  { intros q Hq. rewrite C2, A3. apply Hrange. rewrite Ha, <- A1.
    apply C3, Hq. }
  set (g3 := updateProjectiles_loop _ _ dt g2) in *.
  assert (Hdrop : drop (S (length before)) (active (projectilePool g2))
                  = rest).
  { rewrite Hact2.
    replace (before ++ b :: rest) with ((before ++ [b]) ++ rest)
      by (now rewrite <- app_assoc).
    rewrite drop_app_length'; [reflexivity|].
    rewrite length_app. cbn [length]. lia. }
  rewrite Hdrop in D1, D2.
  split_and!.
  - rewrite (D1 b Nb'), (C1 b) by congruence. exact Hobj_b.
  - apply (D2 b Nb'). rewrite Hact2, elem_of_app. right.
    apply list_elem_of_here.
  - intros Hc. apply D3 in Hc. rewrite Hact2 in Hc.
    apply elem_of_app in Hc as [Hc|Hc]; [contradiction|].
    apply Na, Hc.
  - apply D4, Hpool2.
Qed.

(** *** The two frame statements at example sessions *)

Lemma pool_inv_acquire_many (reqs : list AcquireArgs) (P : ProjectilePool) :
  pool_inv P -> pool_inv (acquire_many reqs P).
Proof.
  revert P. induction reqs as [|a reqs IH]; intros P H; [exact H|].
  cbn [acquire_many]. apply IH. now apply pool_inv_acquire.
Qed.

Lemma sqrt_sq_axis (d : R) : sqrt (d * d + 0 * 0) = Rabs d.
Proof.
  replace (d * d + 0 * 0) with (Rsqr d) by (unfold Rsqr; lra).
  apply sqrt_Rsqr_abs.
Qed.

(** The projectiles of the example sessions fly along the x axis. *)
Lemma flight_along_x (now x target y v dt : R) :
  x <> target ->
  updateVelocity dt (Projectile_reset now x y target y v)
  = set_pr_y (y + 0 / Rabs (target - x) * v * dt)
      (set_pr_x (x + (target - x) / Rabs (target - x) * v * dt)
         (Projectile_reset now x y target y v)).
Proof.
  intros Hne. unfold updateVelocity, Projectile_reset, set_pr_x, set_pr_y.
  cbn [pr_x pr_y targetX targetY pr_radius speed pr_active dodged spawnTime
       vx vy].
  replace (y - y) with 0 by lra.
  rewrite sqrt_sq_axis.
  assert (Hpos : 0 < Rabs (target - x)) by (apply Rabs_pos_lt; lra).
  cmp_known (Rabs (target - x) >? 0). reflexivity.
Qed.

Lemma session_leaving_fields :
  pool_inv (projectilePool session_leaving)
  /\ active (projectilePool session_leaving) = [49%nat; 48%nat]
  /\ obj session_leaving 49 = Projectile_reset 0 849 640 1000 640 200
  /\ obj session_leaving 48 = Projectile_reset 0 440 640 400 640 200.
Proof.
  split.
  { apply pool_inv_acquire_many. apply pool_inv_new. }
  assert (Hp : pool (ProjectilePool_new (fun _ => 0) 50)
               = seq 0 49 ++ [49%nat]).
  { cbn [pool ProjectilePool_new]. now rewrite <- seq_S. }
  unfold session_leaving, assign, obj.
  cbn [projectilePool set_projectilePool].
  change (projectilePool fresh_session)
    with (ProjectilePool_new (fun _ => 0) 50).
  cbn [acquire_many].
  rewrite (acquire_reuse spawn_leaving _ _ _ Hp). cbn [snd].
  match goal with
  | |- context [acquire_with spawn_in_gap ?Q] => set (P1 := Q)
  end.
  assert (Hp1 : pool P1 = seq 0 48 ++ [48%nat]).
  { unfold P1. cbn [pool]. now rewrite <- seq_S. }
  rewrite (acquire_reuse spawn_in_gap _ _ _ Hp1). cbn [snd objs active].
  unfold P1. cbn [objs active ProjectilePool_new app].
  split_and!; try reflexivity.
Qed.

Lemma velocity_along_x (now x target y v : R) :
  x <> target ->
  vx (Projectile_reset now x y target y v)
  = (target - x) / Rabs (target - x) * v
  /\ vy (Projectile_reset now x y target y v) = 0.
Proof.
  intros Hne. unfold Projectile_reset. cbn [vx vy].
  replace (y - y) with 0 by lra.
  rewrite sqrt_sq_axis.
  assert (Hpos : 0 < Rabs (target - x)) by (apply Rabs_pos_lt; lra).
  cmp_known (Rabs (target - x) >? 0). split; [reflexivity|].
  unfold Rdiv. lra.
Qed.

Lemma updateProjectiles_moves_active_witness :
  let g := session_with 1 in
  let g' := updateProjectiles (33 / 1000) g in
  active (projectilePool g') = [49%nat]
  /\ pr_x (obj g 49) = 440 /\ pr_y (obj g 49) = 640
  /\ pr_x (obj g' 49) = 440 - 200 * (33 / 1000)
  /\ pr_y (obj g' 49) = 640.
Proof.
  intros g g'.
  destruct session_with_1 as (_ & Ha & Ho). fold g in Ha, Ho.
  destruct (velocity_along_x 0 440 400 640 200 ltac:(lra)) as [Hvx Hvy].
  replace (400 - 440) with (-40) in Hvx by lra.
  rewrite Rabs_left in Hvx by lra.
  replace (- (-40)) with 40 in Hvx by lra.
  replace (-40 / 40 * 200) with (-200) in Hvx by lra.
  destruct (updateProjectiles_moves_active (33 / 1000) g) as (H1 & _ & H3).
  - apply pool_inv_acquire_many, pool_inv_new.
  - rewrite Ha. intros p Hp _. apply list_elem_of_singleton in Hp. subst p.
    rewrite Ho, Hvx, Hvy. cbn [pr_x pr_y Projectile_reset].
    unfold GAME_WIDTH, GAME_HEIGHT. lra.
  - fold g' in H1, H3. specialize (H3 49%nat).
    rewrite Ha, Ho, Hvx, Hvy in H3.
    rewrite bool_decide_eq_true_2 in H3 by apply list_elem_of_here.
    cbn [andb pr_active pr_x pr_y Projectile_reset] in H3.
    destruct H3 as (Hx & Hy & _).
    rewrite H1, Ha, Ho, Hx, Hy. cbn [pr_x pr_y Projectile_reset].
    split_and!; try reflexivity; lra.
Defined.

Lemma updateProjectiles_skips_after_release_witness :
  let g := session_leaving in
  let g' := updateProjectiles (33 / 1000) g in
  obj g' 48 = obj g 48
  /\ (48%nat ∈ active (projectilePool g'))
  /\ (49%nat ∉ active (projectilePool g'))
  /\ (49%nat ∈ pool (projectilePool g')).
Proof.
  destruct session_leaving_fields as (Hinv & Ha & Ho49 & Ho48).
  apply (updateProjectiles_skips_after_release (33 / 1000) session_leaving
           [] 49 48 []).
  - exact Hinv.
  - exact Ha.
  - intros p Hp. now apply not_elem_of_nil in Hp.
  - rewrite Ho49. reflexivity.
  - rewrite Ho49, flight_along_x by lra.
    unfold off_screen. cbn [pr_x pr_y set_pr_x set_pr_y].
    replace (1000 - 849) with 151 by lra.
    rewrite Rabs_right by lra. unfold GAME_WIDTH, GAME_HEIGHT.
    repeat match goal with
    | |- context [?a <? ?b] => cmp_known (a <? b)
    | |- context [?a >? ?b] => cmp_known (a >? b)
    end.
    reflexivity.
Defined.

(** ** How a PLAYING frame ends *)

(** What a scan leaves: either no collision handler ran, and state and game
    count are untouched, or one ran, and the session is over. *)
Lemma scan_outcome (now : nat -> R) (ps : list nat) :
  forall (i : nat) (g : GameEngine),
    let g' := scan now i ps g in
    exists l,
      calls g' = calls g ++ l
      /\ ((currentState g' = currentState g
           /\ gameCount g' = gameCount g
           /\ Forall (fun c => is_collision_call c = false) l)
          \/ (currentState g' = GAME_OVER
              /\ gameCount g' = (gameCount g + 1)%Z
              /\ combo g' = 0%Z
              /\ comboMultiplier g' = 1%Z
              /\ exists p, CallHandleCollision p ∈ l)).
Proof.
  induction ps as [|p ps IH]; intros i g g'.
  - exists []. unfold g'. cbn [scan]. rewrite app_nil_r.
    split; [reflexivity|]. left. split_and!; try reflexivity. constructor.
  - destruct (player g) as [pl|] eqn:Hpl.
    2:{ unfold g'. rewrite scan_no_player by exact Hpl.
        exists []. rewrite app_nil_r. split; [reflexivity|]. left.
        split_and!; try reflexivity. constructor. }
    unfold g'. rewrite (scan_cons now i p ps g pl Hpl).
    destruct (classify (now i) pl (obj g p)).
    + apply IH.
    + exists [CallHandleCollision p].
      destruct (handleCollision_fields p g) as (H1 & H2 & H3 & H4 & H5 & _).
      split; [exact H1|]. right. split_and!; try assumption.
      exists p. apply list_elem_of_here.
    + destruct (IH (S i) (handleDodge p g)) as (l & Hl & Hcases).
      exists (CallHandleDodge p :: l).
      rewrite handleDodge_calls, <- app_assoc in Hl.
      split; [exact Hl|].
      rewrite (keeps_stmt currentState (handleDodge p)),
        (keeps_stmt gameCount (handleDodge p)) in Hcases by apply _.
      destruct Hcases as [(A1 & A2 & A3)|(A1 & A2 & A3 & A4 & q & Hq)].
      * left. split_and!; try assumption. now constructor.
      * right. split_and!; try assumption.
        exists q. now apply list_elem_of_further.
Qed.

(** X12.  A PLAYING frame ends in PLAYING or in GAME_OVER, never
    in another state, and in GAME_OVER exactly when the collision handler
    ran in that frame's scan; the frame then counts one more game and leaves
    combo 0 and multiplier 1, and otherwise leaves the game count as it
    was. *)
Theorem updatePlaying_next_state (fr : Frame) (dt : R) (g : GameEngine) :
  currentState g = PLAYING ->
  let g' := updatePlaying fr dt g in
  (currentState g' = PLAYING \/ currentState g' = GAME_OVER)
  /\ (currentState g' = GAME_OVER
      <-> exists p, CallHandleCollision p ∈ new_calls g g')
  /\ (currentState g' = GAME_OVER ->
      gameCount g' = (gameCount g + 1)%Z
      /\ combo g' = 0%Z /\ comboMultiplier g' = 1%Z)
  /\ (currentState g' = PLAYING -> gameCount g' = gameCount g).
Proof.
  intros Hst g'.
  assert (Hshape : exists h,
            currentState h = currentState g /\ gameCount h = gameCount g
            /\ calls h = calls g
            /\ currentState g' = currentState (checkCollisions (scan_now fr) h)
            /\ gameCount g' = gameCount (checkCollisions (scan_now fr) h)
            /\ combo g' = combo (checkCollisions (scan_now fr) h)
            /\ comboMultiplier g'
               = comboMultiplier (checkCollisions (scan_now fr) h)
            /\ calls g' = calls (checkCollisions (scan_now fr) h)).
  { unfold g', updatePlaying. rewrite !seq_stmt_eq.
    match goal with
    | |- context [checkCollisions _ ?h0] => exists h0
    end.
    split_and!.
    - now rewrite !(keeps_stmt currentState) by apply _.
    - now rewrite !(keeps_stmt gameCount) by apply _.
    - now rewrite !(keeps_stmt calls) by apply _.
    - now rewrite !(keeps_stmt currentState) by apply _.
    - now rewrite !(keeps_stmt gameCount) by apply _.
    - now rewrite !(keeps_stmt combo) by apply _.
    - now rewrite !(keeps_stmt comboMultiplier) by apply _.
    - now rewrite !(keeps_stmt calls) by apply _. }
  destruct Hshape as (h & E1 & E2 & E3 & F1 & F2 & F3 & F4 & F5).
  assert (Hscan : exists l,
            calls (checkCollisions (scan_now fr) h) = calls h ++ l
            /\ ((currentState (checkCollisions (scan_now fr) h)
                 = currentState h
                 /\ gameCount (checkCollisions (scan_now fr) h) = gameCount h
                 /\ Forall (fun c => is_collision_call c = false) l)
                \/ (currentState (checkCollisions (scan_now fr) h) = GAME_OVER
                    /\ gameCount (checkCollisions (scan_now fr) h)
                       = (gameCount h + 1)%Z
                    /\ combo (checkCollisions (scan_now fr) h) = 0%Z
                    /\ comboMultiplier (checkCollisions (scan_now fr) h) = 1%Z
                    /\ exists p, CallHandleCollision p ∈ l))).
  { unfold checkCollisions. destruct (player h) as [pl|].
    - apply scan_outcome.
    - exists []. rewrite app_nil_r. split; [reflexivity|]. left.
      split_and!; try reflexivity. constructor. }
  destruct Hscan as (l & Hl & Hcases).
  rewrite <- F1, <- F2, <- F3, <- F4, <- F5, E1, E2, E3, Hst in *.
  rewrite (new_calls_app g g' l Hl).
  destruct Hcases as [(A1 & A2 & A3)|(A1 & A2 & A3 & A4 & q & Hq)].
  - split_and!.
    + now left.
    + split; [congruence|]. intros (p & Hp).
      rewrite Forall_forall in A3. specialize (A3 _ Hp). discriminate.
    + congruence.
    + auto.
  - split_and!.
    + now right.
    + split; [|auto]. intros _. now exists q.
    + auto.
    + congruence.
Qed.

Lemma updatePlaying_next_state_witness :
  let fr := mkFrame 1033 None (fun _ => 1 / 2) 1033 (fun _ => 1033) in
  let g' := updatePlaying fr (33 / 1000) (session_with 1) in
  (currentState g' = PLAYING \/ currentState g' = GAME_OVER)
  /\ (currentState g' = GAME_OVER
      <-> exists p, CallHandleCollision p ∈ new_calls (session_with 1) g')
  /\ (currentState g' = GAME_OVER ->
      gameCount g' = (gameCount (session_with 1) + 1)%Z
      /\ combo g' = 0%Z /\ comboMultiplier g' = 1%Z)
  /\ (currentState g' = PLAYING -> gameCount g' = gameCount (session_with 1)).
Proof.
  apply (updatePlaying_next_state
           (mkFrame 1033 None (fun _ => 1 / 2) 1033 (fun _ => 1033))
           (33 / 1000) (session_with 1)).
  reflexivity.
Defined.

(** ** The bookkeeping of a session *)

Lemma difficultyBonus_ge_1 (d : string) : 1 <= difficultyBonus d.
Proof.
  destruct (difficultyBonus_cases d)
    as [[_ ->]|[[_ ->]|[[_ ->]|(_ & _ & _ & ->)]]]; lra.
Qed.

(** The points of one [addScore] call are not negative when neither the
    base points nor the multiplier are. *)
Lemma finalPoints_of_nonneg (basePoints : R) (g : GameEngine) :
  0 <= basePoints -> (0 <= comboMultiplier g)%Z ->
  (0 <= finalPoints_of basePoints g)%Z.
Proof.
  intros Hb Hm. unfold finalPoints_of.
  assert (Hp : (0 <= Zfloor basePoints)%Z).
  { apply Zfloor_lub. simpl. exact Hb. }
  apply Zfloor_lub. simpl.
  pose proof (difficultyBonus_ge_1 (difficulty g)) as Hd.
  apply IZR_le in Hp, Hm.
  assert (0 <= IZR (Zfloor basePoints) * IZR (comboMultiplier g)) by nra.
  nra.
Qed.

Lemma addScore_fields (basePoints : R) (g : GameEngine) :
  let g' := addScore basePoints g in
  score g' = (score g + finalPoints_of basePoints g)%Z
  /\ sessionBest g' = Z.max (sessionBest g) (score g')
  /\ bestComboThisGame g' = Z.max (bestComboThisGame g) (combo g)
  /\ combo g' = combo g
  /\ comboMultiplier g' = comboMultiplier g.
Proof.
  cbv zeta. unfold addScore, seq_stmt, when, ifelse, skip, assign.
  cbn [sessionBest score set_score set_sessionBest bestComboThisGame combo
       set_bestComboThisGame comboMultiplier].
  set (s := (score g + finalPoints_of basePoints g)%Z).
  destruct (Z.ltb_spec (sessionBest g) s);
    cbn [sessionBest score set_score set_sessionBest bestComboThisGame combo
         set_bestComboThisGame comboMultiplier];
    destruct (Z.ltb_spec (bestComboThisGame g) (combo g));
    cbn [sessionBest score set_score set_sessionBest bestComboThisGame combo
         set_bestComboThisGame comboMultiplier];
    split_and!; try reflexivity; lia.
Qed.

(** The dodge handler on a fresh projectile, around its [addScore] call:
    [pre] is the engine just before that call. *)
Lemma handleDodge_around_addScore (projectile : nat) (g : GameEngine) :
  dodged (obj g projectile) = false ->
  exists pre,
    combo pre = (combo g + 1)%Z
    /\ score pre = score g
    /\ sessionBest pre = sessionBest g
    /\ bestComboThisGame pre = bestComboThisGame g
    /\ score (handleDodge projectile g) = score (addScore 10 pre)
    /\ combo (handleDodge projectile g) = combo (addScore 10 pre)
    /\ sessionBest (handleDodge projectile g) = sessionBest (addScore 10 pre)
    /\ bestComboThisGame (handleDodge projectile g)
       = bestComboThisGame (addScore 10 pre).
Proof.
  intros Hd. rewrite handleDodge_unfold. unfold ifelse.
  change (obj (log_call (CallHandleDodge projectile) g) projectile)
    with (obj g projectile).
  rewrite Hd.
  set (h := log_call (CallHandleDodge projectile) g).
  match goal with
  | |- context [(?X >> addScore 10 >> ?F >> ?Rel) h] =>
      exists (X h);
      assert (Hshape : (X >> addScore 10 >> F >> Rel) h
                       = Rel (F (addScore 10 (X h)))) by reflexivity;
      rewrite Hshape; clear Hshape;
      set (a := addScore 10 (X h))
  end.
  split_and!.
  - rewrite !seq_stmt_eq. peel.
    change (combo (assign set_combo (fun g => (combo g + 1)%Z) ?y))
      with (combo y + 1)%Z.
    now rewrite !(keeps_stmt combo) by apply _.
  - now rewrite !(keeps_stmt score) by apply _.
  - now rewrite !(keeps_stmt sessionBest) by apply _.
  - now rewrite !(keeps_stmt bestComboThisGame) by apply _.
  - now rewrite !(keeps_stmt score) by apply _.
  - now rewrite !(keeps_stmt combo) by apply _.
  - now rewrite !(keeps_stmt sessionBest) by apply _.
  - now rewrite !(keeps_stmt bestComboThisGame) by apply _.
Qed.

(** The two best marks after the dodge handler. *)
Lemma handleDodge_bests (projectile : nat) (g : GameEngine) :
  dodged (obj g projectile) = false ->
  let g' := handleDodge projectile g in
  sessionBest g' = Z.max (sessionBest g) (score g')
  /\ bestComboThisGame g' = Z.max (bestComboThisGame g) (combo g').
Proof.
  intros Hd g'.
  destruct (handleDodge_around_addScore projectile g Hd)
    as (pre & P1 & P2 & P3 & P4 & Q1 & Q2 & Q3 & Q4).
  destruct (addScore_fields 10 pre) as (B1 & B2 & B3 & B4 & _).
  cbv zeta in B1, B2, B3, B4.
  unfold g'. rewrite Q1, Q2, Q3, Q4, B2, B3, B4, P3, P4. split; reflexivity.
Qed.

Lemma session_inv_handleDodge (p : nat) (g : GameEngine) :
  session_inv g ->
  session_inv (handleDodge p g) /\ (score g <= score (handleDodge p g))%Z.
Proof.
  intros (I1 & I2 & I3 & I4).
  destruct (dodged (obj g p)) eqn:Hd.
  - rewrite handleDodge_again by exact Hd.
    split; [|reflexivity]. exact (conj I1 (conj I2 (conj I3 I4))).
  - destruct (handleDodge_fresh p g Hd) as (Hc & Hm & Hs & _).
    destruct (handleDodge_bests p g Hd) as (Hb & Hbc).
    cbv zeta in Hc, Hm, Hs, Hb, Hbc.
    set (g' := handleDodge p g) in *.
    set (m := Z.min (1 + (combo g + 1) / 10) 5) in *.
    assert (Hm1 : (1 <= m)%Z).
    { unfold m. assert (0 <= (combo g + 1) / 10)%Z
        by (apply Z.div_pos; lia). lia. }
    assert (Hpts : (0 <= Zfloor (10 * IZR m * difficultyBonus (difficulty g)))%Z).
    { apply Zfloor_lub. simpl.
      pose proof (difficultyBonus_ge_1 (difficulty g)).
      apply IZR_le in Hm1. nra. }
    split; [|lia].
    unfold session_inv, combo_sync. rewrite Hm, Hc, Hb, Hbc, Hs.
    split_and!; try lia.
    all: unfold m; f_equal; lia.
Qed.

Lemma session_inv_scan (now : nat -> R) (ps : list nat) :
  forall (i : nat) (g : GameEngine),
    session_inv g ->
    session_inv (scan now i ps g) /\ (score g <= score (scan now i ps g))%Z.
Proof.
  induction ps as [|p ps IH]; intros i g Hinv.
  - cbn [scan]. split; [exact Hinv | reflexivity].
  - destruct (player g) as [pl|] eqn:Hpl.
    2:{ rewrite scan_no_player by exact Hpl.
        split; [exact Hinv | reflexivity]. }
    rewrite (scan_cons now i p ps g pl Hpl).
    destruct (classify (now i) pl (obj g p)).
    + now apply IH.
    + destruct (handleCollision_fields p g) as (_ & _ & _ & H4 & H5 & H6 & _).
      cbv zeta in H4, H5, H6.
      destruct Hinv as (I1 & I2 & I3 & I4).
      split; [|lia].
      unfold session_inv, combo_sync. rewrite H4, H5, H6.
      rewrite (keeps_stmt sessionBest (handleCollision p)),
        (keeps_stmt bestComboThisGame (handleCollision p)) by apply _.
      split_and!; try lia.
      all: reflexivity.
    + destruct (session_inv_handleDodge p g Hinv) as (J1 & J2).
      destruct (IH (S i) (handleDodge p g) J1) as (K1 & K2).
      split; [exact K1 | lia].
Qed.

Lemma session_inv_ext (g h : GameEngine) :
  combo h = combo g -> comboMultiplier h = comboMultiplier g ->
  score h = score g -> sessionBest h = sessionBest g ->
  bestComboThisGame h = bestComboThisGame g ->
  session_inv g -> session_inv h.
Proof.
  unfold session_inv, combo_sync. intros -> -> -> -> ->. tauto.
Qed.

(** X13.  On each of the four difficulty levels the bookkeeping
    of a session is kept by every PLAYING frame and re-established by
    [startGame]: the combo is never negative, the multiplier agrees with it
    and lies between 1 and 5, the score is never negative and never above
    the session's best, the combo is never above the game's best combo; a
    frame never lowers the score, and neither a frame nor [startGame]
    changes the difficulty level. *)
Theorem session_inv_kept (fr : Frame) (dt : R) (g : GameEngine) :
  known_difficulty (difficulty g) ->
  session_inv g ->
  let g' := updatePlaying fr dt g in
  session_inv g'
  /\ (1 <= comboMultiplier g' <= 5)%Z
  /\ (score g <= score g')%Z
  /\ session_inv (startGame g)
  /\ known_difficulty (difficulty g')
  /\ known_difficulty (difficulty (startGame g)).
Proof.
  intros Hknown Hinv g'.
  assert (Hframe : session_inv g' /\ (score g <= score g')%Z).
  { unfold g', updatePlaying. rewrite !seq_stmt_eq.
    match goal with
    | |- context [checkCollisions ?n ?h0] => set (h := h0)
    end.
    assert (Hh : session_inv h /\ score h = score g).
    { split.
      - apply (session_inv_ext g); [| | | | |exact Hinv]; unfold h.
        + now rewrite !(keeps_stmt combo) by apply _.
        + now rewrite !(keeps_stmt comboMultiplier) by apply _.
        + now rewrite !(keeps_stmt score) by apply _.
        + now rewrite !(keeps_stmt sessionBest) by apply _.
        + now rewrite !(keeps_stmt bestComboThisGame) by apply _.
      - unfold h. now rewrite !(keeps_stmt score) by apply _. }
    destruct Hh as (Hh & Hsc).
    assert (Hc : session_inv (checkCollisions (scan_now fr) h)
                 /\ (score h <= score (checkCollisions (scan_now fr) h))%Z).
    { unfold checkCollisions. destruct (player h).
      - now apply session_inv_scan.
      - split; [exact Hh | reflexivity]. }
    destruct Hc as (Hc1 & Hc2).
    split.
    - apply (session_inv_ext (checkCollisions (scan_now fr) h));
        [| | | | |exact Hc1].
      + now rewrite !(keeps_stmt combo) by apply _.
      + now rewrite !(keeps_stmt comboMultiplier) by apply _.
      + now rewrite !(keeps_stmt score) by apply _.
      + now rewrite !(keeps_stmt sessionBest) by apply _.
      + now rewrite !(keeps_stmt bestComboThisGame) by apply _.
    - rewrite !(keeps_stmt score) by apply _. lia. }
  destruct Hframe as (Hf1 & Hf2).
  split_and!; try assumption.
  - destruct Hf1 as (I1 & I2 & _). unfold combo_sync in I2.
    assert (0 <= combo g' / 10)%Z by (apply Z.div_pos; lia). lia.
  - destruct Hf1 as (I1 & I2 & _). unfold combo_sync in I2.
    assert (0 <= combo g' / 10)%Z by (apply Z.div_pos; lia). lia.
  - destruct Hinv as (_ & _ & I3 & _).
    unfold session_inv, combo_sync.
    assert (Hsb : sessionBest (startGame g) = sessionBest g).
    { now rewrite (keeps_stmt sessionBest) by apply _. }
    rewrite Hsb.
    change (combo (startGame g)) with 0%Z.
    change (comboMultiplier (startGame g)) with 1%Z.
    change (score (startGame g)) with 0%Z.
    change (bestComboThisGame (startGame g)) with 0%Z.
    split_and!; try lia.
    all: reflexivity.
  - unfold g'.
    rewrite (keeps (f := difficulty) (s := updatePlaying fr dt) g).
    exact Hknown.
Qed.

Lemma session_inv_kept_witness :
  let fr := mkFrame 1033 None (fun _ => 1 / 2) 1033 (fun _ => 1033) in
  let g' := updatePlaying fr (33 / 1000) (session_with 1) in
  difficulty (session_with 1) = "medium"
  /\ session_inv g'
  /\ (1 <= comboMultiplier g' <= 5)%Z
  /\ (score (session_with 1) <= score g')%Z
  /\ session_inv (startGame (session_with 1))
  /\ known_difficulty (difficulty g')
  /\ known_difficulty (difficulty (startGame (session_with 1))).
Proof.
  split; [reflexivity|].
  apply (session_inv_kept
           (mkFrame 1033 None (fun _ => 1 / 2) 1033 (fun _ => 1033))
           (33 / 1000) (session_with 1)).
  - unfold known_difficulty, difficultyBonuses. cbn.
    apply list_elem_of_further, list_elem_of_here.
  - unfold session_inv, combo_sync. cbn. split_and!; try lia.
    all: reflexivity.
Defined.

(** ** Difficulty and spawning *)

Lemma powerRZ_9_10_pos (z : Z) : 0 < powerRZ (9 / 10) z.
Proof. apply powerRZ_lt. lra. Qed.

Lemma powerRZ_9_10_le_1 (z : Z) : (0 <= z)%Z -> powerRZ (9 / 10) z <= 1.
Proof.
  intros Hz. rewrite <- (Z2Nat.id z Hz), <- pow_powerRZ.
  rewrite <- (pow1 (Z.to_nat z)). apply pow_incr. lra.
Qed.

Lemma powerRZ_9_10_antitone (a b : Z) :
  (0 <= a <= b)%Z -> powerRZ (9 / 10) b <= powerRZ (9 / 10) a.
Proof.
  intros [Ha Hab].
  replace b with (a + (b - a))%Z by lia.
  rewrite powerRZ_add by lra.
  pose proof (powerRZ_9_10_pos a). pose proof (powerRZ_9_10_pos (b - a)).
  pose proof (powerRZ_9_10_le_1 (b - a) ltac:(lia)). nra.
Qed.

Lemma powerRZ_9_10_15 : 2 / 10 < powerRZ (9 / 10) 15.
Proof.
  change 15%Z with (Z.of_nat 15). rewrite <- pow_powerRZ.
  cbn [pow]. lra.
Qed.

Lemma powerRZ_9_10_16 : powerRZ (9 / 10) 16 < 2 / 10.
Proof.
  change 16%Z with (Z.of_nat 16). rewrite <- pow_powerRZ.
  cbn [pow]. lra.
Qed.

Lemma updateDifficulty_fields (g : GameEngine) :
  let level := (score g / 500)%Z in
  currentSpawnRate (updateDifficulty g)
  = Rmax (baseSpawnRate g * powerRZ (9 / 10) level) (3 / 10)
  /\ currentProjectileSpeed (updateDifficulty g)
     = Rmin (baseProjectileSpeed g + IZR level * 20) 500.
Proof. split; reflexivity. Qed.

(** X14.  With the constructor's base values (one spawn every
    1.5 s, speed 200), [updateDifficulty] keeps the spawn interval in
    [[0.3, 1.5]] and the projectile speed in [[200, 500]] for every score
    that is not negative; both stay at the base value below 500 points, the
    speed is at its cap 500 exactly from 7500 points on and the spawn
    interval at its floor 0.3 exactly from 8000 points on. *)
Theorem updateDifficulty_bounds (g : GameEngine) :
  baseSpawnRate g = 15 / 10 ->
  baseProjectileSpeed g = 200 ->
  (0 <= score g)%Z ->
  let g' := updateDifficulty g in
  3 / 10 <= currentSpawnRate g' <= 15 / 10
  /\ 200 <= currentProjectileSpeed g' <= 500
  /\ ((score g < 500)%Z ->
      currentSpawnRate g' = 15 / 10 /\ currentProjectileSpeed g' = 200)
  /\ (currentProjectileSpeed g' = 500 <-> (7500 <= score g)%Z)
  /\ (currentSpawnRate g' = 3 / 10 <-> (8000 <= score g)%Z).
Proof.
  intros Hrate Hspeed Hscore g'.
  destruct (updateDifficulty_fields g) as (E1 & E2). cbv zeta in E1, E2.
  fold g' in E1, E2. rewrite Hrate in E1. rewrite Hspeed in E2.
  set (level := (score g / 500)%Z) in *.
  assert (Hlevel : (0 <= level)%Z) by (apply Z.div_pos; lia).
  pose proof (powerRZ_9_10_pos level) as Hpos.
  pose proof (powerRZ_9_10_le_1 level Hlevel) as Hle1.
  assert (Hl : 0 <= IZR level) by (apply IZR_le in Hlevel; exact Hlevel).
  assert (Hlev_lt : forall k : Z, (score g < 500 * k)%Z <-> (level < k)%Z).
  { intros k. unfold level. split; intros H.
    - apply Z.div_lt_upper_bound; lia.
    - destruct (Z.lt_ge_cases (score g) (500 * k)) as [?|Hge]; [assumption|].
      apply (Z.div_le_lower_bound _ 500 k) in Hge; lia. }
  rewrite E1, E2. split; [|split; [|split; [|split]]].
  - split; [apply Rmax_r | apply Rmax_lub; lra].
  - split; [apply Rmin_glb; lra | apply Rmin_r].
  - intros Hlow. apply (Hlev_lt 1%Z) in Hlow.
    assert (level = 0%Z) as -> by lia. cbn [powerRZ].
    rewrite Rmax_left, Rmin_left by lra. split; lra.
  - split.
    + intros Hcap.
      destruct (Z.lt_ge_cases (score g) 7500) as [Hlt|Hge]; [|exact Hge].
      apply (Hlev_lt 15%Z) in Hlt. apply IZR_lt in Hlt.
      rewrite Rmin_left in Hcap by lra. lra.
    + intros Hge.
      assert (15 <= level)%Z.
      { destruct (Z.lt_ge_cases level 15) as [Hlt|?]; [|assumption].
        apply (Hlev_lt 15%Z) in Hlt. lia. }
      assert (15 <= IZR level) by (now apply IZR_le).
      apply Rmin_right. lra.
  - split.
    + intros Hfloor.
      destruct (Z.lt_ge_cases (score g) 8000) as [Hlt|Hge]; [|exact Hge].
      apply (Hlev_lt 16%Z) in Hlt.
      pose proof (powerRZ_9_10_antitone level 15 ltac:(lia)) as Hanti.
      pose proof powerRZ_9_10_15 as H15.
      rewrite Rmax_left in Hfloor by lra. lra.
    + intros Hge.
      assert (16 <= level)%Z.
      { destruct (Z.lt_ge_cases level 16) as [Hlt|?]; [|assumption].
        apply (Hlev_lt 16%Z) in Hlt. lia. }
      pose proof (powerRZ_9_10_antitone 16 level ltac:(lia)) as Hanti.
      pose proof powerRZ_9_10_16 as H16.
      apply Rmax_right. lra.
Qed.

Lemma updateDifficulty_bounds_witness :
  let g' := updateDifficulty fresh_session in
  3 / 10 <= currentSpawnRate g' <= 15 / 10
  /\ 200 <= currentProjectileSpeed g' <= 500
  /\ ((score fresh_session < 500)%Z ->
      currentSpawnRate g' = 15 / 10 /\ currentProjectileSpeed g' = 200)
  /\ (currentProjectileSpeed g' = 500 <-> (7500 <= score fresh_session)%Z)
  /\ (currentSpawnRate g' = 3 / 10 <-> (8000 <= score fresh_session)%Z).
Proof.
  apply (updateDifficulty_bounds fresh_session);
    [reflexivity | reflexivity | simpl; lia].
Defined.

(** The edge index drawn from a random number in [[0, 1)]. *)
Lemma spawn_edge_range (r : R) :
  0 <= r < 1 -> (0 <= Zfloor (r * 4) <= 3)%Z.
Proof.
  intros [Hl Hu]. split.
  - apply Zfloor_lub. simpl. lra.
  - apply Z.lt_succ_r. apply lt_IZR.
    pose proof (Zfloor_bound (r * 4)) as [Hf _].
    change (Z.succ 3) with 4%Z. lra.
Qed.

Lemma sqrt_ge_abs_l (dx dy : R) : Rabs dx <= sqrt (dx * dx + dy * dy).
Proof.
  rewrite <- sqrt_Rsqr_abs. apply sqrt_le_1_alt. unfold Rsqr. nra.
Qed.

Lemma sqrt_ge_abs_r (dx dy : R) : Rabs dy <= sqrt (dx * dx + dy * dy).
Proof.
  rewrite <- sqrt_Rsqr_abs. apply sqrt_le_1_alt. unfold Rsqr. nra.
Qed.

(** A point on one of the four spawn edges is at least 420 pixels from the
    centre of the playfield. *)
Lemma spawn_on_edge_far (edge : Z) (r : R) (prev : R * R) :
  (0 <= edge <= 3)%Z ->
  let p := spawn_on_edge edge r prev in
  420 <= sqrt ((fst p - GAME_WIDTH / 2) * (fst p - GAME_WIDTH / 2)
               + (snd p - GAME_HEIGHT / 2) * (snd p - GAME_HEIGHT / 2)).
Proof.
  intros Hedge p. unfold p, spawn_on_edge, GAME_WIDTH, GAME_HEIGHT.
  repeat case_decide; try lia; cbn [fst snd].
  - eapply Rle_trans; [|apply sqrt_ge_abs_r].
    rewrite Rabs_left by lra. lra.
  - eapply Rle_trans; [|apply sqrt_ge_abs_l].
    rewrite Rabs_right by lra. lra.
  - eapply Rle_trans; [|apply sqrt_ge_abs_r].
    rewrite Rabs_right by lra. lra.
  - eapply Rle_trans; [|apply sqrt_ge_abs_l].
    rewrite Rabs_left by lra. lra.
Qed.

(** An attempt whose point is at least 92 pixels from the centre ends the
    loop, uncorrected. *)
Lemma spawn_attempts_far (fuel : nat) (edge : Z) (random : nat -> R)
    (k : nat) (attempts : Z) (prev : R * R) :
  let p := spawn_on_edge edge (random k) prev in
  30 + 12 + 50
  <= sqrt ((fst p - GAME_WIDTH / 2) * (fst p - GAME_WIDTH / 2)
           + (snd p - GAME_HEIGHT / 2) * (snd p - GAME_HEIGHT / 2)) ->
  spawn_attempts fuel edge random k attempts prev = p.
Proof.
  intros p Hfar. unfold p in *.
  destruct (spawn_on_edge edge (random k) prev) as [sx sy] eqn:Es.
  cbn [fst snd] in Hfar.
  destruct fuel as [|n]; cbn [spawn_attempts]; rewrite Es;
    match goal with
    | |- context [sqrt ?e <? ?b] =>
        assert (Hd : (sqrt e <? b) = false) by (apply Rltb_false; lra)
    end;
    rewrite Hd; cbn [andb]; rewrite Hd; reflexivity.
Qed.

(** Where [spawnProjectile] spawns: the first attempt is always far enough
    from the centre, so the loop body runs once, its correction branch
    never, and the final clamps change nothing. *)
Lemma spawn_point_first_attempt (random : nat -> R) :
  0 <= random 0%nat < 1 ->
  0 <= random 1%nat < 1 ->
  spawn_point random
  = spawn_on_edge (Zfloor (random 0%nat * 4)) (random 1%nat) (0, 0).
Proof.
  intros H0 H1.
  pose proof (spawn_edge_range _ H0) as Hedge.
  set (edge := Zfloor (random 0%nat * 4)) in *.
  pose proof (spawn_on_edge_far edge (random 1%nat) (0, 0) Hedge) as Hfar.
  cbv zeta in Hfar.
  unfold spawn_point. fold edge.
  rewrite spawn_attempts_far by (cbv zeta; lra).
  destruct (spawn_on_edge edge (random 1%nat) (0, 0)) as [sx sy] eqn:Es.
  assert (Hrange : -20 <= sx <= GAME_WIDTH + 20
                   /\ -20 <= sy <= GAME_HEIGHT + 20).
  { unfold spawn_on_edge, GAME_WIDTH, GAME_HEIGHT in *.
    repeat case_decide; try lia; injection Es as <- <-; lra. }
  destruct Hrange as [[Hx1 Hx2] [Hy1 Hy2]].
  cmp_known (sx <? -20). cmp_known (sx >? GAME_WIDTH + 20).
  cmp_known (sy <? -20). cmp_known (sy >? GAME_HEIGHT + 20).
  reflexivity.
Qed.

(** X15.  With [Math.random()] in [[0, 1)], [spawnProjectile] adds
    exactly one projectile to the active array: it starts on the border of
    the playfield widened by 20 pixels, on the edge the first random number
    selects and at the place the second one selects, at least 420 pixels
    from the centre, aimed at the centre with the current projectile speed,
    active and not dodged.  The retry loop for spawn points near the centre
    never takes a second turn. *)
Theorem spawnProjectile_on_border (random : nat -> R) (now : R)
    (g : GameEngine) :
  0 <= random 0%nat < 1 ->
  0 <= random 1%nat < 1 ->
  pool_inv (projectilePool g) ->
  let g' := spawnProjectile random now g in
  let edge := Zfloor (random 0%nat * 4) in
  let x := fst (spawn_on_edge edge (random 1%nat) (0, 0)) in
  let y := snd (spawn_on_edge edge (random 1%nat) (0, 0)) in
  (0 <= edge <= 3)%Z
  /\ (x = -20 \/ x = GAME_WIDTH + 20 \/ y = -20 \/ y = GAME_HEIGHT + 20)
  /\ (-20 <= x <= GAME_WIDTH + 20 /\ -20 <= y <= GAME_HEIGHT + 20)
  /\ 420 <= sqrt ((x - GAME_WIDTH / 2) * (x - GAME_WIDTH / 2)
                  + (y - GAME_HEIGHT / 2) * (y - GAME_HEIGHT / 2))
  /\ exists projectile,
       active (projectilePool g') = active (projectilePool g) ++ [projectile]
       /\ (projectile ∉ active (projectilePool g))
       /\ obj g' projectile
          = Projectile_reset now x y (GAME_WIDTH / 2) (GAME_HEIGHT / 2)
              (currentProjectileSpeed g)
       /\ pool_inv (projectilePool g').
Proof.
  intros H0 H1 Hinv g' edge x y.
  pose proof (spawn_edge_range _ H0) as Hedge. fold edge in Hedge.
  pose proof (spawn_on_edge_far edge (random 1%nat) (0, 0) Hedge) as Hfar.
  cbv zeta in Hfar. fold x y in Hfar.
  split; [exact Hedge|].
  assert (Hxy : spawn_on_edge edge (random 1%nat) (0, 0) = (x, y)).
  { unfold x, y. now destruct (spawn_on_edge _ _ _). }
  assert (Hcases : (x = -20 \/ x = GAME_WIDTH + 20 \/ y = -20
                    \/ y = GAME_HEIGHT + 20)
                   /\ (-20 <= x <= GAME_WIDTH + 20
                       /\ -20 <= y <= GAME_HEIGHT + 20)).
  { clear Hxy Hfar. unfold x, y, spawn_on_edge, GAME_WIDTH, GAME_HEIGHT.
    repeat case_decide; try lia; cbn [fst snd];
      (split;
       [first [left; reflexivity | right; left; reflexivity
              | right; right; left; reflexivity
              | right; right; right; reflexivity]
       | lra]). }
  destruct Hcases as [Hb Hr].
  split; [exact Hb|]. split; [exact Hr|]. split; [exact Hfar|].
  set (a := {| aa_now := now; aa_x := x; aa_y := y;
               aa_targetX := GAME_WIDTH / 2; aa_targetY := GAME_HEIGHT / 2;
               aa_speed := currentProjectileSpeed g |}).
  assert (Hg' : projectilePool g' = snd (acquire_with a (projectilePool g))).
  { unfold g', spawnProjectile.
    rewrite (spawn_point_first_attempt random H0 H1). fold edge.
    rewrite Hxy. reflexivity. }
  destruct (pool_inv_exactly_one _ Hinv) as (_ & _ & Hmem & Hone).
  pose proof (pool_inv_acquire a _ Hinv) as Hinv'.
  unfold obj. rewrite Hg'.
  destruct (snoc_cases (pool (projectilePool g))) as [Hp|(rest & q & Hp)].
  - rewrite (acquire_fresh a _ Hp) in *. cbn [snd active objs].
    exists (length (objs (projectilePool g))). split_and!.
    + reflexivity.
    + intros Hc.
      assert (length (objs (projectilePool g))
              < length (objs (projectilePool g)))%nat; [|lia].
      apply Hmem, elem_of_app. now right.
    + rewrite lookup_total_app_r by lia. now rewrite Nat.sub_diag.
    + exact Hinv'.
  - rewrite (acquire_reuse a _ rest q Hp) in *. cbn [snd active objs].
    assert (Hq : q ∈ pool (projectilePool g)).
    { rewrite Hp, elem_of_app. right. apply list_elem_of_here. }
    assert (Hqlt : (q < length (objs (projectilePool g)))%nat).
    { apply Hmem, elem_of_app. now left. }
    exists q. split_and!.
    + reflexivity.
    + destruct (Hone q Hqlt) as [[_ ?]|[_ ?]]; [assumption | contradiction].
    + now apply list_lookup_total_insert_eq.
    + exact Hinv'.
Qed.

Lemma spawnProjectile_on_border_witness :
  let random := fun _ : nat => 1 / 2 in
  let g' := spawnProjectile random 1000 fresh_session in
  let edge := Zfloor (random 0%nat * 4) in
  let x := fst (spawn_on_edge edge (random 1%nat) (0, 0)) in
  let y := snd (spawn_on_edge edge (random 1%nat) (0, 0)) in
  (0 <= edge <= 3)%Z
  /\ (x = -20 \/ x = GAME_WIDTH + 20 \/ y = -20 \/ y = GAME_HEIGHT + 20)
  /\ (-20 <= x <= GAME_WIDTH + 20 /\ -20 <= y <= GAME_HEIGHT + 20)
  /\ 420 <= sqrt ((x - GAME_WIDTH / 2) * (x - GAME_WIDTH / 2)
                  + (y - GAME_HEIGHT / 2) * (y - GAME_HEIGHT / 2))
  /\ exists projectile,
       active (projectilePool g')
       = active (projectilePool fresh_session) ++ [projectile]
       /\ (projectile ∉ active (projectilePool fresh_session))
       /\ obj g' projectile
          = Projectile_reset 1000 x y (GAME_WIDTH / 2) (GAME_HEIGHT / 2)
              (currentProjectileSpeed fresh_session)
       /\ pool_inv (projectilePool g').
Proof.
  apply (spawnProjectile_on_border (fun _ : nat => 1 / 2) 1000 fresh_session);
    [lra | lra | apply pool_inv_new].
Defined.

(** ** Physics: the collision tests *)

Lemma boxes_overlap_spec (box1 box2 : Box) :
  boxes_overlap box1 box2 = true
  <-> box_left box2 <= box_right box1 /\ box_left box1 <= box_right box2
      /\ box_top box2 <= box_bottom box1 /\ box_top box1 <= box_bottom box2.
Proof.
  unfold boxes_overlap. rewrite negb_true_iff, !orb_false_iff.
  rewrite !Rltb_false, !Rgtb_false. tauto.
Qed.

Lemma boxes_overlap_sym (box1 box2 : Box) :
  boxes_overlap box1 box2 = boxes_overlap box2 box1.
Proof.
  apply eq_true_iff_eq. rewrite !boxes_overlap_spec. tauto.
Qed.

Lemma getDistance_sym (point1 point2 : Body) :
  getDistance point1 point2 = getDistance point2 point1.
Proof. unfold getDistance. f_equal. ring. Qed.

Lemma checkCircleCircle_sym (circle1 circle2 : Body) :
  checkCircleCircle circle1 circle2 = checkCircleCircle circle2 circle1.
Proof.
  unfold checkCircleCircle. rewrite (getDistance_sym circle1 circle2).
  destruct (b_radius circle1), (b_radius circle2); try reflexivity.
  f_equal. lra.
Qed.

(** X16.  [checkCollision] does not depend on the order of
    its two objects, whatever their shapes and fields: circle against circle,
    rectangle against rectangle, the mixed case in either order, and shapes
    it does not know. *)
Theorem checkCollision_sym (obj1 obj2 : Body) :
  checkCollision obj1 obj2 = checkCollision obj2 obj1.
Proof.
  unfold checkCollision, boundingBoxCheck.
  rewrite (boxes_overlap_sym (Body_getBoundingBox obj1)).
  destruct (boxes_overlap _ _); cbn [negb]; [|reflexivity].
  unfold checkCollision_by_shape, checkRectangleRectangle.
  rewrite (boxes_overlap_sym (Body_getBoundingBox obj1)).
  rewrite (checkCircleCircle_sym obj1 obj2).
  destruct (decide (shape_of obj1 = "circle")) as [E1|E1],
    (decide (shape_of obj2 = "circle")) as [E2|E2],
    (decide (shape_of obj1 = "rectangle")) as [F1|F1],
    (decide (shape_of obj2 = "rectangle")) as [F2|F2];
    try (rewrite E1 in F1; discriminate);
    try (rewrite E2 in F2; discriminate);
    rewrite ?(bool_decide_eq_true_2 _ E1), ?(bool_decide_eq_false_2 _ E1),
      ?(bool_decide_eq_true_2 _ E2), ?(bool_decide_eq_false_2 _ E2),
      ?(bool_decide_eq_true_2 _ F1), ?(bool_decide_eq_false_2 _ F1),
      ?(bool_decide_eq_true_2 _ F2), ?(bool_decide_eq_false_2 _ F2);
    reflexivity.
Qed.

(** ** Physics: the collision grid, built and read *)

Lemma elem_of_cell_range (lo hi z : Z) :
  z ∈ cell_range lo hi <-> (lo <= z <= hi)%Z.
Proof. unfold cell_range. rewrite elem_of_seqZ. lia. Qed.

(** The innermost loop of [getNearbyObjects]: the objects of one cell. *)
Lemma nearby_cell (object q : ObjRef) (cellObjects acc : list ObjRef) :
  q ∈ foldl
        (fun nearby obj =>
           if bool_decide (obj <> object) && bool_decide (obj ∉ nearby)
           then nearby ++ [obj] else nearby)
        acc cellObjects
  <-> q ∈ acc \/ (q <> object /\ q ∈ cellObjects).
Proof.
  revert acc. induction cellObjects as [|obj l IH]; intros acc; cbn [foldl].
  - rewrite elem_of_nil. tauto.
  - rewrite IH, elem_of_cons.
    destruct (decide (obj <> object)) as [Hne|Heq];
      destruct (decide (obj ∉ acc)) as [Hnin|Hin];
      rewrite ?(bool_decide_eq_true_2 _ Hne), ?(bool_decide_eq_false_2 _ Heq),
        ?(bool_decide_eq_true_2 _ Hnin), ?(bool_decide_eq_false_2 _ Hin);
      cbn [andb]; rewrite ?elem_of_app, ?list_elem_of_singleton.
    + split; [intros [[?|?]|[? ?]] | intros [?|[? [?|?]]]]; subst; auto.
    + apply dec_stable in Hin.
      split; [intros [?|[? ?]] | intros [?|[? [?|?]]]]; subst; auto.
    + apply dec_stable in Heq. subst obj.
      split; [intros [?|[? ?]] | intros [?|[? [?|?]]]]; subst; auto.
      contradiction.
    + apply dec_stable in Heq. subst obj.
      split; [intros [?|[? ?]] | intros [?|[? [?|?]]]]; subst; auto.
      contradiction.
Qed.

Lemma nearby_column (ph : Physics) (object q : ObjRef) (cellX : Z)
    (ys : list Z) (acc : list ObjRef) :
  q ∈ foldl
        (fun nearby cellY =>
           let cellObjects := default [] (grid ph !! (cellX, cellY)) in
           foldl
             (fun nearby obj =>
                if bool_decide (obj <> object) && bool_decide (obj ∉ nearby)
                then nearby ++ [obj] else nearby)
             nearby cellObjects)
        acc ys
  <-> q ∈ acc
      \/ (q <> object
          /\ exists cellY, cellY ∈ ys
               /\ q ∈ default [] (grid ph !! (cellX, cellY))).
Proof.
  revert acc. induction ys as [|y ys IH]; intros acc; cbn [foldl].
  - split; [now left|]. intros [?|(_ & cy & Hc & _)]; [assumption|].
    now apply not_elem_of_nil in Hc.
  - rewrite IH. cbv zeta. rewrite nearby_cell. split.
    + intros [[?|[? ?]]|(? & cy & ? & ?)].
      * now left.
      * right. split; [assumption|]. exists y.
        split; [apply list_elem_of_here | assumption].
      * right. split; [assumption|]. exists cy.
        split; [now apply list_elem_of_further | assumption].
    + intros [?|(? & cy & Hc & ?)]; [now left; left|].
      apply elem_of_cons in Hc as [->|Hc].
      * left. right. now split.
      * right. split; [assumption|]. now exists cy.
Qed.

(** What [getNearbyObjects] returns, cell by cell. *)
Lemma getNearbyObjects_spec (ph : Physics) (object : ObjRef) (bounds : Box)
    (q : ObjRef) :
  q ∈ getNearbyObjects ph object bounds
  <-> q <> object
      /\ exists cell, in_cells (gridSize ph) bounds cell
           /\ q ∈ default [] (grid ph !! cell).
Proof.
  unfold getNearbyObjects, in_cells.
  set (ys := cell_range _ _).
  set (minX := Zfloor (box_left bounds / gridSize ph)).
  set (maxX := Zfloor (box_right bounds / gridSize ph)).
  assert (Hgen : forall xs acc,
            q ∈ foldl
                  (fun nearby cellX =>
                     foldl
                       (fun nearby cellY =>
                          let cellObjects :=
                            default [] (grid ph !! (cellX, cellY)) in
                          foldl
                            (fun nearby obj =>
                               if bool_decide (obj <> object)
                                  && bool_decide (obj ∉ nearby)
                               then nearby ++ [obj] else nearby)
                            nearby cellObjects)
                       nearby ys)
                  acc xs
            <-> q ∈ acc
                \/ (q <> object
                    /\ exists cx cy, cx ∈ xs /\ cy ∈ ys
                         /\ q ∈ default [] (grid ph !! (cx, cy)))).
  { induction xs as [|x xs IH]; intros acc; cbn [foldl].
    - split; [now left|]. intros [?|(_ & cx & cy & Hc & _)]; [assumption|].
      now apply not_elem_of_nil in Hc.
    - rewrite IH, nearby_column. split.
      + intros [[?|(? & cy & ? & ?)]|(? & cx & cy & ? & ? & ?)].
        * now left.
        * right. split; [assumption|]. exists x, cy.
          split_and!; [apply list_elem_of_here | assumption..].
        * right. split; [assumption|]. exists cx, cy.
          split_and!; [now apply list_elem_of_further | assumption..].
      + intros [?|(? & cx & cy & Hc & ? & ?)]; [now left; left|].
        apply elem_of_cons in Hc as [->|Hc].
        * left. right. split; [assumption|]. now exists cy.
        * right. split; [assumption|]. now exists cx, cy. }
  rewrite Hgen, elem_of_nil. split.
  - intros [[]|(Hne & cx & cy & Hx & Hy & Hq)].
    split; [exact Hne|]. exists (cx, cy). cbn [fst snd].
    apply elem_of_cell_range in Hx. unfold ys in Hy.
    apply elem_of_cell_range in Hy. auto.
  - intros (Hne & [cx cy] & (Hx & Hy) & Hq). cbn [fst snd] in *.
    right. split; [exact Hne|]. exists cx, cy.
    split_and!; [now apply elem_of_cell_range
                | unfold ys; now apply elem_of_cell_range | exact Hq].
Qed.

Lemma grid_add_lookup (obj : ObjRef) (cell c : Z * Z)
    (grid : gmap (Z * Z) (list ObjRef)) (q : ObjRef) :
  q ∈ default [] (grid_add obj cell grid !! c)
  <-> q ∈ default [] (grid !! c) \/ (q = obj /\ c = cell).
Proof.
  unfold grid_add. destruct (decide (c = cell)) as [->|Hne].
  - rewrite lookup_insert_eq.
    change (default [] (Some ?l)) with l.
    rewrite elem_of_app, list_elem_of_singleton. tauto.
  - rewrite lookup_insert_ne by congruence. split; [tauto|].
    intros [?|[_ ?]]; [assumption | contradiction].
Qed.

(** The cells one object is added to. *)
Lemma grid_add_cells (obj : ObjRef) (xs ys : list Z) (c : Z * Z)
    (q : ObjRef) :
  forall grid : gmap (Z * Z) (list ObjRef),
    q ∈ default []
          (foldl
             (fun grid cellX =>
                foldl (fun grid cellY => grid_add obj (cellX, cellY) grid)
                  grid ys)
             grid xs !! c)
    <-> q ∈ default [] (grid !! c)
        \/ (q = obj /\ fst c ∈ xs /\ snd c ∈ ys).
Proof.
  assert (Hcol : forall cellX ys' (grid : gmap (Z * Z) (list ObjRef)),
            q ∈ default []
                  (foldl (fun grid cellY => grid_add obj (cellX, cellY) grid)
                     grid ys' !! c)
            <-> q ∈ default [] (grid !! c)
                \/ (q = obj /\ fst c = cellX /\ snd c ∈ ys')).
  { intros cellX ys'. induction ys' as [|y ys' IH]; intros grid; cbn [foldl].
    - rewrite elem_of_nil. tauto.
    - rewrite IH, grid_add_lookup, elem_of_cons. destruct c as [cx cy].
      cbn [fst snd]. split.
      + intros [[?|[? Hc]]|(? & ? & ?)]; [tauto | | tauto].
        injection Hc as -> ->. tauto.
      + intros [?|(? & ? & [?|?])]; subst; tauto. }
  induction xs as [|x xs IH]; intros grid; cbn [foldl].
  - rewrite elem_of_nil. tauto.
  - rewrite IH, Hcol, elem_of_cons. split.
    + intros [[?|(? & ? & ?)]|(? & ? & ?)]; subst; tauto.
    + intros [?|(? & [?|?] & ?)]; subst; tauto.
Qed.

(** What [buildCollisionGrid] leaves in a cell. *)
Lemma buildCollisionGrid_spec (is_active : ObjRef -> bool)
    (bounds_of : ObjRef -> Box) (objects : list ObjRef) (size : R)
    (ph : Physics) (c : Z * Z) (q : ObjRef) :
  q ∈ default []
        (grid (buildCollisionGrid is_active bounds_of objects size ph) !! c)
  <-> q ∈ objects /\ is_active q = true /\ in_cells size (bounds_of q) c.
Proof.
  unfold buildCollisionGrid. cbn [grid].
  match goal with
  | |- context [foldl ?f ∅ objects] => set (step := f)
  end.
  assert (Hgen : forall l (g0 : gmap (Z * Z) (list ObjRef)),
            q ∈ default [] (foldl step g0 l !! c)
            <-> q ∈ default [] (g0 !! c)
                \/ (q ∈ l /\ is_active q = true
                    /\ in_cells size (bounds_of q) c)).
  { induction l as [|obj l IH]; intros g0; cbn [foldl].
    - rewrite elem_of_nil. tauto.
    - rewrite IH, elem_of_cons. unfold step.
      destruct (is_active obj) eqn:Hact; cbn [negb].
      + cbv zeta. rewrite grid_add_cells, !elem_of_cell_range.
        unfold in_cells. split.
        * intros [[?|(-> & ? & ?)]|(? & ? & ?)]; [tauto | | tauto].
          right. tauto.
        * intros [?|([->|?] & ? & ?)]; [tauto | | tauto].
          left. right. tauto.
      + split.
        * intros [?|(? & ? & ?)]; tauto.
        * intros [?|([->|?] & ? & ?)]; [tauto | congruence | tauto]. }
  rewrite Hgen, lookup_empty.
  change (default [] (@None (list ObjRef))) with (@nil ObjRef).
  rewrite elem_of_nil. tauto.
Qed.

(** Overlapping well-formed boxes share a grid cell. *)
Lemma overlapping_boxes_share_cell (size : R) (box1 box2 : Box) :
  0 < size ->
  box_left box1 <= box_right box1 -> box_top box1 <= box_bottom box1 ->
  box_left box2 <= box_right box2 -> box_top box2 <= box_bottom box2 ->
  boxes_overlap box1 box2 = true ->
  exists cell, in_cells size box1 cell /\ in_cells size box2 cell.
Proof.
  intros Hs W1 H1 W2 H2 Hov.
  apply boxes_overlap_spec in Hov as (O1 & O2 & O3 & O4).
  assert (Hdiv : forall a b, a <= b -> (Zfloor (a / size) <= Zfloor (b / size))%Z).
  { intros a b Hab. apply Zfloor_le.
    unfold Rdiv. apply Rmult_le_compat_r; [|exact Hab].
    apply Rlt_le, Rinv_0_lt_compat, Hs. }
  exists (Z.max (Zfloor (box_left box1 / size)) (Zfloor (box_left box2 / size)),
          Z.max (Zfloor (box_top box1 / size)) (Zfloor (box_top box2 / size))).
  unfold in_cells. cbn [fst snd].
  pose proof (Hdiv _ _ W1). pose proof (Hdiv _ _ W2).
  pose proof (Hdiv _ _ H1). pose proof (Hdiv _ _ H2).
  pose proof (Hdiv _ _ O1). pose proof (Hdiv _ _ O2).
  pose proof (Hdiv _ _ O3). pose proof (Hdiv _ _ O4).
  lia.
Qed.

(** X20.  The collision grid is a faithful index: after
    [buildCollisionGrid(objects, gridSize)], [getNearbyObjects(object)]
    returns exactly the objects of the list, other than [object] itself,
    whose [active] field is set and whose bounding box shares a grid cell
    with the bounding box of [object]; in particular, for a positive cell
    size it returns every such object whose well-formed bounding box
    overlaps that of [object], so no collision candidate is lost. *)
Theorem getNearbyObjects_after_build (is_active : ObjRef -> bool)
    (bounds_of : ObjRef -> Box) (objects : list ObjRef) (size : R)
    (ph : Physics) (object q : ObjRef) :
  let ph' := buildCollisionGrid is_active bounds_of objects size ph in
  let nearby := getNearbyObjects ph' object (bounds_of object) in
  (q ∈ nearby
   <-> q <> object /\ q ∈ objects /\ is_active q = true
       /\ exists cell, in_cells size (bounds_of object) cell
            /\ in_cells size (bounds_of q) cell)
  /\ (0 < size ->
      box_left (bounds_of object) <= box_right (bounds_of object) ->
      box_top (bounds_of object) <= box_bottom (bounds_of object) ->
      box_left (bounds_of q) <= box_right (bounds_of q) ->
      box_top (bounds_of q) <= box_bottom (bounds_of q) ->
      q <> object -> q ∈ objects -> is_active q = true ->
      boxes_overlap (bounds_of object) (bounds_of q) = true ->
      q ∈ nearby).
Proof.
  intros ph' nearby.
  assert (Hiff : q ∈ nearby
            <-> q <> object /\ q ∈ objects /\ is_active q = true
                /\ exists cell, in_cells size (bounds_of object) cell
                     /\ in_cells size (bounds_of q) cell).
  { unfold nearby. rewrite getNearbyObjects_spec.
    change (gridSize ph') with size. split.
    - intros (Hne & cell & Hc & Hq).
      apply buildCollisionGrid_spec in Hq as (? & ? & ?).
      split_and!; try assumption. now exists cell.
    - intros (Hne & Hin & Hact & cell & Hc1 & Hc2).
      split; [exact Hne|]. exists cell. split; [exact Hc1|].
      apply buildCollisionGrid_spec. auto. }
  split; [exact Hiff|].
  intros Hs W1 H1 W2 H2 Hne Hin Hact Hov.
  apply Hiff. split_and!; try assumption.
  now apply overlapping_boxes_share_cell.
Qed.

Lemma getNearbyObjects_after_build_witness :
  let bounds_of := fun o : ObjRef =>
    match o with
    | OPlayer => getBoundingBox 400 640 30
    | OProjectile _ => getBoundingBox 440 640 12
    end in
  let ph' :=
    buildCollisionGrid (fun _ => true) bounds_of [OProjectile 0] 200
      Physics_new in
  OProjectile 0 ∈ getNearbyObjects ph' OPlayer (bounds_of OPlayer).
Proof.
  intros bounds_of ph'.
  apply (getNearbyObjects_after_build (fun _ => true) bounds_of
           [OProjectile 0] 200 Physics_new OPlayer (OProjectile 0));
    try (cbn; lra); try reflexivity; try discriminate.
  - apply list_elem_of_here.
  - apply boxes_overlap_spec. cbn. lra.
Defined.

(** ** The pool throughout a session *)

Lemma pool_inv_alter (f : Projectile -> Projectile) (p : nat)
    (P : ProjectilePool) :
  pool_inv P -> pool_inv (set_objs (alter f p (objs P)) P).
Proof. unfold pool_inv. cbn [objs pool active set_objs]. now rewrite length_alter. Qed.

(** Changing fields of one projectile and handing it back keeps the pool
    clean. *)
Lemma pool_clean_release (f : Projectile -> Projectile) (p : nat)
    (P : ProjectilePool) :
  pool_clean P ->
  pool_clean (release p (set_objs (alter f p (objs P)) P)).
Proof.
  intros (Hinv & Hflags).
  destruct (pool_inv_exactly_one P Hinv) as (_ & Hnd & _).
  set (P1 := set_objs (alter f p (objs P)) P).
  assert (Hinv1 : pool_inv P1) by now apply pool_inv_alter.
  split; [now apply pool_inv_release|].
  intros q Hq.
  destruct (decide (p ∈ active P1)) as [Hin|Hnin].
  - destruct (list_elem_of_split _ _ Hin) as (l1 & l2 & Hsplit).
    change (active P1) with (active P) in Hsplit.
    rewrite Hsplit in Hnd.
    assert (Hp1 : p ∉ l1).
    { apply NoDup_app in Hnd as (_ & Hd & _). intros Hc.
      apply (Hd p Hc), list_elem_of_here. }
    assert (Hp2 : p ∉ l2).
    { apply NoDup_app in Hnd as (_ & _ & Hd).
      now apply NoDup_cons in Hd as [? _]. }
    rewrite (release_at p l1 l2 P1 Hsplit Hp1) in *.
    cbn [active objs] in *. unfold P1. cbn [objs set_objs].
    assert (Hqp : q <> p).
    { intros ->. apply elem_of_app in Hq as [?|?]; contradiction. }
    rewrite !lookup_total_alter_ne by congruence.
    apply Hflags. rewrite Hsplit, elem_of_app, elem_of_cons.
    apply elem_of_app in Hq as [?|?]; tauto.
  - rewrite (release_not_active p P1 Hnin) in *.
    change (active P1) with (active P) in *.
    unfold P1. cbn [objs set_objs].
    rewrite lookup_total_alter_ne by (intros ->; contradiction).
    now apply Hflags.
Qed.

Lemma alter_id_at (p : nat) (l : list Projectile) :
  alter (fun o => o) p l = l.
Proof.
  apply list_eq. intros i. destruct (decide (i = p)) as [->|Hne].
  - rewrite list_lookup_alter_eq. now destruct (l !! p).
  - now rewrite list_lookup_alter_ne by congruence.
Qed.

Lemma pool_clean_release_only (p : nat) (P : ProjectilePool) :
  pool_clean P -> pool_clean (release p P).
Proof.
  intros H. pose proof (pool_clean_release (fun o => o) p P H) as H'.
  rewrite alter_id_at in H'. now destruct P.
Qed.

(** Moving a projectile keeps the pool clean. *)
Lemma pool_clean_move (dt : R) (p : nat) (P : ProjectilePool) :
  pool_clean P ->
  pool_clean (set_objs (alter (updateVelocity dt) p (objs P)) P).
Proof.
  intros (Hinv & Hflags). split; [now apply pool_inv_alter|].
  cbn [active objs set_objs]. intros q Hq.
  destruct (Hflags q Hq) as (H1 & H2).
  destruct (decide (q = p)) as [->|Hne].
  - rewrite lookup_total_alter_eq.
    + now split.
    + apply (pool_inv_exactly_one P Hinv), elem_of_app. now right.
  - rewrite lookup_total_alter_ne by congruence. now split.
Qed.

Lemma pool_clean_acquire (a : AcquireArgs) (P : ProjectilePool) :
  pool_clean P -> pool_clean (snd (acquire_with a P)).
Proof.
  intros (Hinv & Hflags). split; [now apply pool_inv_acquire|].
  destruct (pool_inv_exactly_one P Hinv) as (_ & _ & Hmem & Hone).
  destruct (snoc_cases (pool P)) as [Hp|(rest & i & Hp)].
  - rewrite (acquire_fresh a P Hp). cbn [snd active objs].
    intros q [Hq|Hq]%elem_of_app.
    + assert (q < length (objs P))%nat
        by (apply Hmem, elem_of_app; now right).
      rewrite lookup_total_app_l by assumption. now apply Hflags.
    + apply list_elem_of_singleton in Hq as ->.
      rewrite lookup_total_app_r by lia.
      rewrite Nat.sub_diag. now split.
  - rewrite (acquire_reuse a P rest i Hp). cbn [snd active objs].
    assert (Hi : i ∈ pool P).
    { rewrite Hp, elem_of_app. right. apply list_elem_of_here. }
    assert (Hilt : (i < length (objs P))%nat).
    { apply Hmem, elem_of_app. now left. }
    intros q [Hq|Hq]%elem_of_app.
    + assert (q <> i).
      { intros ->. destruct (Hone i Hilt) as [[_ ?]|[_ ?]]; contradiction. }
      rewrite list_lookup_total_insert_ne by congruence. now apply Hflags.
    + apply list_elem_of_singleton in Hq as ->.
      rewrite list_lookup_total_insert_eq by assumption. now split.
Qed.

Lemma pool_clean_clear (P : ProjectilePool) :
  pool_inv P -> pool_clean (clear P).
Proof.
  intros Hinv.
  destruct (clear_loop_spec (length (active P)) P) as (H1 & H2 & _ & H4 & _);
    [lia|].
  fold (clear P) in H1, H2, H4.
  split.
  - unfold pool_inv in *. now rewrite H1, H2, H4, app_nil_r.
  - rewrite H1. intros p Hp. now apply not_elem_of_nil in Hp.
Qed.

Lemma pool_clean_updateProjectiles_loop (dt : R) (n : nat) :
  forall (i : nat) (g : GameEngine),
    pool_clean (projectilePool g) ->
    pool_clean (projectilePool (updateProjectiles_loop n i dt g)).
Proof.
  induction n as [|n IH]; intros i g Hc; [exact Hc|].
  destruct (active (projectilePool g) !! i) as [p|] eqn:Hlk.
  2:{ now rewrite updateProjectiles_loop_end. }
  rewrite (updateProjectiles_loop_step n i dt g p Hlk). apply IH.
  assert (Hplt : (p < length (objs (projectilePool g)))%nat).
  { destruct Hc as (Hinv & _).
    apply (pool_inv_exactly_one _ Hinv), elem_of_app. right.
    eapply list_elem_of_lookup_2, Hlk. }
  rewrite (updateProjectiles_body dt p g Hplt).
  destruct (pr_active (obj g p)); cbn [negb]; [|exact Hc].
  destruct (off_screen _).
  - now apply pool_clean_release.
  - now apply pool_clean_move.
Qed.

Lemma handleCollision_pool (p : nat) (g : GameEngine) :
  projectilePool (handleCollision p g) = release p (projectilePool g).
Proof.
  unfold handleCollision. peel. rewrite seq_stmt_eq.
  change (projectilePool (release_projectile p ?X))
    with (release p (projectilePool X)).
  now rewrite !(keeps_stmt projectilePool) by apply _.
Qed.

Lemma pool_clean_handleDodge (p : nat) (g : GameEngine) :
  pool_clean (projectilePool g) ->
  pool_clean (projectilePool (handleDodge p g)).
Proof.
  intros Hc. destruct (dodged (obj g p)) eqn:Hd.
  - rewrite handleDodge_again by exact Hd. exact Hc.
  - destruct (handleDodge_fresh p g Hd) as (_ & _ & _ & _ & _ & Hp).
    cbv zeta in Hp. rewrite Hp.
    pose proof (pool_clean_release
                  (fun o => set_pr_active false (set_dodged true o)) p
                  (projectilePool g) Hc) as H.
    replace (alter (set_pr_active false) p
               (alter (set_dodged true) p (objs (projectilePool g))))
      with (alter (fun o => set_pr_active false (set_dodged true o)) p
              (objs (projectilePool g))); [exact H|].
    symmetry. apply alter_alter_at. reflexivity.
Qed.

Lemma pool_clean_scan (now : nat -> R) (ps : list nat) :
  forall (i : nat) (g : GameEngine),
    pool_clean (projectilePool g) ->
    pool_clean (projectilePool (scan now i ps g)).
Proof.
  induction ps as [|p ps IH]; intros i g Hc; [exact Hc|].
  destruct (player g) as [pl|] eqn:Hpl.
  2:{ now rewrite scan_no_player. }
  rewrite (scan_cons now i p ps g pl Hpl).
  destruct (classify (now i) pl (obj g p)).
  - now apply IH.
  - rewrite handleCollision_pool. now apply pool_clean_release_only.
  - apply IH. now apply pool_clean_handleDodge.
Qed.

(** X21.  Throughout a session the pool stays clean: the
    constructor leaves every instance in exactly one collection and the
    active array empty; every PLAYING frame and every [startGame] keep the
    exactly-one-collection invariant and keep every projectile of the active
    array flagged active and not dodged.  So the dodge handler's guard
    against a second processing never meets a projectile of the active
    array. *)
Theorem pool_clean_kept (fr : Frame) (dt : R) (g : GameEngine) :
  pool_clean (projectilePool g) ->
  pool_clean (projectilePool (updatePlaying fr dt g))
  /\ pool_clean (projectilePool (startGame g))
  /\ (forall lastTime now storedGames storedDifficulty,
        pool_clean
          (projectilePool
             (GameEngine_new lastTime now storedGames storedDifficulty))).
Proof.
  intros Hc. split_and!.
  - unfold updatePlaying. rewrite !seq_stmt_eq.
    rewrite !(keeps_stmt projectilePool) by apply _.
    match goal with
    | |- context [checkCollisions ?n ?h0] => set (h := h0)
    end.
    assert (Hh : pool_clean (projectilePool h)).
    { unfold h, updateSpawning. rewrite seq_stmt_eq. unfold when, ifelse.
      set (h1 := assign set_spawnTimer _ _).
      assert (Hh1 : pool_clean (projectilePool h1)).
      { unfold h1.
        change (projectilePool (assign set_spawnTimer ?e ?x))
          with (projectilePool x).
        unfold updateProjectiles.
        apply pool_clean_updateProjectiles_loop.
        exact Hc. }
      destruct (spawnTimer h1 >=? currentSpawnRate h1); [|exact Hh1].
      rewrite seq_stmt_eq.
      change (projectilePool (assign set_spawnTimer ?e ?x))
        with (projectilePool x).
      unfold spawnProjectile. destruct (spawn_point (random fr)) as [sx sy].
      change (projectilePool (assign set_projectilePool ?e ?x)) with (e x).
      cbv beta.
      apply (pool_clean_acquire
               (mkAcquireArgs (spawn_now fr) sx sy (GAME_WIDTH / 2)
                  (GAME_HEIGHT / 2) (currentProjectileSpeed h1))).
      exact Hh1. }
    unfold checkCollisions. destruct (player h); [|exact Hh].
    now apply pool_clean_scan.
  - unfold startGame. rewrite !seq_stmt_eq.
    rewrite !(keeps_stmt projectilePool) by apply _.
    change (projectilePool (assign set_projectilePool ?e ?x)) with (e x).
    cbv beta. apply pool_clean_clear.
    rewrite !(keeps_stmt projectilePool) by apply _.
    apply Hc.
  - intros lastTime now storedGames storedDifficulty.
    cbn [projectilePool GameEngine_new]. split; [apply pool_inv_new|].
    intros p Hp. now apply not_elem_of_nil in Hp.
Qed.

Lemma pool_clean_kept_witness :
  let fr := mkFrame 1033 None (fun _ => 1 / 2) 1033 (fun _ => 1033) in
  active (projectilePool (session_with 1)) = [49%nat]
  /\ pool_clean (projectilePool (updatePlaying fr (33 / 1000) (session_with 1)))
  /\ pool_clean (projectilePool (startGame (session_with 1)))
  /\ (forall lastTime now storedGames storedDifficulty,
        pool_clean
          (projectilePool
             (GameEngine_new lastTime now storedGames storedDifficulty))).
Proof.
  split; [reflexivity|].
  apply (pool_clean_kept
           (mkFrame 1033 None (fun _ => 1 / 2) 1033 (fun _ => 1033))
           (33 / 1000) (session_with 1)).
  change (projectilePool (session_with 1))
    with (snd (acquire_with spawn_in_gap (projectilePool fresh_session))).
  apply pool_clean_acquire.
  split; [apply pool_inv_new|].
  intros p Hp. now apply not_elem_of_nil in Hp.
Defined.

(** ** Floating scores *)

Lemma updateFloatingScores_value (dt : R) (g : GameEngine) :
  floatingScores (updateFloatingScores dt g)
  = filter (fun f => ~ life f <= 0)
      ((fun f =>
          {| fs_x := fs_x f;
             fs_y := fs_y f + velocityY f * dt;
             fs_points := fs_points f;
             life := life f - dt;
             maxLife := maxLife f;
             velocityY := velocityY f;
             alpha := (life f - dt) / maxLife f |}) <$> floatingScores g).
Proof. reflexivity. Qed.

(** The floating scores left by a frame have used up the frame's time. *)
Lemma updateFloatingScores_life (dt bound : R) (g : GameEngine) :
  Forall (fun f => life f <= bound) (floatingScores g) ->
  Forall (fun f => 0 < life f <= bound - dt)
    (floatingScores (updateFloatingScores dt g)).
Proof.
  rewrite updateFloatingScores_value. intros H.
  induction H as [|f l Hf _ IH]; [constructor|].
  rewrite fmap_cons, filter_cons. cbn [life].
  destruct (decide (~ life f - dt <= 0)) as [Hpos|_]; [|exact IH].
  constructor; [|exact IH]. cbn [life]. lra.
Qed.

(** With exact arithmetic the lifetime is sharp: nothing is left once the
    time steps add up to the life that was left. *)
Lemma updateFloatingScores_expire_exact (dts : list R) (bound : R)
    (g : GameEngine) :
  Forall (fun f => life f <= bound) (floatingScores g) ->
  dts <> [] ->
  bound <= foldr Rplus 0 dts ->
  floatingScores (foldl (fun g dt => updateFloatingScores dt g) g dts) = [].
Proof.
  revert bound g. induction dts as [|dt dts IH]; intros bound g Hlife Hne Hsum;
    [congruence|].
  cbn [foldl foldr] in *.
  pose proof (updateFloatingScores_life dt bound g Hlife) as Hstep.
  destruct dts as [|dt' dts'].
  - cbn [foldl foldr] in *.
    destruct (floatingScores (updateFloatingScores dt g)) as [|f l];
      [reflexivity|].
    apply Forall_cons in Hstep as [Hf _]. lra.
  - apply (IH (bound - dt)); [|discriminate|lra].
    eapply Forall_impl; [exact Hstep|]. intros f Hf. cbv beta in Hf. lra.
Qed.

(** X22.  A floating score is shown for little more than its
    lifetime of frame time: when every floating score has at most [bound]
    seconds of life left (1 second when spawned), none is left after one or
    more frames whose time steps add up to [bound] and a millisecond, or
    more.  The millisecond is far above what the rounding of the repeated
    [life -= dt] adds up to on doubles; at exactly [bound] a score can
    outlive one more frame there. *)
Theorem updateFloatingScores_expire (dts : list R) (bound : R)
    (g : GameEngine) :
  Forall (fun f => life f <= bound) (floatingScores g) ->
  dts <> [] ->
  bound + 1 / 1000 <= foldr Rplus 0 dts ->
  floatingScores (foldl (fun g dt => updateFloatingScores dt g) g dts) = [].
Proof.
  intros Hlife Hne Hsum.
  apply (updateFloatingScores_expire_exact dts bound g Hlife Hne). lra.
Qed.

(** On doubles: a floating score spawned with life 1 is still shown after
    80 frames of 12.5 ms and after 10 frames of 100 ms, which add up to its
    lifetime, and is gone one such frame later, as it is after 31 frames of
    33 ms. *)
Lemma updateFloatingScores_expire_on_doubles :
  DoubleFloating.shown_after DoubleFloating.full_life
    (replicate 80 DoubleFloating.step_80) = true
  /\ DoubleFloating.shown_after DoubleFloating.full_life
       (replicate 81 DoubleFloating.step_80) = false
  /\ DoubleFloating.shown_after DoubleFloating.full_life
       (replicate 10 DoubleFloating.step_10) = true
  /\ DoubleFloating.shown_after DoubleFloating.full_life
       (replicate 11 DoubleFloating.step_10) = false
  /\ DoubleFloating.shown_after DoubleFloating.full_life
       (replicate 31 DoubleFloating.step_30) = false.
Proof. vm_compute. repeat split. Qed.

Lemma updateFloatingScores_expire_witness :
  floatingScores
    (foldl (fun g dt => updateFloatingScores dt g)
       (spawnFloatingScore 22 440 640 fresh_session)
       (replicate 31 (33 / 1000)))
  = [].
Proof.
  apply (updateFloatingScores_expire (replicate 31 (33 / 1000)) 1
           (spawnFloatingScore 22 440 640 fresh_session)).
  - constructor; [cbn [life]; lra | constructor].
  - discriminate.
  - simpl. lra.
Defined.

(** ** Menu and pause screens *)

Lemma isPointInButton_spec (x y : R) (b : Button) :
  isPointInButton x y b = true
  <-> bt_x b <= x <= bt_x b + bt_width b
      /\ bt_y b <= y <= bt_y b + bt_height b.
Proof.
  unfold isPointInButton. rewrite !andb_true_iff.
  rewrite Rgeb_true, !Rleb_true, Rgeb_true. tauto.
Qed.

(** X23.  On the menu a new press never leaves the menu on screen.
    It opens Settings or How to play, and in every other case it starts a
    game: whenever the touch is on neither of those two buttons, on the
    Play button or not, or has no position.  The Play and How-to-play
    buttons share the line y = 560, and a press on it opens How to play. *)
Theorem updateMenu_press (inp : Input) (fr : Frame) (dt : R)
    (g : GameEngine) :
  wasJustPressed inp = true ->
  let g' := updateMenu inp fr dt g in
  currentState g' <> MENU
  /\ (g' = startGame g \/ g' = set_currentState SETTINGS g
      \/ g' = set_currentState HOW_TO_PLAY g)
  /\ ((forall x y, touch fr = Some (x, y) ->
         isPointInButton x y getSettingsButtonBounds = false
         /\ isPointInButton x y getHowToPlayButtonBounds = false) ->
      g' = startGame g)
  /\ (forall x, 250 <= x <= 550 -> touch fr = Some (x, 560) ->
        isPointInButton x 560 getPlayButtonBounds = true
        /\ g' = set_currentState HOW_TO_PLAY g).
Proof.
  intros Hp g'.
  assert (Hcases :
    g' = match touch fr with
         | Some (x, y) =>
             if isPointInButton x y getSettingsButtonBounds then
               set_currentState SETTINGS g
             else if isPointInButton x y getHowToPlayButtonBounds then
               set_currentState HOW_TO_PLAY g
             else startGame g
         | None => startGame g
         end).
  { subst g'. unfold updateMenu, pressed_at, when, ifelse. rewrite Hp.
    cbn [orb].
    destruct (touch fr) as [[x y]|]; [|reflexivity].
    destruct (isPointInButton x y getSettingsButtonBounds); [reflexivity|].
    destruct (isPointInButton x y getHowToPlayButtonBounds); [reflexivity|].
    destruct (isPointInButton x y getPlayButtonBounds);
      reflexivity. }
  clearbody g'. split; [|split; [|split]].
  - rewrite Hcases. destruct (touch fr) as [[x y]|]; [|discriminate].
    destruct (isPointInButton x y getSettingsButtonBounds); [discriminate|].
    destruct (isPointInButton x y getHowToPlayButtonBounds); discriminate.
  - rewrite Hcases. destruct (touch fr) as [[x y]|]; [|tauto].
    destruct (isPointInButton x y getSettingsButtonBounds); [tauto|].
    destruct (isPointInButton x y getHowToPlayButtonBounds); tauto.
  - intros Hoff. rewrite Hcases.
    destruct (touch fr) as [[x y]|]; [|reflexivity].
    destruct (Hoff x y eq_refl) as [-> ->]. reflexivity.
  - intros x Hx Ht. rewrite Hcases, Ht.
    assert (Hplay : isPointInButton x 560 getPlayButtonBounds = true).
    { apply isPointInButton_spec. unfold getPlayButtonBounds, GAME_WIDTH.
      cbn [bt_x bt_y bt_width bt_height]. lra. }
    assert (Hhow : isPointInButton x 560 getHowToPlayButtonBounds = true).
    { apply isPointInButton_spec. unfold getHowToPlayButtonBounds, GAME_WIDTH.
      cbn [bt_x bt_y bt_width bt_height]. lra. }
    assert (Hset : isPointInButton x 560 getSettingsButtonBounds = false).
    { apply not_true_is_false. intros H. apply isPointInButton_spec in H.
      unfold getSettingsButtonBounds, GAME_HEIGHT in H.
      cbn [bt_x bt_y bt_width bt_height] in H. lra. }
    rewrite Hset, Hhow. split; [exact Hplay|reflexivity].
Qed.

Lemma updateMenu_press_witness :
  let inp := mkInput true (fun _ => false) false in
  let fr := mkFrame 0 (Some (400, 560)) (fun _ => 0) 0 (fun _ => 0) in
  currentState (updateMenu inp fr (33 / 1000) (session_with 3)) <> MENU.
Proof.
  exact (proj1 (updateMenu_press (mkInput true (fun _ => false) false)
                  (mkFrame 0 (Some (400, 560)) (fun _ => 0) 0 (fun _ => 0))
                  (33 / 1000) (session_with 3) eq_refl)).
Defined.

(** A frame on the pause screen with nothing pressed moves the frame clock
    and nothing else. *)
Lemma paused_quiet_frame (updateSettings : Input -> Frame -> R -> stmt)
    (inp : Input) (fr : Frame) (g : GameEngine) :
  currentState g = PAUSED -> quiet inp ->
  let g' := gameLoop (screens updateSettings inp) fr g in
  currentState g' = PAUSED /\ same_session g g'.
Proof.
  intros Hs (Hp & Hk1 & Hk2 & Hk3). destruct g as [st ? ? ? ? ? ? ? ? ? ? ? ? ? ? ? ? ? ? ? ? ? ? ? ?].
  simpl in Hs. subst st. unfold same_session, gameLoop, update, screens, updatePaused,
    pressed_at, seq_stmt, assign, when, ifelse, skip.
  cbn. rewrite Hp, Hk1, Hk2, Hk3. cbn. split; reflexivity.
Qed.

Lemma same_session_trans (g1 g2 g3 : GameEngine) :
  same_session g1 g2 -> same_session g2 g3 -> same_session g1 g3.
Proof.
  unfold same_session. intros H12 H23. destruct g1, g2, g3.
  cbn in *. injection H12 as ?. injection H23 as ?. subst. reflexivity.
Qed.

Lemma same_session_refl (g : GameEngine) : same_session g g.
Proof. unfold same_session. destruct g. reflexivity. Qed.

Lemma paused_quiet_frames (updateSettings : Input -> Frame -> R -> stmt)
    (l : list (Input * Frame)) (g : GameEngine) :
  currentState g = PAUSED -> Forall (fun '(inp, _) => quiet inp) l ->
  currentState (frames updateSettings l g) = PAUSED
  /\ same_session g (frames updateSettings l g).
Proof.
  revert g. induction l as [|[inp fr] l IH]; intros g Hs Hq.
  - split; [exact Hs|apply same_session_refl].
  - apply Forall_cons in Hq as [Hq Hl].
    destruct (paused_quiet_frame updateSettings inp fr g Hs Hq) as [Hs' H1].
    destruct (IH _ Hs' Hl) as [Hs'' H2].
    split; [exact Hs''|]. exact (same_session_trans _ _ _ H1 H2).
Qed.

(** X24.  Pausing and resuming gives the session back.  When the
    application is paused during play, then shows the pause screen for any
    number of frames in which nothing is pressed, and then gets a press on
    the Resume button, or, with no new press, one of the keys Space, Escape
    or Backspace, the engine is playing again and differs from the engine
    before the pause in the frame clock only.  During the pause it stays
    paused and nothing but that clock changes. *)
Theorem pause_resume (updateSettings : Input -> Frame -> R -> stmt)
    (l : list (Input * Frame)) (inp : Input) (fr : Frame) (g : GameEngine) :
  currentState g = PLAYING ->
  Forall (fun '(inp, _) => quiet inp) l ->
  (wasJustPressed inp = true
   /\ exists x y, touch fr = Some (x, y)
        /\ isPointInButton x y getResumeButtonBounds = true)
  \/ (wasJustPressed inp = false
      /\ (isKeyPressed inp "Space" = true \/ isKeyPressed inp "Escape" = true
          \/ isKeyPressed inp "Backspace" = true)) ->
  let paused := frames updateSettings l (onPause g) in
  let resumed := gameLoop (screens updateSettings inp) fr paused in
  currentState paused = PAUSED
  /\ same_session (onPause g) paused
  /\ onPause g = set_currentState PAUSED g
  /\ currentState resumed = PLAYING
  /\ same_session g resumed.
Proof.
  intros Hs Hq Hres paused resumed.
  assert (Hon : onPause g = set_currentState PAUSED g).
  { unfold onPause. rewrite Hs. reflexivity. }
  assert (Hson : currentState (onPause g) = PAUSED).
  { rewrite Hon. reflexivity. }
  destruct (paused_quiet_frames updateSettings l _ Hson Hq) as [Hsp Hsame].
  fold paused in Hsp, Hsame.
  split; [exact Hsp|]. split; [exact Hsame|]. split; [exact Hon|].
  assert (Hstep : currentState resumed = PLAYING
                  /\ same_session (set_currentState PLAYING paused) resumed).
  { subst resumed. clearbody paused. clear Hsame. destruct paused as [st ? ? ? ? ? ? ? ? ? ? ? ? ? ? ? ? ? ? ? ? ? ? ? ?].
    simpl in Hsp. subst st.
    unfold same_session, gameLoop, update, screens, updatePaused,
      pressed_at, seq_stmt, assign, when, ifelse, skip.
    cbn.
    destruct Hres as [[Hp (x & y & Ht & Hb)]|[Hp Hk]].
    - rewrite Hp, Ht, Hb. cbn. split; reflexivity.
    - rewrite Hp.
      destruct (isKeyPressed inp "Space") eqn:K1; cbn;
        [destruct (isKeyPressed inp "Escape" || isKeyPressed inp "Backspace");
         cbn; split; reflexivity|].
      destruct (isKeyPressed inp "Escape") eqn:K2; cbn;
        [split; reflexivity|].
      destruct (isKeyPressed inp "Backspace") eqn:K3; cbn;
        [split; reflexivity|].
      destruct Hk as [Hk|[Hk|Hk]]; discriminate. }
  destruct Hstep as [Hs' Hsame'].
  split; [exact Hs'|].
  unfold same_session in *. rewrite Hon in Hsame.
  destruct g, paused, resumed. cbn in *.
  injection Hsame as ?. injection Hsame' as ?. subst. reflexivity.
Qed.

Lemma pause_resume_witness :
  let idle := (mkInput false (fun _ => false) false,
               mkFrame 16 None (fun _ => 0) 0 (fun _ => 0)) in
  let inp := mkInput true (fun _ => false) false in
  let fr := mkFrame 50 (Some (400, 630)) (fun _ => 0) 0 (fun _ => 0) in
  same_session (session_with 3)
    (gameLoop (screens (fun _ _ _ => skip) inp) fr
       (frames (fun _ _ _ => skip) [idle; idle] (onPause (session_with 3)))).
Proof.
  refine (proj2 (proj2 (proj2 (proj2
    (pause_resume (fun _ _ _ => skip)
       [(mkInput false (fun _ => false) false,
         mkFrame 16 None (fun _ => 0) 0 (fun _ => 0));
        (mkInput false (fun _ => false) false,
         mkFrame 16 None (fun _ => 0) 0 (fun _ => 0))]
       (mkInput true (fun _ => false) false)
       (mkFrame 50 (Some (400, 630)) (fun _ => 0) 0 (fun _ => 0))
       (session_with 3) eq_refl _ _))))).
  - repeat (constructor; [repeat split|]). constructor.
  - left. split; [reflexivity|]. exists 400, 630. split; [reflexivity|].
    apply isPointInButton_spec.
    unfold getResumeButtonBounds, GAME_WIDTH, GAME_HEIGHT.
    cbn [bt_x bt_y bt_width bt_height]. lra.
Defined.

(** ** The leaderboard *)

Definition by_falling_score (a b : JSON) : Prop := score_of b <= score_of a.

Lemma sort_insert_perm (x : JSON) (l : list JSON) :
  sort_insert x l ≡ₚ x :: l.
Proof.
  induction l as [|y l IH]; cbn [sort_insert]; [reflexivity|].
  destruct (score_of y >? score_of x); [|reflexivity].
  rewrite IH. apply Permutation_swap.
Qed.

Lemma sort_by_score_perm (l : list JSON) : sort_by_score l ≡ₚ l.
Proof.
  induction l as [|x l IH]; [reflexivity|].
  cbn [sort_by_score foldr]. fold (sort_by_score l).
  rewrite sort_insert_perm, IH. reflexivity.
Qed.

Lemma sort_insert_sorted (x : JSON) (l : list JSON) :
  StronglySorted by_falling_score l ->
  StronglySorted by_falling_score (sort_insert x l).
Proof.
  induction 1 as [|y l Hl IH Hy]; cbn [sort_insert].
  - repeat constructor.
  - destruct (score_of y >? score_of x) eqn:Hc.
    + apply Rgtb_true in Hc. constructor; [exact IH|].
      rewrite Forall_forall. intros z Hz.
      rewrite sort_insert_perm in Hz. apply elem_of_cons in Hz as [->|Hz].
      * unfold by_falling_score. lra.
      * rewrite Forall_forall in Hy. exact (Hy z Hz).
    + apply Rgtb_false in Hc. constructor; [constructor; assumption|].
      constructor; [unfold by_falling_score; lra|].
      eapply Forall_impl; [exact Hy|]. unfold by_falling_score.
      intros z Hz. lra.
Qed.

Lemma sort_by_score_sorted (l : list JSON) :
  StronglySorted by_falling_score (sort_by_score l).
Proof.
  induction l as [|x l IH]; [constructor|].
  cbn [sort_by_score foldr]. apply sort_insert_sorted. exact IH.
Qed.

Lemma StronglySorted_take_drop (n : nat) (l : list JSON) :
  StronglySorted by_falling_score l ->
  StronglySorted by_falling_score (take n l)
  /\ forall a b, a ∈ take n l -> b ∈ drop n l -> score_of b <= score_of a.
Proof.
  intros H. revert n. induction H as [|x l Hl IH Hx]; intros n.
  - rewrite take_nil, drop_nil. split; [constructor|].
    intros a b Ha. inversion Ha.
  - destruct n as [|n]; cbn [take drop].
    + split; [constructor|]. intros a b Ha. inversion Ha.
    + destruct (IH n) as [IH1 IH2]. split.
      * constructor; [exact IH1|]. rewrite Forall_forall in *.
        intros z Hz. apply Hx. eapply subseteq_take. exact Hz.
      * intros a b Ha Hb. apply elem_of_cons in Ha as [->|Ha].
        -- rewrite Forall_forall in Hx. apply Hx.
           eapply subseteq_drop. exact Hb.
        -- exact (IH2 a b Ha Hb).
Qed.

Lemma filter_all {A} (P : A -> Prop) `{!forall x, Decision (P x)}
    (l : list A) :
  Forall P l -> filter P l = l.
Proof.
  induction 1 as [|x l Hx _ IH]; [reflexivity|].
  rewrite filter_cons, decide_True by exact Hx. rewrite IH. reflexivity.
Qed.

Lemma loadHighScores_entries (st : Storage) :
  Forall (fun s => is_score_entry s = true) (loadHighScores st).
Proof.
  unfold loadHighScores.
  destruct (st !! "spinEscapeHighScores") as [[|[]]|]; try constructor.
  rewrite Forall_forall. intros s Hs. apply list_elem_of_filter in Hs.
  tauto.
Qed.

(** X26.  Saving a score that passes the validation, with a
    storage that takes the write, returns [true], and the leaderboard read
    back afterwards has at most ten entries, in the order of falling
    score; each of them is the new entry or an entry that was on the
    leaderboard before; and every such entry, the new one included, is on
    the leaderboard unless the leaderboard is full with entries that score
    at least as much. *)
Theorem saveScore_leaderboard (now score : R) (st : Storage) :
  0 <= score <= 1000000 ->
  let entry := score_entry now score in
  let saved := saveScore true now score st in
  let board := loadHighScores (snd saved) in
  fst saved = true
  /\ (length board <= 10)%nat
  /\ StronglySorted (fun a b => score_of b <= score_of a) board
  /\ (forall e, e ∈ board -> e = entry \/ e ∈ loadHighScores st)
  /\ (forall e, e = entry \/ e ∈ loadHighScores st ->
        e ∈ board
        \/ (length board = 10%nat
            /\ forall e', e' ∈ board -> score_of e <= score_of e')).
Proof.
  intros Hv entry saved board.
  set (all := sort_by_score (loadHighScores st ++ [entry])).
  assert (Hval : DataManager_validateScore score = true).
  { unfold DataManager_validateScore.
    cmp_known (score <? 0). cmp_known (score >? 1000000). reflexivity. }
  assert (Hsaved : saved = (true, <[ "spinEscapeHighScores"
                                      := Stored (JArray (take 10 all)) ]> st)).
  { subst saved. unfold saveScore. rewrite Hval. reflexivity. }
  assert (Hperm : all ≡ₚ entry :: loadHighScores st).
  { subst all. rewrite sort_by_score_perm.
    rewrite Permutation_app_comm. reflexivity. }
  assert (Hentry : is_score_entry entry = true).
  { subst entry. cbn. rewrite decide_True by reflexivity. cbn.
    cmp_known (score >=? 0). reflexivity. }
  assert (Hall : Forall (fun s => is_score_entry s = true) all).
  { rewrite Hperm. constructor; [exact Hentry|].
    apply loadHighScores_entries. }
  assert (Hboard : board = take 10 all).
  { subst board. rewrite Hsaved. cbn [snd]. unfold loadHighScores.
    unfold Storage in *. rewrite lookup_insert_eq. apply filter_all.
    apply Forall_take. exact Hall. }
  clearbody board saved. subst board saved. cbn [fst].
  destruct (StronglySorted_take_drop 10 all (sort_by_score_sorted _))
    as [Hsorted Hdrop].
  split; [reflexivity|]. split; [|split; [|split]].
  - rewrite length_take. lia.
  - exact Hsorted.
  - intros e He. apply subseteq_take in He. rewrite Hperm in He.
    apply elem_of_cons in He. exact He.
  - intros e He.
    assert (Hin : e ∈ all). { rewrite Hperm. apply elem_of_cons. exact He. }
    rewrite <- (take_drop 10 all) in Hin.
    apply elem_of_app in Hin as [Hin|Hin]; [left; exact Hin|right].
    split.
    + rewrite length_take. apply Nat.min_l.
      destruct (decide (10 <= length all)%nat) as [?|Hn]; [assumption|].
      rewrite drop_ge in Hin by lia. inversion Hin.
    + intros e' He'. exact (Hdrop e' e He' Hin).
Qed.

Lemma saveScore_leaderboard_witness :
  fst (saveScore true 1700000000000 120 ∅) = true.
Proof.
  exact (proj1 (saveScore_leaderboard 1700000000000 120 ∅
                  ltac:(lra))).
Defined.

(** ** Animations *)

Lemma easing_ends (easing : R -> R) :
  In easing [linear; easeIn; easeOut; easeInOut; bounce; elastic] ->
  easing 0 = 0 /\ easing 1 = 1.
Proof.
  cbn [In]. intros [<-|[<-|[<-|[<-|[<-|[<-|[]]]]]]].
  - unfold linear. lra.
  - unfold easeIn. lra.
  - unfold easeOut. lra.
  - unfold easeInOut. cmp_known (0 <? 5 / 10). cmp_known (1 <? 5 / 10). lra.
  - unfold bounce. cmp_known (0 <? 1 / (275 / 100)).
    cmp_known (1 <? 1 / (275 / 100)). cmp_known (1 <? 2 / (275 / 100)).
    cmp_known (1 <? 25 / 10 / (275 / 100)). cbv zeta. split; [lra|field].
  - unfold elastic. rewrite !decide_True by (lra || tauto). lra.
Qed.

Lemma bounce_range (t : R) : 0 <= t <= 1 -> 0 <= bounce t <= 1.
Proof.
  intros Ht. unfold bounce.
  assert (E1 : 1 / (275 / 100) = 4 / 11) by field.
  assert (E2 : 2 / (275 / 100) = 8 / 11) by field.
  assert (E3 : 25 / 10 / (275 / 100) = 10 / 11) by field.
  assert (E4 : 15 / 10 / (275 / 100) = 6 / 11) by field.
  assert (E5 : 225 / 100 / (275 / 100) = 9 / 11) by field.
  assert (E6 : 2625 / 1000 / (275 / 100) = 21 / 22) by field.
  rewrite E1, E2, E3, E4, E5, E6. cbv zeta.
  destruct (t <? 4 / 11) eqn:C1; cmp_to_prop; [nra|].
  destruct (t <? 8 / 11) eqn:C2; cmp_to_prop; [nra|].
  destruct (t <? 10 / 11) eqn:C3; cmp_to_prop; nra.
Qed.

Lemma easing_range (easing : R -> R) (t : R) :
  In easing [linear; easeIn; easeOut; easeInOut; bounce] ->
  0 <= t <= 1 -> 0 <= easing t <= 1.
Proof.
  cbn [In]. intros [<-|[<-|[<-|[<-|[<-|[]]]]]] Ht.
  - unfold linear. lra.
  - unfold easeIn. nra.
  - unfold easeOut. nra.
  - unfold easeInOut. destruct (t <? 5 / 10) eqn:C; cmp_to_prop; nra.
  - apply bounce_range. exact Ht.
Qed.

(** With exact arithmetic every animation starts on [from] and ends exactly
    on [to]; with every easing function but [elastic] the value stays
    between the two. *)
Lemma animate_frame_exact (from to duration : R) (easing : R -> R)
    (start now : R) :
  0 < duration ->
  In easing [linear; easeIn; easeOut; easeInOut; bounce; elastic] ->
  animate_frame from to duration easing start None
  = (Some start, (0, from), true)
  /\ (duration <= (now - start) / 1000 ->
      animate_frame from to duration easing now (Some start)
      = (Some start, (1, to), false))
  /\ (easing <> elastic -> start <= now ->
      0 <= easing (fst (snd (fst
             (animate_frame from to duration easing now (Some start)))))
      <= 1).
Proof.
  intros Hd He. destruct (easing_ends easing He) as [E0 E1].
  unfold animate_frame. change (default start None) with start.
  change (default now (Some start)) with start. cbn [fst snd].
  split; [|split].
  - replace ((start - start) / 1000 / duration) with 0 by (field; lra).
    rewrite Rmin_left by lra. rewrite E0. cmp_known (0 <? 1).
    repeat f_equal. lra.
  - intros Hlate.
    assert (Hone : 1 <= (now - start) / 1000 / duration).
    { apply (Rmult_le_reg_r duration); [exact Hd|]. field_simplify; lra. }
    rewrite (Rmin_right _ _ Hone). rewrite E1. cmp_known (1 <? 1).
    repeat f_equal. lra.
  - intros Hne Hafter.
    assert (He' : In easing [linear; easeIn; easeOut; easeInOut; bounce]).
    { cbn [In] in *. intuition congruence. }
    set (p := Rmin ((now - start) / 1000 / duration) 1).
    assert (Hp : 0 <= p <= 1).
    { subst p. split; [|apply Rmin_r].
      apply Rmin_glb; [|lra].
      apply Rmult_le_pos; [lra|]. left. apply Rinv_0_lt_compat. exact Hd. }
    exact (easing_range easing p He' Hp).
Qed.

Lemma elastic_half : elastic (1 / 2) = 0.
Proof.
  unfold elastic. rewrite decide_False by lra.
  replace ((1 / 2 - 11 / 10) * 5 * PI) with (- (PI + 2 * INR 1 * PI))
    by (simpl; lra).
  rewrite sin_neg, (sin_period PI 1), sin_PI. lra.
Qed.

Lemma easeOut_not_elastic : easeOut <> elastic.
Proof.
  intros E. assert (H : easeOut (1 / 2) = elastic (1 / 2)) by now rewrite E.
  rewrite elastic_half in H. unfold easeOut in H. lra.
Qed.

Lemma easeIn_not_elastic : easeIn <> elastic.
Proof.
  intros E. assert (H : easeIn (1 / 2) = elastic (1 / 2)) by now rewrite E.
  rewrite elastic_half in H. unfold easeIn in H. lra.
Qed.

(** X27.  The two fades with a positive duration: [fadeIn] starts
    on the value 0 and [fadeOut] on 1, both with progress 0 and asking for
    another frame; in every frame that comes [duration] seconds or more
    after the first, [fadeIn] passes progress 1 and the value 1 to its
    callback, [fadeOut] progress 1 and the value 0, and neither asks for a
    further frame; and in every frame the value they pass lies between 0
    and 1. *)
Theorem animate_frame_ends (duration start now : R) :
  0 < duration ->
  fadeIn duration start None = (Some start, (0, 0), true)
  /\ fadeOut duration start None = (Some start, (0, 1), true)
  /\ (duration <= (now - start) / 1000 ->
      fadeIn duration now (Some start) = (Some start, (1, 1), false)
      /\ fadeOut duration now (Some start) = (Some start, (1, 0), false))
  /\ (start <= now ->
      0 <= snd (snd (fst (fadeIn duration now (Some start)))) <= 1
      /\ 0 <= snd (snd (fst (fadeOut duration now (Some start)))) <= 1).
Proof.
  intros Hd. unfold fadeIn, fadeOut.
  assert (Hin : In easeOut [linear; easeIn; easeOut; easeInOut; bounce; elastic])
    by (cbn [In]; tauto).
  assert (Hout : In easeIn [linear; easeIn; easeOut; easeInOut; bounce; elastic])
    by (cbn [In]; tauto).
  destruct (animate_frame_exact 0 1 duration easeOut start now Hd Hin)
    as (A1 & A2 & A3).
  destruct (animate_frame_exact 1 0 duration easeIn start now Hd Hout)
    as (B1 & B2 & B3).
  split_and!.
  - exact A1.
  - exact B1.
  - intros Hlate. split; [exact (A2 Hlate) | exact (B2 Hlate)].
  - intros Hafter.
    specialize (A3 easeOut_not_elastic Hafter).
    specialize (B3 easeIn_not_elastic Hafter).
    unfold animate_frame in *.
    change (default now (Some start)) with start in *.
    cbn [fst snd] in *. lra.
Qed.

(** The same holds of the code's arithmetic on doubles, in each of 80
    frames 16.7 ms apart, for the durations 0.3, 0.5 and 0.8 s. *)
Lemma animate_frame_ends_on_double_samples : DoubleFade.samples_ok = true.
Proof. vm_compute. reflexivity. Qed.

Lemma animate_frame_ends_witness :
  fadeIn (8 / 10) 1000 None = (Some 1000, (0, 0), true)
  /\ fadeOut (8 / 10) 1000 None = (Some 1000, (0, 1), true)
  /\ fadeIn (8 / 10) 1900 (Some 1000) = (Some 1000, (1, 1), false)
  /\ fadeOut (8 / 10) 1900 (Some 1000) = (Some 1000, (1, 0), false)
  /\ 0 <= snd (snd (fst (fadeIn (8 / 10) 1400 (Some 1000)))) <= 1
  /\ 0 <= snd (snd (fst (fadeOut (8 / 10) 1400 (Some 1000)))) <= 1.
Proof.
  assert (Hd : 0 < 8 / 10) by lra.
  destruct (animate_frame_ends (8 / 10) 1000 1900 Hd) as (A & B & C & _).
  destruct (animate_frame_ends (8 / 10) 1000 1400 Hd) as (_ & _ & _ & D).
  assert (Hlate : 8 / 10 <= (1900 - 1000) / 1000) by lra.
  assert (Hafter : 1000 <= 1400) by lra.
  exact (conj A (conj B (conj (proj1 (C Hlate)) (conj (proj2 (C Hlate))
           (conj (proj1 (D Hafter)) (proj2 (D Hafter))))))).
Defined.

(** ** The screen shake of a collision *)

Lemma scan_shake (now : nat -> R) (ps : list nat) :
  forall (i : nat) (g : GameEngine),
    let g' := scan now i ps g in
    currentState g' = currentState g
    \/ (currentState g' = GAME_OVER /\ screenShake g' = 3 / 10
        /\ screenShakeIntensity g' = 10).
Proof.
  induction ps as [|p ps IH]; intros i g g'; [now left|].
  destruct (player g) as [pl|] eqn:Hpl.
  2:{ unfold g'. rewrite scan_no_player by exact Hpl. now left. }
  unfold g'. rewrite (scan_cons now i p ps g pl Hpl).
  destruct (classify (now i) pl (obj g p)).
  - apply IH.
  - right. repeat split.
  - specialize (IH (S i) (handleDodge p g)). cbv zeta in IH.
    rewrite (keeps_stmt currentState (handleDodge p)) in IH by apply _.
    exact IH.
Qed.

Lemma updateVisualEffects_shake (dt : R) (g : GameEngine) :
  screenShake g = 3 / 10 -> dt <= 33 / 1000 ->
  let g' := updateVisualEffects dt g in
  screenShake g' = 3 / 10 - dt
  /\ screenShakeIntensity g' = screenShakeIntensity g
  /\ currentState g' = currentState g.
Proof.
  intros Hs Hdt.
  destruct g as [? ? ? ? ? ? ? ? ? ? ? ? ? ? ? ? ? ? ? ? shake ? flash ? ?].
  simpl in Hs. subst shake.
  unfold updateVisualEffects, seq_stmt, when, ifelse, assign, skip.
  cbn. cmp_known (3 / 10 >? 0). cbn. cmp_known (3 / 10 - dt <? 0). cbn.
  destruct (flash >? 0); cbn; [destruct (flash - dt <? 0); cbn|];
    repeat split.
Qed.

(** A frame of the game-over screen with no press on the Retry or the
    Main-menu button moves the frame clock and nothing else. *)
Lemma game_over_idle_frame (updateSettings : Input -> Frame -> R -> stmt)
    (inp : Input) (fr : Frame) (g : GameEngine) :
  currentState g = GAME_OVER ->
  (forall x y, pressed_at inp fr = Some (x, y) ->
     isPointInButton x y getRetryButtonBounds = false
     /\ isPointInButton x y getMainMenuButtonBounds = false) ->
  let g' := gameLoop (screens updateSettings inp) fr g in
  currentState g' = GAME_OVER /\ same_session g g'.
Proof.
  intros Hs Hmiss.
  destruct g as [st ? ? ? ? ? ? ? ? ? ? ? ? ? ? ? ? ? ? ? ? ? ? ? ?].
  simpl in Hs. subst st.
  unfold same_session, gameLoop, update, screens, updateGameOver,
    seq_stmt, assign, when, ifelse, skip.
  cbn. destruct (pressed_at inp fr) as [[x y]|]; [|split; reflexivity].
  destruct (Hmiss x y eq_refl) as [-> ->].
  destruct (share inp && isPointInButton x y getShareButtonBounds);
    split; reflexivity.
Qed.

Lemma game_over_idle_frames (updateSettings : Input -> Frame -> R -> stmt)
    (l : list (Input * Frame)) (g : GameEngine) :
  currentState g = GAME_OVER ->
  Forall (fun '(inp, fr) =>
            forall x y, pressed_at inp fr = Some (x, y) ->
              isPointInButton x y getRetryButtonBounds = false
              /\ isPointInButton x y getMainMenuButtonBounds = false) l ->
  currentState (frames updateSettings l g) = GAME_OVER
  /\ same_session g (frames updateSettings l g).
Proof.
  revert g. induction l as [|[inp fr] l IH]; intros g Hs Hq.
  - split; [exact Hs|apply same_session_refl].
  - apply Forall_cons in Hq as [Hq Hl].
    destruct (game_over_idle_frame updateSettings inp fr g Hs Hq)
      as [Hs' H1].
    destruct (IH _ Hs' Hl) as [Hs'' H2].
    split; [exact Hs''|]. exact (same_session_trans _ _ _ H1 H2).
Qed.

Lemma same_session_shake (g g' : GameEngine) :
  same_session g g' ->
  screenShake g' = screenShake g
  /\ screenShakeIntensity g' = screenShakeIntensity g.
Proof. unfold same_session. intros ->. split; reflexivity. Qed.

(** A frame that starts in PLAYING is [updatePlaying] with a time step of
    at most 33 ms, followed by the count of the frame. *)
Lemma gameLoop_playing (updateScreen : GameState -> Frame -> R -> stmt)
    (fr : Frame) (g : GameEngine) :
  currentState g = PLAYING ->
  exists g0,
    currentState g0 = PLAYING
    /\ deltaTime g0 <= 33 / 1000
    /\ gameLoop updateScreen fr g
       = assign set_frameCount (fun g => (frameCount g + 1)%Z)
           (updatePlaying fr (deltaTime g0) g0).
Proof.
  intros Hst.
  exists (assign set_deltaTime (fun g => Rmin (deltaTime g) (33 / 1000))
            (assign set_lastTime (fun _ => currentTime fr)
               (assign set_deltaTime
                  (fun g => (currentTime fr - lastTime g) / 1000) g))).
  split; [exact Hst|]. split; [apply Rmin_r|].
  unfold gameLoop, update. rewrite !seq_stmt_eq.
  change (currentState (assign set_deltaTime ?e1
            (assign set_lastTime ?e2 (assign set_deltaTime ?e3 g))))
    with (currentState g).
  rewrite Hst. reflexivity.
Qed.

(** X25.  The screen shake of a collision does not end on the
    game-over screen.  The frame in which a session ends leaves the shake
    timer at 0.3 s less that frame's time step, which is at least
    0.267 s, with intensity 10; the frames of the game-over screen never
    count it down, so for as long as neither Retry nor Main menu is
    pressed the picture is drawn shaken. *)
Theorem game_over_keeps_shaking
    (updateSettings : Input -> Frame -> R -> stmt)
    (inp : Input) (fr : Frame) (l : list (Input * Frame))
    (g : GameEngine) :
  currentState g = PLAYING ->
  let over := gameLoop (screens updateSettings inp) fr g in
  currentState over = GAME_OVER ->
  Forall (fun '(inp, fr) =>
            forall x y, pressed_at inp fr = Some (x, y) ->
              isPointInButton x y getRetryButtonBounds = false
              /\ isPointInButton x y getMainMenuButtonBounds = false) l ->
  let g' := frames updateSettings l over in
  currentState g' = GAME_OVER
  /\ screenShake g' = 3 / 10 - deltaTime over
  /\ 267 / 1000 <= screenShake g'
  /\ screenShakeIntensity g' = 10
  /\ render_shakes g' = true.
Proof.
  intros Hst over Hover Hl g'.
  assert (Hframe : deltaTime over <= 33 / 1000
                   /\ screenShake over = 3 / 10 - deltaTime over
                   /\ screenShakeIntensity over = 10).
  { destruct (gameLoop_playing (screens updateSettings inp) fr g Hst)
      as (g0 & Hst0 & Hdt & Heq).
    subst over. revert Hover. rewrite Heq.
    rewrite !(keeps_stmt currentState (assign set_frameCount _)),
      !(keeps_stmt deltaTime (assign set_frameCount _)),
      !(keeps_stmt screenShake (assign set_frameCount _)),
      !(keeps_stmt screenShakeIntensity (assign set_frameCount _))
      by apply _.
    unfold updatePlaying. rewrite !seq_stmt_eq.
    rewrite !(keeps_stmt currentState updateDifficulty),
      !(keeps_stmt deltaTime updateDifficulty),
      !(keeps_stmt screenShake updateDifficulty),
      !(keeps_stmt screenShakeIntensity updateDifficulty) by apply _.
    match goal with
    | |- context [checkCollisions ?n ?h0] =>
        set (h := h0); set (c := checkCollisions n h)
    end.
    assert (Hh : currentState h = PLAYING).
    { subst h. rewrite !(keeps_stmt currentState) by apply _. exact Hst0. }
    assert (Hdh : deltaTime h = deltaTime g0).
    { subst h. rewrite !(keeps_stmt deltaTime) by apply _. reflexivity. }
    assert (Hdc : deltaTime c = deltaTime g0).
    { subst c. rewrite (keeps_stmt deltaTime) by apply _. exact Hdh. }
    assert (Hc : currentState c = PLAYING
                 \/ (currentState c = GAME_OVER /\ screenShake c = 3 / 10
                     /\ screenShakeIntensity c = 10)).
    { subst c. unfold checkCollisions. destruct (player h) as [pl|];
        [|now left].
      rewrite <- Hh. apply scan_shake. }
    clearbody c. clear h Hh Hdh.
    set (f := updateFloatingScores (deltaTime g0) c).
    assert (Hf : currentState f = currentState c
                 /\ screenShake f = screenShake c
                 /\ screenShakeIntensity f = screenShakeIntensity c
                 /\ deltaTime f = deltaTime c).
    { subst f. repeat split. }
    clearbody f. destruct Hf as (F1 & F2 & F3 & F4).
    destruct Hc as [Hc|(C1 & C2 & C3)].
    - intros Hover. exfalso.
      assert (Hk : currentState (updateVisualEffects (deltaTime g0) f)
                   = currentState f).
      { apply (keeps_stmt currentState). apply _. }
      rewrite Hk, F1, Hc in Hover. discriminate.
    - intros _. rewrite <- F2 in C2.
      destruct (updateVisualEffects_shake (deltaTime g0) f C2 Hdt)
        as (V1 & V2 & V3).
      assert (Hk : deltaTime (updateVisualEffects (deltaTime g0) f)
                   = deltaTime f).
      { apply (keeps_stmt deltaTime). apply _. }
      rewrite Hk, F4, Hdc, V1, V2, F3, C3. split_and!; [exact Hdt| |];
        reflexivity. }
  destruct Hframe as (Hdt & Hshake & Hint).
  destruct (game_over_idle_frames updateSettings l over Hover Hl)
    as [Hs' Hsame].
  fold g' in Hs', Hsame.
  destruct (same_session_shake _ _ Hsame) as [S1 S2].
  assert (Hpos : 267 / 1000 <= screenShake g') by lra.
  split; [exact Hs'|]. split; [congruence|]. split; [exact Hpos|].
  split; [congruence|].
  unfold render_shakes. rewrite Hs'. cmp_known (screenShake g' >? 0).
  reflexivity.
Qed.

(** *** A frame that ends a session *)

(** A rotor at rest stays as it is in a frame without touch and without
    time. *)
Lemma Player_update_rest (x y : R) :
  Player_update 0 None (Player_new x y) = Player_new x y.
Proof.
  pose proof PI_RGT_0 as Hpi.
  unfold Player_update, Player_new.
  cbn [pl_x pl_y pl_radius pl_angle rotationSpeed maxRotationSpeed
       rotationAcceleration hitFlash gapCount gapSize solidSize gaps].
  replace (0 * (9 / 10)) with 0 by lra. rewrite Rabs_R0.
  cmp_known (0 <? 1 / 10). replace (0 + 0 * 0) with 0 by lra.
  rewrite run_while_sub_gt_skip by lra.
  rewrite run_while_add_skip by lra.
  cmp_known (0 >? 0). reflexivity.
Qed.

Lemma updateVelocity_0 (o : Projectile) : updateVelocity 0 o = o.
Proof.
  destruct o. unfold updateVelocity, set_pr_x, set_pr_y. cbn.
  rewrite !Rmult_0_r, !Rplus_0_r. reflexivity.
Qed.

(** A frame without time and without touch, on a session whose rotor is at
    rest and whose only active projectile is on screen and classified
    solid, ends the session. *)
Lemma frame_with_solid_hit (updateScreen : GameState -> Frame -> R -> stmt)
    (fr : Frame) (g : GameEngine) (rotor : Player) (p : nat)
    (o : Projectile) :
  currentState g = PLAYING ->
  lastTime g = currentTime fr -> touch fr = None ->
  player g = Some rotor -> Player_update 0 None rotor = rotor ->
  pool_inv (projectilePool g) ->
  active (projectilePool g) = [p] -> obj g p = o ->
  pr_active o = true -> off_screen o = false ->
  spawnTimer g < currentSpawnRate g ->
  classify (scan_now fr 0) rotor o = Solid ->
  currentState (gameLoop updateScreen fr g) = GAME_OVER.
Proof.
  intros Hst Hlast Htouch Hpl Hrest Hinv Hact Hobj Hactive Hon Htimer Hsolid.
  unfold gameLoop. rewrite !seq_stmt_eq.
  set (g0 := assign set_deltaTime _ (assign set_lastTime _ _)).
  assert (Hdt : deltaTime g0 = 0).
  { subst g0. unfold assign. cbn [deltaTime set_deltaTime set_lastTime].
    rewrite Hlast.
    replace ((currentTime fr - currentTime fr) / 1000) with 0 by lra.
    apply Rmin_left. lra. }
  assert (G0 : currentState g0 = PLAYING /\ player g0 = Some rotor
               /\ projectilePool g0 = projectilePool g
               /\ spawnTimer g0 = spawnTimer g
               /\ currentSpawnRate g0 = currentSpawnRate g).
  { subst g0. unfold assign.
    cbn [currentState player projectilePool spawnTimer currentSpawnRate
         set_deltaTime set_lastTime].
    split_and!; [exact Hst|exact Hpl|reflexivity|reflexivity|reflexivity]. }
  clearbody g0. destruct G0 as (Hst0 & Hpl0 & Hpool0 & Htimer0 & Hrate0).
  rewrite Hdt. unfold update. rewrite seq_stmt_eq, Hst0.
  rewrite (keeps_stmt currentState (assign set_frameCount _)) by apply _.
  unfold updatePlaying. rewrite !seq_stmt_eq.
  rewrite !(keeps_stmt currentState) by apply _.
  set (g1 := assign set_player _ g0).
  assert (G1 : player g1 = Some rotor /\ projectilePool g1 = projectilePool g
               /\ spawnTimer g1 = spawnTimer g
               /\ currentSpawnRate g1 = currentSpawnRate g).
  { subst g1. unfold assign. cbn [player set_player projectilePool spawnTimer
      currentSpawnRate]. rewrite Hpl0, Htouch.
    cbn [fmap option_fmap option_map]. rewrite Hrest. now split_and!. }
  clearbody g1. destruct G1 as (Hpl1 & Hpool1 & Htimer1 & Hrate1).
  set (g2 := updateProjectiles 0 g1).
  assert (Hobj1 : obj g1 p = o).
  { unfold obj. rewrite Hpool1. exact Hobj. }
  assert (Hinv1 : pool_inv (projectilePool g1)).
  { rewrite Hpool1. exact Hinv. }
  assert (Hact1 : active (projectilePool g1) = [p]).
  { rewrite Hpool1. exact Hact. }
  assert (G2 : player g2 = Some rotor
               /\ active (projectilePool g2) = [p]
               /\ obj g2 p = o
               /\ spawnTimer g2 = spawnTimer g
               /\ currentSpawnRate g2 = currentSpawnRate g).
  { assert (Hg2 : g2 = updateProjectiles_loop 1 0 0 g1).
    { subst g2. unfold updateProjectiles. rewrite Hact1. reflexivity. }
    pose proof (updateProjectiles_loop_in_flight 0 1 0 g1) as H.
    cbv zeta in H. rewrite drop_0, Hact1 in H. cbn [take] in H.
    rewrite <- Hg2 in H.
    destruct H as (H1 & _ & _ & H4).
    - apply NoDup_singleton.
    - intros q Hq. apply list_elem_of_singleton in Hq. subst q.
      apply (pool_inv_exactly_one _ Hinv1). rewrite Hact1.
      apply elem_of_app. right. apply list_elem_of_here.
    - intros q Hq _. apply list_elem_of_singleton in Hq. subst q.
      rewrite updateVelocity_0, Hobj1. exact Hon.
    - split_and!.
      + subst g2. rewrite (keeps_stmt player) by apply _. exact Hpl1.
      + exact H1.
      + rewrite H4, updateVelocity_0.
        destruct (bool_decide _ && _); exact Hobj1.
      + subst g2. rewrite (keeps_stmt spawnTimer) by apply _. exact Htimer1.
      + subst g2. rewrite (keeps_stmt currentSpawnRate) by apply _.
        exact Hrate1. }
  clearbody g2. clear Hinv1 Hact1 Hobj1 Hpl1 Hpool1 Htimer1 Hrate1.
  destruct G2 as (Hpl2 & Hact2 & Hobj2 & Htimer2 & Hrate2).
  set (g3 := updateSpawning _ _ 0 g2).
  assert (G3 : player g3 = Some rotor
               /\ active (projectilePool g3) = [p]
               /\ obj g3 p = o).
  { subst g3. unfold updateSpawning, seq_stmt, when, ifelse, skip.
    set (t := assign set_spawnTimer (fun g => spawnTimer g + 0) g2).
    assert (Ht : spawnTimer t = spawnTimer g + 0
                 /\ currentSpawnRate t = currentSpawnRate g
                 /\ player t = Some rotor
                 /\ projectilePool t = projectilePool g2).
    { subst t. unfold assign.
      cbn [spawnTimer currentSpawnRate player projectilePool set_spawnTimer].
      rewrite Htimer2. now split_and!. }
    clearbody t. destruct Ht as (T1 & T2 & T3 & T4).
    rewrite T1, T2. cmp_known (spawnTimer g + 0 >=? currentSpawnRate g).
    unfold obj. rewrite T4.
    split_and!; [exact T3|exact Hact2|exact Hobj2]. }
  clearbody g3. destruct G3 as (Hpl3 & Hact3 & Hobj3).
  unfold checkCollisions. rewrite Hpl3.
  assert (Hps : projectilesToCheck rotor g3 = [p]).
  { unfold projectilesToCheck. rewrite Hact3.
    rewrite filter_cons, decide_True by (rewrite Hobj3, Hactive; exact I).
    rewrite filter_nil. reflexivity. }
  rewrite Hps, (scan_cons _ 0 p [] g3 rotor Hpl3), Hobj3, Hsolid.
  reflexivity.
Qed.

Lemma session_at_angle_clock (theta : R) :
  lastTime (session_at_angle theta) = 0
  /\ spawnTimer (session_at_angle theta) = 0
  /\ currentSpawnRate (session_at_angle theta) = 15 / 10.
Proof.
  unfold session_at_angle.
  rewrite (keeps_stmt lastTime), (keeps_stmt spawnTimer),
    (keeps_stmt currentSpawnRate) by apply _.
  unfold fresh_session, startGame, resetVisualEffects.
  rewrite !seq_stmt_eq.
  rewrite !(keeps_stmt lastTime) by apply _.
  split; [reflexivity|]. split.
  - rewrite !(keeps_stmt spawnTimer) by apply _. reflexivity.
  - rewrite !(keeps_stmt currentSpawnRate) by apply _. reflexivity.
Qed.

Lemma session_at_angle_pool_inv (theta : R) :
  pool_inv (projectilePool (session_at_angle theta)).
Proof.
  unfold session_at_angle, assign.
  cbn [projectilePool set_projectilePool].
  apply pool_inv_acquire.
  change (projectilePool fresh_session)
    with (ProjectilePool_new (fun _ => 0) 50).
  apply pool_inv_new.
Qed.

(** The session with one projectile 40 pixels from the centre at world angle
    3 PI / 8, where a new rotor is solid, one second after the spawn: the
    frame ends the session. *)
Lemma solid_hit_frame (updateScreen : GameState -> Frame -> R -> stmt) :
  currentState
    (gameLoop updateScreen (mkFrame 0 None (fun _ => 0) 0 (fun _ => 1000))
       (session_at_angle (3 * PI / 8)))
  = GAME_OVER.
Proof.
  pose proof PI_RGT_0 as Hpi.
  destruct (session_at_angle_fields (3 * PI / 8))
    as (Hst & Hpl & Hact & Hobj & _).
  cbv zeta in Hst, Hpl, Hact, Hobj.
  destruct (session_at_angle_clock (3 * PI / 8)) as (Hlast & Htimer & Hrate).
  apply (frame_with_solid_hit updateScreen
           (mkFrame 0 None (fun _ => 0) 0 (fun _ => 1000))
           (session_at_angle (3 * PI / 8))
           (Player_new (GAME_WIDTH / 2) (GAME_HEIGHT / 2)) 49
           (Projectile_reset 0 (400 + 40 * cos (3 * PI / 8))
              (640 + 40 * sin (3 * PI / 8)) 400 640 200)
           Hst Hlast eq_refl Hpl (Player_update_rest _ _)
           (session_at_angle_pool_inv _) Hact Hobj eq_refl).
  - pose proof (COS_bound (3 * PI / 8)) as [C1 C2].
    pose proof (SIN_bound (3 * PI / 8)) as [S1 S2].
    unfold off_screen, Projectile_reset, GAME_WIDTH, GAME_HEIGHT.
    cbn [pr_x pr_y].
    repeat match goal with
    | |- context [?a <? ?b] => cmp_known (a <? b)
    | |- context [?a >? ?b] => cmp_known (a >? b)
    end.
    reflexivity.
  - rewrite Htimer, Hrate. lra.
  - cbn [scan_now]. rewrite classify_at_angle by lra.
    rewrite isSolidAtAngle_new_3pi8. reflexivity.
Qed.

Lemma game_over_keeps_shaking_witness :
  let over :=
    gameLoop (screens (fun _ _ _ => skip) (mkInput false (fun _ => false) false))
      (mkFrame 0 None (fun _ => 0) 0 (fun _ => 1000))
      (session_at_angle (3 * PI / 8)) in
  let idle := (mkInput false (fun _ => false) false,
               mkFrame 33 None (fun _ => 0) 33 (fun _ => 33)) in
  render_shakes (frames (fun _ _ _ => skip) [idle; idle; idle] over) = true.
Proof.
  refine (proj2 (proj2 (proj2 (proj2
    (game_over_keeps_shaking (fun _ _ _ => skip)
       (mkInput false (fun _ => false) false)
       (mkFrame 0 None (fun _ => 0) 0 (fun _ => 1000))
       (replicate 3 (mkInput false (fun _ => false) false,
                     mkFrame 33 None (fun _ => 0) 33 (fun _ => 33)))
       (session_at_angle (3 * PI / 8)) _ _ _))))).
  - exact (proj1 (session_at_angle_fields (3 * PI / 8))).
  - apply solid_hit_frame.
  - repeat (constructor; [intros x y Hxy; discriminate Hxy|]). constructor.
Defined.

